(** * etude: score-to-event conversion engine

    A shallow embedding of the conversion core of the repository and of
    the code around it:

    - [MXL2MIDI.convertToMIDI], [MXL2MIDI.stepToMidi],
      [MXL2MIDI.parseXMLString], [MXL2MIDI.extractMXLFallback],
      [MXL2MIDI.parseZIP], [MXL2MIDI.extractMXL], [MXL2MIDI.parseFile]
      and [MXL2MIDI.convertOSMDToMIDI] (src/mxl2midi.js);
    - [parseMidiFile] with its local readers [readStr], [read16], [read32]
      and [readVar], the playback functions [seek], [skip], [playLoop],
      [prepareNextLearningStep] and [advanceLearningStep], the loader
      [parseXMLFile] with [clearCurrentFile] and the deferred
      [renderOSMD], and [visualizeNote] (the application script);
    - [processCommand] of the firmware (src/arduino/etude.ino).

    JavaScript numbers are modelled by [num]: a finite value is a
    rational, and the three non-finite doubles NaN, +Infinity, -Infinity
    are kept because the code's control flow depends on them (truthiness,
    [Map] keys, comparisons).  Comparisons, [Math.round] and the bit
    operations are exact on doubles, and so they are here.  The two
    conversions round as binary64 does, operation by operation: the
    times and the key of the deduplication of [convertToMIDI] and
    [convertOSMDToMIDI], [stepToMidi], [parseInt] and [parseFloat].  The
    other sums, products and quotients (the clock of a measure, the
    pitch of [pitchToMidi], the times of [parseMidiFile], the playback
    position) are exact; a theorem whose statement would differ in
    binary64 states the range in which the doubles are exact.  The sign
    of zero is not modelled.

    The platform objects the code calls are modelled by what they return:
    [DOMParser] by the document tree it hands over, [TextDecoder] by the
    UTF-8 decoder of the Encoding standard, [Array.prototype.sort] by a
    stable insertion sort.

    The definitions come first, module by module as the source has them;
    the facts follow, and the modules named [...Claims] hold the theorems
    for the properties C1 to C10 of the specification. *)

From Stdlib Require Import ZArith QArith Qround Qabs Qpower Lqa List Bool String
  Ascii Lia.
From Stdlib Require Import Sorted Permutation.
Import ListNotations.

(* ================================================================== *)
(** * JavaScript values used by the converter *)
(* ================================================================== *)

Module JS.

(** A JavaScript number. *)
Inductive num : Type :=
| NaN
| NInf
| PInf
| Fin (q : Q).

Definition ofZ (z : Z) : num := Fin (inject_Z z).

Definition qsign (q : Q) : comparison := (Qnum q ?= 0)%Z.

(** The infinity carrying the sign [c]; [Eq] has no infinity. *)
Definition inf_of (c : comparison) : num :=
  match c with Lt => NInf | Gt => PInf | Eq => NaN end.

Definition sign_mul (a b : comparison) : comparison :=
  match a, b with
  | Eq, _ | _, Eq => Eq
  | Lt, Lt | Gt, Gt => Gt
  | _, _ => Lt
  end.

Definition neg (a : num) : num :=
  match a with
  | NaN => NaN
  | NInf => PInf
  | PInf => NInf
  | Fin q => Fin (Qred (- q))
  end.

(** [a + b] *)
Definition add (a b : num) : num :=
  match a, b with
  | NaN, _ | _, NaN => NaN
  | PInf, NInf | NInf, PInf => NaN
  | PInf, _ | _, PInf => PInf
  | NInf, _ | _, NInf => NInf
  | Fin x, Fin y => Fin (Qred (x + y))
  end.

(** [a - b] *)
Definition sub (a b : num) : num := add a (neg b).

Definition sign_of (a : num) : comparison :=
  match a with
  | NaN => Eq
  | NInf => Lt
  | PInf => Gt
  | Fin q => qsign q
  end.

(** [a * b] *)
Definition mul (a b : num) : num :=
  match a, b with
  | NaN, _ | _, NaN => NaN
  | Fin x, Fin y => Fin (Qred (x * y))
  | _, _ => inf_of (sign_mul (sign_of a) (sign_of b))
  end.

(** [a / b]; a zero divisor counts as +0: the quotient by [-0], of the
    opposite sign, is outside the model. *)
Definition div (a b : num) : num :=
  match a, b with
  | NaN, _ | _, NaN => NaN
  | Fin x, Fin y =>
      match qsign y with
      | Eq => inf_of (qsign x)
      | _ => Fin (Qred (x / y))
      end
  | Fin _, _ => Fin 0
  | _, Fin y =>
      inf_of (sign_mul (sign_of a) (match qsign y with Eq => Gt | c => c end))
  | _, _ => NaN
  end.

(** [a < b] *)
Definition ltb (a b : num) : bool :=
  match a, b with
  | NaN, _ | _, NaN => false
  | NInf, NInf => false
  | NInf, _ => true
  | _, NInf => false
  | PInf, _ => false
  | _, PInf => true
  | Fin x, Fin y => match x ?= y with Lt => true | _ => false end
  end.

(** [a > b] *)
Definition gtb (a b : num) : bool := ltb b a.

(** [a <= b] *)
Definition leb (a b : num) : bool :=
  match a, b with
  | NaN, _ | _, NaN => false
  | NInf, _ => true
  | _, NInf => false
  | _, PInf => true
  | PInf, _ => false
  | Fin x, Fin y => match x ?= y with Gt => false | _ => true end
  end.

(** A sequence of numbers in which each is [<=] the next. *)
Definition nondecreasing (l : list num) : Prop :=
  Sorted (fun a b => leb a b = true) l.

(** [a === b] on numbers. *)
Definition eqb (a b : num) : bool :=
  match a, b with
  | NInf, NInf | PInf, PInf => true
  | Fin x, Fin y => Qeq_bool x y
  | _, _ => false
  end.

(** SameValueZero, the key equality of [Map]: as [===] but NaN equals NaN. *)
Definition sameValueZero (a b : num) : bool :=
  match a, b with
  | NaN, NaN => true
  | _, _ => eqb a b
  end.

(** ToBoolean on a number: false for 0 and NaN. *)
Definition truthy (a : num) : bool :=
  match a with
  | NaN => false
  | Fin q => negb (Qeq_bool q 0)
  | _ => true
  end.

(** [Math.round(a)]: the integer nearest to [a], ties towards +Infinity. *)
Definition round (a : num) : num :=
  match a with
  | Fin q => ofZ (Qfloor (q + (1 # 2)))
  | _ => a
  end.

Definition isNaN (a : num) : bool :=
  match a with NaN => true | _ => false end.

(** ** Sums, products and quotients rounded to binary64

    [Math.round(x * 100) / 100] decides which notes share a key, and the
    double the product rounds to can lie on the other side of a half
    than the exact product.  The conversions therefore compute as the
    engine does: the exact sum, product or quotient of two doubles,
    rounded to the nearest double, ties to the even significand. *)

(** The integer nearest to [q], ties to the even one. *)
Definition roundEven (q : Q) : Z :=
  let f := Qfloor q in
  match (q - inject_Z f ?= 1 # 2)%Q with
  | Lt => f
  | Gt => (f + 1)%Z
  | Eq => if Z.even f then f else (f + 1)%Z
  end.

Definition pow2 (e : Z) : Q := Qpower (2 # 1) e.

(** The exponent [e] of a non-zero [q]: [2^e <= |q| < 2^(e+1)]. *)
Definition ilog2 (q : Q) : Z :=
  let e := (Z.log2 (Z.abs (Qnum q)) - Z.log2 (Zpos (Qden q)))%Z in
  if Qle_bool (pow2 e) (Qabs q) then e else (e - 1)%Z.

(** The double nearest to [q]: 53 significant bits from the exponent of
    [q] down, the spacing [2^-1074] below [2^-1022], an infinity from
    [2^1024 - 2^970] on. *)
Definition binary64 (q : Q) : num :=
  if Qeq_bool q 0 then Fin 0
  else
    let e := Z.max (ilog2 q) (-1022) in
    let ulp := pow2 (e - 52) in
    let r := (inject_Z (roundEven (q / ulp)) * ulp)%Q in
    if Qle_bool (pow2 1024) (Qabs r)
    then (if Qle_bool 0 q then PInf else NInf)
    else Fin (Qred r).

(** [a + b], [a * b] and [a / b] on doubles. *)
Definition add64 (a b : num) : num :=
  match add a b with
  | Fin q => binary64 q
  | c => c
  end.

Definition mul64 (a b : num) : num :=
  match mul a b with
  | Fin q => binary64 q
  | c => c
  end.

Definition div64 (a b : num) : num :=
  match div a b with
  | Fin q => binary64 q
  | c => c
  end.

(** ** [Array.prototype.sort] with a comparator

    The sort is stable.  [cmp a b] is the comparator's number: [a] goes
    after [b] exactly when it is positive (a NaN result counts as 0).
    When no time is NaN the comparator [a.time - b.time], read that
    way, is a total preorder (its only NaN is the difference of two
    equal infinities, a tie), and a stable sort has one result, which
    [sort] computes.  With a NaN time it is not, the standard leaves the
    order to the engine, and [sort] is one of the orders an engine may
    produce: only what holds of every permutation may be read from
    it. *)
Section Sort.
Variable A : Type.
Variable cmp : A -> A -> num.

Fixpoint insert (x : A) (l : list A) : list A :=
  match l with
  | [] => [x]
  | y :: r => if gtb (cmp x y) (Fin 0) then y :: insert x r else x :: l
  end.

Fixpoint sort (l : list A) : list A :=
  match l with
  | [] => []
  | x :: r => insert x (sort r)
  end.
End Sort.
Arguments insert {A} cmp x l.
Arguments sort {A} cmp l.

(** ** [Map] with number keys, in insertion order *)
Section NumMap.
Variable V : Type.

Definition map := list (num * V).

Fixpoint map_get (m : map) (k : num) : option V :=
  match m with
  | [] => None
  | (k', v) :: r => if sameValueZero k' k then Some v else map_get r k
  end.

Definition map_has (m : map) (k : num) : bool :=
  match map_get m k with Some _ => true | None => false end.

(** [set] on a present key replaces the value in place; a new key is
    appended. *)
Fixpoint map_set (m : map) (k : num) (v : V) : map :=
  match m with
  | [] => [(k, v)]
  | (k', v') :: r =>
      if sameValueZero k' k then (k', v) :: r else (k', v') :: map_set r k v
  end.

Definition map_values (m : map) : list V := List.map snd m.
End NumMap.
Arguments map_get {V} m k.
Arguments map_has {V} m k.
Arguments map_set {V} m k v.
Arguments map_values {V} m.

End JS.

(* ================================================================== *)
(** * [MXL2MIDI.stepToMidi] and [MXL2MIDI.convertToMIDI] *)
(* ================================================================== *)

Module Convert.
Import JS.

(** An entry of [measure.notes]: the two object literals built by
    [parseXMLString], told apart by [isRest]. *)
Inductive NoteEntry : Type :=
| NoteData (step : string) (octave alter duration time midiNote : num)
           (isChord : bool) (part : nat)
| RestData (duration time : num) (part : nat).

Definition isRest (n : NoteEntry) : bool :=
  match n with NoteData _ _ _ _ _ _ _ _ => false | RestData _ _ _ => true end.

Definition note_duration (n : NoteEntry) : num :=
  match n with NoteData _ _ _ d _ _ _ _ => d | RestData d _ _ => d end.

Definition note_time (n : NoteEntry) : num :=
  match n with NoteData _ _ _ _ t _ _ _ => t | RestData _ t _ => t end.

(** [note.midiNote]; [None] is [undefined] (a rest has no such field). *)
Definition note_midiNote (n : NoteEntry) : option num :=
  match n with NoteData _ _ _ _ _ m _ _ => Some m | RestData _ _ _ => None end.

Definition note_isChord (n : NoteEntry) : bool :=
  match n with NoteData _ _ _ _ _ _ c _ => c | RestData _ _ _ => false end.

Record Measure : Type := mkMeasure {
  number : string;
  notes : list NoteEntry;
  width : num
}.

Record ScoreData : Type := mkScoreData {
  measures : list Measure;
  divisions : num;
  fifths : num;
  beats : num;
  beatType : num;
  tempo : num
}.

(** The table [steps] of [stepToMidi]; a key outside the table reads
    [undefined], which the additions turn into NaN.  A step that names a
    property every object inherits ([constructor], [toString], ...)
    reads that property, and the sum is then a string: such steps are
    outside the model. *)
Definition steps (step : string) : num :=
  if String.eqb step "C" then ofZ 0
  else if String.eqb step "D" then ofZ 2
  else if String.eqb step "E" then ofZ 4
  else if String.eqb step "F" then ofZ 5
  else if String.eqb step "G" then ofZ 7
  else if String.eqb step "A" then ofZ 9
  else if String.eqb step "B" then ofZ 11
  else NaN.

(** [(octave + 1) * 12 + steps[step] + alter], each operation rounded
    to binary64. *)
Definition stepToMidi (step : string) (octave alter : num) : num :=
  add64 (add64 (mul64 (add64 octave (ofZ 1)) (ofZ 12)) (steps step)) alter.

(** An element of [allNotes]. *)
Record TimedNote : Type := mkTimedNote {
  midiNote : num;
  startTime : num;
  endTime : num;
  duration : num
}.

Record MidiEvent : Type := mkMidiEvent {
  time : num;
  data : list num
}.

Record NotePair : Type := mkNotePair {
  note : num;
  start : num;
  end_ : num
}.

Record MidiResult : Type := mkMidiResult {
  midiEvents : list MidiEvent;
  notePairs : list NotePair;
  totalDuration : num
}.

(** The times of the conversion are computed in binary64, operation by
    operation. *)
Definition tempoMs (sd : ScoreData) : num := div64 (tempo sd) (ofZ 1000).

Definition msPerDivision (sd : ScoreData) : num :=
  div64 (tempoMs sd) (divisions sd).

Definition divisionsPerMeasure (sd : ScoreData) : num :=
  div64 (mul64 (mul64 (beats sd) (divisions sd)) (ofZ 4)) (beatType sd).

Definition msPerMeasure (sd : ScoreData) : num :=
  mul64 (divisionsPerMeasure sd) (msPerDivision sd).

(** The body of [measure.notes.forEach]: a rest, or a note whose
    [midiNote] is falsy, is left out. *)
Definition timedNote (sd : ScoreData) (measureStartTime : num)
    (n : NoteEntry) : list TimedNote :=
  match n with
  | RestData _ _ _ => []
  | NoteData _ _ _ d t m _ _ =>
      if truthy m then
        let startTime :=
          add64 measureStartTime (mul64 t (msPerDivision sd)) in
        let duration := mul64 d (msPerDivision sd) in
        let endTime := add64 startTime duration in
        [mkTimedNote m startTime endTime d]
      else []
  end.

(** [scoreData.measures.forEach((measure, measureIdx) => ...)], from
    index [measureIdx] on. *)
Fixpoint measureNotes (sd : ScoreData) (measureIdx : Z) (ms : list Measure)
    : list TimedNote :=
  match ms with
  | [] => []
  | m :: r =>
      let measureStartTime := mul64 (ofZ measureIdx) (msPerMeasure sd) in
      flat_map (timedNote sd measureStartTime) (notes m)
        ++ measureNotes sd (measureIdx + 1) r
  end.

Definition allNotes (sd : ScoreData) : list TimedNote :=
  measureNotes sd 0 (measures sd).

(** [Math.round(note.startTime * 100) / 100], the product and the
    quotient rounded to binary64. *)
Definition timeKey (n : TimedNote) : num :=
  div64 (round (mul64 (startTime n) (ofZ 100))) (ofZ 100).

(** The key in the specification's words, [round(startMs, 2)]: the start
    time rounded to two decimal places, counted in hundredths; a tie
    goes up, as in [Math.round]. *)
Definition hundredths (t : Q) : Z := Qfloor (t * 100 + (1 # 2))%Q.

(** Start times on which the two keys agree: at most [2^40] ms in size,
    and a hundredfold whose fractional part is outside 0.49 .. 0.51, so
    that the rounding of the product does not cross a half. *)
Definition clearOfTies (t : Q) : bool :=
  Qle_bool (Qabs t) (inject_Z (2 ^ 40))
  && (let f := (t * 100 - inject_Z (Qfloor (t * 100)))%Q in
      Qle_bool f (49 # 100) || Qle_bool (51 # 100) f).

Definition NotesByTime : Type := map (map TimedNote).

(** The body of [allNotes.forEach] that fills [notesByTime].  The inner
    map is shared with the outer one, so its update is an update of the
    outer entry. *)
Definition addNote (notesByTime : NotesByTime) (n : TimedNote)
    : NotesByTime :=
  let notesByTime1 :=
    if map_has notesByTime (timeKey n) then notesByTime
    else map_set notesByTime (timeKey n) [] in
  let notesAtTime :=
    match map_get notesByTime1 (timeKey n) with
    | Some m => m
    | None => []
    end in
  let midiKey := midiNote n in
  let notesAtTime' :=
    match map_get notesAtTime midiKey with
    | None => map_set notesAtTime midiKey n
    | Some existing =>
        if gtb (duration n) (duration existing)
        then map_set notesAtTime midiKey n
        else notesAtTime
    end in
  map_set notesByTime1 (timeKey n) notesAtTime'.

Definition groupNotes (l : list TimedNote) : NotesByTime :=
  fold_left addNote l [].

(** The notes visited by the nested [forEach] over [notesByTime]. *)
Definition survivors (notesByTime : NotesByTime) : list TimedNote :=
  flat_map (fun e => map_values (snd e)) notesByTime.

(** The notes that survive the deduplication of [l], in the order in
    which the event generation visits them. *)
Definition dedup (l : list TimedNote) : list TimedNote :=
  survivors (groupNotes l).

(** ** The deduplication policy, group by group

    Two notes are in one group when their rounded start times and their
    pitches are the same map keys. *)
Definition sameGroup (a b : TimedNote) : bool :=
  sameValueZero (timeKey a) (timeKey b)
  && sameValueZero (midiNote a) (midiNote b).

(** A strictly greater duration replaces the note kept so far. *)
Definition longer (kept n : TimedNote) : TimedNote :=
  if gtb (duration n) (duration kept) then n else kept.

(** The note kept of a group listed in input order. *)
Definition keptOf (group : list TimedNote) : option TimedNote :=
  match group with
  | [] => None
  | first :: rest => Some (fold_left longer rest first)
  end.

(** ** [addNote] by recursion on the two maps *)

Fixpoint addInner (notesAtTime : map TimedNote) (n : TimedNote)
    : map TimedNote :=
  match notesAtTime with
  | [] => [(midiNote n, n)]
  | (p, existing) :: r =>
      if sameValueZero p (midiNote n) then (p, longer existing n) :: r
      else (p, existing) :: addInner r n
  end.

Fixpoint addOuter (notesByTime : NotesByTime) (n : TimedNote)
    : NotesByTime :=
  match notesByTime with
  | [] => [(timeKey n, [(midiNote n, n)])]
  | (t, inner) :: r =>
      if sameValueZero t (timeKey n) then (t, addInner inner n) :: r
      else (t, inner) :: addOuter r n
  end.

(** No key of [m] is the key [k]. *)
Definition fresh {V : Type} (m : map V) (k : num) : Prop :=
  map_get m k = None.

Fixpoint distinctKeys {V : Type} (m : map V) : Prop :=
  match m with
  | [] => True
  | (k, _) :: r => fresh r k /\ distinctKeys r
  end.

(** Every note stored under time key [t] has that time key, and is
    stored under its own pitch. *)
Definition agrees (t : num) (inner : map TimedNote) : Prop :=
  Forall
    (fun e =>
       sameValueZero t (timeKey (snd e)) = true
       /\ sameValueZero (fst e) (midiNote (snd e)) = true)
    inner.

Definition wellKeyed (e : num * map TimedNote) : Prop :=
  snd e <> [] /\ distinctKeys (snd e) /\ agrees (fst e) (snd e).

(** The shape of every map [groupNotes] builds. *)
Definition wellFormed (m : NotesByTime) : Prop :=
  distinctKeys m /\ Forall wellKeyed m.

(** The entry that inserting the notes of [e] in order builds. *)
Definition rekeyInner (inner : map TimedNote) : map TimedNote :=
  List.map (fun e => (midiNote (snd e), snd e)) inner.

Definition rekeyEntry (e : num * map TimedNote) : num * map TimedNote :=
  match snd e with
  | [] => e
  | (_, first) :: _ => (timeKey first, rekeyInner (snd e))
  end.

(** How adding [n] changes the list of kept notes: [n] opens a group of
    its own, or meets the one kept note of its group. *)
Inductive Inserted (n : TimedNote)
    : list TimedNote -> list TimedNote -> Prop :=
| inserted_new (s1 s2 : list TimedNote) :
    (forall m, In m (s1 ++ s2) -> sameGroup m n = false) ->
    Inserted n (s1 ++ s2) (s1 ++ n :: s2)
| inserted_same (s1 : list TimedNote) (ex : TimedNote) (s2 : list TimedNote) :
    sameGroup ex n = true ->
    (forall m, In m (s1 ++ s2) -> sameGroup m n = false) ->
    Inserted n (s1 ++ ex :: s2) (s1 ++ longer ex n :: s2).

(** The kept notes [kept] of the input [l]: each is the pick of its
    group, each group has one, and every input note has its group. *)
Definition Picks (l kept : list TimedNote) : Prop :=
  (forall m, In m kept -> keptOf (filter (sameGroup m) l) = Some m)
  /\ (forall m, In m kept -> filter (sameGroup m) kept = [m])
  /\ (forall x, In x l -> exists m, In m kept /\ sameGroup m x = true).

Definition noteEvents (n : TimedNote) : list MidiEvent :=
  [ mkMidiEvent (startTime n) [ofZ 144; midiNote n; ofZ 100];
    mkMidiEvent (endTime n) [ofZ 128; midiNote n; ofZ 0] ].

Definition notePair (n : TimedNote) : NotePair :=
  mkNotePair (midiNote n) (startTime n) (endTime n).

Definition byTime (a b : MidiEvent) : num := sub (time a) (time b).

Definition lastTime (evs : list MidiEvent) : num :=
  match rev evs with
  | [] => ofZ 0
  | e :: _ => time e
  end.

(** Lines 538-605: deduplication, event generation, sort, total. *)
Definition mergeNotes (l : list TimedNote) : MidiResult :=
  let kept := dedup l in
  let midiEvents := sort byTime (flat_map noteEvents kept) in
  mkMidiResult midiEvents (List.map notePair kept) (lastTime midiEvents).

(** [convertToMIDI(scoreData)]; [None] is a falsy [scoreData] (or one
    without [measures]). *)
Definition convertToMIDI (scoreData : option ScoreData) : MidiResult :=
  match scoreData with
  | None => mkMidiResult [] [] (ofZ 0)
  | Some sd => mergeNotes (allNotes sd)
  end.

(** The score of end-to-end example A. *)
Definition exampleA : ScoreData :=
  mkScoreData
    [ mkMeasure "1"
        [ NoteData "C" (ofZ 4) (ofZ 0) (ofZ 1) (ofZ 0)
            (stepToMidi "C" (ofZ 4) (ofZ 0)) false 0;
          RestData (ofZ 1) (ofZ 1) 0;
          NoteData "E" (ofZ 4) (ofZ 0) (ofZ 1) (ofZ 2)
            (stepToMidi "E" (ofZ 4) (ofZ 0)) false 0 ]
        (ofZ 200) ]
    (ofZ 1) (ofZ 0) (ofZ 4) (ofZ 4) (ofZ 500000).

(** A pitched entry whose [midiNote] is [=== 0]. *)
Definition isPitchZero (n : NoteEntry) : bool :=
  match n with
  | NoteData _ _ _ _ _ m _ _ => eqb m (ofZ 0)
  | RestData _ _ _ => false
  end.

(** The score without its entries of pitch 0. *)
Definition withoutPitchZero (sd : ScoreData) : ScoreData :=
  mkScoreData
    (List.map
       (fun m =>
          mkMeasure (number m)
            (filter (fun n => negb (isPitchZero n)) (notes m)) (width m))
       (measures sd))
    (divisions sd) (fifths sd) (beats sd) (beatType sd) (tempo sd).

(** Two notes of one start time and pitch, of durations 1 and 2. *)
Definition shortNote : TimedNote :=
  mkTimedNote (ofZ 60) (ofZ 0) (ofZ 500) (ofZ 1).
Definition longNote : TimedNote :=
  mkTimedNote (ofZ 60) (ofZ 0) (ofZ 1000) (ofZ 2).

(** Two notes of pitch 60.  The first starts at the double next below
    1000.005, the second at 1000: both start times are 1000.00 when
    rounded to two decimal places, and the product of the first with 100
    rounds to the double 100000.5. *)
Definition nearTie : TimedNote :=
  mkTimedNote (ofZ 60) (Fin (8796137002673111 # 8796093022208)) (ofZ 1500)
    (ofZ 1).
Definition onHundredth : TimedNote :=
  mkTimedNote (ofZ 60) (ofZ 1000) (ofZ 2000) (ofZ 2).

(** Two notes of pitch 60 that start at 1000 and at 1000 + 1/512. *)
Definition early : TimedNote :=
  mkTimedNote (ofZ 60) (ofZ 1000) (ofZ 1500) (ofZ 1).
Definition late : TimedNote :=
  mkTimedNote (ofZ 60) (Fin (512001 # 512)) (ofZ 2000) (ofZ 2).

(** A score of 96 divisions in 4/4 at 500 ms a quarter: a C4 at division
    387 of the first measure and a C4 at division 3 of the second.  In
    exact arithmetic both start at 2015.625 ms. *)
Definition ninetySix : ScoreData :=
  mkScoreData
    [ mkMeasure "1"
        [ NoteData "C" (ofZ 4) (ofZ 0) (ofZ 1) (ofZ 387)
            (stepToMidi "C" (ofZ 4) (ofZ 0)) false 0 ]
        (ofZ 200);
      mkMeasure "2"
        [ NoteData "C" (ofZ 4) (ofZ 0) (ofZ 2) (ofZ 3)
            (stepToMidi "C" (ofZ 4) (ofZ 0)) false 0 ]
        (ofZ 200) ]
    (ofZ 96) (ofZ 0) (ofZ 4) (ofZ 4) (ofZ 500000).


(** A score whose only measure holds C-1 (pitch 0) and C4. *)
Definition lowC : ScoreData :=
  mkScoreData
    [ mkMeasure "1"
        [ NoteData "C" (ofZ (-1)) (ofZ 0) (ofZ 1) (ofZ 0)
            (stepToMidi "C" (ofZ (-1)) (ofZ 0)) false 0;
          NoteData "C" (ofZ 4) (ofZ 0) (ofZ 1) (ofZ 1)
            (stepToMidi "C" (ofZ 4) (ofZ 0)) false 0 ]
        (ofZ 200) ]
    (ofZ 1) (ofZ 0) (ofZ 4) (ofZ 4) (ofZ 500000).

End Convert.


(* ================================================================== *)
(** * Bytes, 32-bit integer operators and completions *)
(* ================================================================== *)

Module Bytes.

Definition u8 (b : Byte.byte) : Z := Z.of_N (Byte.to_N b).

(** The byte with value [z mod 256]. *)
Definition b8 (z : Z) : Byte.byte :=
  match Byte.of_N (Z.to_N (z mod 256)) with
  | Some b => b
  | None => Byte.x00
  end.

(** The bytes of an ASCII literal. *)
Definition lit (s : string) : list Byte.byte := list_byte_of_string s.

(** [data[pos]]; [None] is [undefined]. *)
Definition get (data : list Byte.byte) (pos : Z) : option Z :=
  if (pos <? 0)%Z then None
  else option_map u8 (nth_error data (Z.to_nat pos)).

(** [slice(start, end)] of a typed array: negative indices count from the
    end, and both are clamped to the array. *)
Definition rel_index (len i : Z) : Z :=
  if (i <? 0)%Z then Z.max (len + i) 0 else Z.min i len.

Definition slice (data : list Byte.byte) (start stop : Z) : list Byte.byte :=
  let len := Z.of_nat (List.length data) in
  let k := rel_index len start in
  let final := rel_index len stop in
  firstn (Z.to_nat (final - k)) (skipn (Z.to_nat k) data).

(** ToInt32 of an integer. *)
Definition toInt32 (z : Z) : Z :=
  ((z + 2147483648) mod 4294967296 - 2147483648)%Z.

(** The operand of a bitwise operator: [undefined] and [null] are 0. *)
Definition int_of (v : option Z) : Z :=
  match v with Some z => toInt32 z | None => 0%Z end.

(** [a << k] *)
Definition shl (a : Z) (k : Z) : Z := toInt32 (Z.shiftl (toInt32 a) k).
(** [a | b] *)
Definition bor (a b : Z) : Z := Z.lor (toInt32 a) (toInt32 b).
(** [a & b] *)
Definition band (a b : Z) : Z := Z.land (toInt32 a) (toInt32 b).

End Bytes.

(** How a call ends: it returns a value or throws. *)
Inductive Completion (A : Type) : Type :=
| Normal (a : A)
| Thrown (error : string).
Arguments Normal {A} a.
Arguments Thrown {A} error.

(** The call ends by throwing. *)
Definition Throws {A : Type} (c : Completion A) : Prop :=
  exists e, c = Thrown e.

(* ================================================================== *)
(** * [parseMidiFile] *)
(* ================================================================== *)

Module Smf.
Import JS Bytes.
Local Open Scope Z_scope.

(** [{ tick, data: [s, data[pos++], data[pos++]] }]; a data byte read
    past the end of the file is [undefined]. *)
Record RawEvent : Type := mkRawEvent {
  raw_tick : Z;
  raw_status : Z;
  raw_data1 : option Z;
  raw_data2 : option Z
}.

(** An event once [ev.time] is set. *)
Record Event : Type := mkEvent {
  tick : Z;
  status : Z;
  data1 : option Z;
  data2 : option Z;
  time : num
}.

(** A tempo-map entry as pushed: [{ tick, tempo }]. *)
Record RawTempo : Type := mkRawTempo {
  rt_tick : Z;
  rt_tempo : Z
}.

(** A tempo-map entry once [tm.ms] is set. *)
Record TempoEntry : Type := mkTempoEntry {
  tm_tick : Z;
  tm_ms : num;
  tm_tempo : Z
}.

Record NotePair : Type := mkNotePair {
  note : option Z;
  start : num;
  end_ : num
}.

(** The reader's variables: the cursor and the two lists it fills. *)
Record Reader : Type := mkReader {
  pos : Z;
  events : list RawEvent;
  tempoMap : list RawTempo
}.

(** What a run leaves behind: the globals [midiEvents], [notePairs],
    [totalDuration], and the messages passed to [log], oldest first. *)
Record Outcome : Type := mkOutcome {
  midiEvents : list Event;
  notePairs : list NotePair;
  totalDuration : num;
  logged : list string
}.

(** [readStr(len)]: the string and the new cursor. *)
Definition readStr (data : list Byte.byte) (pos len : Z)
    : list Byte.byte * Z :=
  (slice data pos (pos + len), pos + len).

Definition read16 (data : list Byte.byte) (pos : Z) : Z * Z :=
  (bor (shl (int_of (get data pos)) 8) (int_of (get data (pos + 1))), pos + 2).

Definition read32 (data : list Byte.byte) (pos : Z) : Z * Z :=
  (bor (bor (bor (shl (int_of (get data pos)) 24)
                 (shl (int_of (get data (pos + 1))) 16))
            (shl (int_of (get data (pos + 2))) 8))
       (int_of (get data (pos + 3))),
   pos + 4).

(** The loop of [readVar] over the bytes from the cursor on: [rest] is
    [data] from index [pos].  The read past the last byte is [undefined],
    whose high bit is clear, so the loop ends there at the latest. *)
Fixpoint readVar_from (rest : list Byte.byte) (v pos : Z) : Z * Z :=
  match rest with
  | [] => (bor (shl v 7) 0, pos + 1)
  | b :: r =>
      let v' := bor (shl v 7) (band (u8 b) 127) in
      if band (u8 b) 128 =? 0 then (v', pos + 1)
      else readVar_from r v' (pos + 1)
  end.

(** [readVar()]: the value and the new cursor. *)
Definition readVar (data : list Byte.byte) (pos : Z) : Z * Z :=
  if pos <? 0 then (0, pos + 1)
  else readVar_from (skipn (Z.to_nat pos) data) 0 pos.

(** [s & 0xf0] where [s] may be [null]. *)
Definition statusType (s : option Z) : Z := band (int_of s) 240.

(** One turn of [while (pos < end)]: the new tick, running status and
    reader. *)
Definition trackEvent (data : list Byte.byte) (curTick : Z) (rs : option Z)
    (rd : Reader) : Z * option Z * Reader :=
  let '(delta, p1) := readVar data (pos rd) in
  let curTick := curTick + delta in
  let s0 := get data p1 in
  let p2 := p1 + 1 in
  let '(s, p3, rs') :=
    if band (int_of s0) 128 =? 0 then (rs, p2 - 1, rs) else (s0, p2, s0) in
  let type := statusType s in
  if (type =? 128) || (type =? 144) then
    let ev := mkRawEvent curTick (int_of s) (get data p3) (get data (p3 + 1)) in
    (curTick, rs', mkReader (p3 + 2) (events rd ++ [ev]) (tempoMap rd))
  else
    match s with
    | Some 255 =>
        let m := get data p3 in
        let '(ml, p4) := readVar data (p3 + 1) in
        let tm :=
          match m with
          | Some 81 =>
              [mkRawTempo curTick
                 (bor (bor (shl (int_of (get data p4)) 16)
                           (shl (int_of (get data (p4 + 1))) 8))
                      (int_of (get data (p4 + 2))))]
          | _ => []
          end in
        (curTick, rs', mkReader (p4 + ml) (events rd) (tempoMap rd ++ tm))
    | _ =>
        if (type =? 176) || (type =? 224) then
          (curTick, rs', mkReader (p3 + 2) (events rd) (tempoMap rd))
        else if (type =? 192) || (type =? 208) then
          (curTick, rs', mkReader (p3 + 1) (events rd) (tempoMap rd))
        else (curTick, rs', mkReader p3 (events rd) (tempoMap rd))
    end.

(** [while (pos < end) { ... }]; [None] when [fuel] turns do not reach
    the end of the track. *)
Fixpoint trackLoop (fuel : nat) (data : list Byte.byte) (stop : Z)
    (curTick : Z) (rs : option Z) (rd : Reader) : option Reader :=
  if pos rd <? stop then
    match fuel with
    | O => None
    | S fuel' =>
        let '(curTick', rs', rd') := trackEvent data curTick rs rd in
        trackLoop fuel' data stop curTick' rs' rd'
    end
  else Some rd.

Definition MTrk : list Byte.byte := lit "MTrk".
Definition MThd : list Byte.byte := lit "MThd".

Definition bytes_eqb (a b : list Byte.byte) : bool :=
  if list_eq_dec Byte.byte_eq_dec a b then true else false.

(** [for (let i = 0; i < tracks; i++)] with [n] tracks still to read. *)
Fixpoint tracksLoop (fuel : nat) (data : list Byte.byte) (n : nat)
    (rd : Reader) : option Reader :=
  match n with
  | O => Some rd
  | S n' =>
      let '(sig, p1) := readStr data (pos rd) 4 in
      if negb (bytes_eqb sig MTrk) then
        Some (mkReader p1 (events rd) (tempoMap rd))
      else
        let '(len, p2) := read32 data p1 in
        let stop := p2 + len in
        match trackLoop fuel data stop 0 None
                (mkReader p2 (events rd) (tempoMap rd)) with
        | None => None
        | Some rd' => tracksLoop fuel data n' rd'
        end
  end.

Definition byRawTick (a b : RawEvent) : num := ofZ (raw_tick a - raw_tick b).
Definition byTempoTick (a b : RawTempo) : num := ofZ (rt_tick a - rt_tick b).

(** [((tick - tick0) / div) * (tempo / 1000)] *)
Definition elapsed (tick tick0 div tempo : Z) : num :=
  mul (JS.div (ofZ (tick - tick0)) (ofZ div)) (JS.div (ofZ tempo) (ofZ 1000)).

(** [tempoMap.forEach(tm => { curMs += ...; tm.ms = curMs; lastT = tm })] *)
Fixpoint stampTempo (div : Z) (lastT : RawTempo) (curMs : num)
    (tm : list RawTempo) : list TempoEntry :=
  match tm with
  | [] => []
  | t :: r =>
      let curMs' :=
        add curMs (elapsed (rt_tick t) (rt_tick lastT) div (rt_tempo lastT)) in
      mkTempoEntry (rt_tick t) curMs' (rt_tempo t) :: stampTempo div t curMs' r
  end.

(** [for (let t of tempoMap) { if (t.tick <= ev.tick) activeTempo = t;
    else break; }] *)
Fixpoint activeTempo (evTick : Z) (cur : TempoEntry) (tm : list TempoEntry)
    : TempoEntry :=
  match tm with
  | [] => cur
  | t :: r => if tm_tick t <=? evTick then activeTempo evTick t r else cur
  end.

Definition stampEvent (div : Z) (tm : list TempoEntry) (ev : RawEvent)
    : list Event :=
  match tm with
  | [] => []
  | t0 :: _ =>
      let a := activeTempo (raw_tick ev) t0 tm in
      [mkEvent (raw_tick ev) (raw_status ev) (raw_data1 ev) (raw_data2 ev)
         (add (tm_ms a) (elapsed (raw_tick ev) (tm_tick a) div (tm_tempo a)))]
  end.

Definition lastTime (evs : list Event) : num :=
  match rev evs with
  | [] => ofZ 0
  | e :: _ => time e
  end.

(** [tempNotes], the object keyed by note number. *)
Definition TempNotes : Type := list (option Z * num).

Definition key_eqb (a b : option Z) : bool :=
  match a, b with
  | Some x, Some y => x =? y
  | None, None => true
  | _, _ => false
  end.

Fixpoint temp_get (t : TempNotes) (k : option Z) : option num :=
  match t with
  | [] => None
  | (k', v) :: r => if key_eqb k' k then Some v else temp_get r k
  end.

Definition temp_delete (t : TempNotes) (k : option Z) : TempNotes :=
  filter (fun e => negb (key_eqb (fst e) k)) t.

Definition temp_set (t : TempNotes) (k : option Z) (v : num) : TempNotes :=
  (k, v) :: temp_delete t k.

(** The loop that pairs each note-on with the next note-off of its pitch. *)
Fixpoint pairNotes (tempNotes : TempNotes) (evs : list Event)
    : list NotePair :=
  match evs with
  | [] => []
  | ev :: r =>
      let type := band (status ev) 240 in
      let velPos := match data2 ev with Some v => 0 <? v | None => false end in
      let velZero := match data2 ev with Some v => v =? 0 | None => false end in
      if (type =? 144) && velPos then
        pairNotes (temp_set tempNotes (data1 ev) (time ev)) r
      else if (type =? 128) || ((type =? 144) && velZero) then
        match temp_get tempNotes (data1 ev) with
        | Some t0 =>
            mkNotePair (data1 ev) t0 (time ev)
              :: pairNotes (temp_delete tempNotes (data1 ev)) r
        | None => pairNotes tempNotes r
        end
      else pairNotes tempNotes r
  end.

(** The first message is the one [clearCurrentFile] logs. *)
Definition cleared : Outcome :=
  mkOutcome [] [] (ofZ 0) ["Previous file cleared."%string].

(** [parseMidiFile] on the bytes of the chosen file.  [None] when a track
    loop does not end within [fuel] turns. *)
Definition parseMidiFile (fuel : nat) (data : list Byte.byte)
    : option (Completion Outcome) :=
  let tempoMap0 := [mkRawTempo 0 500000] in
  let '(magic, p1) := readStr data 0 4 in
  if negb (bytes_eqb magic MThd) then Some (Normal cleared)
  else
    let p2 := p1 + 4 in
    let '(_, p3) := read16 data p2 in
    let '(tracks, p4) := read16 data p3 in
    let '(div, p5) := read16 data p4 in
    match tracksLoop fuel data (Z.to_nat tracks) (mkReader p5 [] tempoMap0) with
    | None => None
    | Some rd =>
        let tempoMap := sort byTempoTick (tempoMap rd) in
        let midiEvents := sort byRawTick (events rd) in
        let tempoMap' :=
          match tempoMap with
          | [] => []
          | t0 :: _ => stampTempo div t0 (ofZ 0) tempoMap
          end in
        let midiEvents' := flat_map (stampEvent div tempoMap') midiEvents in
        Some (Normal
          (mkOutcome midiEvents' (pairNotes [] midiEvents')
             (lastTime midiEvents')
             (logged cleared ++ ["File Ready."%string])))
    end.

(** A run signals a failure when it throws, or logs something besides
    the two status lines of every run. *)
Definition statusLine (s : string) : bool :=
  String.eqb s "Previous file cleared." || String.eqb s "File Ready.".

Definition signalsFailure (c : Completion Outcome) : bool :=
  match c with
  | Thrown _ => true
  | Normal o => negb (forallb statusLine (logged o))
  end.

(** Modelled from the spec: the encoder of a MIDI variable-length
    quantity, which the repository does not have: 7 bits per byte, most
    significant group first, the high bit set on every byte but the last.
    [vlq_groups k n] are the [k] continuation bytes above the low group. *)
Fixpoint vlq_groups (k : nat) (n : Z) : list Byte.byte :=
  match k with
  | O => []
  | S k' =>
      if n =? 0 then []
      else vlq_groups k' (Z.shiftr n 7) ++ [b8 (Z.lor 128 (Z.land n 127))]
  end.

Definition vlq_encode (n : Z) : list Byte.byte :=
  vlq_groups 4 (Z.shiftr n 7) ++ [b8 (Z.land n 127)].

(** The file of end-to-end example B: header (format 0, one track, 480
    ticks per quarter) and a track with a set-tempo event of 500000 at
    tick 0, a note-on of pitch 60 at tick 0, its note-off at tick 480 and
    the end-of-track event. *)
Definition exampleB : list Byte.byte :=
  lit "MThd" ++ List.map b8 [0; 0; 0; 6; 0; 0; 0; 1; 1; 224]
  ++ lit "MTrk" ++ List.map b8 [0; 0; 0; 20]
  ++ List.map b8 [0; 255; 81; 3; 7; 161; 32]
  ++ List.map b8 [0; 144; 60; 100]
  ++ vlq_encode 480 ++ List.map b8 [128; 60; 0]
  ++ List.map b8 [0; 255; 47; 0].

(** A file that is not an SMF. *)
Definition notMidi : list Byte.byte := lit "RIFF" ++ List.map b8 [0; 0; 0; 6].

End Smf.


(* ================================================================== *)
(** * The document tree handed over by [DOMParser] *)
(* ================================================================== *)

Module Dom.
Import JS.

(** A node of the parsed document: character data or an element.  Text is
    kept as a string of 8-bit characters, the code points below 256. *)
#[warnings="-register-all"]
Inductive Node : Type :=
| Text (s : string)
| Element (tagName : string) (attributes : list (string * string))
          (childNodes : list Node).

Definition isElement (n : Node) : bool :=
  match n with Element _ _ _ => true | Text _ => false end.

Definition tagName (n : Node) : string :=
  match n with Element t _ _ => t | Text _ => "#text" end.

Definition childNodes (n : Node) : list Node :=
  match n with Element _ _ k => k | Text _ => [] end.

(** [element.children] *)
Definition children (n : Node) : list Node := filter isElement (childNodes n).

Fixpoint getAttribute (attrs : list (string * string)) (name : string)
    : option string :=
  match attrs with
  | [] => None
  | (k, v) :: r => if String.eqb k name then Some v else getAttribute r name
  end.

Definition attributesOf (n : Node) : list (string * string) :=
  match n with Element _ a _ => a | Text _ => [] end.

(** [node.textContent] *)
Fixpoint textContent (n : Node) : string :=
  match n with
  | Text s => s
  | Element _ _ k => List.fold_right (fun c acc => textContent c ++ acc) "" k
  end%string.

(** The element descendants of [n] in document order, each with the tag
    names of its ancestors down from [n], nearest first. *)
Fixpoint descendants (ancestors : list string) (n : Node)
    : list (list string * Node) :=
  match n with
  | Text _ => []
  | Element t _ k =>
      flat_map
        (fun c =>
           match c with
           | Text _ => []
           | Element _ _ _ =>
               (t :: ancestors, c) :: descendants (t :: ancestors) c
           end)
        k
  end.

(** The selectors the parser uses: [tag], [tag[attr]] and
    [ancestor tag]. *)
Inductive Selector : Type :=
| ByTag (tag : string)
| ByTagAttr (tag attr : string)
| Within (ancestor tag : string).

Definition selects (sel : Selector) (e : list string * Node) : bool :=
  match sel with
  | ByTag t => String.eqb (tagName (snd e)) t
  | ByTagAttr t a =>
      String.eqb (tagName (snd e)) t
      && match getAttribute (attributesOf (snd e)) a with
         | Some _ => true
         | None => false
         end
  | Within anc t =>
      String.eqb (tagName (snd e)) t
      && existsb (String.eqb anc) (fst e)
  end.

Definition querySelectorAll (n : Node) (sel : Selector) : list Node :=
  List.map snd (filter (selects sel) (descendants [] n)).

Definition querySelector (n : Node) (sel : Selector) : option Node :=
  match querySelectorAll n sel with
  | [] => None
  | e :: _ => Some e
  end.

(** The document node over its child nodes. *)
Definition document (nodes : list Node) : Node :=
  Element "#document" [] nodes.

(** ** [parseInt] and [parseFloat] *)

Definition isWhite (c : ascii) : bool :=
  let n := nat_of_ascii c in
  ((9 <=? n) && (n <=? 13))%nat || (n =? 32)%nat || (n =? 160)%nat.

Fixpoint trimStart (s : string) : string :=
  match s with
  | String c r => if isWhite c then trimStart r else s
  | EmptyString => s
  end.

(** The value of [c] as a digit of the given radix. *)
Definition digitVal (radix : Z) (c : ascii) : option Z :=
  let n := Z.of_nat (nat_of_ascii c) in
  let v :=
    if ((48 <=? n) && (n <=? 57))%Z then Some (n - 48)%Z
    else if ((97 <=? n) && (n <=? 122))%Z then Some (n - 87)%Z
    else if ((65 <=? n) && (n <=? 90))%Z then Some (n - 55)%Z
    else None in
  match v with
  | Some d => if (d <? radix)%Z then Some d else None
  | None => None
  end.

(** The longest prefix of digits: their value ([None] when empty), their
    number and what follows. *)
Fixpoint readDigits (radix : Z) (s : string) (acc : option Z) (count : Z)
    : option Z * Z * string :=
  match s with
  | String c r =>
      match digitVal radix c with
      | Some d =>
          readDigits radix r
            (Some (match acc with Some a => a * radix + d | None => d end)%Z)
            (count + 1)%Z
      | None => (acc, count, s)
      end
  | EmptyString => (acc, count, s)
  end.

(** The sign prefix: the factor and the rest. *)
Definition readSign (s : string) : Z * string :=
  match s with
  | String "-" r => ((-1)%Z, r)
  | String "+" r => (1%Z, r)
  | _ => (1%Z, s)
  end.

(** [parseInt(s)], no radix given: the double nearest to the integer
    written.  (Past 20 significant digits the standard lets an engine
    approximate the integer before it rounds; the sign of [-0] is not
    kept.) *)
Definition parseInt (s : string) : num :=
  let '(sign, s1) := readSign (trimStart s) in
  let '(radix, s2) :=
    match s1 with
    | String "0" (String "x" r) | String "0" (String "X" r) => (16%Z, r)
    | _ => (10%Z, s1)
    end in
  match readDigits radix s2 None 0 with
  | (Some v, _, _) => binary64 (inject_Z (sign * v))
  | (None, _, _) => NaN
  end.

Definition readExponent (s : string) : Z :=
  match s with
  | String "e" r | String "E" r =>
      let '(sign, r1) := readSign r in
      match readDigits 10 r1 None 0 with
      | (Some v, _, _) => (sign * v)%Z
      | (None, _, _) => 0%Z
      end
  | _ => 0%Z
  end.

(** [parseFloat(s)]: the double nearest to the longest prefix that is a
    decimal literal. *)
Definition parseFloat (s : string) : num :=
  let '(sign, s1) := readSign (trimStart s) in
  if prefix "Infinity" s1 then (if (sign <? 0)%Z then NInf else PInf)
  else
    let '(ip, _, s2) := readDigits 10 s1 None 0 in
    let '(fp, fcount, s3) :=
      match s2 with
      | String "." r => readDigits 10 r None 0
      | _ => (None, 0%Z, s2)
      end in
    match ip, fp with
    | None, None => NaN
    | _, _ =>
        let i := match ip with Some v => v | None => 0%Z end in
        let f := match fp with Some v => v | None => 0%Z end in
        let mant := (inject_Z i + inject_Z f / Qpower 10 fcount)%Q in
        binary64 (inject_Z sign * mant * Qpower 10 (readExponent s3))
    end.

Fixpoint natToString_aux (fuel : nat) (n : nat) (acc : string) : string :=
  let acc' := String (ascii_of_nat (48 + n mod 10)) acc in
  match fuel with
  | O => acc'
  | S fuel' =>
      match (n / 10)%nat with
      | O => acc'
      | n' => natToString_aux fuel' n' acc'
      end
  end.

(** [(n).toString()] *)
Definition natToString (n : nat) : string := natToString_aux n n "".

End Dom.


(* ================================================================== *)
(** * [MXL2MIDI.parseXMLString] *)
(* ================================================================== *)

Module Parse.
Import JS Dom Convert.

(** The error of reading a property of [null]. *)
Definition nullDeref : string := "TypeError: Cannot read properties of null".

(** [querySelector(tag)] for a plain tag name. *)
Definition child (n : Node) (tag : string) : option Node :=
  querySelector n (ByTag tag).

(** [parseInt(e.textContent)] *)
Definition intOf (e : Node) : num := parseInt (textContent e).

(** The [if (pitch) { ... }] branch: the entry pushed, or the error of
    reading [textContent] of a missing [step] or [octave]. *)
Definition pitchedNote (pitch : Node) (chord : option Node)
    (noteDuration currentTime : num) (partIdx : nat)
    : Completion NoteEntry :=
  match child pitch "step" with
  | None => Thrown nullDeref
  | Some stepEl =>
      let step := textContent stepEl in
      match child pitch "octave" with
      | None => Thrown nullDeref
      | Some octaveEl =>
          let octave := intOf octaveEl in
          let alterVal :=
            match child pitch "alter" with
            | Some a => intOf a
            | None => ofZ 0
            end in
          Normal (NoteData step octave alterVal noteDuration currentTime
                    (stepToMidi step octave alterVal)
                    (match chord with Some _ => true | None => false end)
                    partIdx)
      end
  end.

(** The body of [children.forEach]: the entries pushed to the measure
    and the new [currentTime]. *)
Definition parseChild (partIdx : nat) (c : Node) (currentTime : num)
    : Completion (list NoteEntry * num) :=
  if String.eqb (tagName c) "backup" then
    match child c "duration" with
    | Some d => Normal ([], sub currentTime (intOf d))
    | None => Normal ([], currentTime)
    end
  else if String.eqb (tagName c) "forward" then
    match child c "duration" with
    | Some d => Normal ([], add currentTime (intOf d))
    | None => Normal ([], currentTime)
    end
  else if String.eqb (tagName c) "note" then
    let pitch := child c "pitch" in
    let rest := child c "rest" in
    let chord := child c "chord" in
    let duration := child c "duration" in
    let noteDuration :=
      match duration with Some d => intOf d | None => ofZ 0 end in
    match pitch with
    | Some p =>
        match pitchedNote p chord noteDuration currentTime partIdx with
        | Thrown e => Thrown e
        | Normal noteData =>
            Normal ([noteData],
                    match chord, duration with
                    | None, Some _ => add currentTime noteDuration
                    | _, _ => currentTime
                    end)
        end
    | None =>
        match rest, duration with
        | Some _, Some _ =>
            Normal ([RestData noteDuration currentTime partIdx],
                    add currentTime noteDuration)
        | _, _ => Normal ([], currentTime)
        end
    end
  else Normal ([], currentTime).

(** [children.forEach(child => ...)] from clock [currentTime]: the
    entries pushed, in order, and the final clock. *)
Fixpoint parseChildren (partIdx : nat) (cs : list Node) (currentTime : num)
    : Completion (list NoteEntry * num) :=
  match cs with
  | [] => Normal ([], currentTime)
  | c :: r =>
      match parseChild partIdx c currentTime with
      | Thrown e => Thrown e
      | Normal (pushed, t) =>
          match parseChildren partIdx r t with
          | Thrown e => Thrown e
          | Normal (more, t') => Normal (pushed ++ more, t')
          end
      end
  end.

(** The entries one measure element contributes; the clock starts at 0. *)
Definition parseMeasure (partIdx : nat) (measure : Node)
    : Completion (list NoteEntry) :=
  match parseChildren partIdx (children measure) (ofZ 0) with
  | Thrown e => Thrown e
  | Normal (pushed, _) => Normal pushed
  end.

(** [scoreData.measures[mIdx].notes.push(...)] for every entry of
    [pushed].  Index [mIdx] is below [maxMeasures], so the measure is
    there. *)
Fixpoint pushNotes (ms : list Measure) (mIdx : nat) (pushed : list NoteEntry)
    : list Measure :=
  match ms, mIdx with
  | [], _ => []
  | m :: r, O => mkMeasure (number m) (notes m ++ pushed) (width m) :: r
  | m :: r, S i => m :: pushNotes r i pushed
  end.

(** [measures.forEach((measure, mIdx) => ...)] of one part, from index
    [mIdx] on. *)
Fixpoint parsePart (partIdx : nat) (measureEls : list Node) (mIdx : nat)
    (ms : list Measure) : Completion (list Measure) :=
  match measureEls with
  | [] => Normal ms
  | el :: r =>
      match parseMeasure partIdx el with
      | Thrown e => Thrown e
      | Normal pushed => parsePart partIdx r (S mIdx) (pushNotes ms mIdx pushed)
      end
  end.

(** [parts.forEach((part, partIdx) => ...)], from index [partIdx] on. *)
Fixpoint parseParts (parts : list Node) (partIdx : nat) (ms : list Measure)
    : Completion (list Measure) :=
  match parts with
  | [] => Normal ms
  | p :: r =>
      match parsePart partIdx (querySelectorAll p (ByTag "measure")) 0 ms with
      | Thrown e => Thrown e
      | Normal ms' => parseParts r (S partIdx) ms'
      end
  end.

(** The measures allocated before the notes are read. *)
Definition emptyMeasures (maxMeasures : nat) : list Measure :=
  List.map (fun i => mkMeasure (natToString (i + 1)) [] (ofZ 200))
    (seq 0 maxMeasures).

Definition maxMeasures (parts : list Node) : nat :=
  fold_left
    (fun acc p =>
       Nat.max acc (List.length (querySelectorAll p (ByTag "measure"))))
    parts 0%nat.

(** The value read from the first [<attributes>], or the default. *)
Definition attrInt (firstAttributes : option Node) (path : list string)
    (default : num) : num :=
  match firstAttributes with
  | None => default
  | Some fa =>
      match
        fold_left
          (fun e tag => match e with Some n => child n tag | None => None end)
          path (Some fa)
      with
      | Some e => intOf e
      | None => default
      end
  end.

(** [parseXMLString] on the document [DOMParser] returns; [Normal None] is
    the [null] result. *)
Definition parseXMLString (xmlDoc : Node) : Completion (option ScoreData) :=
  match child xmlDoc "parsererror" with
  | Some _ => Normal None
  | None =>
      let tempo :=
        match querySelector xmlDoc (ByTagAttr "sound" "tempo") with
        | Some sound =>
            match getAttribute (attributesOf sound) "tempo" with
            | Some bpm => div (ofZ 60000000) (parseFloat bpm)
            | None => ofZ 500000
            end
        | None => ofZ 500000
        end in
      let firstAttributes :=
        querySelector xmlDoc (Within "measure" "attributes") in
      let divisions := attrInt firstAttributes ["divisions"%string] (ofZ 1) in
      let fifths := attrInt firstAttributes ["key"; "fifths"]%string (ofZ 0) in
      let beats := attrInt firstAttributes ["time"; "beats"]%string (ofZ 4) in
      let beatType :=
        attrInt firstAttributes ["time"; "beat-type"]%string (ofZ 4) in
      let parts := querySelectorAll xmlDoc (ByTag "part") in
      match parseParts parts 0 (emptyMeasures (maxMeasures parts)) with
      | Thrown e => Thrown e
      | Normal ms =>
          Normal (Some (mkScoreData ms divisions fifths beats beatType tempo))
      end
  end.

(** ** Sample documents *)

Definition el (tag : string) (kids : list Node) : Node := Element tag [] kids.
Definition leaf (tag text : string) : Node := Element tag [] [Text text].

Definition pitchEl (step octave : string) : Node :=
  el "pitch" [leaf "step" step; leaf "octave" octave].

(** A [<note>] with pitch and duration. *)
Definition noteEl (step octave duration : string) : Node :=
  el "note" [pitchEl step octave; leaf "duration" duration].

(** A [<note>] with [<chord/>], pitch and duration. *)
Definition chordEl (step octave duration : string) : Node :=
  el "note" [el "chord" []; pitchEl step octave; leaf "duration" duration].

Definition scoreOf (measureKids : list Node) : Node :=
  document
    [ el "score-partwise"
        [ Element "part" [("id", "P1")]%string
            [ Element "measure" [("number", "1")]%string
                (el "attributes" [leaf "divisions" "1"] :: measureKids) ] ] ].

(** The document of end-to-end example A: divisions 1, time 4/4, tempo
    120, and a measure with a quarter C4, a quarter rest and a quarter
    E4. *)
Definition exampleADoc : Node :=
  document
    [ el "score-partwise"
        [ Element "part" [("id", "P1")]%string
            [ Element "measure" [("number", "1")]%string
                [ el "attributes"
                    [ leaf "divisions" "1";
                      el "time" [leaf "beats" "4"; leaf "beat-type" "4"] ];
                  el "direction" [Element "sound" [("tempo", "120")]%string []];
                  noteEl "C" "4" "1";
                  el "note" [el "rest" []; leaf "duration" "1"];
                  noteEl "E" "4" "1" ] ] ] ].

(** A C major triad of two divisions (C4 with chord members E4 and G4)
    followed by a C5 of one division. *)
Definition triad : list Node :=
  [ noteEl "C" "4" "2"; chordEl "E" "4" "2"; chordEl "G" "4" "2";
    noteEl "C" "5" "1" ].

(** A note whose [<pitch>] has no [<step>], between two well-formed
    notes. *)
Definition stepless : list Node :=
  [ noteEl "C" "4" "1";
    el "note" [el "pitch" [leaf "octave" "4"]; leaf "duration" "1"];
    noteEl "E" "4" "1" ].

(** The entry read from a [<note>] built by [noteEl] or [chordEl]. *)
Definition pitched (partIdx : nat) (step octave duration : string)
    (time : num) (isChord : bool) : NoteEntry :=
  NoteData step (parseInt octave) (ofZ 0) (parseInt duration) time
    (stepToMidi step (parseInt octave) (ofZ 0)) isChord partIdx.

(** The members of a chord: step, octave and duration of each. *)
Definition Members : Type := list (string * string * string).

Definition memberEls (ms : Members) : list Node :=
  List.map (fun m => chordEl (fst (fst m)) (snd (fst m)) (snd m)) ms.

Definition memberEntries (partIdx : nat) (time : num) (ms : Members)
    : list NoteEntry :=
  List.map
    (fun m => pitched partIdx (fst (fst m)) (snd (fst m)) (snd m) time true)
    ms.

(** The onsets recorded in the first measure of a parsed score. *)
Definition firstMeasureOnsets (r : Completion (option ScoreData))
    : list num :=
  match r with
  | Normal (Some sd) =>
      match measures sd with
      | m :: _ => List.map note_time (notes m)
      | [] => []
      end
  | _ => []
  end.

End Parse.


(* ================================================================== *)
(** * [MXL2MIDI.decodeText] and [MXL2MIDI.extractMXLFallback] *)
(* ================================================================== *)

Module Fallback.
Import Bytes.
Local Open Scope Z_scope.

(** A JavaScript string: its UTF-16 code units. *)
Definition jsstring : Type := list Z.

(** The string of an ASCII literal. *)
Definition str (s : string) : jsstring := List.map u8 (lit s).

(** ** The UTF-8 decoder of [TextDecoder] (non-fatal)

    A pending sequence: the code point so far, the continuation bytes
    still needed and the range allowed for the next byte. *)
Record Pending : Type := mkPending {
  codePoint : Z;
  needed : nat;
  lower : Z;
  upper : Z
}.

Definition replacement : Z := 65533.

(** A byte met with no sequence pending: the code points emitted and the
    sequence it opens. *)
Definition leadByte (b : Z) : list Z * option Pending :=
  if b <=? 127 then ([b], None)
  else if (194 <=? b) && (b <=? 223) then
    ([], Some (mkPending (Z.land b 31) 1 128 191))
  else if (224 <=? b) && (b <=? 239) then
    ([], Some (mkPending (Z.land b 15) 2
                 (if b =? 224 then 160 else 128)
                 (if b =? 237 then 159 else 191)))
  else if (240 <=? b) && (b <=? 244) then
    ([], Some (mkPending (Z.land b 7) 3
                 (if b =? 240 then 144 else 128)
                 (if b =? 244 then 143 else 191)))
  else ([replacement], None).

(** One byte of the stream.  A byte outside the allowed range ends the
    pending sequence with U+FFFD and is then read again as a lead byte. *)
Definition decodeByte (st : option Pending) (b : Z)
    : list Z * option Pending :=
  match st with
  | None => leadByte b
  | Some p =>
      if (b <? lower p) || (upper p <? b) then
        let '(out, st') := leadByte b in (replacement :: out, st')
      else
        let cp := Z.lor (Z.shiftl (codePoint p) 6) (Z.land b 63) in
        match needed p with
        | S (S k) => ([], Some (mkPending cp (S k) 128 191))
        | _ => ([cp], None)
        end
  end.

(** The code points of a byte stream, from decoder state [st]. *)
Fixpoint decodeFrom (st : option Pending) (bs : list Byte.byte) : list Z :=
  match bs with
  | [] => match st with Some _ => [replacement] | None => [] end
  | b :: r =>
      let '(out, st') := decodeByte st (u8 b) in
      out ++ decodeFrom st' r
  end.

(** The UTF-16 code units of a code point. *)
Definition codeUnits (cp : Z) : list Z :=
  if cp <? 65536 then [cp]
  else [55296 + Z.shiftr (cp - 65536) 10; 56320 + Z.land (cp - 65536) 1023].

(** [new TextDecoder('utf-8').decode(data)]: a leading byte order mark is
    dropped.  The decoder does not throw, so the [catch] branch of
    [decodeText] is not taken. *)
Definition decodeText (data : list Byte.byte) : jsstring :=
  let cps := decodeFrom None data in
  flat_map codeUnits
    (match cps with
     | c :: r => if c =? 65279 then r else cps
     | [] => cps
     end).

(** ** String search *)

Fixpoint startsWith (pat s : list Z) : bool :=
  match pat, s with
  | [], _ => true
  | _ :: _, [] => false
  | p :: pr, c :: sr => (p =? c) && startsWith pr sr
  end.

(** [s.indexOf(pat)]; [None] is -1. *)
Fixpoint indexOf (pat s : list Z) : option nat :=
  if startsWith pat s then Some O
  else
    match s with
    | [] => None
    | _ :: r => option_map S (indexOf pat r)
    end.

(** [s.substring(0, n)] *)
Definition substring0 (s : jsstring) (n : nat) : jsstring := firstn n s.

Definition endTag : jsstring := str "</score-partwise>".
Definition endTag2 : jsstring := str "</score-timewise>".

(** The five bytes [<?xml]. *)
Definition prolog : list Z := [60; 63; 120; 109; 108].

(** The body of the [if] at index [i], where [rest] is [zipData] from
    [i] on: the text cut after the closing tag, if one is in the window. *)
Definition extractAt (rest : list Byte.byte) : option jsstring :=
  let maxLength := Z.min (Z.of_nat (List.length rest)) 5000000 in
  let xmlContent := decodeText (firstn (Z.to_nat maxLength) rest) in
  let endIdx :=
    match indexOf endTag xmlContent with
    | Some i => Some i
    | None => indexOf endTag2 xmlContent
    end in
  match endIdx with
  | Some i => Some (substring0 xmlContent (i + List.length endTag))
  | None => None
  end.

(** The loop [for (let i = 0; i < zipData.length - 5; i++)] from index
    [i] on, where [rest] is [zipData] from [i] on: [i < zipData.length - 5]
    says that more than five bytes are left. *)
Fixpoint scanFrom (rest : list Byte.byte) : option jsstring :=
  match rest with
  | [] => None
  | _ :: r =>
      if (5 <? Z.of_nat (List.length rest))
         && startsWith prolog (List.map u8 rest)
      then
        match extractAt rest with
        | Some xml => Some xml
        | None => scanFrom r
        end
      else scanFrom r
  end.

(** [extractMXLFallback(zipData)]; [None] is [null]. *)
Definition extractMXLFallback (zipData : list Byte.byte) : option jsstring :=
  scanFrom zipData.

(** What the decoder emits when the stream ends in state [st]. *)
Definition flush (st : option Pending) : list Z :=
  match st with Some _ => [replacement] | None => [] end.

(** The states the decoder reaches: a continuation byte is expected. *)
Definition expectsContinuation (st : option Pending) : Prop :=
  match st with Some p => 128 <= lower p | None => True end.

(** The bytes [extractAt] decodes at index [i] of [zipData]. *)
Definition window (zipData : list Byte.byte) (i : nat) : list Byte.byte :=
  let rest := skipn i zipData in
  firstn (Z.to_nat (Z.min (Z.of_nat (List.length rest)) 5000000)) rest.

(** The five bytes [<?xml] are at index [i] of [zipData]. *)
Definition prologAt (zipData : list Byte.byte) (i : nat) : bool :=
  startsWith prolog (List.map u8 (skipn i zipData)).

(** The test of [parseZIP] for a local file header at the start of
    [rest]: [readUint32(offset) === 0x04034b50] with
    [offset < data.length - 4]. *)
Definition localHeaderHere (rest : list Byte.byte) : bool :=
  (4 <? Z.of_nat (List.length rest))
  && startsWith [80; 75; 3; 4] (List.map u8 rest).

(** Some offset of the buffer passes that test. *)
Fixpoint hasLocalHeader (rest : list Byte.byte) : bool :=
  match rest with
  | [] => false
  | _ :: r => localHeaderHere rest || hasLocalHeader r
  end.

(** ** Sample buffers *)

Definition garbage : list Byte.byte := List.map b8 [80; 75; 255; 0; 226; 130].

(** A score-timewise document followed by bytes that hold the other
    closing tag. *)
Definition timewiseDoc : list Byte.byte :=
  lit "<?xml version='1.0'?><score-timewise></score-timewise>".

Definition timewiseBuffer : list Byte.byte :=
  garbage ++ timewiseDoc ++ lit "PK</score-partwise>".

Definition partwiseDoc : list Byte.byte :=
  lit "<?xml version='1.0'?><score-partwise></score-partwise>".

(** A document after bytes that hold an XML prolog of their own. *)
Definition prologBuffer : list Byte.byte :=
  lit "<?xml?>" ++ garbage ++ partwiseDoc ++ garbage.

Definition partwiseBuffer : list Byte.byte :=
  garbage ++ partwiseDoc ++ garbage.

End Fallback.


(* ================================================================== *)
(** * Voices and parts of a parsed score *)
(* ================================================================== *)

Module Voices.
Import JS Dom Convert Parse.

(** The [<note>] elements of one voice: step, octave and duration of
    each, none of them a chord member. *)
Definition noteEls (ms : Members) : list Node :=
  List.map (fun m => noteEl (fst (fst m)) (snd (fst m)) (snd m)) ms.

Definition backupEl (duration : string) : Node :=
  el "backup" [leaf "duration" duration].

Definition forwardEl (duration : string) : Node :=
  el "forward" [leaf "duration" duration].

(** The durations of a voice read as integers. *)
Definition durationsOf (ms : Members) (ds : list Z) : Prop :=
  Forall2 (fun m d => parseInt (snd m) = ofZ d) ms ds.

Definition total (ds : list Z) : Z := List.fold_right Z.add 0%Z ds.

(** A clock that starts at [t] and advances by the durations [ds] stays
    among the integers that binary64 adds without rounding: none is
    negative and the last sum is at most [2^53]. *)
Definition exactClock (t : Z) (ds : list Z) : bool :=
  ((0 <=? t) && forallb (Z.leb 0) ds && (t + total ds <=? 2 ^ 53))%Z.

(** The entries of a voice that starts at clock [t]: each note starts
    where the one before it ends. *)
Fixpoint voiceEntries (partIdx : nat) (t : Z) (ms : Members) (ds : list Z)
    : list NoteEntry :=
  match ms, ds with
  | m :: r, d :: dr =>
      pitched partIdx (fst (fst m)) (snd (fst m)) (snd m) (ofZ t) false
      :: voiceEntries partIdx (t + d)%Z r dr
  | _, _ => []
  end.

(** The entries measure [i] of part [k] contributes. *)
Definition entriesAt (i k : nat) (part : Node) : list NoteEntry :=
  match nth_error (querySelectorAll part (ByTag "measure")) i with
  | Some measure =>
      match parseMeasure k measure with
      | Normal pushed => pushed
      | Thrown _ => []
      end
  | None => []
  end.

(** The entries of the measures of index [i] of the parts, part after
    part; [k] is the index of the first part. *)
Fixpoint entriesOfParts (i k : nat) (parts : list Node) : list NoteEntry :=
  match parts with
  | [] => []
  | p :: r => entriesAt i k p ++ entriesOfParts i (S k) r
  end.

(** The entries measure element [i - j] of [els] contributes, when the
    elements are pushed from index [j] on. *)
Definition contribution (k : nat) (els : list Node) (j i : nat)
    : list NoteEntry :=
  if Nat.leb j i then
    match nth_error els (i - j) with
    | Some measure =>
        match parseMeasure k measure with
        | Normal pushed => pushed
        | Thrown _ => []
        end
    | None => []
    end
  else [].

(** A measure with more notes pushed. *)
Definition withNotes (m : Measure) (pushed : list NoteEntry) : Measure :=
  mkMeasure (number m) (notes m ++ pushed) (width m).

(** Two voices of two quarters each, the second written after a
    [<backup>] of the length of the first. *)
Definition twoVoices : list Node :=
  noteEls [("C", "5", "1"); ("D", "5", "1")]%string
  ++ backupEl "2" :: noteEls [("C", "3", "1"); ("G", "3", "1")]%string.

(** Two parts of two measures and one measure. *)
Definition twoParts : Node :=
  document
    [ el "score-partwise"
        [ el "part"
            [ el "measure" [noteEl "C" "4" "1"];
              el "measure" [noteEl "D" "4" "1"] ];
          el "part"
            [ el "measure" [noteEl "E" "2" "1"] ] ] ].

End Voices.


(* ================================================================== *)
(** * Ticks and milliseconds of [parseMidiFile] *)
(* ================================================================== *)

Module Timing.
Import JS Bytes Smf.
Local Open Scope Z_scope.

(** The division field of the header, as [parseMidiFile] reads it. *)
Definition division (data : list Byte.byte) : Z := fst (read16 data 12).

(** [activeTempo.ms + ((ev.tick - activeTempo.tick) / div) *
    (activeTempo.tempo / 1000)], the time given to tick [tick] under the
    tempo entry [a]. *)
Definition timeAt (div : Z) (a : TempoEntry) (tick : Z) : num :=
  add (tm_ms a) (elapsed tick (tm_tick a) div (tm_tempo a)).

Definition isFinite (a : num) : bool :=
  match a with Fin _ => true | _ => false end.

(** [((tick - tick0) / div) * (tempo / 1000)] as a rational. *)
Definition elapsedQ (tick tick0 div tempo : Z) : Q :=
  (inject_Z (tick - tick0) / inject_Z div)
  * (inject_Z tempo / inject_Z 1000).

(** A tempo entry with a tempo that is not negative and a time that is a
    finite number. *)
Definition sound (a : TempoEntry) : Prop :=
  0 <= tm_tempo a /\ isFinite (tm_ms a) = true.

(** The entries after [c] are in tick order and each starts at the time
    the entry before it gives to its tick. *)
Inductive Chain (div : Z) : TempoEntry -> list TempoEntry -> Prop :=
| chain_end (c : TempoEntry) : sound c -> Chain div c []
| chain_next (c t : TempoEntry) (r : list TempoEntry) :
    sound c -> tm_tick c <= tm_tick t ->
    tm_ms t = timeAt div c (tm_tick t) ->
    Chain div t r -> Chain div c (t :: r).

(** The tempo map of a reader is not empty and holds no negative
    tempo. *)
Definition tempoSound (rd : Reader) : Prop :=
  tempoMap rd <> [] /\ Forall (fun t => 0 <= rt_tempo t) (tempoMap rd).

(** A meta event whose length field reads as -8, the length of the
    event itself: delta time 0, status [0xFF], type [m] and the five
    length bytes [FF FF FF FF 78]. *)
Definition backwardMeta (m : Z) : list Byte.byte :=
  List.map b8 [0; 255; m; 255; 255; 255; 255; 120].

(** A file of one track that starts with such an event. *)
Definition hangingFile (m : Z) (more : list Byte.byte) : list Byte.byte :=
  lit "MThd" ++ List.map b8 [0; 0; 0; 6; 0; 0; 0; 1; 1; 224]
  ++ lit "MTrk" ++ List.map b8 [0; 0; 0; 12]
  ++ backwardMeta m ++ more.

End Timing.


(* ================================================================== *)
(** * [MXL2MIDI.parseZIP] *)
(* ================================================================== *)

Module Zip.
Import Bytes Fallback.
Local Open Scope Z_scope.

(** An entry of [files]: [{ name, data }]. *)
Record ZipFile : Type := mkZipFile {
  name : jsstring;
  data : list Byte.byte
}.

(** [data[pos] | (data[pos + 1] << 8)] *)
Definition readUint16 (data : list Byte.byte) (pos : Z) : Z :=
  bor (int_of (get data pos)) (shl (int_of (get data (pos + 1))) 8).

(** [data[pos] | (data[pos + 1] << 8) | (data[pos + 2] << 16) |
    (data[pos + 3] << 24)] *)
Definition readUint32 (data : list Byte.byte) (pos : Z) : Z :=
  bor (bor (bor (int_of (get data pos))
                (shl (int_of (get data (pos + 1))) 8))
           (shl (int_of (get data (pos + 2))) 16))
      (shl (int_of (get data (pos + 3))) 24).

(** The value of the top byte of a 32-bit field under [<< 24]. *)
Definition top (b : Z) : Z := if b <? 128 then b else b - 256.

(** The local file header signature, [0x04034b50]. *)
Definition signature : Z := 67324752.

Section Inflate.
(** [pako.inflateRaw], or [None] when [pako] is not defined; the
    function throws on bytes that are not a DEFLATE stream. *)
Variable pako : option (list Byte.byte -> Completion (list Byte.byte)).

(** The [if (compressionMethod === 8)] statement: the bytes kept as
    [fileData].  A failed or missing decompression leaves the compressed
    bytes. *)
Definition inflated (compressionMethod : Z) (fileData : list Byte.byte)
    : list Byte.byte :=
  if compressionMethod =? 8 then
    match pako with
    | Some inflateRaw =>
        match inflateRaw fileData with
        | Normal out => out
        | Thrown _ => fileData
        end
    | None => fileData
    end
  else fileData.

(** The [if (signature === 0x04034b50)] branch at [offset]: the entry
    pushed and the new offset. *)
Definition readEntry (zip : list Byte.byte) (offset : Z) : ZipFile * Z :=
  let compressionMethod := readUint16 zip (offset + 8) in
  let compressedSize := readUint32 zip (offset + 18) in
  let fileNameLength := readUint16 zip (offset + 26) in
  let extraFieldLength := readUint16 zip (offset + 28) in
  let fileNameStart := offset + 30 in
  let fileName :=
    decodeText (slice zip fileNameStart (fileNameStart + fileNameLength)) in
  let dataStart := fileNameStart + fileNameLength + extraFieldLength in
  let dataEnd := dataStart + compressedSize in
  let fileData := inflated compressionMethod (slice zip dataStart dataEnd) in
  (mkZipFile fileName fileData, dataEnd).

(** [while (offset < data.length - 4) { ... }]; [None] when [fuel] turns
    do not reach the end of the buffer. *)
Fixpoint zipLoop (fuel : nat) (zip : list Byte.byte) (offset : Z)
    (files : list ZipFile) : option (list ZipFile) :=
  if offset <? Z.of_nat (List.length zip) - 4 then
    match fuel with
    | O => None
    | S fuel' =>
        if readUint32 zip offset =? signature then
          let '(file, dataEnd) := readEntry zip offset in
          zipLoop fuel' zip dataEnd (files ++ [file])
        else zipLoop fuel' zip (offset + 1) files
    end
  else Some files.

(** [parseZIP(data)] *)
Definition parseZIP (fuel : nat) (zip : list Byte.byte)
    : option (list ZipFile) :=
  zipLoop fuel zip 0 [].

End Inflate.

(** Modelled from the ZIP format, which the repository only reads: the
    little-endian bytes of a 16-bit and of a 32-bit field. *)
Definition le16 (n : Z) : list Byte.byte := [b8 n; b8 (Z.shiftr n 8)].

Definition le32 (n : Z) : list Byte.byte :=
  [b8 n; b8 (Z.shiftr n 8); b8 (Z.shiftr n 16); b8 (Z.shiftr n 24)].

(** Modelled from the ZIP format: a local file header of 30 bytes, with
    the compression method, the compressed size and the lengths of the
    name and of the extra field; the other fields are zero. *)
Definition localHeader (method size nameLength extraLength : Z)
    : list Byte.byte :=
  List.map b8 [80; 75; 3; 4] ++ List.map b8 [20; 0; 0; 0] ++ le16 method
  ++ List.map b8 [0; 0; 0; 0] ++ le32 0 ++ le32 size ++ le32 size
  ++ le16 nameLength ++ le16 extraLength.

(** A member: header, name, extra field and bytes. *)
Definition member (method : Z) (fileName extra payload : list Byte.byte)
    : list Byte.byte :=
  localHeader method (Z.of_nat (List.length payload))
    (Z.of_nat (List.length fileName)) (Z.of_nat (List.length extra))
  ++ fileName ++ extra ++ payload.

(** What is stored of a member: compression method, name, extra field
    and bytes. *)
Record Member : Type := mkMember {
  method : Z;
  fileName : list Byte.byte;
  extra : list Byte.byte;
  payload : list Byte.byte
}.

Definition memberBytes (m : Member) : list Byte.byte :=
  member (method m) (fileName m) (extra m) (payload m).

(** The fields of the member fit the header. *)
Definition wellSized (m : Member) : Prop :=
  0 <= method m < 65536
  /\ Z.of_nat (List.length (fileName m)) < 65536
  /\ Z.of_nat (List.length (extra m)) < 65536
  /\ Z.of_nat (List.length (payload m)) < 2147483648.

(** Members one after the other, then bytes such as the central
    directory. *)
Definition archive (ms : list Member) (tail : list Byte.byte)
    : list Byte.byte :=
  List.concat (List.map memberBytes ms) ++ tail.

(** The entry [parseZIP] pushes for a member. *)
Definition entryOf
    (pako : option (list Byte.byte -> Completion (list Byte.byte)))
    (m : Member) : ZipFile :=
  mkZipFile (decodeText (fileName m)) (inflated pako (method m) (payload m)).

(** A stored score and the start of a central directory. *)
Definition sampleArchive : list Byte.byte :=
  archive
    [ mkMember 0 (lit "META-INF/container.xml") [] (lit "<container/>");
      mkMember 0 (lit "score.xml") [] (lit "<score-partwise/>") ]
    (List.map b8 [80; 75; 1; 2; 0; 0]).

(** An archive whose only header has a size field of -30, the length of
    the header. *)
Definition backwardArchive : list Byte.byte :=
  localHeader 0 (-30) 0 0 ++ lit "tail".

End Zip.


(* ================================================================== *)
(** * [MXL2MIDI.extractMXL] and [MXL2MIDI.parseFile] *)
(* ================================================================== *)

Module Extract.
Import JS Bytes Dom Convert Parse Fallback Zip.
Local Open Scope Z_scope.

(** [a === b] on strings. *)
Definition jseqb (a b : jsstring) : bool :=
  if list_eq_dec Z.eq_dec a b then true else false.

(** [toLowerCase] on the letters A to Z.  No other character has [.],
    [x], [m] or [l] in its lower case, so the tests below, which only
    look for these, read the same on the full mapping. *)
Definition lowerUnit (c : Z) : Z :=
  if (65 <=? c) && (c <=? 90) then c + 32 else c.

Definition toLowerCase (s : jsstring) : jsstring := List.map lowerUnit s.

(** [s.endsWith(pat)] *)
Definition endsWith (pat s : jsstring) : bool :=
  startsWith (rev pat) (rev s).

(** A string is falsy when it is [null] or empty. *)
Definition present (s : option jsstring) : bool :=
  match s with
  | Some (_ :: _) => true
  | _ => false
  end.

(** The test of method 1. *)
Definition isContainer (f : ZipFile) : bool :=
  jseqb (name f) (str "META-INF/container.xml").

(** The test of method 2. *)
Definition isScore (f : ZipFile) : bool :=
  endsWith (str ".xml") (toLowerCase (name f))
  && negb (startsWith (str "META-INF/") (name f))
  && negb (startsWith (str "__MACOSX/") (name f)).

Section Platform.
(** [pako.inflateRaw], if [pako] is defined, and
    [new DOMParser().parseFromString(text, "text/xml")]. *)
Variable pako : option (list Byte.byte -> Completion (list Byte.byte)).
Variable parseFromString : jsstring -> Node.
(** How [window._mxl2midiInitPromise] settles: fulfilled, or rejected
    with the error of a script that did not load. *)
Variable initPromise : Completion unit.
(** The [message] property of the error an engine throws where the
    model says [Thrown e]; the text differs from engine to engine. *)
Variable message : string -> string.

(** Method 1: the [full-path] of the first [rootfile] of
    [META-INF/container.xml]. *)
Definition containerPath (files : list ZipFile) : option jsstring :=
  match find isContainer files with
  | Some containerFile =>
      let containerDoc := parseFromString (decodeText (data containerFile)) in
      match querySelector containerDoc (ByTag "rootfile") with
      | Some rootfile =>
          option_map str (getAttribute (attributesOf rootfile) "full-path")
      | None => None
      end
  | None => None
  end.

(** [xmlFileName] after both methods. *)
Definition xmlFileName (files : list ZipFile) : option jsstring :=
  let byContainer := containerPath files in
  if present byContainer then byContainer
  else
    match find isScore files with
    | Some xmlFile => Some (name xmlFile)
    | None => byContainer
    end.

(** [extractMXL] on the bytes of the file; [Some None] is [null], and
    [None] a scan of the archive that does not end within [fuel] turns.
    Nothing in the [try] block throws, so the [catch] branch is not
    taken. *)
Definition extractMXL (fuel : nat) (zip : list Byte.byte)
    : option (option jsstring) :=
  match parseZIP pako fuel zip with
  | None => None
  | Some [] => Some (extractMXLFallback zip)
  | Some files =>
      match xmlFileName files with
      | Some (c :: r) =>
          match find (fun f => jseqb (name f) (c :: r)) files with
          | Some targetFile => Some (Some (decodeText (data targetFile)))
          | None => Some (extractMXLFallback zip)
          end
      | _ => Some (extractMXLFallback zip)
      end
  end.

(** The object [parseFile] resolves to. *)
Inductive ParseResult : Type :=
| Success (xmlString : jsstring) (scoreData : ScoreData)
| Failure (error : string).

Definition extractError : string :=
  "Could not extract XML from .mxl file. Try extracting manually and loading the .xml file.".

Definition corruptError : string :=
  "Error parsing MusicXML. File may be corrupted.".

(** The part of [parseFile] after [xmlText] is known; the [catch]
    branch returns [error.message]. *)
Definition parseText (xmlText : jsstring) : ParseResult :=
  match parseXMLString (parseFromString xmlText) with
  | Thrown e => Failure (message e)
  | Normal None => Failure corruptError
  | Normal (Some scoreData) => Success xmlText scoreData
  end.

(** The [try] statement of [parseFile]. *)
Definition parseLoaded (fuel : nat) (fileName : jsstring)
    (bytes : list Byte.byte) : option ParseResult :=
  if endsWith (str ".mxl") (toLowerCase fileName) then
    match extractMXL fuel bytes with
    | None => None
    | Some xmlText =>
        if present xmlText then
          match xmlText with
          | Some text => Some (parseText text)
          | None => Some (Failure extractError)
          end
        else Some (Failure extractError)
    end
  else Some (parseText (decodeText bytes)).

(** [parseFile(file)] on the name and the bytes of the file;
    [file.text()] decodes the bytes as UTF-8.  [await this._ensureReady()]
    stands before the [try] statement: a rejected [initPromise] makes the
    call throw. *)
Definition parseFile (fuel : nat) (fileName : jsstring)
    (bytes : list Byte.byte) : option (Completion ParseResult) :=
  match initPromise with
  | Thrown e => Some (Thrown e)
  | Normal _ => option_map Normal (parseLoaded fuel fileName bytes)
  end.

End Platform.

(** An archive with a resource-fork copy before the score and no
    container. *)
Definition macArchive : list Byte.byte :=
  archive
    [ mkMember 0 (lit "__MACOSX/._score.xml") [] (lit "fork");
      mkMember 0 (lit "META-INF/notes.xml") [] (lit "<notes/>");
      mkMember 0 (lit "Score.XML") [] (lit "<score-partwise/>") ]
    (List.map b8 [80; 75; 1; 2; 0; 0]).

(** A parser that returns the container of the sample archives for
    every text: its [rootfile] names [missing.xml]. *)
Definition danglingContainer (text : jsstring) : Node :=
  document
    [ el "container"
        [ el "rootfiles"
            [ Element "rootfile" [("full-path", "missing.xml")]%string [] ] ] ].

End Extract.


(* ================================================================== *)
(** * The playback cursor of the application script *)
(* ================================================================== *)

Module Player.
Import JS Bytes Dom Convert.
Local Open Scope Z_scope.

(** [Math.min], [Math.max] and [Math.abs]; NaN wins. *)
Definition minN (a b : num) : num :=
  match a, b with
  | NaN, _ | _, NaN => NaN
  | _, _ => if leb a b then a else b
  end.

Definition maxN (a b : num) : num :=
  match a, b with
  | NaN, _ | _, NaN => NaN
  | _, _ => if leb a b then b else a
  end.

Definition absN (a : num) : num :=
  match a with
  | NaN => NaN
  | NInf | PInf => PInf
  | Fin q => Fin (Qred (if Qnum q <? 0 then - q else q))
  end.

(** ToInt32 of a number: NaN and the infinities are 0, a finite number
    is truncated towards zero and wrapped. *)
Definition toInt32N (a : num) : Z :=
  match a with
  | Fin q => toInt32 (if Qnum q <? 0 then - Qfloor (- q) else Qfloor q)
  | _ => 0
  end.

(** An element of [ev.data]; [None] is [undefined]. *)
Definition dataAt (ev : MidiEvent) (i : nat) : option num :=
  nth_error (data ev) i.

(** [(ev.data[0] & 0xf0) === 0x90 && ev.data[2] > 0] *)
Definition isNoteOn (ev : MidiEvent) : bool :=
  (Z.land (match dataAt ev 0 with Some s => toInt32N s | None => 0 end) 240
   =? 144)
  && match dataAt ev 2 with Some v => gtb v (ofZ 0) | None => false end.

(** The globals the playback functions share. *)
Record State : Type := mkState {
  nextEventIndex : Z;
  currentTimeOffset : num;
  currentTargetNotes : list (option num);
  learningMode : bool;
  isPlaying : bool;
  startTime : num;
  playbackRate : num;
  totalDuration : num
}.

(** What the functions send on: a call of [handleMidi], of
    [visualizeNote] or of [hush]. *)
Inductive Output : Type :=
| HandleMidi (data : list num)
| VisualizeNote (data : list num)
| Hush.

(** The error of reading a property of [undefined]. *)
Definition undefinedDeref : string :=
  "TypeError: Cannot read properties of undefined".

Section Events.
(** The global [midiEvents]. *)
Variable midiEvents : list MidiEvent.

(** [midiEvents[i]]; [None] is [undefined]. *)
Definition eventAt (i : Z) : option MidiEvent :=
  if i <? 0 then None else nth_error midiEvents (Z.to_nat i).

(** [list.findIndex(p)], counted from [i]; -1 when there is none. *)
Fixpoint findIndexFrom (p : MidiEvent -> bool) (l : list MidiEvent) (i : Z)
    : Z :=
  match l with
  | [] => -1
  | ev :: r => if p ev then i else findIndexFrom p r (i + 1)
  end.

Definition findIndex (p : MidiEvent -> bool) : Z :=
  findIndexFrom p midiEvents 0.

(** [midiEvents.slice(start)] *)
Definition sliceFrom (start : Z) : list MidiEvent :=
  skipn (Z.to_nat (rel_index (Z.of_nat (List.length midiEvents)) start))
    midiEvents.

(** The loop of [prepareNextLearningStep] over the events from
    [lookAhead] on, [rest] being these events: the notes pushed to
    [currentTargetNotes] and the calls of [visualizeNote]. *)
Fixpoint lookAheadLoop (targetTime : num) (rest : list MidiEvent)
    : list (option num) * list Output :=
  match rest with
  | [] => ([], [])
  | ev :: r =>
      if ltb (absN (sub (time ev) targetTime)) (ofZ 50) then
        let '(notes, out) := lookAheadLoop targetTime r in
        if isNoteOn ev then
          (dataAt ev 1 :: notes, VisualizeNote (data ev) :: out)
        else (notes, out)
      else ([], [])
  end.

(** [prepareNextLearningStep()].  A call that throws leaves the globals
    as they were set before the error; they are not part of [Thrown]. *)
Definition prepareNextLearningStep (st : State)
    : Completion (State * list Output) :=
  if negb (learningMode st)
     || (Z.of_nat (List.length midiEvents) <=? nextEventIndex st)
  then Normal (st, [])
  else
    match find isNoteOn (sliceFrom (nextEventIndex st)) with
    | None =>
        Normal (mkState (nextEventIndex st) (currentTimeOffset st) []
                  (learningMode st) (isPlaying st) (startTime st)
                  (playbackRate st) (totalDuration st),
                [Hush])
    | Some nextNoteEvent =>
        let targetTime := time nextNoteEvent in
        let idx := findIndex (fun ev => eqb (time ev) targetTime) in
        if (idx <? 0) && (idx <? Z.of_nat (List.length midiEvents)) then
          Thrown undefinedDeref
        else
          let '(notes, out) :=
            lookAheadLoop targetTime (skipn (Z.to_nat idx) midiEvents) in
          Normal (mkState idx targetTime notes (learningMode st)
                    (isPlaying st) (startTime st) (playbackRate st)
                    (totalDuration st),
                  Hush :: out)
    end.

(** The loop of [advanceLearningStep] over the events from
    [nextEventIndex] on: the index it stops at. *)
Fixpoint advanceLoop (targetTime : num) (rest : list MidiEvent) (i : Z) : Z :=
  match rest with
  | [] => i
  | ev :: r =>
      if ltb (absN (sub (time ev) targetTime)) (ofZ 50)
      then advanceLoop targetTime r (i + 1)
      else i
  end.

(** [advanceLearningStep()] *)
Definition advanceLearningStep (st : State)
    : Completion (State * list Output) :=
  match eventAt (nextEventIndex st) with
  | None => Thrown undefinedDeref
  | Some ev =>
      let i :=
        advanceLoop (time ev)
          (skipn (Z.to_nat (nextEventIndex st)) midiEvents)
          (nextEventIndex st) in
      prepareNextLearningStep
        (mkState i (currentTimeOffset st) (currentTargetNotes st)
           (learningMode st) (isPlaying st) (startTime st)
           (playbackRate st) (totalDuration st))
  end.

(** The body of [seek] once [parseFloat(val)] is known; [now] is
    [performance.now()]. *)
Definition seekTo (t now : num) (st : State)
    : Completion (State * list Output) :=
  let idx := Z.max 0 (findIndex (fun ev => leb t (time ev))) in
  let start :=
    if isPlaying st then sub now (div t (playbackRate st))
    else startTime st in
  let st' :=
    mkState idx t (currentTargetNotes st) (learningMode st) (isPlaying st)
      start (playbackRate st) (totalDuration st) in
  if learningMode st then prepareNextLearningStep st' else Normal (st', []).

(** [seek(val)] *)
Definition seek (val : string) (now : num) (st : State)
    : Completion (State * list Output) :=
  seekTo (parseFloat val) now st.

(** [skip(ms)]: [seek] is given a number, which [parseFloat] reads back
    from its decimal form. *)
Definition skip (ms now : num) (st : State)
    : Completion (State * list Output) :=
  seekTo
    (minN (maxN (add (currentTimeOffset st) ms) (ofZ 0)) (totalDuration st))
    now st.

(** The [while] loop of [playLoop] over the events from
    [nextEventIndex] on: the data handed to [handleMidi] and the index
    the loop stops at. *)
Fixpoint fireLoop (t : num) (rest : list MidiEvent) (i : Z)
    : list Output * Z :=
  match rest with
  | [] => ([], i)
  | ev :: r =>
      if leb (time ev) t then
        let '(out, j) := fireLoop t r (i + 1) in
        (HandleMidi (data ev) :: out, j)
      else ([], i)
  end.

(** [playLoop()] at time [now]; [pausePlayback] is the [Hush] at the
    end. *)
Definition playLoop (now : num) (st : State)
    : Completion (State * list Output) :=
  if negb (isPlaying st) then Normal (st, [])
  else
    let t := mul (sub now (startTime st)) (playbackRate st) in
    if (nextEventIndex st <? 0)
       && (nextEventIndex st <? Z.of_nat (List.length midiEvents))
    then Thrown undefinedDeref
    else
      let '(out, i) :=
        fireLoop t (skipn (Z.to_nat (nextEventIndex st)) midiEvents)
          (nextEventIndex st) in
      if leb (totalDuration st) t then
        Normal (mkState i t (currentTargetNotes st) (learningMode st) false
                  (startTime st) (playbackRate st) (totalDuration st),
                out ++ [Hush])
      else
        Normal (mkState i t (currentTargetNotes st) (learningMode st) true
                  (startTime st) (playbackRate st) (totalDuration st),
                out).

End Events.

(** The events are in non-decreasing order of time. *)
Definition inOrder (evs : list MidiEvent) : Prop :=
  StronglySorted (fun a b => leb (time a) (time b) = true) evs.

(** Three events at times 0, 500 and 1000. *)
Definition threeEvents : list MidiEvent :=
  [ mkMidiEvent (ofZ 0) [ofZ 144; ofZ 60; ofZ 100];
    mkMidiEvent (ofZ 500) [ofZ 128; ofZ 60; ofZ 0];
    mkMidiEvent (ofZ 1000) [ofZ 144; ofZ 64; ofZ 100] ].

Definition stopped : State :=
  mkState 0 (ofZ 0) [] false false (ofZ 0) (ofZ 1) (ofZ 1000).

End Player.


(* ================================================================== *)
(** * [MXL2MIDI.convertOSMDToMIDI] *)
(* ================================================================== *)

Module Osmd.
Import JS Convert.

(** [pitch.halfTone]: missing ([undefined] or [null]), a number, or an
    object with an optional [realValue]. *)
Inductive HalfTone : Type :=
| HMissing
| HNum (n : num)
| HObj (realValue : option num).

(** The fields of a pitch that [pitchToMidi] reads; [None] is
    [undefined]. *)
Record Pitch : Type := mkPitch {
  halfTone : HalfTone;
  fundamentalNote : option num;
  octave : option num;
  accidental : option num
}.

Record Note : Type := mkNote {
  isRestFlag : bool;
  pitch : option Pitch;
  length : option num     (* [note.length?.realValue] *)
}.

Record VoiceEntry : Type := mkVoiceEntry { notes : option (list Note) }.

Record StaffEntry : Type := mkStaffEntry {
  voiceEntries : option (list VoiceEntry)
}.

Record Container : Type := mkContainer {
  timestamp : option num;     (* [container.timestamp?.realValue] *)
  staffEntries : option (list StaffEntry)
}.

Record SourceMeasure : Type := mkSourceMeasure {
  absoluteTimestamp : option num;   (* [measure.absoluteTimestamp?.realValue] *)
  verticalSourceStaffEntryContainers : option (list Container)
}.

Record Sheet : Type := mkSheet {
  defaultStartTempoInBpm : option num;
  sourceMeasures : list SourceMeasure
}.

(** [v || d] on an optional number. *)
Definition orElse (v : option num) (d : num) : num :=
  match v with
  | Some a => if truthy a then a else d
  | None => d
  end.

(** [a >= 0 && a <= 127] *)
Definition inMidiRange (a : num) : bool :=
  leb (ofZ 0) a && leb a (ofZ 127).

(** [noteOffsets[fundamental]]; [None] is [undefined]. *)
Definition noteOffsets (fundamental : num) : option num :=
  match fundamental with
  | Fin q =>
      if Qeq_bool q (inject_Z (Qfloor q)) && (0 <=? Qfloor q)%Z then
        option_map ofZ (nth_error [0; 2; 4; 5; 7; 9; 11]%Z (Z.to_nat (Qfloor q)))
      else None
  | _ => None
  end.

(** Priority 2 of [pitchToMidi]: from [fundamentalNote] and [octave]. *)
Definition fromOctave (p : Pitch) : option num :=
  match fundamentalNote p, octave p with
  | Some fundamental, Some oct =>
      if ltb fundamental (ofZ 0) || gtb fundamental (ofZ 6) then None
      else
        let midiNote :=
          match noteOffsets fundamental with
          | Some semitone =>
              add (add (mul (add oct (ofZ 1)) (ofZ 12)) semitone)
                  (orElse (accidental p) (ofZ 0))
          | None => NaN
          end in
        if ltb midiNote (ofZ 0) || gtb midiNote (ofZ 127) || isNaN midiNote
        then None
        else Some (add midiNote (ofZ 12))
  | _, _ => None
  end.

(** [pitchToMidi(pitch)] on a pitch that is there; [None] is [null]. *)
Definition pitchToMidi (p : Pitch) : option num :=
  let midiValue :=
    match halfTone p with
    | HMissing => None
    | HNum n => Some n
    | HObj (Some v) => Some v
    | HObj None => Some NaN     (* [Number] of the object *)
    end in
  match midiValue with
  | Some v =>
      if negb (isNaN v) && inMidiRange v
      then Some (add (round v) (ofZ 12))
      else fromOctave p
  | None => fromOctave p
  end.

Section Walk.
Variable msPerBeat : num.

(** The body of [voiceEntry.notes.forEach]; the times are computed in
    binary64, as in [convertToMIDI]. *)
Definition noteOf (absoluteTime : num) (n : Note) : list TimedNote :=
  match pitch n with
  | Some p =>
      if isRestFlag n then []
      else
        let dur := orElse (length n) (Fin (1 # 4)) in
        match pitchToMidi p with
        | Some m =>
            if negb (isNaN m) && inMidiRange m then
              let startTimeMs :=
                mul64 (mul64 absoluteTime msPerBeat) (ofZ 4) in
              let durationMs := mul64 (mul64 dur msPerBeat) (ofZ 4) in
              [mkTimedNote m startTimeMs (add64 startTimeMs durationMs) dur]
            else []
        | None => []
        end
  | None => []
  end.

(** [list.forEach] on a list that may be missing. *)
Definition each {A B : Type} (f : A -> list B) (l : option (list A))
    : list B :=
  match l with
  | Some xs => flat_map f xs
  | None => []
  end.

Definition containerNotes (measureStartTime : num) (c : Container)
    : list TimedNote :=
  let absoluteTime :=
    add64 measureStartTime (orElse (timestamp c) (ofZ 0)) in
  each
    (fun staffEntry =>
       each (fun voiceEntry => each (noteOf absoluteTime) (notes voiceEntry))
         (voiceEntries staffEntry))
    (staffEntries c).

Definition measureNotes (m : SourceMeasure) : list TimedNote :=
  each (containerNotes (orElse (absoluteTimestamp m) (ofZ 0)))
    (verticalSourceStaffEntryContainers m).
End Walk.

(** [allNotes] of the sheet. *)
Definition osmdNotes (sheet : Sheet) : list TimedNote :=
  let bpm := orElse (defaultStartTempoInBpm sheet) (ofZ 120) in
  let msPerBeat := div64 (ofZ 60000) bpm in
  flat_map (measureNotes msPerBeat) (sourceMeasures sheet).

(** The test of the event generation: the note is reported as invalid
    and skipped. *)
Definition invalidNote (n : TimedNote) : bool :=
  isNaN (midiNote n) || ltb (midiNote n) (ofZ 0)
  || gtb (midiNote n) (ofZ 127).

(** [convertOSMDToMIDI(osmd)] on [osmd.Sheet]; [None] is a missing
    [osmd] or [Sheet] on the way in and [null] on the way out.  The
    deduplication is the code of [convertToMIDI]. *)
Definition convertOSMDToMIDI (sheet : option Sheet) : option MidiResult :=
  match sheet with
  | None => None
  | Some sh =>
      let kept := filter (fun n => negb (invalidNote n)) (dedup (osmdNotes sh)) in
      let midiEvents := sort byTime (flat_map noteEvents kept) in
      Some (mkMidiResult midiEvents (List.map notePair kept)
              (lastTime midiEvents))
  end.

(** A sheet of one measure with a C4 given by [halfTone] 48 and a note
    whose [halfTone] of 120 leaves the MIDI range after the octave
    correction. *)
Definition sampleSheet : Sheet :=
  mkSheet (Some (ofZ 120))
    [ mkSourceMeasure (Some (ofZ 0))
        (Some
           [ mkContainer (Some (ofZ 0))
               (Some
                  [ mkStaffEntry
                      (Some
                         [ mkVoiceEntry
                             (Some
                                [ mkNote false
                                    (Some (mkPitch (HNum (ofZ 48)) None None None))
                                    (Some (Fin (1 # 4)));
                                  mkNote false
                                    (Some (mkPitch (HNum (ofZ 120)) None None None))
                                    (Some (Fin (1 # 4))) ]) ]) ]) ]) ].

End Osmd.


(* ================================================================== *)
(** * Light commands: [visualizeNote] and the firmware's [processCommand] *)
(* ================================================================== *)

Module Lights.
Import JS Bytes Dom Player.
Local Open Scope Z_scope.

(** ** The application script *)

(** The integer a finite number is, if it is one. *)
Definition asInteger (a : num) : option Z :=
  match a with
  | Fin q => if Qeq_bool q (inject_Z (Qfloor q)) then Some (Qfloor q) else None
  | _ => None
  end.

(** [a % b] *)
Definition remN (a b : num) : num :=
  match a, b with
  | Fin x, Fin y =>
      if Qeq_bool y 0 then NaN
      else
        let t := (x / y)%Q in
        let k := if Qnum t <? 0 then - Qfloor (- t) else Qfloor t in
        Fin (Qred (x - y * inject_Z k))
  | Fin x, (PInf | NInf) => a
  | _, _ => NaN
  end.

(** [blackKeyPattern[k] === 1] *)
Definition isBlackKey (k : num) : bool :=
  match asInteger k with
  | Some i =>
      (0 <=? i)
      && match nth_error [0; 1; 0; 1; 0; 0; 1; 0; 1; 0; 1; 0] (Z.to_nat i) with
         | Some v => v =? 1
         | None => false
         end
  | None => false
  end.

(** [parseInt(s, 16)] *)
Definition parseInt16 (s : string) : num :=
  let '(sign, s1) := readSign (trimStart s) in
  let s2 :=
    match s1 with
    | String "0" (String "x" r) | String "0" (String "X" r) => r
    | _ => s1
    end in
  match readDigits 16 s2 None 0 with
  | (Some v, _, _) => ofZ (sign * v)
  | (None, _, _) => NaN
  end.

(** [(n).toString()] of an integer. *)
Definition showInt (z : Z) : string :=
  if z <? 0 then String "-" (natToString (Z.to_nat (- z)))
  else natToString (Z.to_nat z).

(** A number in a template literal.  The decimal form of a number that
    is not an integer is outside the model: [None]. *)
Definition showNum (a : num) : option string :=
  match a with
  | NaN => Some "NaN"%string
  | PInf => Some "Infinity"%string
  | NInf => Some "-Infinity"%string
  | Fin _ => option_map showInt (asInteger a)
  end.

Section Page.
(** The values of the inputs of the page, the flag [rainbow] and
    [hslToRgb]. *)
Variable octaveShift transpose brightness : string.
Variable blackKeyColor whiteKeyColor : string.
Variable rainbow : bool.
Variable hslToRgb : num -> num -> num -> num * num * num.

(** [index] of [visualizeNote]. *)
Definition ledIndex (note : num) : num :=
  mul (sub (add (add note (mul (parseInt octaveShift) (ofZ 12)))
                (parseInt transpose))
           (ofZ 21))
      (ofZ 2).

(** [visualizeNote(data, skipLights)], the serial port: the five numbers
    of the command written, if one is; [writer] says that the port is
    open.  A missing element of [data] is NaN here: the sum, the
    remainder, the bit mask and the comparison read [undefined] as they
    read NaN. *)
Definition visualizeNote (writer skipLights : bool)
    (status note velocity : num) : option (list num) :=
  let isNoteOn :=
    (Z.land (toInt32N status) 240 =? 144) && gtb velocity (ofZ 0) in
  if negb writer || skipLights then None
  else
    let index := ledIndex note in
    if leb (ofZ 0) index && ltb index (ofZ 288) then
      if isNoteOn then
        let hex :=
          if isBlackKey (remN note (ofZ 12)) then blackKeyColor
          else whiteKeyColor in
        let '(r, g, b) :=
          if rainbow then hslToRgb (div (remN note (ofZ 12)) (ofZ 12))
                            (ofZ 1) (Fin (1 # 2))
          else (parseInt16 (substring 1 2 hex),
                parseInt16 (substring 3 2 hex),
                parseInt16 (substring 5 2 hex)) in
        Some [index; r; g; b; parseInt brightness]
      else Some [index; ofZ 0; ofZ 0; ofZ 0; ofZ 0]
    else None.
End Page.

(** The line written for five numbers, without the newline that ends
    it. *)
Definition commandLine (fields : list num) : option string :=
  match List.map showNum fields with
  | [Some i; Some r; Some g; Some b; Some bright] =>
      Some (i ++ "," ++ r ++ "," ++ g ++ "," ++ b ++ "," ++ bright)%string
  | _ => None
  end.

(** ** The firmware *)

(** [isspace] *)
Definition isSpace (c : ascii) : bool :=
  let n := nat_of_ascii c in
  ((9 <=? n) && (n <=? 13))%nat || (n =? 32)%nat.

Fixpoint skipSpaces (s : string) : string :=
  match s with
  | String c r => if isSpace c then skipSpaces r else s
  | EmptyString => s
  end.

(** The conversion [%d] of [sscanf]: white space, a sign, decimal
    digits.  The value is taken as it is written; a number outside the
    range of [int] is outside the model. *)
Definition scanInt (s : string) : option (Z * string) :=
  let '(sign, s1) := readSign (skipSpaces s) in
  match readDigits 10 s1 None 0 with
  | (Some v, _, rest) => Some (sign * v, rest)
  | (None, _, _) => None
  end.

(** The value [readDigits] has read so far. *)
Definition valueOf (v : option Z) : Z :=
  match v with Some a => a | None => 0 end.

(** A comma of the format. *)
Definition scanComma (s : string) : option string :=
  match s with
  | String "," r => Some r
  | _ => None
  end.

(** [sscanf(command, "%d,%d,%d,%d,%d", ...)] when it finds all five
    numbers; [None] is a smaller count. *)
Definition sscanf5 (command : string) : option (Z * Z * Z * Z * Z) :=
  match scanInt command with
  | Some (i, s1) =>
  match scanComma s1 with
  | Some s2 =>
  match scanInt s2 with
  | Some (r, s3) =>
  match scanComma s3 with
  | Some s4 =>
  match scanInt s4 with
  | Some (g, s5) =>
  match scanComma s5 with
  | Some s6 =>
  match scanInt s6 with
  | Some (b, s7) =>
  match scanComma s7 with
  | Some s8 =>
  match scanInt s8 with
  | Some (bright, _) => Some (i, r, g, b, bright)
  | None => None
  end
  | None => None
  end
  | None => None
  end
  | None => None
  end
  | None => None
  end
  | None => None
  end
  | None => None
  end
  | None => None
  end
  | None => None
  end.

Definition NUM_LEDS : Z := 144.

Section Strip.
(** A colour of the strip, black, and the colour [CRGB(r, g, b)] after
    [nscale8_video(map(brightness_percent, 0, 100, 0, 255))]. *)
Variable Colour : Type.
Variable black : Colour.
Variable scaled : Z -> Z -> Z -> Z -> Colour.

(** [leds[i] = c] for [i] inside the array. *)
Fixpoint setLed (leds : list Colour) (i : nat) (c : Colour) : list Colour :=
  match leds, i with
  | [], _ => []
  | _ :: r, O => c :: r
  | x :: r, S j => x :: setLed r j c
  end.

(** [processCommand(command)] on the array [leds]. *)
Definition processCommand (command : string) (leds : list Colour)
    : list Colour :=
  match sscanf5 command with
  | Some (led_index, r, g, b, brightness_percent) =>
      if (0 <=? led_index) && (led_index <? NUM_LEDS) then
        if (brightness_percent =? 0)
           || ((r =? 0) && (g =? 0) && (b =? 0))
        then setLed leds (Z.to_nat led_index) black
        else setLed leds (Z.to_nat led_index)
               (scaled r g b brightness_percent)
      else leds
  | None => leds
  end.
End Strip.

(** The integers every C [int] holds, whatever the board. *)
Definition inIntRange (z : Z) : Prop := -32767 <= z <= 32767.

(** The command is followed by the end of the line or by a comma. *)
Definition afterNumber (rest : string) : Prop :=
  rest = EmptyString \/ exists r, rest = String "," r.

End Lights.


(* ================================================================== *)
(** * Loading a score: [parseXMLFile] and the deferred [renderOSMD] *)
(* ================================================================== *)

Module Loader.
Import JS Convert Player.
Local Open Scope Z_scope.

(** The globals of the application script that loading a score reads
    and writes. *)
Record Globals : Type := mkGlobals {
  player : State;
  events : list MidiEvent;                      (* [midiEvents] *)
  currentXMLString : option Fallback.jsstring;  (* [None] is [null] *)
  firstNoteOffset : num;
  isRendering : bool
}.

(** [clearCurrentFile()]: the globals it resets, and the calls of
    [hush] (one more through [pausePlayback] when the player was
    running). *)
Definition clearCurrentFile (g : Globals) : Globals * list Output :=
  let st := player g in
  (mkGlobals
     (mkState 0 (ofZ 0) (currentTargetNotes st) (learningMode st) false
        (ofZ 0) (playbackRate st) (ofZ 0))
     [] None (firstNoteOffset g) (isRendering g),
   (if isPlaying st then [Hush] else []) ++ [Hush]).

(** [parseXMLFile(e)] for a chosen file, given what
    [mxlConverter.parseFile(file)] settles to: a rejection is caught and
    logged, a failure is logged, and a success is converted and loaded.
    The function is asynchronous: [clearCurrentFile] runs on the
    globals as they are when it is called, and what follows the [await]
    runs on the globals as they are when it is [resumed], which are the
    cleared ones when nothing else ran in between.  The boolean says
    whether the timer that calls [renderOSMD] 100 ms later has been
    set. *)
Definition parseXMLFile (result : Completion Extract.ParseResult)
    (g resumed : Globals) : Globals * list Output * bool :=
  let '(_, out) := clearCurrentFile g in
  match result with
  | Normal (Extract.Success xmlString scoreData) =>
      let st := player resumed in
      let conversionResult := convertToMIDI (Some scoreData) in
      (mkGlobals
         (mkState 0 (ofZ 0) (currentTargetNotes st) (learningMode st)
            (isPlaying st) (startTime st) (playbackRate st)
            (Convert.totalDuration conversionResult))
         (midiEvents conversionResult) (Some xmlString)
         (firstNoteOffset resumed) (isRendering resumed),
       out, true)
  | _ => (resumed, out, false)
  end.

(** What the score library does for [renderOSMD]: it is not loaded, a
    call into it throws, or it renders and leaves [osmd.Sheet]. *)
Inductive Rendering : Type :=
| NoLibrary
| Failed (error : string)
| Rendered (sheet : option Osmd.Sheet).

(** The assignments of [renderOSMD] once the conversion has events. *)
Definition useConversion (osmdResult : MidiResult) (g : Globals) : Globals :=
  let st := player g in
  mkGlobals
    (mkState 0 (ofZ 0) (currentTargetNotes st) (learningMode st)
       (isPlaying st) (startTime st) (playbackRate st)
       (Convert.totalDuration osmdResult))
    (midiEvents osmdResult) (currentXMLString g)
    (match find isNoteOn (midiEvents osmdResult) with
     | Some firstNoteOn => time firstNoteOn
     | None => ofZ 0
     end)
    false.

Definition rendered (g : Globals) : Globals :=
  mkGlobals (player g) (events g) (currentXMLString g) (firstNoteOffset g)
    false.

(** [renderOSMD()].  The function is asynchronous: the two tests at its
    head read the globals as they are when it is [called]; the
    conversion and the assignments run after the library has loaded and
    rendered the score, on the globals as they are when the function is
    [resumed]. *)
Definition renderOSMD (lib : Rendering) (called resumed : Globals)
    : Globals :=
  if negb (Extract.present (currentXMLString called)) then called
  else if isRendering called then called
  else
    match lib with
    | NoLibrary => rendered called
    | Failed _ => rendered resumed
    | Rendered sheet =>
        match Osmd.convertOSMDToMIDI sheet with
        | Some osmdResult =>
            match midiEvents osmdResult with
            | [] => rendered resumed
            | _ :: _ => useConversion osmdResult resumed
            end
        | None => rendered resumed
        end
    end.

(** The callback of the timer [parseXMLFile] sets. *)
Definition timerCallback (lib : Rendering) (called resumed : Globals)
    : Globals :=
  if Extract.present (currentXMLString called)
  then renderOSMD lib called resumed
  else called.

(** What [seek], [skip] and [playLoop] rely on: the events are in time
    order, [totalDuration] is the time of the last of them and is not
    NaN, and no event is later. *)
Definition ready (g : Globals) : Prop :=
  inOrder (events g)
  /\ Player.totalDuration (player g) = lastTime (events g)
  /\ isNaN (Player.totalDuration (player g)) = false
  /\ forall e, In e (events g) ->
       leb (time e) (Player.totalDuration (player g)) = true.

(** Note times that are numbers. *)
Definition timed (l : list TimedNote) : Prop :=
  Forall
    (fun n => isNaN (Convert.startTime n) = false
              /\ isNaN (Convert.endTime n) = false) l.

(** A player that runs on [threeEvents], 700 ms into the piece. *)
Definition runningPlayer : Globals :=
  mkGlobals (mkState 3 (ofZ 700) [] false true (ofZ 10) (ofZ 1) (ofZ 9000))
    threeEvents None (ofZ 0) false.

End Loader.

(* ================================================================== *)
(** * Rounding to binary64 and the key of the deduplication *)
(* ================================================================== *)

Module RoundingFacts.
Import JS Convert.
Local Open Scope Q_scope.

(** *** The nearest integer *)

Lemma roundEven_error (q : Q) : Qabs (inject_Z (roundEven q) - q) <= 1 # 2.
Proof.
  unfold roundEven.
  pose proof (Qfloor_le q) as Hl. pose proof (Qlt_floor q) as Hu.
  rewrite inject_Z_plus in Hu. change (inject_Z 1) with 1 in Hu.
  apply Qabs_Qle_condition.
  destruct (q - inject_Z (Qfloor q) ?= 1 # 2) eqn:E.
  - apply Qeq_alt in E.
    destruct (Z.even (Qfloor q)); rewrite ?inject_Z_plus;
      change (inject_Z 1) with 1; lra.
  - apply Qlt_alt in E. lra.
  - apply Qgt_alt in E. rewrite inject_Z_plus.
    change (inject_Z 1) with 1. lra.
Qed.

(** *** Powers of two *)

Lemma pow2_pos (e : Z) : 0 < pow2 e.
Proof. apply Qpower_0_lt. reflexivity. Qed.

Lemma pow2_add (a b : Z) : pow2 (a + b) == pow2 a * pow2 b.
Proof. apply Qpower_plus. discriminate. Qed.

Lemma pow2_le (a b : Z) : (a <= b)%Z -> pow2 a <= pow2 b.
Proof. intro H. apply Qpower_le_compat_l; [exact H | discriminate]. Qed.

Lemma pow2_lt_inv (a b : Z) : pow2 a < pow2 b -> (a < b)%Z.
Proof. intro H. apply (Qpower_lt_compat_l_inv (2 # 1)); [exact H | reflexivity]. Qed.

Lemma pow2_Z (e : Z) : (0 <= e)%Z -> pow2 e == inject_Z (2 ^ e).
Proof. intro H. symmetry. apply (Zpower_Qpower 2 e H). Qed.

Lemma pow2_half (e : Z) : pow2 (e - 1) == pow2 e * (1 # 2).
Proof.
  unfold Z.sub. rewrite pow2_add. reflexivity.
Qed.

(** *** The exponent of a number *)

Lemma ilog2_lower (q : Q) : ~ q == 0 -> pow2 (ilog2 q) <= Qabs q.
Proof.
  intro Hq. unfold ilog2.
  set (a := Z.abs (Qnum q)). set (b := Zpos (Qden q)).
  set (e := (Z.log2 a - Z.log2 b)%Z).
  destruct (Qle_bool (pow2 e) (Qabs q)) eqn:T.
  - apply Qle_bool_iff. exact T.
  - clear T.
    assert (Ha : (0 < a)%Z).
    { subst a. destruct q as [n d]. cbn [Qnum].
      assert (n <> 0%Z).
      { intro Hn. apply Hq. subst n. reflexivity. }
      lia. }
    assert (Hb : (0 < b)%Z) by (subst b; lia).
    destruct (Z.log2_spec a Ha) as [Hal _].
    destruct (Z.log2_spec b Hb) as [_ Hbu].
    assert (Habs : Qabs q == inject_Z a / inject_Z b).
    { destruct q as [n d]. subst a b. cbn [Qabs Qnum Qden].
      apply Qmake_Qdiv. }
    rewrite Habs.
    apply Qle_shift_div_l.
    { change 0 with (inject_Z 0). rewrite <- Zlt_Qlt. exact Hb. }
    apply Qle_trans with (pow2 (e - 1) * pow2 (Z.succ (Z.log2 b))).
    + apply Qmult_le_l; [apply pow2_pos |].
      rewrite pow2_Z by (pose proof (Z.log2_nonneg b); lia).
      rewrite <- Zle_Qle. lia.
    + rewrite <- pow2_add.
      replace (e - 1 + Z.succ (Z.log2 b))%Z with (Z.log2 a) by (subst e; lia).
      rewrite pow2_Z by apply Z.log2_nonneg.
      rewrite <- Zle_Qle. exact Hal.
Qed.

Lemma ilog2_below (q : Q) (E : Z) :
  ~ q == 0 -> Qabs q < pow2 E -> (ilog2 q < E)%Z.
Proof.
  intros Hq H. apply pow2_lt_inv.
  apply Qle_lt_trans with (Qabs q); [now apply ilog2_lower | exact H].
Qed.

(** *** The error of a rounding to binary64 *)

Lemma binary64_error (q : Q) (E : Z) :
  (-1021 <= E <= 1000)%Z -> Qabs q < pow2 E ->
  exists r, binary64 q = Fin r /\ Qabs (r - q) <= pow2 (E - 54).
Proof.
  intros HE Hq. unfold binary64.
  destruct (Qeq_bool q 0) eqn:Z0.
  - apply Qeq_bool_eq in Z0. exists 0. split; [reflexivity |].
    setoid_replace (0 - q) with 0 by (rewrite Z0; ring).
    apply Qlt_le_weak. apply pow2_pos.
  - apply Qeq_bool_neq in Z0.
    pose proof (ilog2_below q E Z0 Hq) as He.
    set (e := Z.max (ilog2 q) (-1022)).
    assert (Hee : (e <= E - 1)%Z) by (subst e; lia).
    set (ulp := pow2 (e - 52)).
    assert (Hup : 0 < ulp) by apply pow2_pos.
    assert (Hub : ulp * (1 # 2) <= pow2 (E - 54)).
    { subst ulp. rewrite <- pow2_half. apply pow2_le. lia. }
    set (m := roundEven (q / ulp)).
    pose proof (roundEven_error (q / ulp)) as Hm. fold m in Hm.
    assert (Herr : Qabs (inject_Z m * ulp - q) <= pow2 (E - 54)).
    { apply Qle_trans with (ulp * (1 # 2)); [|exact Hub].
      setoid_replace (inject_Z m * ulp - q)
        with ((inject_Z m - q / ulp) * ulp)
        by (field; intro H0; rewrite H0 in Hup; discriminate Hup).
      rewrite Qabs_Qmult, (Qabs_pos ulp) by (now apply Qlt_le_weak).
      rewrite (Qmult_comm ulp).
      apply Qmult_le_compat_r; [exact Hm | now apply Qlt_le_weak]. }
    assert (Hno : Qle_bool (pow2 1024) (Qabs (inject_Z m * ulp)) = false).
    { destruct (Qle_bool (pow2 1024) (Qabs (inject_Z m * ulp))) eqn:T;
        [|reflexivity].
      apply Qle_bool_iff in T. exfalso.
      assert (Hr : Qabs (inject_Z m * ulp) < pow2 (E + 1)).
      { apply Qle_lt_trans with (Qabs q + pow2 (E - 54)).
        - setoid_replace (inject_Z m * ulp)
            with (q + (inject_Z m * ulp - q)) by ring.
          apply Qle_trans with (Qabs q + Qabs (inject_Z m * ulp - q));
            [apply Qabs_triangle |].
          apply Qplus_le_r. exact Herr.
        - rewrite (pow2_add E 1).
          assert (pow2 (E - 54) <= pow2 E) by (apply pow2_le; lia).
          change (pow2 1) with (2 # 1). lra. }
      assert (pow2 (E + 1) <= pow2 1024) by (apply pow2_le; lia).
      lra. }
    rewrite Hno. eexists. split; [reflexivity |].
    rewrite Qred_correct. exact Herr.
Qed.

(** *** The key of the deduplication *)

Lemma floor_unique (x : Q) (k : Z) :
  inject_Z k <= x -> x < inject_Z k + 1 -> Qfloor x = k.
Proof.
  intros Hl Hu.
  pose proof (Qfloor_le x) as Fl. pose proof (Qlt_floor x) as Fu.
  rewrite inject_Z_plus in Fu. change (inject_Z 1) with 1 in Fu.
  assert (H1 : inject_Z (Qfloor x) < inject_Z (k + 1)).
  { rewrite inject_Z_plus. change (inject_Z 1) with 1. lra. }
  assert (H2 : inject_Z k < inject_Z (Qfloor x + 1)).
  { rewrite inject_Z_plus. change (inject_Z 1) with 1. lra. }
  rewrite <- Zlt_Qlt in H1, H2. lia.
Qed.

Lemma clearOfTies_spec (t : Q) :
  clearOfTies t = true ->
  Qabs t <= 1099511627776
  /\ (t * 100 - inject_Z (Qfloor (t * 100)) <= 49 # 100
      \/ 51 # 100 <= t * 100 - inject_Z (Qfloor (t * 100))).
Proof.
  unfold clearOfTies. intro H. apply andb_prop in H. destruct H as [Hs Hf].
  apply Qle_bool_iff in Hs. split; [exact Hs |].
  apply orb_prop in Hf. destruct Hf as [Hf | Hf]; apply Qle_bool_iff in Hf;
    [left | right]; exact Hf.
Qed.

Lemma hundredths_bound (t : Q) :
  Qabs t <= 1099511627776 ->
  Qabs (inject_Z (hundredths t)) <= 109951162777601.
Proof.
  intro H. apply Qabs_Qle_condition in H. unfold hundredths.
  pose proof (Qfloor_le (t * 100 + (1 # 2))) as Fl.
  pose proof (Qlt_floor (t * 100 + (1 # 2))) as Fu.
  rewrite inject_Z_plus in Fu. change (inject_Z 1) with 1 in Fu.
  apply Qabs_Qle_condition. lra.
Qed.

(** The product with 100 rounds to the hundredths of the start time. *)
Lemma product_rounds (t : Q) :
  clearOfTies t = true ->
  round (mul64 (Fin t) (ofZ 100)) = ofZ (hundredths t).
Proof.
  intro H. apply clearOfTies_spec in H. destruct H as [Hs Hf].
  unfold mul64, mul, ofZ. change (inject_Z 100) with 100.
  destruct (binary64_error (Qred (t * 100)) 47) as [p [Hp He]]; [lia | |].
  { rewrite Qred_correct, Qabs_Qmult.
    assert (P : pow2 47 == 140737488355328) by reflexivity.
    rewrite P. change (Qabs 100) with 100.
    pose proof (Qabs_nonneg t). lra. }
  rewrite Hp. unfold round, ofZ. do 2 f_equal.
  rewrite Qred_correct in He.
  assert (P : pow2 (47 - 54) == 1 # 128) by reflexivity.
  rewrite P in He. apply Qabs_Qle_condition in He.
  pose proof (Qfloor_le (t * 100)) as Fl.
  pose proof (Qlt_floor (t * 100)) as Fu.
  rewrite inject_Z_plus in Fu. change (inject_Z 1) with 1 in Fu.
  destruct Hf as [Hf | Hf].
  - assert (Hh : hundredths t = Qfloor (t * 100)).
    { unfold hundredths. apply floor_unique; lra. }
    rewrite Hh. apply floor_unique; lra.
  - assert (Hh : hundredths t = (Qfloor (t * 100) + 1)%Z).
    { unfold hundredths. apply floor_unique;
        rewrite inject_Z_plus; change (inject_Z 1) with 1; lra. }
    rewrite Hh. apply floor_unique;
      rewrite inject_Z_plus; change (inject_Z 1) with 1; lra.
Qed.

Lemma timeKey_hundredths (n : TimedNote) (t : Q) :
  startTime n = Fin t -> clearOfTies t = true ->
  timeKey n = div64 (ofZ (hundredths t)) (ofZ 100).
Proof.
  intros Hn H. unfold timeKey. now rewrite Hn, product_rounds.
Qed.

(** The key is within [2^-13] of the hundredths divided by 100. *)
Lemma timeKey_near (n : TimedNote) (t : Q) :
  startTime n = Fin t -> clearOfTies t = true ->
  exists r, timeKey n = Fin r
    /\ Qabs (r - inject_Z (hundredths t) / 100) <= 1 # 8192.
Proof.
  intros Hn H. rewrite (timeKey_hundredths n t Hn H).
  apply clearOfTies_spec in H. destruct H as [Hs _].
  pose proof (hundredths_bound t Hs) as Hb.
  unfold div64, div, ofZ. change (inject_Z 100) with 100.
  change (qsign 100) with Gt. cbv iota.
  destruct (binary64_error (Qred (inject_Z (hundredths t) / 100)) 41)
    as [r [Hr He]]; [lia | |].
  { rewrite Qred_correct.
    assert (P : pow2 41 == 2199023255552) by reflexivity.
    rewrite P.
    apply Qabs_Qle_condition in Hb.
    unfold Qdiv. change (/ 100) with (1 # 100).
    apply Qabs_case; intro; lra. }
  exists r. split; [exact Hr |].
  rewrite Qred_correct in He.
  assert (P : pow2 (41 - 54) == 1 # 8192) by reflexivity.
  now rewrite P in He.
Qed.

(** Clear of ties, two start times have one key exactly when they are
    the same number of hundredths. *)
Lemma same_key_iff (a b : TimedNote) (ta tb : Q) :
  startTime a = Fin ta -> startTime b = Fin tb ->
  clearOfTies ta = true -> clearOfTies tb = true ->
  sameValueZero (timeKey a) (timeKey b)
  = (hundredths ta =? hundredths tb)%Z.
Proof.
  intros Ha Hb Ca Cb.
  destruct (Z.eqb_spec (hundredths ta) (hundredths tb)) as [E | E].
  - rewrite (timeKey_hundredths a ta Ha Ca), (timeKey_hundredths b tb Hb Cb), E.
    destruct (div64 (ofZ (hundredths tb)) (ofZ 100)) as [| | |q];
      try reflexivity.
    cbn. apply Qeq_bool_refl.
  - destruct (timeKey_near a ta Ha Ca) as [ra [Hra Ea]].
    destruct (timeKey_near b tb Hb Cb) as [rb [Hrb Eb]].
    rewrite Hra, Hrb. cbn.
    destruct (Qeq_bool ra rb) eqn:Q; [|reflexivity].
    apply Qeq_bool_eq in Q. exfalso.
    apply Qabs_Qle_condition in Ea, Eb.
    unfold Qdiv in Ea, Eb. change (/ 100) with (1 # 100) in Ea, Eb.
    assert (Hd : (hundredths ta < hundredths tb \/ hundredths tb < hundredths ta)%Z)
      by lia.
    destruct Hd as [Hd | Hd].
    + assert (H1 : inject_Z (hundredths ta) + 1 <= inject_Z (hundredths tb)).
      { change 1 with (inject_Z 1). rewrite <- inject_Z_plus, <- Zle_Qle. lia. }
      lra.
    + assert (H1 : inject_Z (hundredths tb) + 1 <= inject_Z (hundredths ta)).
      { change 1 with (inject_Z 1). rewrite <- inject_Z_plus, <- Zle_Qle. lia. }
      lra.
Qed.

End RoundingFacts.

(* ================================================================== *)
(** * Order and subtraction on numbers *)
(* ================================================================== *)

Module NumFacts.
Import JS Convert.

Lemma qcompare_sub_gt (x y : Q) :
  (0 ?= Qred (x + Qred (- y)))%Q = Lt <-> (y ?= x)%Q = Lt.
Proof.
  rewrite <- !Qlt_alt.
  rewrite Qred_correct, Qred_correct.
  split; intro H.
  - apply Qlt_minus_iff. exact H.
  - apply Qlt_minus_iff in H. exact H.
Qed.

Lemma gtb_sub_true (x y : num) :
  gtb (sub x y) (Fin 0) = true -> leb y x = true.
Proof.
  destruct x as [| | |a], y as [| | |b]; try discriminate; try reflexivity.
  unfold gtb, sub, add, neg, ltb, leb.
  destruct (0 ?= Qred (a + Qred (- b)))%Q eqn:E; intro H; try discriminate H.
  apply (proj1 (qcompare_sub_gt a b)) in E.
  now rewrite E.
Qed.

Lemma gtb_sub_false (x y : num) :
  isNaN x = false -> isNaN y = false ->
  gtb (sub x y) (Fin 0) = false -> leb x y = true.
Proof.
  destruct x as [| | |a], y as [| | |b]; try discriminate; try reflexivity.
  intros _ _. unfold gtb, sub, add, neg, ltb, leb.
  destruct (0 ?= Qred (a + Qred (- b)))%Q eqn:E; intro H; try discriminate H.
  - destruct (a ?= b)%Q eqn:E'; try reflexivity.
    exfalso. apply Qgt_alt in E'. apply Qlt_alt in E'.
    apply (proj2 (qcompare_sub_gt a b)) in E'. congruence.
  - destruct (a ?= b)%Q eqn:E'; try reflexivity.
    exfalso. apply Qgt_alt in E'. apply Qlt_alt in E'.
    apply (proj2 (qcompare_sub_gt a b)) in E'. congruence.
Qed.

Lemma leb_refl (x : num) : isNaN x = false -> leb x x = true.
Proof.
  destruct x; try discriminate; try reflexivity.
  intros _. unfold leb. now rewrite (proj1 (Qeq_alt q q) (Qeq_refl q)).
Qed.

Lemma leb_trans (x y z : num) :
  leb x y = true -> leb y z = true -> leb x z = true.
Proof.
  destruct x as [| | |a], y as [| | |b], z as [| | |c];
    try discriminate; try reflexivity.
  unfold leb.
  destruct (a ?= b)%Q eqn:E1; try discriminate;
  destruct (b ?= c)%Q eqn:E2; try discriminate; intros _ _;
  destruct (a ?= c)%Q eqn:E3; try reflexivity; exfalso;
  try apply Qeq_alt in E1; try apply Qlt_alt in E1;
  try apply Qeq_alt in E2; try apply Qlt_alt in E2;
  apply Qgt_alt in E3.
  - rewrite E1, E2 in E3. now apply Qlt_irrefl in E3.
  - rewrite E1 in E3. apply (Qlt_irrefl b). now apply Qlt_trans with c.
  - rewrite <- E2 in E3. apply (Qlt_irrefl b). now apply Qlt_trans with a.
  - apply (Qlt_irrefl a). apply Qlt_trans with b; auto. now apply Qlt_trans with c.
Qed.

End NumFacts.

(* ================================================================== *)
(** * The sort *)
(* ================================================================== *)

Module SortFacts.
Import JS Convert NumFacts.

Section Generic.
Variable A : Type.
Variable cmp : A -> A -> num.

Lemma insert_perm (x : A) (l : list A) : Permutation (insert cmp x l) (x :: l).
Proof.
  induction l as [|y r IH]; cbn [insert].
  - apply Permutation_refl.
  - destruct (gtb (cmp x y) (Fin 0)).
    + apply perm_trans with (y :: x :: r).
      * now apply perm_skip.
      * apply perm_swap.
    + apply Permutation_refl.
Qed.

Lemma sort_perm (l : list A) : Permutation (sort cmp l) l.
Proof.
  induction l as [|x r IH]; cbn [sort].
  - apply perm_nil.
  - apply perm_trans with (x :: sort cmp r).
    + apply insert_perm.
    + now apply perm_skip.
Qed.
End Generic.

(** Sorting by a numeric key with the comparator [key a - key b]. *)
Section ByKey.
Variable A : Type.
Variable key : A -> num.

Lemma insert_hdrel (x y : A) (l : list A) :
  leb (key y) (key x) = true ->
  HdRel (fun a b => leb (key a) (key b) = true) y l ->
  HdRel (fun a b => leb (key a) (key b) = true) y
    (insert (fun a b => sub (key a) (key b)) x l).
Proof.
  intros Hyx Hl. destruct l as [|z r]; cbn [insert].
  - now constructor.
  - destruct (gtb (sub (key x) (key z)) (Fin 0)).
    + inversion Hl; subst. now constructor.
    + now constructor.
Qed.

Lemma insert_sorted (x : A) (l : list A) :
  isNaN (key x) = false ->
  Forall (fun a => isNaN (key a) = false) l ->
  Sorted (fun a b => leb (key a) (key b) = true) l ->
  Sorted (fun a b => leb (key a) (key b) = true)
    (insert (fun a b => sub (key a) (key b)) x l).
Proof.
  intros Hx Hl Hs. induction l as [|y r IH]; cbn [insert].
  - repeat constructor.
  - inversion Hs as [|? ? Hr Hhd]; subst.
    inversion Hl as [|? ? Hy Hrk]; subst.
    destruct (gtb (sub (key x) (key y)) (Fin 0)) eqn:E.
    + constructor.
      * now apply IH.
      * apply insert_hdrel; auto. now apply gtb_sub_true.
    + constructor; auto. constructor.
      now apply gtb_sub_false.
Qed.

Lemma sort_sorted (l : list A) :
  Forall (fun a => isNaN (key a) = false) l ->
  Sorted (fun a b => leb (key a) (key b) = true)
    (sort (fun a b => sub (key a) (key b)) l).
Proof.
  induction l as [|x r IH]; intro H; cbn [sort].
  - constructor.
  - inversion H; subst. apply insert_sorted; auto.
    eapply Permutation_Forall; [|eassumption].
    apply Permutation_sym, sort_perm.
Qed.
End ByKey.

End SortFacts.

(* ================================================================== *)
(** * Map keys and durations *)
(* ================================================================== *)

Module KeyFacts.
Import JS Convert NumFacts SortFacts.

Lemma svz_refl (a : num) : sameValueZero a a = true.
Proof.
  destruct a; try reflexivity. unfold sameValueZero, eqb.
  apply Qeq_bool_iff. reflexivity.
Qed.

Lemma svz_sym (a b : num) : sameValueZero a b = sameValueZero b a.
Proof.
  destruct a as [| | |x], b as [| | |y]; try reflexivity.
  unfold sameValueZero, eqb.
  destruct (Qeq_bool x y) eqn:E, (Qeq_bool y x) eqn:E'; auto.
  - apply Qeq_bool_sym in E. congruence.
  - apply Qeq_bool_sym in E'. congruence.
Qed.

Lemma svz_trans (a b c : num) :
  sameValueZero a b = true -> sameValueZero b c = true ->
  sameValueZero a c = true.
Proof.
  destruct a, b, c; try discriminate; try reflexivity.
  unfold sameValueZero, eqb. apply Qeq_bool_trans.
Qed.

(** A key equal to [a] is equal to exactly the keys [a] is equal to. *)
Lemma svz_congr (a b c : num) :
  sameValueZero a b = true -> sameValueZero a c = sameValueZero b c.
Proof.
  intro H. destruct (sameValueZero b c) eqn:E.
  - now apply svz_trans with b.
  - destruct (sameValueZero a c) eqn:E'; auto.
    rewrite <- E. symmetry. apply svz_trans with a; auto.
    now rewrite svz_sym.
Qed.

Lemma ltb_asym (a b : num) : ltb a b = true -> ltb b a = false.
Proof.
  destruct a as [| | |x], b as [| | |y]; try discriminate; try reflexivity.
  unfold ltb. destruct (x ?= y)%Q eqn:E; try discriminate. intros _.
  rewrite <- Qcompare_antisym, E. reflexivity.
Qed.

Lemma ltb_trans (a b c : num) :
  ltb a b = true -> ltb b c = true -> ltb a c = true.
Proof.
  destruct a as [| | |x], b as [| | |y], c as [| | |z];
    try discriminate; try reflexivity.
  unfold ltb.
  destruct (x ?= y)%Q eqn:E1; try discriminate.
  destruct (y ?= z)%Q eqn:E2; try discriminate. intros _ _.
  apply Qlt_alt in E1. apply Qlt_alt in E2.
  assert (H : (x < z)%Q) by (now apply Qlt_trans with y).
  now rewrite (proj1 (Qlt_alt x z) H).
Qed.

(** On numbers, not NaN, that are not in the order [a < b], [b <= a]. *)
Lemma ltb_false_trans (a b c : num) :
  ltb a b = false -> ltb c b = true -> isNaN a = false -> ltb c a = true.
Proof.
  destruct a as [| | |x], b as [| | |y], c as [| | |z];
    try discriminate; try reflexivity.
  unfold ltb.
  destruct (x ?= y)%Q eqn:E1; try discriminate;
  destruct (z ?= y)%Q eqn:E2; try discriminate; intros _ _ _.
  - apply Qeq_alt in E1. apply Qlt_alt in E2.
    assert (H : (z < x)%Q) by (now rewrite E1).
    now rewrite (proj1 (Qlt_alt z x) H).
  - apply Qgt_alt in E1. apply Qlt_alt in E2.
    assert (H : (z < x)%Q) by (now apply Qlt_trans with y).
    now rewrite (proj1 (Qlt_alt z x) H).
Qed.

End KeyFacts.

(* ================================================================== *)
(** * One note added to the map *)
(* ================================================================== *)

Module DedupFacts.
Import JS Convert NumFacts SortFacts KeyFacts.

Arguments sameValueZero : simpl never.
Arguments gtb : simpl never.

(** *** [addNote] is [addOuter] *)

Lemma addInner_eq (inner : map TimedNote) (n : TimedNote) :
  match map_get inner (midiNote n) with
  | None => map_set inner (midiNote n) n
  | Some existing =>
      if gtb (duration n) (duration existing)
      then map_set inner (midiNote n) n
      else inner
  end = addInner inner n.
Proof.
  induction inner as [|[p ex] r IH]; simpl; auto.
  destruct (sameValueZero p (midiNote n)) eqn:E.
  - unfold longer. now destruct (gtb (duration n) (duration ex)).
  - rewrite <- IH. destruct (map_get r (midiNote n)) as [ex'|]; auto.
    now destruct (gtb (duration n) (duration ex')).
Qed.

Lemma addNote_eq (m : NotesByTime) (n : TimedNote) :
  addNote m n = addOuter m n.
Proof.
  unfold addNote. rewrite addInner_eq.
  induction m as [|[t inner] r IH].
  - unfold map_has. simpl. now rewrite svz_refl.
  - unfold map_has in *. simpl.
    destruct (sameValueZero t (timeKey n)) eqn:E.
    + simpl. now rewrite E.
    + destruct (map_get r (timeKey n)) eqn:G.
      * simpl. rewrite E, G. simpl in IH. rewrite G in IH.
        now rewrite IH.
      * simpl. rewrite E. simpl in IH. now rewrite IH.
Qed.

Lemma groupNotes_eq (l : list TimedNote) (m : NotesByTime) :
  fold_left addNote l m = fold_left addOuter l m.
Proof.
  revert m. induction l as [|n r IH]; intro m; simpl; auto.
  now rewrite addNote_eq, IH.
Qed.

(** *** Groups *)

Lemma sameGroup_refl (a : TimedNote) : sameGroup a a = true.
Proof. unfold sameGroup. now rewrite !svz_refl. Qed.

Lemma sameGroup_sym (a b : TimedNote) : sameGroup a b = sameGroup b a.
Proof.
  unfold sameGroup.
  now rewrite (svz_sym (timeKey a)), (svz_sym (midiNote a)).
Qed.

Lemma sameGroup_congr (a b c : TimedNote) :
  sameGroup a b = true -> sameGroup a c = sameGroup b c.
Proof.
  unfold sameGroup. intro H. apply andb_true_iff in H as [H1 H2].
  now rewrite (svz_congr _ _ _ H1), (svz_congr _ _ _ H2).
Qed.

Lemma sameGroup_longer (ex n x : TimedNote) :
  sameGroup ex n = true -> sameGroup (longer ex n) x = sameGroup ex x.
Proof.
  intro H. unfold longer. destruct (gtb (duration n) (duration ex)); auto.
  symmetry. now apply sameGroup_congr.
Qed.

(** *** One insertion, seen on the kept notes *)

Lemma inserted_cons (n x : TimedNote) (a b : list TimedNote) :
  sameGroup x n = false -> Inserted n a b -> Inserted n (x :: a) (x :: b).
Proof.
  intros Hx H. destruct H as [s1 s2 Hs | s1 ex s2 Hex Hs].
  - apply (inserted_new n (x :: s1) s2).
    intros m [<- | Hm]; auto.
  - apply (inserted_same n (x :: s1) ex s2 Hex).
    intros m [<- | Hm]; auto.
Qed.

Lemma inserted_app_l (n : TimedNote) (c a b : list TimedNote) :
  (forall m, In m c -> sameGroup m n = false) ->
  Inserted n a b -> Inserted n (c ++ a) (c ++ b).
Proof.
  induction c as [|x c IH]; intros Hc H; simpl; auto.
  apply inserted_cons.
  - apply Hc. now left.
  - apply IH; auto. intros m Hm. apply Hc. now right.
Qed.

Lemma inserted_app_r (n : TimedNote) (c a b : list TimedNote) :
  (forall m, In m c -> sameGroup m n = false) ->
  Inserted n a b -> Inserted n (a ++ c) (b ++ c).
Proof.
  intros Hc H. destruct H as [s1 s2 Hs | s1 ex s2 Hex Hs].
  - rewrite <- !app_assoc. simpl.
    apply (inserted_new n s1 (s2 ++ c)).
    intros m Hm. rewrite app_assoc in Hm.
    apply in_app_or in Hm as [Hm | Hm]; auto.
  - rewrite <- !app_assoc. simpl.
    apply (inserted_same n s1 ex (s2 ++ c) Hex).
    intros m Hm. rewrite app_assoc in Hm.
    apply in_app_or in Hm as [Hm | Hm]; auto.
Qed.

Lemma fresh_cons (V : Type) (k' : num) (v : V) (r : map V) (k : num) :
  fresh ((k', v) :: r) k <-> sameValueZero k' k = false /\ fresh r k.
Proof.
  unfold fresh. simpl. destruct (sameValueZero k' k); split.
  - discriminate.
  - intros [H _]. discriminate.
  - auto.
  - now intros [_ H].
Qed.

(** The notes stored under keys other than [p] are of other pitches. *)
Lemma fresh_other_pitch (t : num) (r : map TimedNote) (p : num)
    (n m : TimedNote) :
  agrees t r -> fresh r p -> sameValueZero p (midiNote n) = true ->
  In m (map_values r) -> sameGroup m n = false.
Proof.
  intros Ha Hf Hp Hm. unfold map_values in Hm.
  apply in_map_iff in Hm as [[p' m'] [<- Hin]].
  unfold agrees in Ha. rewrite Forall_forall in Ha.
  destruct (Ha _ Hin) as [_ Hp']. simpl in *.
  assert (Hfp : sameValueZero p' p = false).
  { clear - Hf Hin. induction r as [|[k v] r IH]; [easy |].
    apply fresh_cons in Hf as [Hk Hf].
    destruct Hin as [Heq | Hin]; auto. now inversion Heq; subst. }
  unfold sameGroup. apply andb_false_iff. right.
  rewrite <- (svz_congr _ _ _ Hp'). rewrite svz_sym.
  rewrite <- (svz_congr _ _ _ Hp). now rewrite svz_sym.
Qed.

Lemma inserted_inner (t : num) (inner : map TimedNote) (n : TimedNote) :
  distinctKeys inner -> agrees t inner ->
  sameValueZero t (timeKey n) = true ->
  Inserted n (map_values inner) (map_values (addInner inner n)).
Proof.
  intros Hd Ha Ht. induction inner as [|[p ex] r IH]; simpl.
  - apply (inserted_new n [] []). intros m [].
  - destruct Hd as [Hf Hd]. inversion Ha as [|? ? [Hte Hpe] Har]; subst.
    simpl in Hte, Hpe.
    destruct (sameValueZero p (midiNote n)) eqn:E; simpl.
    + apply (inserted_same n [] ex (map_values r)).
      * unfold sameGroup. apply andb_true_iff. split.
        -- rewrite <- (svz_congr _ _ _ Hte). exact Ht.
        -- rewrite <- (svz_congr _ _ _ Hpe). exact E.
      * intros m Hm. simpl in Hm. now apply (fresh_other_pitch t r p n m Har Hf E).
    + apply inserted_cons; auto.
      unfold sameGroup. apply andb_false_iff. right.
      rewrite <- (svz_congr _ _ _ Hpe). exact E.
Qed.

(** The notes stored under time keys other than [t] are of other times. *)
Lemma fresh_other_time (r : NotesByTime) (t : num) (n m : TimedNote) :
  Forall wellKeyed r -> fresh r t -> sameValueZero t (timeKey n) = true ->
  In m (survivors r) -> sameGroup m n = false.
Proof.
  intros Hw Hf Ht Hm. unfold survivors in Hm.
  apply in_flat_map in Hm as [[t' inner] [Hin Hm]]. simpl in Hm.
  unfold map_values in Hm. apply in_map_iff in Hm as [[p' m'] [<- Hin']].
  rewrite Forall_forall in Hw. destruct (Hw _ Hin) as [_ [_ Ha]].
  unfold agrees in Ha. rewrite Forall_forall in Ha.
  destruct (Ha _ Hin') as [Ht' _]. simpl in *.
  assert (Hft : sameValueZero t' t = false).
  { clear - Hf Hin. induction r as [|[k v] r IH]; [easy |].
    apply fresh_cons in Hf as [Hk Hf].
    destruct Hin as [Heq | Hin]; auto. now inversion Heq; subst. }
  unfold sameGroup. apply andb_false_iff. left.
  rewrite <- (svz_congr _ _ _ Ht'). rewrite svz_sym.
  rewrite <- (svz_congr _ _ _ Ht). now rewrite svz_sym.
Qed.

Lemma inserted_outer (m : NotesByTime) (n : TimedNote) :
  wellFormed m -> Inserted n (survivors m) (survivors (addOuter m n)).
Proof.
  intros [Hd Hw]. induction m as [|[t inner] r IH]; simpl.
  - apply (inserted_new n [] []). intros x [].
  - destruct Hd as [Hf Hd]. inversion Hw as [|? ? [Hne [Hdi Ha]] Hwr]; subst.
    simpl in Hne, Hdi, Ha.
    destruct (sameValueZero t (timeKey n)) eqn:E; simpl.
    + apply inserted_app_r.
      * intros x Hx. now apply (fresh_other_time r t n x Hwr Hf E).
      * now apply inserted_inner with t.
    + apply inserted_app_l; auto.
      intros x Hx. unfold map_values in Hx.
      apply in_map_iff in Hx as [[p' m'] [<- Hin']].
      unfold agrees in Ha. rewrite Forall_forall in Ha.
      destruct (Ha _ Hin') as [Ht' _]. simpl in *.
      unfold sameGroup. apply andb_false_iff. left.
      rewrite <- (svz_congr _ _ _ Ht'). exact E.
Qed.

End DedupFacts.

(* ================================================================== *)
(** * The shape of the map *)
(* ================================================================== *)

Module ShapeFacts.
Import JS Convert NumFacts SortFacts KeyFacts DedupFacts.

Arguments sameValueZero : simpl never.
Arguments gtb : simpl never.

Lemma svz_congr_r (a b k : num) :
  sameValueZero a b = true -> sameValueZero k a = sameValueZero k b.
Proof.
  intro H. rewrite (svz_sym k a), (svz_sym k b). now apply svz_congr.
Qed.

Lemma fresh_congr (V : Type) (m : map V) (a b : num) :
  sameValueZero a b = true -> fresh m a -> fresh m b.
Proof.
  intro Hab. induction m as [|[k v] r IH]; [easy |].
  intro H. apply fresh_cons in H as [Hk Hr]. apply fresh_cons. split; auto.
  now rewrite <- (svz_congr_r a b k Hab).
Qed.

Lemma fresh_app (V : Type) (m1 m2 : map V) (k : num) :
  fresh (m1 ++ m2) k <-> fresh m1 k /\ fresh m2 k.
Proof.
  induction m1 as [|[k' v] r IH]; simpl.
  - unfold fresh at 2. simpl. tauto.
  - rewrite !fresh_cons, IH. tauto.
Qed.

(** *** The maps that [addOuter] builds are well formed *)

Lemma addInner_fresh (inner : map TimedNote) (n : TimedNote) (k : num) :
  fresh inner k -> sameValueZero (midiNote n) k = false ->
  fresh (addInner inner n) k.
Proof.
  intros Hf Hk. induction inner as [|[p ex] r IH]; simpl.
  - apply fresh_cons. split; [exact Hk | reflexivity].
  - apply fresh_cons in Hf as [Hp Hr].
    destruct (sameValueZero p (midiNote n)); apply fresh_cons; auto.
Qed.

Lemma addInner_distinct (inner : map TimedNote) (n : TimedNote) :
  distinctKeys inner -> distinctKeys (addInner inner n).
Proof.
  induction inner as [|[p ex] r IH]; simpl.
  - intros _. split; [reflexivity | exact I].
  - intros [Hf Hd]. destruct (sameValueZero p (midiNote n)) eqn:E; simpl.
    + now split.
    + split; auto. apply addInner_fresh; auto. now rewrite svz_sym.
Qed.

Lemma timeKey_longer (t : num) (ex n : TimedNote) :
  sameValueZero t (timeKey ex) = true -> sameValueZero t (timeKey n) = true ->
  sameValueZero t (timeKey (longer ex n)) = true.
Proof. intros. unfold longer. now destruct (gtb _ _). Qed.

Lemma addInner_agrees (t : num) (inner : map TimedNote) (n : TimedNote) :
  agrees t inner -> sameValueZero t (timeKey n) = true ->
  agrees t (addInner inner n).
Proof.
  intros Ha Ht. induction inner as [|[p ex] r IH]; simpl.
  - constructor; [|constructor]. simpl. split; auto. apply svz_refl.
  - inversion Ha as [|? ? [Hte Hpe] Har]; subst. simpl in Hte, Hpe.
    destruct (sameValueZero p (midiNote n)) eqn:E.
    + constructor; auto. simpl. split.
      * now apply timeKey_longer.
      * unfold longer. now destruct (gtb _ _).
    + constructor; auto. now apply IH.
Qed.

Lemma addInner_nonempty (inner : map TimedNote) (n : TimedNote) :
  addInner inner n <> [].
Proof.
  destruct inner as [|[p ex] r]; simpl; [discriminate |].
  destruct (sameValueZero p (midiNote n)); discriminate.
Qed.

Lemma addOuter_fresh (m : NotesByTime) (n : TimedNote) (k : num) :
  fresh m k -> sameValueZero (timeKey n) k = false ->
  fresh (addOuter m n) k.
Proof.
  intros Hf Hk. induction m as [|[t inner] r IH]; simpl.
  - apply fresh_cons. split; [exact Hk | reflexivity].
  - apply fresh_cons in Hf as [Hp Hr].
    destruct (sameValueZero t (timeKey n)); apply fresh_cons; auto.
Qed.

Lemma addOuter_wellFormed (m : NotesByTime) (n : TimedNote) :
  wellFormed m -> wellFormed (addOuter m n).
Proof.
  intros [Hd Hw]. induction m as [|[t inner] r IH]; simpl.
  - split; [split; [reflexivity | exact I] |].
    constructor; [|constructor]. split; [discriminate |]. split.
    + split; [reflexivity | exact I].
    + constructor; [|constructor]. simpl. split; apply svz_refl.
  - destruct Hd as [Hf Hd]. inversion Hw as [|? ? [Hne [Hdi Ha]] Hwr]; subst.
    simpl in Hne, Hdi, Ha.
    destruct (sameValueZero t (timeKey n)) eqn:E.
    + split; [now split |]. constructor; auto.
      split; [apply addInner_nonempty |].
      split; [now apply addInner_distinct | now apply addInner_agrees].
    + destruct (IH Hd Hwr) as [Hd' Hw']. split.
      * split; auto. apply addOuter_fresh; auto. now rewrite svz_sym.
      * constructor; auto. split; [exact Hne |]. now split.
Qed.

Lemma fold_addOuter_wellFormed (l : list TimedNote) (m : NotesByTime) :
  wellFormed m -> wellFormed (fold_left addOuter l m).
Proof.
  revert m. induction l as [|n r IH]; intros m H; simpl; auto.
  apply IH. now apply addOuter_wellFormed.
Qed.

Lemma groupNotes_wellFormed (l : list TimedNote) : wellFormed (groupNotes l).
Proof.
  unfold groupNotes. rewrite groupNotes_eq.
  apply fold_addOuter_wellFormed. split; [exact I | constructor].
Qed.

(** *** Inserting the kept notes again rebuilds the map *)

Lemma addOuter_new (m0 : NotesByTime) (n : TimedNote) :
  fresh m0 (timeKey n) ->
  addOuter m0 n = m0 ++ [(timeKey n, [(midiNote n, n)])].
Proof.
  induction m0 as [|[t inner] r IH]; simpl; auto.
  intro H. apply fresh_cons in H as [Ht Hr]. rewrite Ht.
  now rewrite IH.
Qed.

Lemma addInner_new (inner : map TimedNote) (n : TimedNote) :
  fresh inner (midiNote n) -> addInner inner n = inner ++ [(midiNote n, n)].
Proof.
  induction inner as [|[p ex] r IH]; simpl; auto.
  intro H. apply fresh_cons in H as [Hp Hr]. rewrite Hp.
  now rewrite IH.
Qed.

Lemma addOuter_last (m0 : NotesByTime) (t : num) (inner : map TimedNote)
    (n : TimedNote) :
  fresh m0 t -> sameValueZero t (timeKey n) = true ->
  addOuter (m0 ++ [(t, inner)]) n = m0 ++ [(t, addInner inner n)].
Proof.
  intros Hf Ht. induction m0 as [|[t' i'] r IH]; simpl.
  - now rewrite Ht.
  - apply fresh_cons in Hf as [Hk Hr].
    rewrite <- (svz_congr_r t (timeKey n) t' Ht), Hk. now rewrite IH.
Qed.

(** The notes of one entry, inserted after its first. *)
Lemma rebuild_inner (t0 : num) (m0 : NotesByTime)
    (innerB innerA : map TimedNote) :
  fresh m0 t0 ->
  agrees t0 innerB ->
  distinctKeys innerB ->
  (forall e, In e innerB -> fresh innerA (fst e)) ->
  fold_left addOuter (map_values innerB) (m0 ++ [(t0, innerA)])
  = m0 ++ [(t0, innerA ++ rekeyInner innerB)].
Proof.
  intros Hf. revert innerA.
  induction innerB as [|[p m] r IH]; intros innerA Ha Hd HA; simpl.
  - now rewrite app_nil_r.
  - inversion Ha as [|? ? [Ht Hp] Har]; subst. simpl in Ht, Hp.
    destruct Hd as [Hfr Hd].
    rewrite addOuter_last; auto.
    rewrite addInner_new.
    + rewrite IH; auto.
      * now rewrite <- app_assoc.
      * intros e He. apply fresh_app. split.
        -- apply HA. now right.
        -- apply fresh_cons. split; [|reflexivity]. simpl.
           rewrite <- (svz_congr p (midiNote m) (fst e) Hp).
           rewrite svz_sym.
           clear - Hfr He. induction r as [|[k v] r IH]; [easy |].
           apply fresh_cons in Hfr as [Hk Hfr].
           destruct He as [<- | He]; auto.
    + apply fresh_congr with p; auto. apply (HA (p, m)). now left.
Qed.

Lemma survivors_app (a b : NotesByTime) :
  survivors (a ++ b) = survivors a ++ survivors b.
Proof. unfold survivors. apply flat_map_app. Qed.

Lemma fold_left_app_notes (a b : list TimedNote) (m : NotesByTime) :
  fold_left addOuter (a ++ b) m = fold_left addOuter b (fold_left addOuter a m).
Proof. apply fold_left_app. Qed.

Lemma rebuild_outer (m m0 : NotesByTime) :
  wellFormed m ->
  (forall e, In e m -> fresh m0 (fst e)) ->
  fold_left addOuter (survivors m) m0 = m0 ++ List.map rekeyEntry m.
Proof.
  revert m0. induction m as [|[t inner] r IH]; intros m0 [Hd Hw] H0.
  - simpl. now rewrite app_nil_r.
  - destruct Hd as [Hf Hd]. inversion Hw as [|? ? [Hne [Hdi Ha]] Hwr]; subst.
    simpl in Hne, Hdi, Ha.
    destruct inner as [|[p first] innerB]; [contradiction |].
    inversion Ha as [|? ? [Htf Hpf] HaB]; subst. simpl in Htf, Hpf.
    destruct Hdi as [HfB HdB].
    change (survivors ((t, (p, first) :: innerB) :: r))
      with (first :: map_values innerB ++ survivors r).
    cbn [List.map]. rewrite app_comm_cons, fold_left_app.
    cbn [fold_left].
    change (rekeyEntry (t, (p, first) :: innerB))
      with (timeKey first, (midiNote first, first) :: rekeyInner innerB).
    assert (Hm0 : fresh m0 t) by (apply (H0 (t, (p, first) :: innerB)); now left).
    rewrite addOuter_new by (now apply fresh_congr with t).
    transitivity
      (fold_left addOuter (survivors r)
         (m0 ++ [(timeKey first,
                  [(midiNote first, first)] ++ rekeyInner innerB)])).
    { f_equal. apply rebuild_inner.
      - now apply fresh_congr with t.
      - unfold agrees in *. rewrite Forall_forall in *.
        intros e He. destruct (HaB e He) as [H1 H2]. split; auto.
        now rewrite <- (svz_congr t (timeKey first) _ Htf).
      - exact HdB.
      - intros e He. apply fresh_cons. split; [|reflexivity]. simpl.
        rewrite <- (svz_congr p (midiNote first) (fst e) Hpf).
        rewrite svz_sym.
        clear - HfB He. induction innerB as [|[k v] r IH]; [easy |].
        apply fresh_cons in HfB as [Hk HfB].
        destruct He as [<- | He]; auto. }
    rewrite IH.
    + rewrite <- app_assoc. reflexivity.
    + now split.
    + intros e He. apply fresh_app. split.
      * apply H0. now right.
      * apply fresh_cons. split; [|reflexivity]. simpl.
        rewrite <- (svz_congr t (timeKey first) (fst e) Htf).
        rewrite svz_sym.
        clear - Hf He. induction r as [|[k v] r IH]; [easy |].
        apply fresh_cons in Hf as [Hk Hf].
        destruct He as [<- | He]; auto.
Qed.

Lemma survivors_rekey (m : NotesByTime) :
  survivors (List.map rekeyEntry m) = survivors m.
Proof.
  unfold survivors. induction m as [|[t inner] r IH]; simpl; auto.
  rewrite IH. f_equal.
  unfold rekeyEntry. simpl. destruct inner as [|[p first] innerB]; auto.
  simpl. f_equal. unfold map_values, rekeyInner. rewrite map_map. reflexivity.
Qed.

Lemma dedup_idempotent (l : list TimedNote) : dedup (dedup l) = dedup l.
Proof.
  unfold dedup at 1. unfold groupNotes. rewrite groupNotes_eq.
  unfold dedup. rewrite rebuild_outer.
  - simpl. apply survivors_rekey.
  - apply groupNotes_wellFormed.
  - intros e _. reflexivity.
Qed.

End ShapeFacts.

(* ================================================================== *)
(** * The kept notes *)
(* ================================================================== *)

Module PolicyFacts.
Import JS Convert NumFacts SortFacts KeyFacts DedupFacts ShapeFacts.

Arguments sameValueZero : simpl never.
Arguments gtb : simpl never.

Lemma filter_none (f : TimedNote -> bool) (l : list TimedNote) :
  (forall x, In x l -> f x = false) -> filter f l = [].
Proof.
  induction l as [|x r IH]; intro H; simpl; auto.
  rewrite (H x) by now left. apply IH. intros y Hy. apply H. now right.
Qed.

Lemma inserted_in (n : TimedNote) (a b : list TimedNote) (m : TimedNote) :
  Inserted n a b -> In m b -> m = n \/ In m a.
Proof.
  intros H Hm. destruct H as [s1 s2 Hs | s1 ex s2 Hex Hs];
    apply in_app_or in Hm as [Hm | [<- | Hm]].
  - right. apply in_or_app. now left.
  - now left.
  - right. apply in_or_app. now right.
  - right. apply in_or_app. now left.
  - unfold longer. destruct (gtb _ _); [now left |].
    right. apply in_or_app. right. now left.
  - right. apply in_or_app. right. now right.
Qed.

Lemma picks_inserted (l a b : list TimedNote) (n : TimedNote) :
  Picks l a -> Inserted n a b -> Picks (l ++ [n]) b.
Proof.
  intros [Hk [Hone Hcov]] H.
  destruct H as [s1 s2 Hs | s1 ex s2 Hex Hs].
  - (* a new group *)
    assert (Hnl : filter (sameGroup n) l = []).
    { apply filter_none. intros x Hx. destruct (Hcov x Hx) as [m [Hm Hmx]].
      destruct (sameGroup n x) eqn:E; auto.
      rewrite <- (Hs m Hm). rewrite sameGroup_sym.
      rewrite (sameGroup_congr n x m E). now rewrite sameGroup_sym. }
    assert (Hold : forall m, In m (s1 ++ s2) ->
              filter (sameGroup m) (s1 ++ n :: s2) = [m]).
    { intros m Hm. rewrite filter_app. simpl. rewrite (Hs m Hm).
      rewrite <- filter_app. now apply Hone. }
    split; [|split].
    + intros m Hm. apply in_app_or in Hm as [Hm | [<- | Hm]].
      * rewrite filter_app. simpl. rewrite Hs by (apply in_or_app; now left).
        rewrite app_nil_r. apply Hk. apply in_or_app. now left.
      * rewrite filter_app, Hnl. simpl. now rewrite sameGroup_refl.
      * rewrite filter_app. simpl. rewrite Hs by (apply in_or_app; now right).
        rewrite app_nil_r. apply Hk. apply in_or_app. now right.
    + intros m Hm. apply in_app_or in Hm as [Hm | [<- | Hm]].
      * apply Hold. apply in_or_app. now left.
      * rewrite filter_app. simpl. rewrite sameGroup_refl.
        rewrite !filter_none; auto.
        -- intros x Hx. rewrite sameGroup_sym. apply Hs, in_or_app. now right.
        -- intros x Hx. rewrite sameGroup_sym. apply Hs, in_or_app. now left.
      * apply Hold. apply in_or_app. now right.
    + intros x Hx. apply in_app_or in Hx as [Hx | [<- | []]].
      * destruct (Hcov x Hx) as [m [Hm Hmx]]. exists m. split; auto.
        apply in_app_or in Hm as [Hm | Hm]; apply in_or_app;
          [now left | right; now right].
      * exists n. split; [|apply sameGroup_refl].
        apply in_or_app. right. now left.
  - (* the group of [ex] *)
    assert (Hw : forall x, sameGroup (longer ex n) x = sameGroup ex x).
    { intro x. now apply sameGroup_longer. }
    assert (Hother : forall m, In m (s1 ++ s2) -> sameGroup m ex = false).
    { intros m Hm. destruct (sameGroup m ex) eqn:E; auto.
      rewrite <- (Hs m Hm). symmetry.
      rewrite (sameGroup_congr m ex n E). exact Hex. }
    assert (Hold : forall m, In m (s1 ++ s2) ->
              filter (sameGroup m) (s1 ++ longer ex n :: s2) = [m]).
    { intros m Hm.
      assert (Hin : In m (s1 ++ ex :: s2)).
      { apply in_app_or in Hm as [Hm | Hm]; apply in_or_app;
          [now left | right; now right]. }
      specialize (Hone m Hin). rewrite filter_app in *. simpl in *.
      rewrite (Hother m Hm) in Hone.
      rewrite (sameGroup_sym m), Hw, (sameGroup_sym ex), (Hother m Hm).
      exact Hone. }
    split; [|split].
    + intros m Hm. apply in_app_or in Hm as [Hm | [<- | Hm]].
      * rewrite filter_app. simpl. rewrite Hs by (apply in_or_app; now left).
        rewrite app_nil_r. apply Hk. apply in_or_app. now left.
      * rewrite (filter_ext _ _ Hw). rewrite filter_app. simpl. rewrite Hex.
        assert (Hexk := Hk ex (in_or_app s1 (ex :: s2) ex
                                 (or_intror (or_introl eq_refl)))).
        destruct (filter (sameGroup ex) l) as [|first rest]; [discriminate |].
        simpl in *. injection Hexk as <-. f_equal.
        now rewrite fold_left_app.
      * rewrite filter_app. simpl. rewrite Hs by (apply in_or_app; now right).
        rewrite app_nil_r. apply Hk. apply in_or_app. right. now right.
    + intros m Hm. apply in_app_or in Hm as [Hm | [<- | Hm]].
      * apply Hold. apply in_or_app. now left.
      * rewrite (filter_ext _ _ Hw). rewrite filter_app. simpl.
        rewrite <- Hw, sameGroup_refl.
        rewrite !filter_none; auto.
        -- intros x Hx. rewrite sameGroup_sym. apply Hother, in_or_app.
           now right.
        -- intros x Hx. rewrite sameGroup_sym. apply Hother, in_or_app.
           now left.
      * apply Hold. apply in_or_app. now right.
    + intros x Hx. apply in_app_or in Hx as [Hx | [<- | []]].
      * destruct (Hcov x Hx) as [m [Hm Hmx]].
        apply in_app_or in Hm as [Hm | [<- | Hm]].
        -- exists m. split; auto. apply in_or_app. now left.
        -- exists (longer ex n). split; [|now rewrite Hw].
           apply in_or_app. right. now left.
        -- exists m. split; auto. apply in_or_app. right. now right.
      * exists (longer ex n). split; [|now rewrite Hw].
        apply in_or_app. right. now left.
Qed.

Lemma picks_fold (r l : list TimedNote) (m : NotesByTime) :
  wellFormed m -> Picks l (survivors m) ->
  Picks (l ++ r) (survivors (fold_left addOuter r m)).
Proof.
  revert l m. induction r as [|n r IH]; intros l m Hw Hp; simpl.
  - now rewrite app_nil_r.
  - change (n :: r) with ([n] ++ r). rewrite app_assoc. apply IH.
    + now apply addOuter_wellFormed.
    + apply picks_inserted with (survivors m); auto.
      now apply inserted_outer.
Qed.

Lemma dedup_picks (l : list TimedNote) : Picks l (dedup l).
Proof.
  unfold dedup, groupNotes. rewrite groupNotes_eq.
  apply (picks_fold l [] []).
  - split; [exact I | constructor].
  - split; [|split]; intros x [].
Qed.

Lemma ltb_irrefl (a : num) : ltb a a = false.
Proof.
  destruct (ltb a a) eqn:E; auto. now rewrite (ltb_asym a a E) in E.
Qed.

(** No note of a group is longer than the one kept. *)
Lemma fold_longer_max (rest : list TimedNote) (first x : TimedNote) :
  In x (first :: rest) ->
  gtb (duration x) (duration (fold_left longer rest first)) = false.
Proof.
  induction rest as [|n rest IH] using rev_ind; intro Hx.
  - destruct Hx as [<- | []]. simpl. apply ltb_irrefl.
  - rewrite fold_left_app. simpl.
    set (w := fold_left longer rest first) in *.
    unfold longer. destruct (gtb (duration n) (duration w)) eqn:E.
    + rewrite app_comm_cons in Hx. apply in_app_or in Hx as [Hx | [<- | []]].
      * specialize (IH Hx). unfold gtb in *.
        destruct (ltb (duration n) (duration x)) eqn:E'; auto.
        now rewrite (ltb_trans _ _ _ E E') in IH.
      * apply ltb_irrefl.
    + rewrite app_comm_cons in Hx. apply in_app_or in Hx as [Hx | [<- | []]];
        auto.
Qed.

Lemma dedup_in (l : list TimedNote) (m : TimedNote) :
  In m (dedup l) -> In m l.
Proof.
  intro H. destruct (dedup_picks l) as [Hk _]. specialize (Hk m H).
  destruct (filter (sameGroup m) l) as [|first rest] eqn:E; [discriminate |].
  simpl in Hk. injection Hk as Hk.
  assert (Hin : forall x, In x (first :: rest) -> In x l).
  { intros x Hx. rewrite <- E in Hx. now apply filter_In in Hx. }
  clear E. revert first Hk Hin.
  induction rest as [|n rest IH]; intros first Hk Hin; simpl in Hk.
  - subst. apply Hin. now left.
  - apply (IH (longer first n)); auto.
    intros x [<- | Hx].
    + unfold longer. destruct (gtb _ _); apply Hin; [right |]; now left.
    + apply Hin. right. now right.
Qed.

(** *** A list with one note per group loses nothing *)

Lemma filter_two (f : TimedNote -> bool) (l r : list TimedNote)
    (a n : TimedNote) :
  In a l -> f a = true -> f n = true -> filter f (l ++ n :: r) <> [a].
Proof.
  intros Ha Hfa Hfn H.
  assert (Hl : (2 <= List.length (filter f (l ++ n :: r)))%nat).
  { rewrite filter_app. simpl. rewrite Hfn. rewrite length_app. simpl.
    assert (Hin : In a (filter f l)) by (now apply filter_In).
    destruct (filter f l); [contradiction | simpl; lia]. }
  rewrite H in Hl. simpl in Hl. lia.
Qed.

Lemma perm_fold (r l : list TimedNote) (m : NotesByTime) :
  wellFormed m -> Permutation (survivors m) l ->
  (forall a, In a (l ++ r) -> filter (sameGroup a) (l ++ r) = [a]) ->
  Permutation (survivors (fold_left addOuter r m)) (l ++ r).
Proof.
  revert l m. induction r as [|n r IH]; intros l m Hw Hp Hone; simpl.
  - now rewrite app_nil_r.
  - change (n :: r) with ([n] ++ r) in *. rewrite app_assoc in *.
    apply IH; auto.
    + now apply addOuter_wellFormed.
    + pose proof (inserted_outer m n Hw) as Hi.
      destruct Hi as [s1 s2 Hs | s1 ex s2 Hex Hs].
      * apply Permutation_trans with (n :: s1 ++ s2).
        -- apply Permutation_sym, Permutation_middle.
        -- apply Permutation_trans with (n :: l); [now apply perm_skip |].
           apply Permutation_cons_append.
      * exfalso.
        assert (Hexl : In ex l).
        { apply (Permutation_in ex Hp). apply in_or_app. right. now left. }
        rewrite <- app_assoc in Hone.
        apply (filter_two (sameGroup ex) l r ex n Hexl).
        -- apply sameGroup_refl.
        -- exact Hex.
        -- apply Hone. apply in_or_app. now left.
Qed.

Lemma dedup_perm (l : list TimedNote) :
  (forall a, In a l -> filter (sameGroup a) l = [a]) ->
  Permutation (dedup l) l.
Proof.
  intro H. unfold dedup, groupNotes. rewrite groupNotes_eq.
  apply (perm_fold l [] []); auto.
  split; [exact I | constructor].
Qed.

End PolicyFacts.

(* ================================================================== *)
(** * Around [convertToMIDI] *)
(* ================================================================== *)

Module ConvertFacts.
Import JS Convert NumFacts SortFacts KeyFacts DedupFacts ShapeFacts PolicyFacts.

Lemma lastTime_last (evs : list MidiEvent) :
  lastTime evs = last (List.map time evs) (ofZ 0).
Proof.
  unfold lastTime. induction evs as [|e r IH] using rev_ind; auto.
  rewrite rev_app_distr, map_app. simpl. now rewrite last_last.
Qed.

Lemma noteEvents_keyed (kept : list TimedNote) :
  Forall (fun n => isNaN (startTime n) = false /\ isNaN (endTime n) = false)
    kept ->
  Forall (fun e => isNaN (time e) = false) (flat_map noteEvents kept).
Proof.
  induction 1 as [|n r [Hs He] Hr IH]; simpl; auto.
Qed.

Lemma mergeNotes_dedup (l : list TimedNote) :
  mergeNotes (dedup l) = mergeNotes l.
Proof. unfold mergeNotes. now rewrite dedup_idempotent. Qed.

(** The notes of [allNotes] have a truthy pitch. *)
Lemma measureNotes_truthy (sd : ScoreData) (ms : list Measure) (i : Z) :
  Forall (fun n => truthy (midiNote n) = true) (measureNotes sd i ms).
Proof.
  revert i. induction ms as [|m r IH]; intro i; simpl; [constructor |].
  apply Forall_app. split; auto.
  apply Forall_flat_map. apply Forall_forall. intros n _.
  destruct n as [st o a d t mn c p | d t p]; simpl; [|constructor].
  destruct (truthy mn) eqn:E; repeat constructor. exact E.
Qed.

Lemma truthy_not_zero (a : num) : truthy a = true -> eqb a (ofZ 0) = false.
Proof.
  destruct a; try reflexivity; try discriminate.
  simpl. intro H. now apply negb_true_iff in H.
Qed.

Lemma timedNote_pitchZero (sd : ScoreData) (t0 : num) (n : NoteEntry) :
  isPitchZero n = true -> timedNote sd t0 n = [].
Proof.
  destruct n as [st o a d t mn c p | d t p]; simpl; auto.
  intro H. destruct (truthy mn) eqn:E; auto.
  apply truthy_not_zero in E. congruence.
Qed.

Lemma flat_map_filter_nil (A B : Type) (f : A -> list B) (p : A -> bool)
    (l : list A) :
  (forall x, p x = false -> f x = []) ->
  flat_map f (filter p l) = flat_map f l.
Proof.
  intro H. induction l as [|x r IH]; simpl; auto.
  destruct (p x) eqn:E; simpl.
  - now rewrite IH.
  - now rewrite (H x E), IH.
Qed.

Lemma measureNotes_withoutPitchZero (sd : ScoreData) (ms : list Measure)
    (i : Z) :
  measureNotes (withoutPitchZero sd) i
    (List.map
       (fun m =>
          mkMeasure (number m)
            (filter (fun n => negb (isPitchZero n)) (notes m)) (width m))
       ms)
  = measureNotes sd i ms.
Proof.
  revert i. induction ms as [|m r IH]; intro i; simpl; auto.
  rewrite IH. f_equal.
  change (msPerMeasure (withoutPitchZero sd)) with (msPerMeasure sd).
  rewrite flat_map_filter_nil.
  - apply flat_map_ext. intro n. reflexivity.
  - intros n Hn. apply timedNote_pitchZero. now apply negb_false_iff in Hn.
Qed.

(** The start times of [ninetySix] as binary64 computes them: the first
    is the double next below 2015.625, the keys are 2015.62 and 2015.63,
    and both notes are kept. *)
Example ninetySix_start_times :
  List.map startTime (allNotes ninetySix)
  = [Fin (8864812498943999 # 4398046511104); Fin (16125 # 8)]
  /\ List.map (fun n => round (mul64 (timeKey n) (ofZ 100)))
       (allNotes ninetySix)
     = [ofZ 201562; ofZ 201563]
  /\ List.length (notePairs (convertToMIDI (Some ninetySix))) = 2%nat.
Proof. repeat split; vm_compute; reflexivity. Qed.

End ConvertFacts.

(* ================================================================== *)
(** * Claims on [convertToMIDI] *)
(* ================================================================== *)

Module ConvertClaims.
Import JS Convert RoundingFacts NumFacts SortFacts KeyFacts DedupFacts ShapeFacts PolicyFacts ConvertFacts.

Lemma sorted_map_key (A : Type) (key : A -> num) (l : list A) :
  Sorted (fun a b => leb (key a) (key b) = true) l ->
  nondecreasing (List.map key l).
Proof.
  unfold nondecreasing. induction 1 as [|x r Hr IH Hhd]; simpl; constructor; auto.
  destruct Hhd; simpl; constructor; auto.
Qed.

(** C2.  End-to-end example A: for the score with divisions 1, time 4/4,
    tempo 500000 and one measure holding a quarter C4 at onset 0, a
    quarter rest and a quarter E4 at onset 2 (the score [parseXMLString]
    reads from the sample document), [convertToMIDI] works with 500 ms
    per division and returns C4 from 0 to 500 ms, E4 from 1000 to
    1500 ms and a total duration of 1500 ms. *)
Theorem exampleA_conversion :
  Parse.parseXMLString Parse.exampleADoc = Normal (Some exampleA)
  /\ stepToMidi "C" (ofZ 4) (ofZ 0) = ofZ 60
  /\ stepToMidi "E" (ofZ 4) (ofZ 0) = ofZ 64
  /\ msPerDivision exampleA = ofZ 500
  /\ convertToMIDI (Some exampleA)
     = mkMidiResult
         [ mkMidiEvent (ofZ 0) [ofZ 144; ofZ 60; ofZ 100];
           mkMidiEvent (ofZ 500) [ofZ 128; ofZ 60; ofZ 0];
           mkMidiEvent (ofZ 1000) [ofZ 144; ofZ 64; ofZ 100];
           mkMidiEvent (ofZ 1500) [ofZ 128; ofZ 64; ofZ 0] ]
         [ mkNotePair (ofZ 60) (ofZ 0) (ofZ 500);
           mkNotePair (ofZ 64) (ofZ 1000) (ofZ 1500) ]
         (ofZ 1500).
Proof. repeat split; vm_compute; reflexivity. Qed.

(** C6.  The deduplication of [convertToMIDI] keeps, for each group of
    notes with the same key and pitch, exactly one note: the one the
    policy "a strictly greater duration replaces, a tie keeps the first
    seen" picks from the group in input order, so no note of the group
    is longer than it and the shorter of two duplicates is dropped.  It
    is idempotent: the kept notes deduplicate to themselves, and merging
    them gives the result of merging the input; a list with one note per
    group keeps all its notes.  The key is [Math.round(startTime * 100)
    / 100] as binary64 computes it: for start times of at most [2^40]
    whose hundredfold has a fractional part outside 0.49 .. 0.51, two
    notes are in one group exactly when their start times, rounded to
    two decimal places, and their pitches are the same. *)
Theorem dedup_keeps_longest (l : list TimedNote) :
  (forall m, In m (dedup l) -> keptOf (filter (sameGroup m) l) = Some m)
  /\ (forall m, In m (dedup l) -> filter (sameGroup m) (dedup l) = [m])
  /\ (forall n, In n l -> exists m, In m (dedup l) /\ sameGroup m n = true)
  /\ (forall m n, In m (dedup l) -> In n l -> sameGroup m n = true ->
        gtb (duration n) (duration m) = false)
  /\ (forall a b, In b l -> sameGroup a b = true ->
        gtb (duration b) (duration a) = true -> ~ In a (dedup l))
  /\ dedup (dedup l) = dedup l
  /\ mergeNotes (dedup l) = mergeNotes l
  /\ ((forall a, In a l -> filter (sameGroup a) l = [a]) ->
      Permutation (dedup l) l)
  /\ (forall a b ta tb,
        startTime a = Fin ta -> startTime b = Fin tb ->
        clearOfTies ta = true -> clearOfTies tb = true ->
        sameGroup a b
        = (hundredths ta =? hundredths tb)%Z
          && sameValueZero (midiNote a) (midiNote b)).
Proof.
  destruct (dedup_picks l) as [Hk [Hone Hcov]].
  assert (Hmax : forall m n, In m (dedup l) -> In n l ->
            sameGroup m n = true -> gtb (duration n) (duration m) = false).
  { intros m n Hm Hn Hmn. specialize (Hk m Hm).
    assert (Hin : In n (filter (sameGroup m) l)) by (now apply filter_In).
    destruct (filter (sameGroup m) l) as [|first rest]; [discriminate |].
    simpl in Hk. injection Hk as <-. now apply fold_longer_max. }
  repeat split; auto.
  - intros a b Hb Hab Hgt Ha. rewrite (Hmax a b Ha Hb Hab) in Hgt.
    discriminate.
  - apply dedup_idempotent.
  - apply mergeNotes_dedup.
  - apply dedup_perm.
  - intros a b ta tb Ha Hb Ca Cb. unfold sameGroup.
    now rewrite (same_key_iff a b ta tb Ha Hb Ca Cb).
Qed.

(** Of two notes at start 0 and pitch 60, of durations 1 and 2, only the
    longer is kept, in either order; the notes of pitch 60 that start at
    1000 and at 1000 + 1/512 are in one group, and the longer is kept. *)
Lemma dedup_keeps_longest_witness :
  ~ In shortNote (dedup [shortNote; longNote])
  /\ dedup [shortNote; longNote] = [longNote]
  /\ dedup [longNote; shortNote] = [longNote]
  /\ sameGroup early late = true
  /\ dedup [early; late] = [late].
Proof.
  split; [|split; [|split; [|split]]].
  2, 3, 5: vm_compute; reflexivity.
  - apply (proj1 (proj2 (proj2 (proj2 (proj2
             (dedup_keeps_longest [shortNote; longNote])))))
             shortNote longNote).
    + right. left. reflexivity.
    + vm_compute. reflexivity.
    + vm_compute. reflexivity.
  - rewrite (proj2 (proj2 (proj2 (proj2 (proj2 (proj2 (proj2 (proj2
               (dedup_keeps_longest [early; late]))))))))
               early late 1000 (512001 # 512) eq_refl eq_refl eq_refl eq_refl).
    reflexivity.
Defined.

(** C6 as the specification states it does not hold: the notes of pitch
    60 that start at 1000 and at the double next below 1000.005 have the
    same start time when it is rounded to two decimal places, and both
    are kept, because the product of the second with 100 rounds to
    100000.5 and [Math.round] takes it to 100001. *)
Lemma dedup_not_by_hundredths :
  ~ (forall l m n tm tn,
       In m (dedup l) -> In n (dedup l) ->
       startTime m = Fin tm -> startTime n = Fin tn ->
       hundredths tm = hundredths tn ->
       sameValueZero (midiNote m) (midiNote n) = true ->
       m = n).
Proof.
  intro H.
  specialize (H [nearTie; onHundredth] nearTie onHundredth
                (8796137002673111 # 8796093022208)%Q 1000%Q).
  assert (E : dedup [nearTie; onHundredth] = [nearTie; onHundredth])
    by (vm_compute; reflexivity).
  rewrite E in H.
  assert (N : nearTie = onHundredth).
  { apply H; try reflexivity; cbn; tauto. }
  discriminate N.
Qed.




(** C10.  A pitched note whose MIDI pitch is 0 (C in octave -1) fails the
    truthiness test of [convertToMIDI]: no event and no note pair of the
    result has pitch 0, and the result is the one of the score without
    its pitch-0 notes. *)
Theorem pitch_zero_excluded (sd : ScoreData) :
  stepToMidi "C" (ofZ (-1)) (ofZ 0) = ofZ 0
  /\ Forall (fun p => eqb (note p) (ofZ 0) = false)
       (notePairs (convertToMIDI (Some sd)))
  /\ Forall (fun e => exists s p v,
               data e = [s; p; v] /\ eqb p (ofZ 0) = false)
       (midiEvents (convertToMIDI (Some sd)))
  /\ convertToMIDI (Some (withoutPitchZero sd)) = convertToMIDI (Some sd).
Proof.
  assert (Hkept : Forall (fun n => eqb (midiNote n) (ofZ 0) = false)
                    (dedup (allNotes sd))).
  { apply Forall_forall. intros n Hn. apply dedup_in in Hn.
    apply truthy_not_zero.
    pose proof (measureNotes_truthy sd (measures sd) 0) as Ht.
    rewrite Forall_forall in Ht. now apply Ht. }
  split; [reflexivity |]. split; [|split].
  - simpl. unfold mergeNotes. simpl. apply Forall_map.
    eapply Forall_impl; [|exact Hkept]. intros n Hn. exact Hn.
  - simpl. unfold mergeNotes. simpl.
    eapply Permutation_Forall; [apply Permutation_sym, sort_perm |].
    apply Forall_flat_map. eapply Forall_impl; [|exact Hkept].
    intros n Hn. repeat constructor; simpl; eauto.
  - simpl. f_equal. unfold allNotes. simpl.
    apply measureNotes_withoutPitchZero.
Qed.

(** The C-1 of the sample score leaves no trace in its conversion. *)
Lemma pitch_zero_excluded_witness :
  isPitchZero (NoteData "C" (ofZ (-1)) (ofZ 0) (ofZ 1) (ofZ 0)
                 (stepToMidi "C" (ofZ (-1)) (ofZ 0)) false 0) = true
  /\ List.map note (notePairs (convertToMIDI (Some lowC))) = [ofZ 60]
  /\ convertToMIDI (Some (withoutPitchZero lowC)) = convertToMIDI (Some lowC).
Proof.
  split; [reflexivity |]. split; [vm_compute; reflexivity |].
  apply (proj2 (proj2 (proj2 (pitch_zero_excluded lowC)))).
Defined.

End ConvertClaims.

(* ================================================================== *)
(** * The variable-length reader *)
(* ================================================================== *)

Module SmfFacts.
Import JS Bytes Smf.
Local Open Scope Z_scope.

Lemma u8_range (b : Byte.byte) : 0 <= u8 b < 256.
Proof. destruct b; vm_compute; split; congruence. Qed.

Lemma u8_b8 (z : Z) : u8 (b8 z) = z mod 256.
Proof.
  unfold u8, b8.
  assert (H : 0 <= z mod 256 < 256) by (apply Z.mod_pos_bound; lia).
  destruct (Byte.of_N (Z.to_N (z mod 256))) as [b|] eqn:E.
  - apply Byte.to_of_N in E. rewrite E. lia.
  - apply Byte.of_N_None_iff in E. lia.
Qed.

Lemma high_bit (b : Byte.byte) : (band (u8 b) 128 =? 0) = (u8 b <? 128).
Proof. destruct b; reflexivity. Qed.

Lemma low_bits (b : Byte.byte) : band (u8 b) 127 = u8 b mod 128.
Proof. destruct b; reflexivity. Qed.

Lemma toInt32_small (z : Z) :
  -2147483648 <= z < 2147483648 -> toInt32 z = z.
Proof. intro H. unfold toInt32. rewrite Z.mod_small; lia. Qed.

Lemma land_shifted (a c : Z) : 0 <= c < 128 -> Z.land (a * 128) c = 0.
Proof.
  intro H. apply Z.bits_inj'. intros i Hi.
  rewrite Z.land_spec, Z.bits_0.
  destruct (Z.ltb_spec i 7).
  - change 128 with (2 ^ 7). rewrite Z.mul_pow2_bits_low by lia. reflexivity.
  - rewrite (Z.bits_above_log2 c i); [apply andb_false_r | lia |].
    destruct (Z.eq_dec c 0) as [-> | Hc]; [simpl; lia |].
    apply Z.lt_le_trans with 7; [|lia].
    apply Z.log2_lt_pow2; lia.
Qed.

Lemma lor_shifted (a c : Z) : 0 <= c < 128 -> Z.lor (a * 128) c = a * 128 + c.
Proof.
  intro H. rewrite <- Z.lxor_lor by now apply land_shifted.
  symmetry. apply Z.add_nocarry_lxor. now apply land_shifted.
Qed.

(** Seven more bits under a value that leaves room for them. *)
Lemma push_group (v c : Z) :
  0 <= v < 16777216 -> 0 <= c < 128 -> bor (shl v 7) c = v * 128 + c.
Proof.
  intros Hv Hc. unfold bor, shl.
  rewrite (toInt32_small v) by lia.
  rewrite Z.shiftl_mul_pow2 by lia. change (2 ^ 7) with 128.
  rewrite !(toInt32_small (v * 128)) by lia.
  rewrite (toInt32_small c) by lia.
  now apply lor_shifted.
Qed.

Lemma continuation_byte (m : Z) :
  u8 (b8 (Z.lor 128 (Z.land m 127))) = 128 + m mod 128.
Proof.
  rewrite u8_b8. change 127 with (Z.ones 7). rewrite Z.land_ones by lia.
  change (2 ^ 7) with 128.
  assert (H : 0 <= m mod 128 < 128) by (apply Z.mod_pos_bound; lia).
  change 128 with (1 * 128) at 1. rewrite lor_shifted by lia.
  rewrite Z.mod_small; lia.
Qed.

Lemma last_byte (n : Z) : u8 (b8 (Z.land n 127)) = n mod 128.
Proof.
  rewrite u8_b8. change 127 with (Z.ones 7). rewrite Z.land_ones by lia.
  change (2 ^ 7) with 128.
  assert (H : 0 <= n mod 128 < 128) by (apply Z.mod_pos_bound; lia).
  rewrite Z.mod_small; lia.
Qed.

(** The continuation bytes of [m] leave [m] in the accumulator. *)
Lemma readVar_groups (k : nat) (m : Z) (rest : list Byte.byte) (pos : Z) :
  0 <= m < 16777216 -> m < 2 ^ (7 * Z.of_nat k) ->
  readVar_from (vlq_groups k m ++ rest) 0 pos
  = readVar_from rest m (pos + Z.of_nat (List.length (vlq_groups k m))).
Proof.
  revert m rest pos. induction k as [|k IH]; intros m rest pos Hm Hk.
  - simpl in *. replace m with 0 by lia. now rewrite Z.add_0_r.
  - cbn [vlq_groups]. destruct (Z.eqb_spec m 0) as [-> | Hne].
    + simpl. now rewrite Z.add_0_r.
    + rewrite Z.shiftr_div_pow2 by lia. change (2 ^ 7) with 128.
      assert (Hd : 0 <= m / 128 < 16777216).
      { split; [apply Z.div_pos; lia |].
        apply Z.div_lt_upper_bound; lia. }
      assert (Hdk : m / 128 < 2 ^ (7 * Z.of_nat k)).
      { apply Z.div_lt_upper_bound; [lia |].
        replace (7 * Z.of_nat (S k)) with (7 + 7 * Z.of_nat k) in Hk by lia.
        rewrite Z.pow_add_r in Hk by lia. change (2 ^ 7) with 128 in Hk.
        lia. }
      rewrite <- app_assoc. rewrite IH by assumption.
      cbn [app readVar_from].
      rewrite high_bit, low_bits, continuation_byte.
      assert (Hr : 0 <= m mod 128 < 128) by (apply Z.mod_pos_bound; lia).
      destruct (Z.ltb_spec (128 + m mod 128) 128) as [Hlt | _]; [lia |].
      replace ((128 + m mod 128) mod 128) with (m mod 128)
        by (rewrite <- Zplus_mod_idemp_l; rewrite Z.mod_same by lia;
            simpl; now rewrite Z.mod_mod by lia).
      rewrite push_group by lia.
      replace (m / 128 * 128 + m mod 128) with m
        by (rewrite (Z.div_mod m 128) at 1; lia).
      rewrite length_app. cbn [List.length]. f_equal. lia.
Qed.

Lemma skipn_pre (pre rest : list Byte.byte) :
  skipn (Z.to_nat (Z.of_nat (List.length pre))) (pre ++ rest) = rest.
Proof.
  rewrite Nat2Z.id. rewrite skipn_app, skipn_all, Nat.sub_diag. reflexivity.
Qed.

(** The encoder on the sample values of the SMF format description. *)
Lemma vlq_encode_samples :
  List.map (fun n => List.map u8 (vlq_encode n))
    [0; 64; 127; 128; 8192; 16383; 16384; 2097151; 2097152; 134217728;
     268435455]
  = [ [0]; [64]; [127]; [129; 0]; [192; 0]; [255; 127]; [129; 128; 0];
      [255; 255; 127]; [129; 128; 128; 0]; [192; 128; 128; 0];
      [255; 255; 255; 127] ].
Proof. reflexivity. Qed.

(** *** More fuel does not change a finished parse *)

Lemma trackLoop_unfold (fuel : nat) (data : list Byte.byte) (stop curTick : Z)
    (rs : option Z) (rd : Reader) :
  trackLoop fuel data stop curTick rs rd
  = if pos rd <? stop then
      match fuel with
      | O => None
      | S fuel' =>
          let '(curTick', rs', rd') := trackEvent data curTick rs rd in
          trackLoop fuel' data stop curTick' rs' rd'
      end
    else Some rd.
Proof. destruct fuel; reflexivity. Qed.

Lemma trackLoop_more (fuel fuel' : nat) (data : list Byte.byte)
    (stop curTick : Z) (rs : option Z) (rd r : Reader) :
  (fuel <= fuel')%nat ->
  trackLoop fuel data stop curTick rs rd = Some r ->
  trackLoop fuel' data stop curTick rs rd = Some r.
Proof.
  revert fuel' curTick rs rd.
  induction fuel as [|fuel IH]; intros fuel' curTick rs rd Hle H;
    rewrite trackLoop_unfold in H; rewrite trackLoop_unfold;
    destruct (pos rd <? stop); try exact H; try discriminate H.
  destruct fuel' as [|fuel']; [lia |].
  destruct (trackEvent data curTick rs rd) as [[curTick' rs'] rd'].
  apply IH; [lia | exact H].
Qed.

Lemma tracksLoop_more (fuel fuel' : nat) (data : list Byte.byte) (n : nat)
    (rd r : Reader) :
  (fuel <= fuel')%nat ->
  tracksLoop fuel data n rd = Some r ->
  tracksLoop fuel' data n rd = Some r.
Proof.
  intro Hle. revert rd. induction n as [|n IH]; intros rd H; [exact H |].
  cbn [tracksLoop] in *.
  destruct (readStr data (pos rd) 4) as [sig p1].
  destruct (negb (bytes_eqb sig MTrk)); [exact H |].
  destruct (read32 data p1) as [len p2].
  destruct (trackLoop fuel data (p2 + len) 0 None
              (mkReader p2 (events rd) (tempoMap rd))) as [rd'|] eqn:E;
    [|discriminate H].
  rewrite (trackLoop_more fuel fuel' _ _ _ _ _ rd' Hle E).
  now apply IH.
Qed.

Lemma parseMidiFile_more (fuel fuel' : nat) (data : list Byte.byte)
    (c : Completion Outcome) :
  (fuel <= fuel')%nat ->
  parseMidiFile fuel data = Some c -> parseMidiFile fuel' data = Some c.
Proof.
  intros Hle H. unfold parseMidiFile in *.
  destruct (readStr data 0 4) as [magic p1].
  destruct (negb (bytes_eqb magic MThd)); [exact H |].
  destruct (read16 data (p1 + 4)) as [fmt p3].
  destruct (read16 data p3) as [tracks p4].
  destruct (read16 data p4) as [div p5].
  destruct (tracksLoop fuel data (Z.to_nat tracks)
              (mkReader p5 [] [mkRawTempo 0 500000])) as [rd|] eqn:E;
    [|discriminate H].
  now rewrite (tracksLoop_more fuel fuel' _ _ _ rd Hle E).
Qed.

End SmfFacts.

(* ================================================================== *)
(** * Claims on [parseMidiFile] *)
(* ================================================================== *)

Module SmfClaims.
Import JS Bytes Smf SmfFacts.
Local Open Scope Z_scope.

(** C8.  For every [n] with [0 <= n < 2^28], [readVar] placed on the
    first byte of the variable-length encoding of [n], wherever it lies
    in the file, returns [n] and leaves the cursor just behind the
    encoding. *)
Theorem readVar_vlq_encode (n : Z) (pre post : list Byte.byte) :
  0 <= n < 268435456 ->
  readVar (pre ++ vlq_encode n ++ post) (Z.of_nat (List.length pre))
  = (n, Z.of_nat (List.length pre) + Z.of_nat (List.length (vlq_encode n))).
Proof.
  intro Hn. unfold readVar.
  destruct (Z.ltb_spec (Z.of_nat (List.length pre)) 0) as [Hneg | _]; [lia |].
  rewrite skipn_pre. unfold vlq_encode.
  rewrite Z.shiftr_div_pow2 by lia. change (2 ^ 7) with 128.
  assert (Hd : 0 <= n / 128 < 2097152).
  { split; [apply Z.div_pos; lia | apply Z.div_lt_upper_bound; lia]. }
  rewrite <- app_assoc. rewrite readVar_groups by (simpl; lia).
  cbn [app readVar_from].
  rewrite high_bit, low_bits, last_byte.
  assert (Hr : 0 <= n mod 128 < 128) by (apply Z.mod_pos_bound; lia).
  destruct (Z.ltb_spec (n mod 128) 128) as [_ | Hge]; [|lia].
  rewrite Z.mod_mod by lia. rewrite push_group by lia.
  rewrite length_app. cbn [List.length]. f_equal.
  - rewrite (Z.div_mod n 128) at 3; lia.
  - lia.
Qed.

Lemma readVar_vlq_encode_witness :
  readVar (List.map b8 [0] ++ vlq_encode 480 ++ List.map b8 [128; 60; 0]) 1
  = (480, 3).
Proof.
  apply (readVar_vlq_encode 480 (List.map b8 [0]) (List.map b8 [128; 60; 0])).
  lia.
Defined.

(** C5.  End-to-end example B: the file with 480 ticks per quarter, a
    set-tempo event of 500000 at tick 0, a note-on of pitch 60 at tick 0
    and its note-off at tick 480 parses (four turns of the track loop are
    enough) to the note-on at 0 ms and the note-off at 500 ms. *)
Theorem exampleB_times (fuel : nat) :
  (4 <= fuel)%nat ->
  parseMidiFile fuel exampleB
  = Some (Normal
      (mkOutcome
         [ mkEvent 0 144 (Some 60) (Some 100) (ofZ 0);
           mkEvent 480 128 (Some 60) (Some 0) (ofZ 500) ]
         [ mkNotePair (Some 60) (ofZ 0) (ofZ 500) ]
         (ofZ 500)
         ["Previous file cleared."; "File Ready."]%string)).
Proof.
  intro H. apply (parseMidiFile_more 4 fuel exampleB _ H).
  vm_compute. reflexivity.
Qed.

Lemma exampleB_times_witness :
  option_map
    (fun c =>
       match c with
       | Normal o => List.map time (midiEvents o)
       | Thrown _ => []
       end)
    (parseMidiFile 4 exampleB)
  = Some [ofZ 0; ofZ 500].
Proof.
  rewrite (exampleB_times 4); [reflexivity | lia].
Defined.

Lemma slice_head (data : list Byte.byte) (n : Z) :
  0 <= n -> slice data 0 (0 + n) = firstn (Z.to_nat n) data.
Proof.
  intro Hn. unfold slice, rel_index.
  rewrite Z.add_0_l, Z.ltb_irrefl.
  destruct (Z.ltb_spec n 0) as [Hneg | _]; [lia |].
  rewrite (Z.min_l 0) by lia.
  change (Z.to_nat 0) with 0%nat. cbn [skipn]. rewrite Z.sub_0_r.
  destruct (Z.le_ge_cases n (Z.of_nat (List.length data))) as [Hle | Hge].
  - now rewrite Z.min_l by lia.
  - rewrite Z.min_r by lia. rewrite Nat2Z.id.
    rewrite firstn_all. symmetry. apply firstn_all2. lia.
Qed.

(** C3, as the code has it.  A buffer whose first four bytes are not
    [MThd] ends the parse at the header test: the call returns without
    throwing, the event list and the note pairs stay empty and the total
    duration 0, and nothing is logged but the "Previous file cleared."
    of the reset that precedes the parse, so no failure is signalled. *)
Theorem invalid_header_returns_silently (fuel : nat) (data : list Byte.byte) :
  firstn 4 data <> MThd ->
  parseMidiFile fuel data = Some (Normal cleared)
  /\ signalsFailure (Normal cleared) = false.
Proof.
  intro H. split; [|reflexivity].
  unfold parseMidiFile, readStr. rewrite (slice_head data 4) by lia.
  change (Z.to_nat 4) with 4%nat. unfold bytes_eqb.
  destruct (list_eq_dec Byte.byte_eq_dec (firstn 4 data) MThd) as [E | _];
    [contradiction | reflexivity].
Qed.

Lemma invalid_header_returns_silently_witness :
  parseMidiFile 0 notMidi = Some (Normal cleared).
Proof.
  apply (invalid_header_returns_silently 0 notMidi).
  vm_compute. discriminate.
Defined.

(** C3 as the specification states it does not hold: the parse of a file
    that starts with [RIFF] ends normally and signals no failure. *)
Lemma invalid_header_not_reported :
  ~ (forall c, parseMidiFile 0 notMidi = Some c -> signalsFailure c = true).
Proof.
  intro H. specialize (H (Normal cleared) eq_refl). discriminate H.
Qed.

End SmfClaims.

(* ================================================================== *)
(** * Around [parseXMLString] *)
(* ================================================================== *)

Module ParseFacts.
Import JS Dom Convert Parse.

Arguments parseInt : simpl never.
Arguments stepToMidi : simpl never.
Arguments add : simpl never.
Arguments sub : simpl never.

Lemma append_empty (s : string) : (s ++ "")%string = s.
Proof. induction s as [|c r IH]; simpl; [reflexivity | now rewrite IH]. Qed.

Lemma parseChild_noteEl (partIdx : nat) (step octave duration : string)
    (t : num) :
  parseChild partIdx (noteEl step octave duration) t
  = Normal ([pitched partIdx step octave duration t false],
            add t (parseInt duration)).
Proof.
  unfold parseChild, pitchedNote, pitched, intOf. simpl.
  now rewrite !append_empty.
Qed.

Lemma parseChild_chordEl (partIdx : nat) (step octave duration : string)
    (t : num) :
  parseChild partIdx (chordEl step octave duration) t
  = Normal ([pitched partIdx step octave duration t true], t).
Proof.
  unfold parseChild, pitchedNote, pitched, intOf. simpl.
  now rewrite !append_empty.
Qed.

(** Chord members are all stamped with the clock they find and leave it
    as it is. *)
Lemma parseChildren_members (partIdx : nat) (ms : Members) (t : num) :
  parseChildren partIdx (memberEls ms) t
  = Normal (memberEntries partIdx t ms, t).
Proof.
  induction ms as [|[[s o] d] r IH]; [reflexivity |].
  unfold memberEls, memberEntries in *. cbn [List.map parseChildren fst snd].
  rewrite parseChild_chordEl, IH. reflexivity.
Qed.

(** *** An error ends the whole parse *)

Lemma parseChildren_throws (partIdx : nat) (c : Node) (cs : list Node) :
  In c cs -> (forall t, Throws (parseChild partIdx c t)) ->
  forall t, Throws (parseChildren partIdx cs t).
Proof.
  intros Hin Hc. induction cs as [|x r IH]; [contradiction |].
  intro t. simpl.
  destruct (parseChild partIdx x t) as [[pushed t'] | e] eqn:E.
  - destruct Hin as [-> | Hin].
    + destruct (Hc t) as [e He]. congruence.
    + destruct (IH Hin t') as [e He]. rewrite He. now exists e.
  - now exists e.
Qed.

Lemma parsePart_throws (partIdx : nat) (m : Node) (els : list Node) :
  In m els -> Throws (parseMeasure partIdx m) ->
  forall i ms, Throws (parsePart partIdx els i ms).
Proof.
  intros Hin Hm. induction els as [|x r IH]; [contradiction |].
  intros i ms. simpl.
  destruct (parseMeasure partIdx x) as [pushed | e] eqn:E.
  - destruct Hin as [-> | Hin].
    + destruct Hm as [e He]. congruence.
    + apply IH. exact Hin.
  - now exists e.
Qed.

Lemma parseParts_throws (p : Node) (parts : list Node) :
  In p parts ->
  (forall i ms,
     Throws (parsePart i (querySelectorAll p (ByTag "measure")) 0 ms)) ->
  forall i ms, Throws (parseParts parts i ms).
Proof.
  intros Hin Hp. induction parts as [|x r IH]; [contradiction |].
  intros i ms. simpl.
  destruct (parsePart i (querySelectorAll x (ByTag "measure")) 0 ms)
    as [ms' | e] eqn:E.
  - destruct Hin as [-> | Hin].
    + destruct (Hp i ms) as [e He]. congruence.
    + apply IH. exact Hin.
  - now exists e.
Qed.

Lemma parseChild_stepless (partIdx : nat) (c p : Node) (t : num) :
  tagName c = "note"%string -> child c "pitch" = Some p ->
  child p "step" = None ->
  parseChild partIdx c t = Thrown nullDeref.
Proof.
  intros Ht Hp Hs. unfold parseChild. rewrite Ht. simpl.
  rewrite Hp. unfold pitchedNote. now rewrite Hs.
Qed.

End ParseFacts.

(* ================================================================== *)
(** * Claims on [parseXMLString] *)
(* ================================================================== *)

Module ParseClaims.
Import JS Dom Convert Parse ParseFacts.

(** C1, as the code has it.  In a chord group -- a note followed by
    notes that carry [<chord/>] -- read from clock [t], the first note is
    recorded at [t] and the clock moves on by its duration at once, so
    every chord member is recorded at [t] plus that duration and not at
    the onset of the first note; the members themselves leave the clock
    alone, so the group advances it once.  In the sample triad of two
    divisions the onsets are 0 for C4 and 2 for its members E4 and G4. *)
Theorem chord_members_after_first (partIdx : nat)
    (step octave duration : string) (ms : Members) (t : num) :
  parseChildren partIdx (noteEl step octave duration :: memberEls ms) t
  = Normal
      (pitched partIdx step octave duration t false
         :: memberEntries partIdx (add t (parseInt duration)) ms,
       add t (parseInt duration))
  /\ firstMeasureOnsets (parseXMLString (scoreOf triad))
     = [ofZ 0; ofZ 2; ofZ 2; ofZ 2].
Proof.
  split; [|vm_compute; reflexivity].
  cbn [parseChildren]. rewrite parseChild_noteEl, parseChildren_members.
  reflexivity.
Qed.

(** C4, as the code has it.  A [<note>] whose [<pitch>] has no [<step>],
    anywhere in a measure of a part, makes [parseXMLString] throw: no
    score is returned, whatever the other notes are. *)
Theorem stepless_pitch_throws (xmlDoc part measure c p : Node) :
  child xmlDoc "parsererror" = None ->
  In part (querySelectorAll xmlDoc (ByTag "part")) ->
  In measure (querySelectorAll part (ByTag "measure")) ->
  In c (children measure) ->
  tagName c = "note"%string ->
  child c "pitch" = Some p ->
  child p "step" = None ->
  Throws (parseXMLString xmlDoc).
Proof.
  intros Herr Hpart Hmeasure Hc Htag Hp Hs.
  unfold parseXMLString. rewrite Herr.
  destruct (parseParts_throws part (querySelectorAll xmlDoc (ByTag "part"))
              Hpart) with (i := 0%nat)
      (ms := emptyMeasures
               (maxMeasures (querySelectorAll xmlDoc (ByTag "part"))))
    as [e He].
  - intros i ms. apply parsePart_throws with measure; auto.
    unfold parseMeasure.
    destruct (parseChildren_throws i c (children measure) Hc) with (t := ofZ 0)
      as [e He].
    + intro t. exists nullDeref. now apply parseChild_stepless with p.
    + rewrite He. now exists e.
  - rewrite He. now exists e.
Qed.

(** The sample document with a stepless pitch between two well-formed
    notes is not parsed at all. *)
Lemma stepless_pitch_throws_witness :
  Throws (parseXMLString (scoreOf stepless))
  /\ parseXMLString (scoreOf stepless) = Thrown nullDeref.
Proof.
  split; [|vm_compute; reflexivity].
  apply (stepless_pitch_throws (scoreOf stepless)
           (Element "part" [("id", "P1")]%string
              [ Element "measure" [("number", "1")]%string
                  (el "attributes" [leaf "divisions" "1"] :: stepless) ])
           (Element "measure" [("number", "1")]%string
              (el "attributes" [leaf "divisions" "1"] :: stepless))
           (el "note" [el "pitch" [leaf "octave" "4"]; leaf "duration" "1"])
           (el "pitch" [leaf "octave" "4"])).
  - reflexivity.
  - left. reflexivity.
  - left. reflexivity.
  - right. right. left. reflexivity.
  - reflexivity.
  - reflexivity.
  - reflexivity.
Defined.

End ParseClaims.

(* ================================================================== *)
(** * String search and the UTF-8 decoder *)
(* ================================================================== *)

Module FallbackFacts.
Import Bytes Fallback.
Local Open Scope Z_scope.

(** *** String search *)

Lemma startsWith_length (pat s : list Z) :
  startsWith pat s = true -> (List.length pat <= List.length s)%nat.
Proof.
  revert s. induction pat as [|p pr IH]; intros s H; simpl; [lia |].
  destruct s as [|c sr]; [discriminate |]. simpl in *.
  apply andb_true_iff in H as [_ H]. apply IH in H. lia.
Qed.

Lemma startsWith_app (pat s y : list Z) :
  startsWith pat s = true -> startsWith pat (s ++ y) = true.
Proof.
  revert s. induction pat as [|p pr IH]; intros s H; [reflexivity |].
  destruct s as [|c sr]; [discriminate |]. simpl in *.
  apply andb_true_iff in H as [Hc H]. rewrite Hc. now apply IH.
Qed.

Lemma startsWith_app_false (pat s y : list Z) :
  startsWith pat s = false -> (List.length pat <= List.length s)%nat ->
  startsWith pat (s ++ y) = false.
Proof.
  revert s. induction pat as [|p pr IH]; intros s H Hl; [discriminate |].
  destruct s as [|c sr]; [simpl in Hl; lia |]. simpl in *.
  destruct (p =? c); [|reflexivity]. simpl in *. apply IH; [exact H | lia].
Qed.

Lemma startsWith_self (pat y : list Z) : startsWith pat (pat ++ y) = true.
Proof.
  induction pat as [|p pr IH]; [reflexivity |]. simpl.
  now rewrite Z.eqb_refl.
Qed.

Lemma indexOf_bound (pat s : list Z) (i : nat) :
  indexOf pat s = Some i -> (i + List.length pat <= List.length s)%nat.
Proof.
  revert i. induction s as [|c r IH]; intros i H.
  - simpl in H. destruct (startsWith pat []) eqn:E; [|discriminate].
    injection H as <-. now apply startsWith_length in E.
  - cbn [indexOf] in H. destruct (startsWith pat (c :: r)) eqn:E.
    + injection H as <-. now apply startsWith_length in E.
    + destruct (indexOf pat r) as [j|]; [|discriminate].
      injection H as <-. specialize (IH j eq_refl). simpl. lia.
Qed.

(** An occurrence found in [s] is the first one of [s ++ y] too. *)
Lemma indexOf_app (pat s y : list Z) (i : nat) :
  indexOf pat s = Some i -> indexOf pat (s ++ y) = Some i.
Proof.
  revert i. induction s as [|c r IH]; intros i H.
  - simpl in H. destruct (startsWith pat []) eqn:E; [|discriminate].
    injection H as <-. destruct pat; [|discriminate].
    destruct y; reflexivity.
  - pose proof (indexOf_bound pat (c :: r) i H) as Hb.
    cbn [indexOf] in H. cbn [app indexOf].
    change (c :: r ++ y) with ((c :: r) ++ y).
    destruct (startsWith pat (c :: r)) eqn:E.
    + injection H as <-.
      now rewrite (startsWith_app pat (c :: r) y E).
    + rewrite (startsWith_app_false pat (c :: r) y E) by lia.
      destruct (indexOf pat r) as [j|]; [|discriminate].
      injection H as <-. now rewrite (IH j eq_refl).
Qed.

(** *** The decoder around ASCII bytes *)

Lemma leadByte_expects (b : Z) : expectsContinuation (snd (leadByte b)).
Proof.
  unfold leadByte.
  repeat match goal with
         | |- context [if ?c then _ else _] => destruct c
         end; simpl; lia.
Qed.

Lemma decodeByte_expects (st : option Pending) (b : Z) :
  expectsContinuation (snd (decodeByte st b)).
Proof.
  destruct st as [p|]; simpl; [|apply leadByte_expects].
  destruct ((b <? lower p) || (upper p <? b)).
  - pose proof (leadByte_expects b) as H.
    destruct (leadByte b) as [out st']. exact H.
  - destruct (needed p) as [|[|k]]; simpl; lia.
Qed.

Lemma decodeByte_ascii (st : option Pending) (b : Z) :
  expectsContinuation st -> 0 <= b <= 127 ->
  decodeByte st b = (flush st ++ [b], None).
Proof.
  intros Hst Hb. destruct st as [p|]; simpl in *.
  - assert (E : (b <? lower p) = true) by (apply Z.ltb_lt; lia).
    rewrite E. simpl. unfold leadByte.
    assert (E' : (b <=? 127) = true) by (apply Z.leb_le; lia).
    now rewrite E'.
  - unfold leadByte.
    assert (E' : (b <=? 127) = true) by (apply Z.leb_le; lia).
    now rewrite E'.
Qed.

(** An ASCII byte closes whatever precedes it: the stream decodes as its
    two parts. *)
Lemma decodeFrom_split (a : list Byte.byte) (b : Byte.byte)
    (x : list Byte.byte) (st : option Pending) :
  expectsContinuation st -> u8 b <= 127 ->
  decodeFrom st (a ++ b :: x) = decodeFrom st a ++ u8 b :: decodeFrom None x.
Proof.
  revert st. induction a as [|c r IH]; intros st Hst Hb.
  - cbn [app decodeFrom].
    rewrite decodeByte_ascii; auto.
    + now rewrite <- app_assoc.
    + unfold u8 in *. lia.
  - cbn [app decodeFrom].
    pose proof (decodeByte_expects st (u8 c)) as Hc.
    destruct (decodeByte st (u8 c)) as [out st']. simpl in Hc.
    rewrite IH by assumption. now rewrite <- app_assoc.
Qed.

End FallbackFacts.

(* ================================================================== *)
(** * The text of a window and the scan *)
(* ================================================================== *)

Module FallbackText.
Import Bytes Fallback FallbackFacts.
Local Open Scope Z_scope.

Lemma u8_bounds (b : Byte.byte) : 0 <= u8 b < 256.
Proof. destruct b; vm_compute; split; congruence. Qed.

Lemma decodeFrom_ascii_head (c : Byte.byte) (r : list Byte.byte) :
  u8 c <= 127 -> decodeFrom None (c :: r) = u8 c :: decodeFrom None r.
Proof.
  intro H. cbn [decodeFrom]. rewrite decodeByte_ascii.
  - reflexivity.
  - exact I.
  - pose proof (u8_bounds c). lia.
Qed.

(** The text of bytes that start and end with an ASCII byte, followed by
    more bytes: the text of both parts. *)
Lemma decodeText_after (c : Byte.byte) (a : list Byte.byte) (b : Byte.byte)
    (x : list Byte.byte) :
  u8 c <= 127 -> u8 b <= 127 ->
  decodeText ((c :: a ++ [b]) ++ x)
  = decodeText (c :: a ++ [b]) ++ flat_map codeUnits (decodeFrom None x).
Proof.
  intros Hc Hb. unfold decodeText.
  rewrite <- app_comm_cons, <- app_assoc. cbn [app].
  rewrite !decodeFrom_ascii_head by assumption.
  rewrite (decodeFrom_split a b x None I Hb).
  rewrite (decodeFrom_split a b [] None I Hb).
  assert (E : (u8 c =? 65279) = false) by (apply Z.eqb_neq; lia).
  rewrite E. cbn [decodeFrom].
  rewrite <- flat_map_app. f_equal. cbn [app].
  f_equal. rewrite <- app_assoc. reflexivity.
Qed.

Lemma firstn_covers (A : Type) (n : nat) (l1 l2 : list A) :
  (List.length l1 <= n)%nat ->
  firstn n (l1 ++ l2) = l1 ++ firstn (n - List.length l1) l2.
Proof.
  intro H. rewrite firstn_app. now rewrite firstn_all2 by lia.
Qed.

(** *** The scan *)

Lemma prologAt_zero (rest : list Byte.byte) :
  prologAt rest 0 = startsWith prolog (List.map u8 rest).
Proof. reflexivity. Qed.

Lemma prologAt_succ (b : Byte.byte) (r : list Byte.byte) (i : nat) :
  prologAt (b :: r) (S i) = prologAt r i.
Proof. reflexivity. Qed.

Lemma window_succ (b : Byte.byte) (r : list Byte.byte) (i : nat) :
  window (b :: r) (S i) = window r i.
Proof. reflexivity. Qed.

(** [extractAt] in terms of the window at index 0. *)
Lemma extractAt_window (rest : list Byte.byte) :
  extractAt rest
  = match
      match indexOf endTag (decodeText (window rest 0)) with
      | Some i => Some i
      | None => indexOf endTag2 (decodeText (window rest 0))
      end
    with
    | Some i =>
        Some (substring0 (decodeText (window rest 0))
                (i + List.length endTag))
    | None => None
    end.
Proof. reflexivity. Qed.

Lemma scanFrom_cons (b : Byte.byte) (r : list Byte.byte) :
  scanFrom (b :: r)
  = if (5 <? Z.of_nat (List.length (b :: r))) && prologAt (b :: r) 0
    then match extractAt (b :: r) with
         | Some xml => Some xml
         | None => scanFrom r
         end
    else scanFrom r.
Proof. reflexivity. Qed.

Lemma scanFrom_skip (pre rest : list Byte.byte) :
  (forall i, (i < List.length pre)%nat -> prologAt (pre ++ rest) i = false) ->
  scanFrom (pre ++ rest) = scanFrom rest.
Proof.
  induction pre as [|b r IH]; intro H; [reflexivity |].
  rewrite <- app_comm_cons, scanFrom_cons.
  rewrite app_comm_cons, (H 0%nat) by (simpl; lia).
  rewrite andb_false_r. apply IH.
  intros i Hi. rewrite <- (prologAt_succ b). apply (H (S i)). simpl. lia.
Qed.

Lemma scanFrom_none (rest : list Byte.byte) :
  (forall i, prologAt rest i = true ->
     indexOf endTag (decodeText (window rest i)) = None
     /\ indexOf endTag2 (decodeText (window rest i)) = None) ->
  scanFrom rest = None.
Proof.
  induction rest as [|b r IH]; intro H; [reflexivity |].
  assert (Hr : scanFrom r = None).
  { apply IH. intros i Hi. rewrite <- (window_succ b).
    apply (H (S i)). now rewrite prologAt_succ. }
  rewrite scanFrom_cons.
  destruct (prologAt (b :: r) 0) eqn:E;
    [|now rewrite andb_false_r].
  destruct (H 0%nat E) as [H1 H2].
  rewrite extractAt_window, H1, H2.
  now destruct (5 <? Z.of_nat (List.length (b :: r))).
Qed.

Lemma scanFrom_here (rest : list Byte.byte) (xml : jsstring) :
  5 < Z.of_nat (List.length rest) -> prologAt rest 0 = true ->
  extractAt rest = Some xml -> scanFrom rest = Some xml.
Proof.
  intros Hlen Hp Hx. destruct rest as [|b r]; [simpl in Hlen; lia |].
  rewrite scanFrom_cons, Hp, Hx.
  apply Z.ltb_lt in Hlen. now rewrite Hlen.
Qed.

Lemma window_after (pre rest : list Byte.byte) :
  window (pre ++ rest) (List.length pre) = window rest 0.
Proof.
  unfold window. rewrite skipn_app, skipn_all, Nat.sub_diag. reflexivity.
Qed.

Lemma window_covers (doc post : list Byte.byte) :
  Z.of_nat (List.length doc) <= 5000000 ->
  exists x, window (doc ++ post) 0 = doc ++ x.
Proof.
  intro H. unfold window. cbn [skipn].
  exists (firstn
            (Z.to_nat (Z.min (Z.of_nat (List.length (doc ++ post))) 5000000)
             - List.length doc) post).
  apply firstn_covers. rewrite length_app. lia.
Qed.

(** The cut at the first closing tag of a text that ends with it. *)
Lemma cut_at_tag (tag text more : list Z) :
  indexOf tag text = Some (List.length text - List.length tag)%nat ->
  indexOf tag (text ++ more)
    = Some (List.length text - List.length tag)%nat
  /\ substring0 (text ++ more)
       ((List.length text - List.length tag) + List.length tag) = text.
Proof.
  intro H. split; [now apply indexOf_app |].
  apply indexOf_bound in H. unfold substring0.
  replace (List.length text - List.length tag + List.length tag)%nat
    with (List.length text) by lia.
  rewrite firstn_app, Nat.sub_diag, firstn_all. simpl.
  now rewrite app_nil_r.
Qed.

End FallbackText.

(* ================================================================== *)
(** * Claims on [extractMXLFallback] *)
(* ================================================================== *)

Module FallbackClaims.
Import Bytes Fallback FallbackFacts FallbackText.
Local Open Scope Z_scope.

(** The two closing tags end with [>], and the prolog starts with [<]. *)
Lemma document_shape (body : list Byte.byte) (tag : string) :
  tag = "</score-partwise>"%string \/ tag = "</score-timewise>"%string ->
  exists a, lit "<?xml" ++ body ++ lit tag = Byte.x3c :: a ++ [Byte.x3e].
Proof.
  intros [-> | ->].
  - exists (List.tl (lit "<?xml") ++ body
            ++ removelast (lit "</score-partwise>")).
    cbn. rewrite <- !app_assoc. reflexivity.
  - exists (List.tl (lit "<?xml") ++ body
            ++ removelast (lit "</score-timewise>")).
    cbn. rewrite <- !app_assoc. reflexivity.
Qed.

(** The text the scan returns at the first prolog of a document that
    ends with [tag], when the first closing tag the search meets is the
    one at the end. *)
Lemma extractAt_document (doc post : list Byte.byte) (a : list Byte.byte)
    (tag : list Z) :
  doc = Byte.x3c :: a ++ [Byte.x3e] ->
  Z.of_nat (List.length doc) <= 5000000 ->
  List.length tag = List.length endTag ->
  indexOf tag (decodeText doc)
    = Some (List.length (decodeText doc) - List.length tag)%nat ->
  tag = endTag
  \/ (tag = endTag2
      /\ indexOf endTag (decodeText (window (doc ++ post) 0)) = None) ->
  extractAt (doc ++ post) = Some (decodeText doc).
Proof.
  intros Hdoc Hlen Htl Hidx Htag.
  rewrite extractAt_window.
  destruct (window_covers doc post Hlen) as [x Hx]. rewrite Hx in *.
  assert (Htext : decodeText (doc ++ x)
                  = decodeText doc ++ flat_map codeUnits (decodeFrom None x)).
  { rewrite Hdoc. apply decodeText_after; vm_compute; congruence. }
  rewrite Htext in *.
  destruct (cut_at_tag tag (decodeText doc)
              (flat_map codeUnits (decodeFrom None x)) Hidx) as [Hfound Hcut].
  rewrite Htl in Hcut.
  destruct Htag as [-> | [-> Hother]].
  - rewrite Hfound. cbv beta iota. f_equal. exact Hcut.
  - rewrite Hother, Hfound. cbv beta iota. f_equal. exact Hcut.
Qed.

(** C9, as the code has it.  A document that starts with [<?xml] and
    ends with a closing tag of the score is returned whole, whatever
    bytes surround it, when no [<?xml] starts in the bytes before it, it
    is at most 5,000,000 bytes long, the closing tag is met in its text
    first at its end and, for a score-timewise document, the window holds
    no [</score-partwise>].  The scan is a total function: it returns
    [null] when no [<?xml] position has a closing tag in its window. *)
Theorem fallback_returns_document :
  (forall (pre body post : list Byte.byte) (tag : string),
     tag = "</score-partwise>"%string \/ tag = "</score-timewise>"%string ->
     (forall i, (i < List.length pre)%nat ->
        prologAt (pre ++ (lit "<?xml" ++ body ++ lit tag) ++ post) i = false) ->
     Z.of_nat (List.length (lit "<?xml" ++ body ++ lit tag)) <= 5000000 ->
     indexOf (str tag) (decodeText (lit "<?xml" ++ body ++ lit tag))
       = Some (List.length (decodeText (lit "<?xml" ++ body ++ lit tag))
               - List.length (str tag))%nat ->
     (tag = "</score-timewise>"%string ->
      indexOf endTag
        (decodeText
           (window (pre ++ (lit "<?xml" ++ body ++ lit tag) ++ post)
              (List.length pre)))
      = None) ->
     extractMXLFallback (pre ++ (lit "<?xml" ++ body ++ lit tag) ++ post)
     = Some (decodeText (lit "<?xml" ++ body ++ lit tag)))
  /\ (forall zipData : list Byte.byte,
        (forall i, prologAt zipData i = true ->
           indexOf endTag (decodeText (window zipData i)) = None
           /\ indexOf endTag2 (decodeText (window zipData i)) = None) ->
        extractMXLFallback zipData = None).
Proof.
  split.
  - intros pre body post tag Htag Hpre Hlen Hidx Hother.
    unfold extractMXLFallback. rewrite scanFrom_skip by exact Hpre.
    destruct (document_shape body tag Htag) as [a Hdoc].
    apply scanFrom_here.
    + rewrite !length_app. change (List.length (lit "<?xml")) with 5%nat.
      destruct Htag as [-> | ->]; simpl; lia.
    + rewrite prologAt_zero, <- app_assoc, map_app.
      apply (startsWith_self prolog).
    + apply (extractAt_document _ post a (str tag) Hdoc Hlen).
      * destruct Htag as [-> | ->]; reflexivity.
      * exact Hidx.
      * destruct Htag as [-> | ->]; [now left | right].
        split; [reflexivity |].
        rewrite <- (window_after pre). now apply Hother.
  - intros zipData H. unfold extractMXLFallback. now apply scanFrom_none.
Qed.

(** The score-partwise sample between garbage bytes is returned whole,
    and garbage alone gives [null]. *)
Lemma fallback_returns_document_witness :
  extractMXLFallback partwiseBuffer = Some (decodeText partwiseDoc)
  /\ extractMXLFallback garbage = None.
Proof.
  split.
  - apply (proj1 fallback_returns_document garbage
             (lit " version='1.0'?><score-partwise>") garbage
             "</score-partwise>"%string).
    + left. reflexivity.
    + intros i Hi.
      do 6 (destruct i as [|i]; [vm_compute; reflexivity |]).
      simpl in Hi. lia.
    + vm_compute. congruence.
    + vm_compute. reflexivity.
    + intro H. discriminate H.
  - apply (proj2 fallback_returns_document garbage).
    intros i Hi. exfalso.
    do 7 (destruct i as [|i]; [vm_compute in Hi; discriminate Hi |]).
    vm_compute in Hi. discriminate Hi.
Defined.

(** C9 as the specification states it does not hold, on buffers without
    a local file header: bytes before the document that hold a prolog of
    their own are returned with it, and a score-timewise document is
    returned with what follows it up to a later [</score-partwise>]. *)
Lemma fallback_not_exact :
  hasLocalHeader prologBuffer = false
  /\ extractMXLFallback prologBuffer <> Some (decodeText partwiseDoc)
  /\ hasLocalHeader timewiseBuffer = false
  /\ extractMXLFallback timewiseBuffer <> Some (decodeText timewiseDoc).
Proof. repeat split; vm_compute; congruence. Qed.

End FallbackClaims.

(* ================================================================== *)
(** * Events and note pairs of the merge step *)
(* ================================================================== *)

Module ConvertMore.
Import JS Convert NumFacts SortFacts KeyFacts DedupFacts ShapeFacts PolicyFacts ConvertFacts.

(** *** The sort keeps the order of equal times *)

Lemma eqb_sym (a b : num) : eqb a b = eqb b a.
Proof.
  destruct a as [| | |x], b as [| | |y]; try reflexivity.
  unfold eqb.
  destruct (Qeq_bool x y) eqn:E, (Qeq_bool y x) eqn:E'; auto.
  - apply Qeq_bool_sym in E. congruence.
  - apply Qeq_bool_sym in E'. congruence.
Qed.

Lemma eqb_trans (a b c : num) :
  eqb a b = true -> eqb b c = true -> eqb a c = true.
Proof.
  destruct a, b, c; try discriminate; try reflexivity.
  unfold eqb. apply Qeq_bool_trans.
Qed.

(** A number that is greater than another is not equal to it. *)
Lemma gtb_sub_neq (x y : num) :
  gtb (sub x y) (Fin 0) = true -> eqb y x = false.
Proof.
  destruct x as [| | |a], y as [| | |b]; try discriminate; try reflexivity.
  unfold gtb, sub, add, neg, ltb, eqb.
  destruct (0 ?= Qred (a + Qred (- b)))%Q eqn:E; intro H; try discriminate H.
  apply (proj1 (qcompare_sub_gt a b)) in E.
  destruct (Qeq_bool b a) eqn:E'; auto.
  apply Qeq_bool_iff in E'. apply Qeq_alt in E'. congruence.
Qed.

Section Stable.
Variable A : Type.
Variable key : A -> num.

Lemma insert_stable (t : num) (x : A) (l : list A) :
  filter (fun e => eqb (key e) t)
    (insert (fun a b => sub (key a) (key b)) x l)
  = filter (fun e => eqb (key e) t) (x :: l).
Proof.
  induction l as [|y r IH]; [reflexivity |].
  cbn [insert].
  destruct (gtb (sub (key x) (key y)) (Fin 0)) eqn:E; [|reflexivity].
  cbn [filter] in *. rewrite IH.
  destruct (eqb (key x) t) eqn:Ex; [|reflexivity].
  destruct (eqb (key y) t) eqn:Ey; [|reflexivity].
  apply gtb_sub_neq in E.
  rewrite (eqb_trans (key y) t (key x) Ey) in E; [discriminate |].
  now rewrite eqb_sym.
Qed.

Lemma sort_stable (t : num) (l : list A) :
  filter (fun e => eqb (key e) t) (sort (fun a b => sub (key a) (key b)) l)
  = filter (fun e => eqb (key e) t) l.
Proof.
  induction l as [|x r IH]; [reflexivity |].
  cbn [sort]. rewrite insert_stable. cbn [filter]. now rewrite IH.
Qed.
End Stable.

(** X1.  When no start or end time of the notes is NaN, the events of
    the merge step that carry one timestamp come out in the order in
    which they were generated: the sort does not reorder a note-off and
    a note-on of the same time. *)
Theorem mergeNotes_keeps_order_of_ties (l : list TimedNote) (t : num) :
  Forall (fun n => isNaN (startTime n) = false /\ isNaN (endTime n) = false)
    l ->
  filter (fun e => eqb (time e) t) (midiEvents (mergeNotes l))
  = filter (fun e => eqb (time e) t) (flat_map noteEvents (dedup l)).
Proof.
  intros _. unfold mergeNotes. simpl. apply (sort_stable MidiEvent time).
Qed.

(** A note that starts at 500, generated first, and a note that ends at
    500: the note-on stays before the note-off. *)
Lemma mergeNotes_keeps_order_of_ties_witness :
  filter (fun e => eqb (time e) (ofZ 500))
    (midiEvents
       (mergeNotes
          [ mkTimedNote (ofZ 62) (ofZ 500) (ofZ 1000) (ofZ 1);
            mkTimedNote (ofZ 60) (ofZ 0) (ofZ 500) (ofZ 1) ]))
  = [ mkMidiEvent (ofZ 500) [ofZ 144; ofZ 62; ofZ 100];
      mkMidiEvent (ofZ 500) [ofZ 128; ofZ 60; ofZ 0] ].
Proof.
  rewrite (mergeNotes_keeps_order_of_ties
             [ mkTimedNote (ofZ 62) (ofZ 500) (ofZ 1000) (ofZ 1);
               mkTimedNote (ofZ 60) (ofZ 0) (ofZ 500) (ofZ 1) ] (ofZ 500)).
  - vm_compute. reflexivity.
  - repeat constructor.
Defined.

(** X2.  The events and the note pairs of the merge step describe the
    same notes: every pair has its note-on at its start and its note-off
    at its end among the events, every event is the note-on or note-off
    of a pair, and there are two events for each pair. *)
Theorem events_match_pairs (l : list TimedNote) :
  List.length (midiEvents (mergeNotes l))
  = (2 * List.length (notePairs (mergeNotes l)))%nat
  /\ (forall p, In p (notePairs (mergeNotes l)) ->
        In (mkMidiEvent (start p) [ofZ 144; note p; ofZ 100])
           (midiEvents (mergeNotes l))
        /\ In (mkMidiEvent (end_ p) [ofZ 128; note p; ofZ 0])
              (midiEvents (mergeNotes l)))
  /\ (forall e, In e (midiEvents (mergeNotes l)) ->
        exists p, In p (notePairs (mergeNotes l))
          /\ (e = mkMidiEvent (start p) [ofZ 144; note p; ofZ 100]
              \/ e = mkMidiEvent (end_ p) [ofZ 128; note p; ofZ 0])).
Proof.
  unfold mergeNotes. simpl.
  pose proof (sort_perm MidiEvent byTime (flat_map noteEvents (dedup l))) as Hp.
  split; [|split].
  - rewrite (Permutation_length Hp), length_map. clear Hp.
    induction (dedup l) as [|n r IH]; [reflexivity |].
    cbn [flat_map]. rewrite length_app, IH. cbn [noteEvents List.length]. lia.
  - intros p Hin. apply in_map_iff in Hin as [n [<- Hn]].
    split; apply (Permutation_in _ (Permutation_sym Hp));
      apply in_flat_map; exists n; (split; [exact Hn |]); simpl; auto.
  - intros e He. apply (Permutation_in _ Hp) in He.
    apply in_flat_map in He as [n [Hn He]].
    exists (notePair n). split; [now apply in_map |].
    simpl in He. destruct He as [<- | [<- | []]]; auto.
Qed.

End ConvertMore.

(* ================================================================== *)
(** * Errors of [parseXMLString] *)
(* ================================================================== *)

Module ParseMore.
Import JS Dom Convert Parse ParseFacts.

Arguments parseInt : simpl never.
Arguments stepToMidi : simpl never.
Arguments add : simpl never.
Arguments sub : simpl never.

(** *** Where an error can come from *)

Lemma parseChild_thrown (partIdx : nat) (c : Node) (t : num) (e : string) :
  parseChild partIdx c t = Thrown e ->
  e = nullDeref
  /\ tagName c = "note"%string
  /\ exists p, child c "pitch" = Some p
       /\ (child p "step" = None \/ child p "octave" = None).
Proof.
  unfold parseChild.
  destruct (String.eqb (tagName c) "backup").
  { destruct (child c "duration"); discriminate. }
  destruct (String.eqb (tagName c) "forward").
  { destruct (child c "duration"); discriminate. }
  destruct (String.eqb (tagName c) "note") eqn:Et; [|discriminate].
  apply String.eqb_eq in Et.
  destruct (child c "pitch") as [p|] eqn:Ep.
  - unfold pitchedNote.
    destruct (child p "step") eqn:Es.
    + destruct (child p "octave") eqn:Eo.
      * discriminate.
      * intro H. injection H as <-. split; [reflexivity |].
        split; [exact Et |]. exists p. auto.
    + intro H. injection H as <-. split; [reflexivity |].
      split; [exact Et |]. exists p. auto.
  - destruct (child c "rest"), (child c "duration"); discriminate.
Qed.

Lemma parseChild_incomplete (partIdx : nat) (c p : Node) (t : num) :
  tagName c = "note"%string -> child c "pitch" = Some p ->
  child p "step" = None \/ child p "octave" = None ->
  parseChild partIdx c t = Thrown nullDeref.
Proof.
  intros Ht Hp Hs. unfold parseChild. rewrite Ht. simpl.
  rewrite Hp. unfold pitchedNote.
  destruct Hs as [Hs | Hs]; rewrite Hs; [reflexivity |].
  now destruct (child p "step").
Qed.

Lemma parseChildren_thrown (partIdx : nat) (cs : list Node) (t : num)
    (e : string) :
  parseChildren partIdx cs t = Thrown e ->
  exists c t', In c cs /\ parseChild partIdx c t' = Thrown e.
Proof.
  revert t. induction cs as [|x r IH]; intros t H; [discriminate H |].
  cbn [parseChildren] in H.
  destruct (parseChild partIdx x t) as [[pushed t1] | e1] eqn:E.
  - destruct (parseChildren partIdx r t1) as [[more t2] | e2] eqn:E2;
      [discriminate H |].
    injection H as ->.
    destruct (IH t1 E2) as [c [t' [Hin Hc]]].
    exists c, t'. split; [now right | exact Hc].
  - injection H as ->. exists x, t. split; [now left | exact E].
Qed.

Lemma parsePart_thrown (partIdx : nat) (els : list Node) (i : nat)
    (ms : list Measure) (e : string) :
  parsePart partIdx els i ms = Thrown e ->
  exists m, In m els /\ parseMeasure partIdx m = Thrown e.
Proof.
  revert i ms. induction els as [|x r IH]; intros i ms H; [discriminate H |].
  cbn [parsePart] in H.
  destruct (parseMeasure partIdx x) as [pushed | e1] eqn:E.
  - destruct (IH _ _ H) as [m [Hin Hm]]. exists m. split; [now right | exact Hm].
  - injection H as ->. exists x. split; [now left | exact E].
Qed.

Lemma parseParts_thrown (parts : list Node) (i : nat) (ms : list Measure)
    (e : string) :
  parseParts parts i ms = Thrown e ->
  exists p k ms', In p parts
    /\ parsePart k (querySelectorAll p (ByTag "measure")) 0 ms' = Thrown e.
Proof.
  revert i ms. induction parts as [|x r IH]; intros i ms H; [discriminate H |].
  cbn [parseParts] in H.
  destruct (parsePart i (querySelectorAll x (ByTag "measure")) 0 ms)
    as [ms1 | e1] eqn:E.
  - destruct (IH _ _ H) as [p [k [ms' [Hin Hp]]]].
    exists p, k, ms'. split; [now right | exact Hp].
  - injection H as ->. exists x, i, ms. split; [now left | exact E].
Qed.

Lemma parseXMLString_thrown (xmlDoc : Node) (e : string) :
  child xmlDoc "parsererror" = None ->
  parseXMLString xmlDoc = Thrown e ->
  e = nullDeref
  /\ exists part measure c p,
       In part (querySelectorAll xmlDoc (ByTag "part"))
       /\ In measure (querySelectorAll part (ByTag "measure"))
       /\ In c (children measure)
       /\ tagName c = "note"%string
       /\ child c "pitch" = Some p
       /\ (child p "step" = None \/ child p "octave" = None).
Proof.
  intros Hpe H. unfold parseXMLString in H. rewrite Hpe in H.
  destruct (parseParts _ 0 _) as [ms | e1] eqn:E; [discriminate H |].
  injection H as ->.
  apply parseParts_thrown in E as [part [k [ms' [Hpart E]]]].
  apply parsePart_thrown in E as [m [Hm E]].
  unfold parseMeasure in E.
  destruct (parseChildren k (children m) (ofZ 0)) as [[pushed t] | e2] eqn:E2;
    [discriminate E |].
  injection E as ->.
  apply parseChildren_thrown in E2 as [c [t' [Hc E2]]].
  apply parseChild_thrown in E2 as [He [Ht [p [Hp Hs]]]].
  split; [exact He |]. exists part, m, c, p.
  repeat (split; [assumption |]). exact Hs.
Qed.

Lemma parseXMLString_incomplete (xmlDoc part measure c p : Node) :
  child xmlDoc "parsererror" = None ->
  In part (querySelectorAll xmlDoc (ByTag "part")) ->
  In measure (querySelectorAll part (ByTag "measure")) ->
  In c (children measure) ->
  tagName c = "note"%string ->
  child c "pitch" = Some p ->
  child p "step" = None \/ child p "octave" = None ->
  parseXMLString xmlDoc = Thrown nullDeref.
Proof.
  intros Hpe Hpart Hm Hc Ht Hp Hs.
  assert (H : Throws (parseXMLString xmlDoc)).
  { unfold parseXMLString. rewrite Hpe.
    assert (H : Throws
                  (parseParts (querySelectorAll xmlDoc (ByTag "part")) 0
                     (emptyMeasures
                        (maxMeasures (querySelectorAll xmlDoc (ByTag "part")))))).
    { apply (parseParts_throws part); [exact Hpart |].
      intros i ms. apply (parsePart_throws i measure); [exact Hm |].
      unfold parseMeasure.
      destruct (parseChildren_throws i c (children measure) Hc) with (t := ofZ 0)
        as [e He].
      - intro t. exists nullDeref. now apply (parseChild_incomplete i c p).
      - rewrite He. now exists e. }
    destruct H as [e He]. rewrite He. now exists e. }
  destruct H as [e He]. rewrite He. f_equal.
  apply (parseXMLString_thrown xmlDoc e Hpe He).
Qed.

Lemma parseXMLString_returns (xmlDoc : Node) :
  child xmlDoc "parsererror" = None ->
  ~ Throws (parseXMLString xmlDoc) ->
  exists sd, parseXMLString xmlDoc = Normal (Some sd).
Proof.
  intros Hpe Hn. unfold parseXMLString in *. rewrite Hpe in *.
  destruct (parseParts _ 0 _) as [ms | e1] eqn:E.
  - eexists. reflexivity.
  - exfalso. apply Hn. now exists e1.
Qed.

(** X3.  On a document without [parsererror], [parseXMLString] throws
    exactly when some [<note>] of a measure of a part has a [<pitch>]
    without [<step>] or without [<octave>]; the error is then the one of
    reading a property of [null].  On every other document it returns
    score data. *)
Theorem parse_throws_iff (xmlDoc : Node) :
  child xmlDoc "parsererror" = None ->
  (Throws (parseXMLString xmlDoc) <->
   exists part measure c p,
     In part (querySelectorAll xmlDoc (ByTag "part"))
     /\ In measure (querySelectorAll part (ByTag "measure"))
     /\ In c (children measure)
     /\ tagName c = "note"%string
     /\ child c "pitch" = Some p
     /\ (child p "step" = None \/ child p "octave" = None))
  /\ (forall e, parseXMLString xmlDoc = Thrown e -> e = nullDeref)
  /\ (~ Throws (parseXMLString xmlDoc) ->
      exists sd, parseXMLString xmlDoc = Normal (Some sd)).
Proof.
  intro Hpe. split; [split |split].
  - intros [e He]. apply (parseXMLString_thrown xmlDoc e Hpe He).
  - intros [part [measure [c [p [Hpart [Hm [Hc [Ht [Hp Hs]]]]]]]]].
    exists nullDeref.
    apply (parseXMLString_incomplete xmlDoc part measure c p); assumption.
  - intros e He. apply (parseXMLString_thrown xmlDoc e Hpe He).
  - now apply parseXMLString_returns.
Qed.

Lemma parse_throws_iff_witness :
  (exists sd, parseXMLString exampleADoc = Normal (Some sd))
  /\ Throws (parseXMLString (scoreOf stepless)).
Proof.
  split.
  - apply (proj2 (proj2 (parse_throws_iff exampleADoc eq_refl))).
    intros [e He]. vm_compute in He. discriminate He.
  - apply (proj2 (proj1 (parse_throws_iff (scoreOf stepless) eq_refl))).
    exists (Element "part" [("id", "P1")]%string
              [ Element "measure" [("number", "1")]%string
                  (el "attributes" [leaf "divisions" "1"] :: stepless) ]),
           (Element "measure" [("number", "1")]%string
              (el "attributes" [leaf "divisions" "1"] :: stepless)),
           (el "note" [el "pitch" [leaf "octave" "4"]; leaf "duration" "1"]),
           (el "pitch" [leaf "octave" "4"]).
    repeat split; try reflexivity.
    + vm_compute. auto.
    + vm_compute. auto.
    + vm_compute. auto.
    + left. reflexivity.
Defined.

End ParseMore.

(* ================================================================== *)
(** * The clock of a measure and the measures of the parts *)
(* ================================================================== *)

Module VoiceFacts.
Import JS Dom Convert Parse Voices ParseFacts.

Arguments parseInt : simpl never.
Arguments stepToMidi : simpl never.
Arguments add : simpl never.
Arguments sub : simpl never.

(** *** Integer clocks *)

Lemma Qred_integer (z : Z) : Qred (z # 1) = z # 1.
Proof.
  unfold Qred.
  pose proof (Z.ggcd_gcd z 1) as Hg.
  pose proof (Z.ggcd_correct_divisors z 1) as Hd.
  destruct (Z.ggcd z 1) as [g [aa bb]]. cbn [fst snd] in *.
  rewrite Z.gcd_1_r in Hg. subst g. destruct Hd as [Ha Hb].
  rewrite Z.mul_1_l in Ha, Hb. now subst.
Qed.

Lemma add_ofZ (a b : Z) : add (ofZ a) (ofZ b) = ofZ (a + b).
Proof.
  unfold add, ofZ, inject_Z, Qplus. cbn [Qnum Qden].
  rewrite !Z.mul_1_r. change (1 * 1)%positive with 1%positive.
  f_equal. apply Qred_integer.
Qed.

Lemma neg_ofZ (a : Z) : neg (ofZ a) = ofZ (- a).
Proof.
  unfold neg, ofZ, inject_Z, Qopp. cbn [Qnum Qden].
  f_equal. apply Qred_integer.
Qed.

Lemma sub_ofZ (a b : Z) : sub (ofZ a) (ofZ b) = ofZ (a - b).
Proof. unfold sub. now rewrite neg_ofZ, add_ofZ. Qed.

(** *** Children read one after the other *)

Lemma parseChildren_app (partIdx : nat) (cs1 cs2 : list Node) (t : num) :
  parseChildren partIdx (cs1 ++ cs2) t
  = match parseChildren partIdx cs1 t with
    | Thrown e => Thrown e
    | Normal (pushed, t1) =>
        match parseChildren partIdx cs2 t1 with
        | Thrown e => Thrown e
        | Normal (more, t2) => Normal (pushed ++ more, t2)
        end
    end.
Proof.
  revert t. induction cs1 as [|c r IH]; intro t.
  - cbn [app parseChildren].
    now destruct (parseChildren partIdx cs2 t) as [[more t2] | e].
  - cbn [app parseChildren].
    destruct (parseChild partIdx c t) as [[pushed t1] | e]; [|reflexivity].
    rewrite IH.
    destruct (parseChildren partIdx r t1) as [[p2 t2] | e]; [|reflexivity].
    destruct (parseChildren partIdx cs2 t2) as [[p3 t3] | e]; [|reflexivity].
    now rewrite app_assoc.
Qed.

Lemma parseChild_backupEl (partIdx : nat) (d : string) (t : num) :
  parseChild partIdx (backupEl d) t = Normal ([], sub t (parseInt d)).
Proof.
  unfold parseChild, intOf. simpl. now rewrite append_empty.
Qed.

Lemma voice_onsets (partIdx : nat) (voice : Members) (ds : list Z) (t : Z) :
  durationsOf voice ds ->
  parseChildren partIdx (noteEls voice) (ofZ t)
  = Normal (voiceEntries partIdx t voice ds, ofZ (t + total ds)).
Proof.
  intro H. revert t.
  induction H as [|[[s o] d] z r zs Hd Hr IH]; intro t.
  - cbn. now rewrite Z.add_0_r.
  - cbn [noteEls List.map parseChildren voiceEntries total fold_right fst snd]
      in *.
    rewrite parseChild_noteEl, Hd, add_ofZ.
    fold (noteEls r). rewrite IH. fold (total zs).
    cbn [app]. now rewrite Z.add_assoc.
Qed.

(** X4.  Successive pitched notes of a voice, each a step, an octave
    and a duration that is a non-negative integer, start at the running
    sums of the durations before them, and the clock ends at the sum of
    all of them, as long as that sum is at most [2^53]. *)
Theorem sequential_onsets (partIdx : nat) (voice : Members) (ds : list Z)
    (t : Z) :
  durationsOf voice ds -> exactClock t ds = true ->
  parseChildren partIdx (noteEls voice) (ofZ t)
  = Normal (voiceEntries partIdx t voice ds, ofZ (t + total ds))
  /\ List.map note_time (voiceEntries partIdx t voice ds)
     = List.map ofZ
         (List.map (fun k => (t + total (firstn k ds))%Z)
            (seq 0 (List.length ds))).
Proof.
  intros H _. split; [now apply voice_onsets |].
  clear - H. revert t.
  induction H as [|[[s o] d] z r zs Hd Hr IH]; intro t; [reflexivity |].
  cbn [voiceEntries List.map List.length seq firstn total fold_right].
  cbn [note_time pitched]. rewrite Z.add_0_r. f_equal.
  rewrite IH, <- seq_shift, !map_map. apply map_ext. intro k.
  cbn [firstn total fold_right]. f_equal. fold (total (firstn k zs)). lia.
Qed.

Lemma sequential_onsets_witness :
  parseChildren 0 (noteEls [("C", "5", "1"); ("D", "5", "1")]%string) (ofZ 0)
  = Normal (voiceEntries 0 0 [("C", "5", "1"); ("D", "5", "1")]%string [1; 1]%Z,
            ofZ 2).
Proof.
  apply (proj1 (sequential_onsets 0 [("C", "5", "1"); ("D", "5", "1")]%string
                  [1; 1]%Z 0%Z ltac:(repeat constructor) eq_refl)).
Defined.

(** X5.  A [<backup>] of the summed durations of a voice of such notes
    takes the clock back to where the voice began, as long as the clock
    stayed at or below [2^53]: what follows is read as if it stood at
    the start, and its entries come after those of the voice. *)
Theorem backup_rewinds (partIdx : nat) (voice : Members) (ds : list Z)
    (b : string) (rest : list Node) (t : Z) :
  durationsOf voice ds -> exactClock t ds = true ->
  parseInt b = ofZ (total ds) ->
  parseChildren partIdx (noteEls voice ++ backupEl b :: rest) (ofZ t)
  = match parseChildren partIdx rest (ofZ t) with
    | Thrown e => Thrown e
    | Normal (more, t') =>
        Normal (voiceEntries partIdx t voice ds ++ more, t')
    end.
Proof.
  intros Hv _ Hb.
  rewrite parseChildren_app, (voice_onsets partIdx voice ds t Hv).
  cbn [parseChildren]. rewrite parseChild_backupEl, Hb, sub_ofZ.
  replace (t + total ds - total ds)%Z with t by lia.
  now destruct (parseChildren partIdx rest (ofZ t)) as [[more t'] | e].
Qed.

Lemma backup_rewinds_witness :
  List.map note_time
    (match parseChildren 0 twoVoices (ofZ 0) with
     | Normal (es, _) => es
     | Thrown _ => []
     end)
  = [ofZ 0; ofZ 1; ofZ 0; ofZ 1].
Proof.
  unfold twoVoices.
  rewrite (backup_rewinds 0 [("C", "5", "1"); ("D", "5", "1")]%string
             [1; 1]%Z "2" _ 0%Z).
  - vm_compute. reflexivity.
  - repeat constructor.
  - reflexivity.
  - vm_compute. reflexivity.
Defined.

(** *** Notes pushed by measure index *)

Lemma withNotes_nil (m : Measure) : withNotes m [] = m.
Proof. destruct m. unfold withNotes. simpl. now rewrite app_nil_r. Qed.

Lemma withNotes_app (m : Measure) (a b : list NoteEntry) :
  withNotes (withNotes m a) b = withNotes m (a ++ b).
Proof. unfold withNotes. simpl. now rewrite app_assoc. Qed.

Lemma pushNotes_length (ms : list Measure) (j : nat) (es : list NoteEntry) :
  List.length (pushNotes ms j es) = List.length ms.
Proof.
  revert j. induction ms as [|m r IH]; intro j; [reflexivity |].
  destruct j; simpl; [reflexivity | now rewrite IH].
Qed.

Lemma pushNotes_nth (ms : list Measure) (j i : nat) (es : list NoteEntry) :
  nth_error (pushNotes ms j es) i
  = option_map (fun m => withNotes m (if Nat.eqb i j then es else []))
      (nth_error ms i).
Proof.
  revert j i. induction ms as [|m r IH]; intros j i.
  - simpl. now destruct i.
  - destruct j, i; cbn [pushNotes nth_error option_map Nat.eqb].
    + reflexivity.
    + destruct (nth_error r i); cbn; [now rewrite withNotes_nil | reflexivity].
    + now rewrite withNotes_nil.
    + apply IH.
Qed.

Lemma parsePart_nth (k : nat) (els : list Node) (j : nat)
    (ms ms' : list Measure) :
  parsePart k els j ms = Normal ms' ->
  List.length ms' = List.length ms
  /\ forall i, nth_error ms' i
       = option_map (fun m => withNotes m (contribution k els j i))
           (nth_error ms i).
Proof.
  revert j ms. induction els as [|x r IH]; intros j ms H.
  - injection H as <-. split; [reflexivity |].
    intro i. unfold contribution.
    replace (match nth_error [] (i - j) with
             | Some measure =>
                 match parseMeasure k measure with
                 | Normal pushed => pushed
                 | Thrown _ => []
                 end
             | None => []
             end) with (@nil NoteEntry) by now destruct (i - j)%nat.
    destruct (Nat.leb j i), (nth_error ms i); cbn;
      now rewrite ?withNotes_nil.
  - cbn [parsePart] in H.
    destruct (parseMeasure k x) as [pushed | e] eqn:E; [|discriminate H].
    destruct (IH _ _ H) as [Hlen Hnth].
    split; [now rewrite Hlen, pushNotes_length |].
    intro i. rewrite Hnth, pushNotes_nth.
    destruct (nth_error ms i) as [m|]; [|reflexivity].
    cbn [option_map]. f_equal. rewrite withNotes_app. f_equal.
    unfold contribution.
    destruct (Nat.eqb i j) eqn:Eij.
    + apply Nat.eqb_eq in Eij. subst i.
      rewrite Nat.leb_refl, Nat.sub_diag. cbn [nth_error]. rewrite E.
      replace (Nat.leb (S j) j) with false
        by (symmetry; apply Nat.leb_gt; lia).
      now rewrite app_nil_r.
    + apply Nat.eqb_neq in Eij. cbn [app].
      destruct (Nat.leb (S j) i) eqn:El.
      * apply Nat.leb_le in El.
        replace (Nat.leb j i) with true by (symmetry; apply Nat.leb_le; lia).
        replace (i - j)%nat with (S (i - S j)) by lia. reflexivity.
      * apply Nat.leb_gt in El.
        replace (Nat.leb j i) with false by (symmetry; apply Nat.leb_gt; lia).
        reflexivity.
Qed.

Lemma contribution_zero (k : nat) (p : Node) (i : nat) :
  contribution k (querySelectorAll p (ByTag "measure")) 0 i = entriesAt i k p.
Proof. unfold contribution, entriesAt. cbn [Nat.leb]. now rewrite Nat.sub_0_r. Qed.

Lemma parseParts_nth (parts : list Node) (k : nat) (ms ms' : list Measure) :
  parseParts parts k ms = Normal ms' ->
  List.length ms' = List.length ms
  /\ forall i, nth_error ms' i
       = option_map (fun m => withNotes m (entriesOfParts i k parts))
           (nth_error ms i).
Proof.
  revert k ms. induction parts as [|p r IH]; intros k ms H.
  - injection H as <-. split; [reflexivity |].
    intro i. cbn [entriesOfParts].
    destruct (nth_error ms i); cbn; now rewrite ?withNotes_nil.
  - cbn [parseParts] in H.
    destruct (parsePart k (querySelectorAll p (ByTag "measure")) 0 ms)
      as [ms1 | e] eqn:E; [|discriminate H].
    apply parsePart_nth in E as [Hl1 Hn1].
    destruct (IH _ _ H) as [Hl2 Hn2].
    split; [congruence |].
    intro i. rewrite Hn2, Hn1.
    destruct (nth_error ms i) as [m|]; [|reflexivity].
    cbn [option_map entriesOfParts]. f_equal.
    now rewrite withNotes_app, contribution_zero.
Qed.

Lemma emptyMeasures_nth (n i : nat) :
  (i < n)%nat ->
  nth_error (emptyMeasures n) i
  = Some (mkMeasure (natToString (i + 1)) [] (ofZ 200)).
Proof.
  intro H. unfold emptyMeasures.
  rewrite nth_error_map, nth_error_seq.
  apply Nat.ltb_lt in H. rewrite H. reflexivity.
Qed.

(** X6.  The measures of a parsed score are as many as the longest part
    has; the one of index [i] is numbered [i + 1], has width 200 and
    holds the entries of the measures of index [i] of the parts, part
    after part. *)
Theorem measures_by_index (xmlDoc : Node) (sd : ScoreData) :
  parseXMLString xmlDoc = Normal (Some sd) ->
  List.length (measures sd)
  = maxMeasures (querySelectorAll xmlDoc (ByTag "part"))
  /\ forall i m, nth_error (measures sd) i = Some m ->
       number m = natToString (i + 1)
       /\ width m = ofZ 200
       /\ notes m
          = entriesOfParts i 0 (querySelectorAll xmlDoc (ByTag "part")).
Proof.
  unfold parseXMLString.
  destruct (child xmlDoc "parsererror"); [discriminate |].
  destruct (parseParts _ 0 _) as [ms | e] eqn:E; [|discriminate].
  intro H. injection H as <-. cbn [measures].
  apply parseParts_nth in E as [Hlen Hnth].
  assert (Hn : List.length ms
               = maxMeasures (querySelectorAll xmlDoc (ByTag "part"))).
  { rewrite Hlen. unfold emptyMeasures. now rewrite length_map, length_seq. }
  split; [exact Hn |].
  intros i m Hm.
  assert (Hi : (i < maxMeasures (querySelectorAll xmlDoc (ByTag "part")))%nat).
  { rewrite <- Hn. apply nth_error_Some. congruence. }
  rewrite Hnth, (emptyMeasures_nth _ _ Hi) in Hm.
  cbn [option_map] in Hm. injection Hm as <-.
  unfold withNotes. cbn. auto.
Qed.

Lemma measures_by_index_witness :
  exists sd, parseXMLString twoParts = Normal (Some sd)
    /\ List.map (fun m => List.length (notes m)) (measures sd) = [2; 1]%nat.
Proof.
  destruct (parseXMLString twoParts) as [[sd|] | e] eqn:E;
    try (vm_compute in E; discriminate E).
  exists sd. split; [reflexivity |].
  destruct (measures_by_index twoParts sd E) as [Hlen Hnth].
  change (maxMeasures (querySelectorAll twoParts (ByTag "part"))) with 2%nat
    in Hlen.
  destruct (measures sd) as [|m0 [|m1 [|m2 r]]]; try discriminate Hlen.
  destruct (Hnth 0%nat m0 eq_refl) as [_ [_ H0]].
  destruct (Hnth 1%nat m1 eq_refl) as [_ [_ H1]].
  cbn [List.map]. rewrite H0, H1. vm_compute. reflexivity.
Defined.

End VoiceFacts.

(* ================================================================== *)
(** * The text [extractMXLFallback] returns *)
(* ================================================================== *)

Module FallbackMore.
Import Bytes Fallback FallbackFacts FallbackText.
Local Open Scope Z_scope.

(** *** Occurrences *)

Lemma startsWith_split (pat s : list Z) :
  startsWith pat s = true -> exists y, s = pat ++ y.
Proof.
  revert s. induction pat as [|p pr IH]; intros s H.
  - now exists s.
  - destruct s as [|c sr]; [discriminate |]. cbn [startsWith] in H.
    apply andb_true_iff in H as [Hc H]. apply Z.eqb_eq in Hc. subst c.
    destruct (IH sr H) as [y ->]. now exists y.
Qed.

Lemma startsWith_prefix (pat s : list Z) (n : nat) :
  startsWith pat (firstn n s) = true -> startsWith pat s = true.
Proof.
  intro H. rewrite <- (firstn_skipn n s). now apply startsWith_app.
Qed.

(** [indexOf] returns the first position at which the pattern starts. *)
Lemma indexOf_some (pat s : list Z) (i : nat) :
  indexOf pat s = Some i ->
  startsWith pat (skipn i s) = true
  /\ forall j, (j < i)%nat -> startsWith pat (skipn j s) = false.
Proof.
  revert i. induction s as [|c r IH]; intros i H.
  - cbn [indexOf] in H. destruct (startsWith pat []) eqn:E; [|discriminate H].
    injection H as <-. split; [exact E | intros j Hj; lia].
  - cbn [indexOf] in H. destruct (startsWith pat (c :: r)) eqn:E.
    + injection H as <-. split; [exact E | intros j Hj; lia].
    + destruct (indexOf pat r) as [k|] eqn:Ek; [|discriminate H].
      injection H as <-. destruct (IH k eq_refl) as [Hk Hlt].
      split; [exact Hk |].
      intros [|j] Hj; [exact E |]. cbn [skipn]. apply Hlt. lia.
Qed.

Lemma indexOf_first (pat s : list Z) (i : nat) :
  startsWith pat (skipn i s) = true ->
  (forall j, (j < i)%nat -> startsWith pat (skipn j s) = false) ->
  indexOf pat s = Some i.
Proof.
  revert s. induction i as [|i IH]; intros s Hi Hlt.
  - cbn [skipn] in Hi. destruct s; cbn [indexOf]; now rewrite Hi.
  - destruct s as [|c r].
    + pose proof (Hlt 0%nat ltac:(lia)) as H0. cbn [skipn] in *. congruence.
    + pose proof (Hlt 0%nat ltac:(lia)) as H0. cbn [skipn] in H0.
      cbn [indexOf]. rewrite H0.
      rewrite (IH r); [reflexivity | exact Hi |].
      intros j Hj. apply (Hlt (S j)). lia.
Qed.

Lemma indexOf_none (pat s : list Z) :
  indexOf pat s = None -> forall j, startsWith pat (skipn j s) = false.
Proof.
  induction s as [|c r IH]; intros H j.
  - cbn [indexOf] in H. destruct (startsWith pat []) eqn:E; [discriminate H |].
    now destruct j.
  - cbn [indexOf] in H. destruct (startsWith pat (c :: r)) eqn:E;
      [discriminate H |].
    destruct (indexOf pat r) eqn:Er; [discriminate H |].
    destruct j as [|j]; [exact E |]. cbn [skipn]. now apply IH.
Qed.

Lemma indexOf_none_of (pat s : list Z) :
  (forall j, startsWith pat (skipn j s) = false) -> indexOf pat s = None.
Proof.
  induction s as [|c r IH]; intro H.
  - pose proof (H 0%nat) as H0. cbn [skipn] in H0. cbn [indexOf]. now rewrite H0.
  - pose proof (H 0%nat) as H0. cbn [skipn] in H0. cbn [indexOf]. rewrite H0.
    rewrite IH; [reflexivity |].
    intro j. apply (H (S j)).
Qed.

(** The text cut after the first occurrence holds the same first
    occurrence, at its end. *)
Lemma indexOf_cut (pat s : list Z) (i : nat) :
  indexOf pat s = Some i ->
  indexOf pat (firstn (i + List.length pat) s) = Some i
  /\ skipn i (firstn (i + List.length pat) s) = pat
  /\ List.length (firstn (i + List.length pat) s)
     = (i + List.length pat)%nat.
Proof.
  intro H. pose proof (indexOf_bound _ _ _ H) as Hb.
  destruct (indexOf_some _ _ _ H) as [Hi Hlt].
  destruct (startsWith_split _ _ Hi) as [y Hy].
  assert (Hcut : skipn i (firstn (i + List.length pat) s) = pat).
  { rewrite skipn_firstn_comm, Hy.
    replace (i + List.length pat - i)%nat with (List.length pat) by lia.
    rewrite firstn_app, Nat.sub_diag, firstn_all. cbn [firstn].
    now rewrite app_nil_r. }
  split; [|split].
  - apply indexOf_first.
    + rewrite Hcut. rewrite <- (app_nil_r pat) at 2. apply startsWith_self.
    + intros j Hj. specialize (Hlt j Hj).
      destruct (startsWith pat (skipn j (firstn (i + List.length pat) s)))
        eqn:E; [|reflexivity].
      rewrite skipn_firstn_comm in E. apply startsWith_prefix in E. congruence.
  - exact Hcut.
  - apply firstn_length_le. exact Hb.
Qed.

Lemma indexOf_none_prefix (pat s : list Z) (n : nat) :
  indexOf pat s = None -> indexOf pat (firstn n s) = None.
Proof.
  intro H. apply indexOf_none_of. intro j.
  destruct (startsWith pat (skipn j (firstn n s))) eqn:E; [|reflexivity].
  rewrite skipn_firstn_comm in E. apply startsWith_prefix in E.
  now rewrite (indexOf_none _ _ H j) in E.
Qed.

(** *** The text of ASCII bytes *)

Lemma decodeFrom_ascii (bs : list Byte.byte) :
  Forall (fun b => u8 b <= 127) bs -> decodeFrom None bs = List.map u8 bs.
Proof.
  induction 1 as [|b r Hb Hr IH]; [reflexivity |].
  rewrite decodeFrom_ascii_head by exact Hb. cbn [List.map]. now rewrite IH.
Qed.

Lemma codeUnits_small (cps : list Z) :
  Forall (fun c => c < 65536) cps -> flat_map codeUnits cps = cps.
Proof.
  induction 1 as [|c r Hc Hr IH]; [reflexivity |].
  cbn [flat_map]. rewrite IH. unfold codeUnits.
  apply Z.ltb_lt in Hc. now rewrite Hc.
Qed.

(** X7.  [decodeText] leaves ASCII bytes as they are: the text has one
    code unit for each byte, the value of the byte. *)
Theorem decodeText_ascii (bs : list Byte.byte) :
  Forall (fun b => u8 b <= 127) bs -> decodeText bs = List.map u8 bs.
Proof.
  intro H. unfold decodeText. rewrite (decodeFrom_ascii bs H).
  assert (Hs : Forall (fun c => c < 65536) (List.map u8 bs)).
  { apply Forall_map. eapply Forall_impl; [|exact H]. cbn. intros; lia. }
  destruct H as [|b r Hb Hr]; [reflexivity |].
  cbn [List.map] in *.
  replace (u8 b =? 65279) with false by (symmetry; apply Z.eqb_neq; lia).
  now apply codeUnits_small.
Qed.

Lemma decodeText_ascii_witness :
  decodeText (lit "<?xml") = prolog.
Proof.
  rewrite (decodeText_ascii (lit "<?xml")).
  - reflexivity.
  - repeat constructor; vm_compute; congruence.
Defined.

(** *** The text of a window that starts with the prolog *)

Lemma starts_with_prolog (rest : list Byte.byte) :
  startsWith prolog (List.map u8 rest) = true ->
  exists b0 b1 b2 b3 b4 r,
    rest = b0 :: b1 :: b2 :: b3 :: b4 :: r
    /\ List.map u8 [b0; b1; b2; b3; b4] = prolog.
Proof.
  intro H. apply startsWith_split in H as [y Hy].
  destruct rest as [|b0 [|b1 [|b2 [|b3 [|b4 r]]]]]; try discriminate Hy.
  exists b0, b1, b2, b3, b4, r. split; [reflexivity |].
  cbn [List.map] in *. unfold prolog in *. cbn [app] in Hy. congruence.
Qed.

Lemma window_text (rest : list Byte.byte) :
  5 < Z.of_nat (List.length rest) ->
  startsWith prolog (List.map u8 rest) = true ->
  exists more, decodeText (window rest 0) = prolog ++ more.
Proof.
  intros Hlen Hp.
  destruct (starts_with_prolog rest Hp) as [b0 [b1 [b2 [b3 [b4 [r [-> Hb]]]]]]].
  destruct (window_covers [b0; b1; b2; b3; b4] r) as [x Hx].
  { change (Z.of_nat (List.length [b0; b1; b2; b3; b4])) with 5. lia. }
  change ([b0; b1; b2; b3; b4] ++ r) with (b0 :: b1 :: b2 :: b3 :: b4 :: r)
    in Hx.
  rewrite Hx. clear Hx Hlen Hp.
  cbn [List.map] in Hb. unfold prolog in Hb.
  injection Hb as H0 H1 H2 H3 H4.
  unfold decodeText. cbn [app].
  rewrite !decodeFrom_ascii_head by lia.
  rewrite H0, H1, H2, H3, H4.
  exists (flat_map codeUnits (decodeFrom None x)). reflexivity.
Qed.

Lemma extractAt_shape (rest : list Byte.byte) (xml : jsstring) :
  5 < Z.of_nat (List.length rest) ->
  startsWith prolog (List.map u8 rest) = true ->
  extractAt rest = Some xml ->
  startsWith prolog xml = true
  /\ exists tag,
       (tag = endTag \/ (tag = endTag2 /\ indexOf endTag xml = None))
       /\ indexOf tag xml = Some (List.length xml - List.length tag)%nat
       /\ skipn (List.length xml - List.length tag) xml = tag.
Proof.
  intros Hlen Hp H. rewrite extractAt_window in H.
  destruct (window_text rest Hlen Hp) as [more Htext].
  set (text := decodeText (window rest 0)) in *. clearbody text.
  assert (Hshape : forall tag i,
            List.length tag = List.length endTag ->
            indexOf tag text = Some i ->
            startsWith prolog (substring0 text (i + List.length endTag)) = true
            /\ indexOf tag (substring0 text (i + List.length endTag))
               = Some (List.length (substring0 text (i + List.length endTag))
                       - List.length tag)%nat
            /\ skipn (List.length (substring0 text (i + List.length endTag))
                      - List.length tag)
                 (substring0 text (i + List.length endTag)) = tag).
  { intros tag i Hl Hi. unfold substring0. rewrite <- Hl.
    destruct (indexOf_cut tag text i Hi) as [Hc1 [Hc2 Hc3]].
    rewrite Hc3. replace (i + List.length tag - List.length tag)%nat with i by lia.
    split; [|split; assumption].
    rewrite Htext, firstn_covers.
    - apply startsWith_self.
    - rewrite Hl. cbn. lia. }
  destruct (indexOf endTag text) as [i|] eqn:E1.
  - injection H as <-.
    destruct (Hshape endTag i eq_refl E1) as [H1 [H2 H3]].
    split; [exact H1 |]. exists endTag. auto.
  - destruct (indexOf endTag2 text) as [i|] eqn:E2; [|discriminate H].
    injection H as <-.
    destruct (Hshape endTag2 i eq_refl E2) as [H1 [H2 H3]].
    split; [exact H1 |]. exists endTag2. split; [|auto].
    right. split; [reflexivity |]. now apply indexOf_none_prefix.
Qed.

Lemma scanFrom_some (rest : list Byte.byte) (xml : jsstring) :
  scanFrom rest = Some xml ->
  exists i,
    5 < Z.of_nat (List.length (skipn i rest))
    /\ prologAt rest i = true
    /\ extractAt (skipn i rest) = Some xml.
Proof.
  induction rest as [|b r IH]; intro H; [discriminate H |].
  rewrite scanFrom_cons in H.
  destruct ((5 <? Z.of_nat (List.length (b :: r))) && prologAt (b :: r) 0)
    eqn:E.
  - destruct (extractAt (b :: r)) as [x|] eqn:Ex.
    + injection H as <-. apply andb_true_iff in E as [El Ep].
      exists 0%nat. rewrite skipn_O. apply Z.ltb_lt in El. auto.
    + destruct (IH H) as [i Hi]. exists (S i).
      now rewrite prologAt_succ, skipn_cons.
  - destruct (IH H) as [i Hi]. exists (S i).
    now rewrite prologAt_succ, skipn_cons.
Qed.

(** X8.  Whatever the buffer, a text [extractMXLFallback] returns starts
    with [<?xml] and ends with [</score-partwise>] or
    [</score-timewise>]; that closing tag occurs nowhere before the end
    of the text, and a text that ends with [</score-timewise>] holds no
    [</score-partwise>]. *)
Theorem fallback_result_shape (zipData : list Byte.byte) (xml : jsstring) :
  extractMXLFallback zipData = Some xml ->
  startsWith prolog xml = true
  /\ exists tag,
       (tag = endTag \/ (tag = endTag2 /\ indexOf endTag xml = None))
       /\ indexOf tag xml = Some (List.length xml - List.length tag)%nat
       /\ skipn (List.length xml - List.length tag) xml = tag.
Proof.
  intro H. unfold extractMXLFallback in H.
  apply scanFrom_some in H as [i [Hlen [Hp Hx]]].
  apply (extractAt_shape (skipn i zipData) xml Hlen Hp Hx).
Qed.

Lemma fallback_result_shape_witness :
  exists xml, extractMXLFallback timewiseBuffer = Some xml
    /\ startsWith prolog xml = true.
Proof.
  destruct (extractMXLFallback timewiseBuffer) as [xml|] eqn:E;
    [|vm_compute in E; discriminate E].
  exists xml. split; [reflexivity |].
  apply (fallback_result_shape timewiseBuffer xml E).
Defined.

End FallbackMore.

(* ================================================================== *)
(** * Times of [parseMidiFile] *)
(* ================================================================== *)

Module SmfTimes.
Import JS Bytes Smf Timing NumFacts SortFacts SmfFacts.
Local Open Scope Z_scope.

(** *** Elapsed time as a rational *)

Lemma elapsed_value (tick tick0 div tempo : Z) :
  0 < div ->
  exists q, elapsed tick tick0 div tempo = Fin q
    /\ (q == elapsedQ tick tick0 div tempo)%Q.
Proof.
  intro H. unfold elapsed, JS.div, mul, ofZ, qsign.
  destruct div as [|d|d]; try lia. cbn [inject_Z Qnum Z.compare].
  eexists. split; [reflexivity |].
  unfold elapsedQ. rewrite !Qred_correct. reflexivity.
Qed.

Lemma inject_Z_pos (d : Z) : 0 < d -> (0 < inject_Z d)%Q.
Proof. intro H. unfold Qlt, inject_Z. simpl. lia. Qed.

Lemma elapsedQ_mono (a b tick0 div tempo : Z) :
  0 < div -> 0 <= tempo -> a <= b ->
  (elapsedQ a tick0 div tempo <= elapsedQ b tick0 div tempo)%Q.
Proof.
  intros Hd Ht Hab. unfold elapsedQ.
  apply Qmult_le_compat_r.
  - unfold Qdiv. apply Qmult_le_compat_r.
    + rewrite <- Zle_Qle. lia.
    + apply Qinv_le_0_compat. apply Qlt_le_weak. now apply inject_Z_pos.
  - unfold Qdiv. apply Qmult_le_0_compat.
    + change 0%Q with (inject_Z 0). rewrite <- Zle_Qle. exact Ht.
    + discriminate.
Qed.

Lemma elapsedQ_zero (tick div tempo : Z) :
  (elapsedQ tick tick div tempo == 0)%Q.
Proof.
  unfold elapsedQ. rewrite Z.sub_diag. unfold Qdiv.
  change (inject_Z 0) with 0%Q. now rewrite !Qmult_0_l.
Qed.

Lemma leb_fin (x y : Q) : leb (Fin x) (Fin y) = true <-> (x <= y)%Q.
Proof.
  unfold leb. rewrite Qle_alt.
  destruct (x ?= y)%Q; split; intro H; try reflexivity; try discriminate;
    try congruence.
Qed.

Lemma timeAt_value (div : Z) (a : TempoEntry) (m : Q) (tick : Z) :
  0 < div -> tm_ms a = Fin m ->
  exists q, timeAt div a tick = Fin q
    /\ (q == m + elapsedQ tick (tm_tick a) div (tm_tempo a))%Q.
Proof.
  intros Hd Hm. unfold timeAt. rewrite Hm.
  destruct (elapsed_value tick (tm_tick a) div (tm_tempo a) Hd) as [e [-> He]].
  unfold add. eexists. split; [reflexivity |].
  now rewrite Qred_correct, He.
Qed.

Lemma sound_finite (a : TempoEntry) :
  sound a -> exists m, tm_ms a = Fin m.
Proof.
  intros [_ H]. destruct (tm_ms a); try discriminate H. now eexists.
Qed.

(** Under one tempo entry a later tick has a later time. *)
Lemma timeAt_mono (div : Z) (a : TempoEntry) (tick tick' : Z) :
  0 < div -> sound a -> tick <= tick' ->
  leb (timeAt div a tick) (timeAt div a tick') = true.
Proof.
  intros Hd Hs Ht. destruct (sound_finite a Hs) as [m Hm].
  destruct (timeAt_value div a m tick Hd Hm) as [q [-> Hq]].
  destruct (timeAt_value div a m tick' Hd Hm) as [q' [-> Hq']].
  apply leb_fin. rewrite Hq, Hq'.
  apply Qplus_le_r. apply elapsedQ_mono; [exact Hd | apply Hs | exact Ht].
Qed.

Lemma timeAt_start (div : Z) (a : TempoEntry) (tick' : Z) :
  0 < div -> sound a -> tm_tick a <= tick' ->
  leb (tm_ms a) (timeAt div a tick') = true.
Proof.
  intros Hd Hs Ht. destruct (sound_finite a Hs) as [m Hm].
  destruct (timeAt_value div a m tick' Hd Hm) as [q' [-> Hq']].
  rewrite Hm. apply leb_fin. rewrite Hq'.
  rewrite <- (Qplus_0_r m) at 1. apply Qplus_le_r.
  rewrite <- (elapsedQ_zero (tm_tick a) div (tm_tempo a)).
  apply elapsedQ_mono; [exact Hd | apply Hs | exact Ht].
Qed.

Lemma timeAt_finite (div : Z) (a : TempoEntry) (tick : Z) :
  0 < div -> sound a -> isFinite (timeAt div a tick) = true.
Proof.
  intros Hd Hs. destruct (sound_finite a Hs) as [m Hm].
  now destruct (timeAt_value div a m tick Hd Hm) as [q [-> _]].
Qed.

(** *** The tempo map as a chain *)

Lemma chain_sound (div : Z) (c : TempoEntry) (r : list TempoEntry) :
  Chain div c r -> sound c.
Proof. now destruct 1. Qed.

Lemma active_after (div : Z) (c : TempoEntry) (r : list TempoEntry)
    (tick' : Z) :
  0 < div -> Chain div c r -> tm_tick c <= tick' ->
  leb (tm_ms c) (timeAt div (activeTempo tick' c r) tick') = true.
Proof.
  intros Hd H. induction H as [c Hs | c t r Hs Hct Hms Hr IH]; intro Ht.
  - cbn [activeTempo]. now apply timeAt_start.
  - cbn [activeTempo]. destruct (tm_tick t <=? tick') eqn:E.
    + apply Z.leb_le in E. apply leb_trans with (tm_ms t).
      * rewrite Hms. now apply timeAt_start.
      * now apply IH.
    + now apply timeAt_start.
Qed.

(** A later tick has a later time, whatever tempo entries are active at
    the two ticks. *)
Lemma active_mono (div : Z) (c : TempoEntry) (r : list TempoEntry)
    (tick tick' : Z) :
  0 < div -> Chain div c r -> tick <= tick' ->
  leb (timeAt div (activeTempo tick c r) tick)
      (timeAt div (activeTempo tick' c r) tick') = true.
Proof.
  intros Hd H. revert tick tick'.
  induction H as [c Hs | c t r Hs Hct Hms Hr IH]; intros tick tick' Ht.
  - cbn [activeTempo]. now apply timeAt_mono.
  - cbn [activeTempo].
    destruct (tm_tick t <=? tick) eqn:E, (tm_tick t <=? tick') eqn:E'.
    + now apply IH.
    + apply Z.leb_le in E. apply Z.leb_gt in E'. lia.
    + apply Z.leb_gt in E. apply Z.leb_le in E'.
      apply leb_trans with (tm_ms t).
      * rewrite Hms. apply timeAt_mono; [exact Hd | exact Hs | lia].
      * now apply active_after.
    + now apply timeAt_mono.
Qed.

(** The loop over the tempo map, started at its first entry, passes that
    entry. *)
Lemma active_head (div : Z) (c : TempoEntry) (r : list TempoEntry) (tick : Z) :
  Chain div c r -> activeTempo tick c (c :: r) = activeTempo tick c r.
Proof.
  intro H. cbn [activeTempo]. destruct (tm_tick c <=? tick) eqn:E;
    [reflexivity |].
  destruct H as [c Hs | c t r Hs Hct Hms Hr]; [reflexivity |].
  cbn [activeTempo]. apply Z.leb_gt in E.
  replace (tm_tick t <=? tick) with false; [reflexivity |].
  symmetry. apply Z.leb_gt. lia.
Qed.

Lemma stampTempo_chain (div : Z) (lastT : RawTempo) (curMs : num)
    (tm : list RawTempo) :
  0 < div ->
  isFinite curMs = true ->
  Sorted (fun a b => rt_tick a <= rt_tick b) (lastT :: tm) ->
  Forall (fun t => 0 <= rt_tempo t) (lastT :: tm) ->
  Chain div (mkTempoEntry (rt_tick lastT) curMs (rt_tempo lastT))
    (stampTempo div lastT curMs tm).
Proof.
  intro Hd. revert lastT curMs.
  induction tm as [|t r IH]; intros lastT curMs Hf Hs Hp.
  - constructor. split; [now inversion Hp | exact Hf].
  - cbn [stampTempo].
    assert (Hsound : sound (mkTempoEntry (rt_tick lastT) curMs (rt_tempo lastT))).
    { split; [now inversion Hp | exact Hf]. }
    inversion Hs as [|? ? Hs' Hhd]; subst.
    inversion Hp as [|? ? _ Hp']; subst.
    apply chain_next.
    + exact Hsound.
    + cbn. now inversion Hhd.
    + reflexivity.
    + apply IH; [|exact Hs' | exact Hp'].
      apply (timeAt_finite div (mkTempoEntry (rt_tick lastT) curMs
                                  (rt_tempo lastT)) (rt_tick t) Hd Hsound).
Qed.

(** *** What the reader collects *)

Lemma meta_cases (A : Type) (P : A -> Prop) (s : option Z) (a b : A) :
  P a -> P b -> P (match s with Some 255 => a | _ => b end).
Proof.
  intros Ha Hb. destruct s as [[|p|p]|]; auto.
  do 8 (destruct p as [p|p|]; auto).
Qed.

Lemma tempo_cases (A : Type) (P : list A -> Prop) (m : option Z) (x : A) :
  P [x] -> P [] -> P (match m with Some 81 => [x] | _ => [] end).
Proof.
  intros Ha Hb. destruct m as [[|p|p]|]; auto.
  do 7 (destruct p as [p|p|]; auto).
Qed.

Lemma int_of_get (data : list Byte.byte) (p : Z) :
  0 <= int_of (get data p) < 256.
Proof.
  unfold get. destruct (p <? 0); [simpl; lia |].
  destruct (nth_error data (Z.to_nat p)) as [b|]; simpl; [|lia].
  pose proof (u8_range b). rewrite toInt32_small; lia.
Qed.

Lemma lor_bound (a b : Z) : 0 <= a -> 0 <= b -> 0 <= Z.lor a b <= a + b.
Proof.
  intros Ha Hb. split; [now apply Z.lor_nonneg |].
  pose proof (Z.add_lor_land a b) as H.
  assert (0 <= Z.land a b) by (apply Z.land_nonneg; now left). lia.
Qed.

Lemma shl_byte (v k : Z) :
  0 <= v < 256 -> 0 <= k <= 16 -> shl v k = v * 2 ^ k /\ 0 <= shl v k < 2 ^ 24.
Proof.
  intros Hv Hk. unfold shl. rewrite (toInt32_small v) by lia.
  rewrite Z.shiftl_mul_pow2 by lia.
  assert (H1 : 0 < 2 ^ k) by (apply Z.pow_pos_nonneg; lia).
  assert (H2 : 2 ^ k <= 2 ^ 16) by (apply Z.pow_le_mono_r; lia).
  change (2 ^ 16) with 65536 in H2. change (2 ^ 24) with 16777216.
  rewrite toInt32_small by nia. split; [reflexivity | nia].
Qed.

Lemma tempo24_nonneg (data : list Byte.byte) (p : Z) :
  0 <= bor (bor (shl (int_of (get data p)) 16)
                 (shl (int_of (get data (p + 1))) 8))
           (int_of (get data (p + 2))).
Proof.
  pose proof (int_of_get data p) as H0.
  pose proof (int_of_get data (p + 1)) as H1.
  pose proof (int_of_get data (p + 2)) as H2.
  destruct (shl_byte _ 16 H0 ltac:(lia)) as [_ Ha].
  destruct (shl_byte _ 8 H1 ltac:(lia)) as [_ Hb].
  change (2 ^ 24) with 16777216 in *.
  set (a := shl (int_of (get data p)) 16) in *.
  set (b := shl (int_of (get data (p + 1))) 8) in *.
  set (c := int_of (get data (p + 2))) in *.
  unfold bor. rewrite (toInt32_small a), (toInt32_small b), (toInt32_small c)
    by lia.
  pose proof (lor_bound a b ltac:(lia) ltac:(lia)) as Hab.
  rewrite (toInt32_small (Z.lor a b)) by lia.
  apply lor_bound; lia.
Qed.

Lemma tempoSound_same (rd : Reader) (p : Z) :
  tempoSound rd -> tempoSound (mkReader p (events rd) (tempoMap rd)).
Proof. intro H. exact H. Qed.

Lemma tempoSound_events (rd : Reader) (p : Z) (evs : list RawEvent) :
  tempoSound rd -> tempoSound (mkReader p evs (tempoMap rd)).
Proof. intro H. exact H. Qed.

Lemma trackEvent_tempo (data : list Byte.byte) (curTick : Z) (rs : option Z)
    (rd : Reader) :
  tempoSound rd -> tempoSound (snd (trackEvent data curTick rs rd)).
Proof.
  intro H. unfold trackEvent.
  destruct (readVar data (pos rd)) as [delta p1].
  generalize (get data p1). intro s0.
  destruct (band (int_of s0) 128 =? 0); cbv beta iota zeta.
  - destruct ((statusType rs =? 128) || (statusType rs =? 144)).
    + now apply tempoSound_events.
    + apply (meta_cases _ (fun x => tempoSound (snd x))).
      * destruct (readVar data (p1 + 1 - 1 + 1)) as [ml p4].
        cbn [snd]. destruct H as [Hne Hall]. split; cbn [tempoMap].
        -- intro E. apply app_eq_nil in E as [E _]. contradiction.
        -- apply Forall_app. split; [exact Hall |].
           apply (tempo_cases _ (Forall (fun t => 0 <= rt_tempo t)));
             constructor; [|constructor].
           cbn [rt_tempo]. apply tempo24_nonneg.
      * destruct ((statusType rs =? 176) || (statusType rs =? 224));
          [now apply tempoSound_same |].
        destruct ((statusType rs =? 192) || (statusType rs =? 208));
          now apply tempoSound_same.
  - destruct ((statusType s0 =? 128) || (statusType s0 =? 144)).
    + now apply tempoSound_events.
    + apply (meta_cases _ (fun x => tempoSound (snd x))).
      * destruct (readVar data (p1 + 1 + 1)) as [ml p4].
        cbn [snd]. destruct H as [Hne Hall]. split; cbn [tempoMap].
        -- intro E. apply app_eq_nil in E as [E _]. contradiction.
        -- apply Forall_app. split; [exact Hall |].
           apply (tempo_cases _ (Forall (fun t => 0 <= rt_tempo t)));
             constructor; [|constructor].
           cbn [rt_tempo]. apply tempo24_nonneg.
      * destruct ((statusType s0 =? 176) || (statusType s0 =? 224));
          [now apply tempoSound_same |].
        destruct ((statusType s0 =? 192) || (statusType s0 =? 208));
          now apply tempoSound_same.
Qed.

Lemma trackLoop_tempo (fuel : nat) (data : list Byte.byte) (stop curTick : Z)
    (rs : option Z) (rd r : Reader) :
  tempoSound rd ->
  trackLoop fuel data stop curTick rs rd = Some r -> tempoSound r.
Proof.
  revert curTick rs rd. induction fuel as [|n IH]; intros curTick rs rd Hs H;
    rewrite trackLoop_unfold in H; destruct (pos rd <? stop);
    try discriminate H; try (injection H as <-; exact Hs).
  pose proof (trackEvent_tempo data curTick rs rd Hs) as Hs'.
  destruct (trackEvent data curTick rs rd) as [[c r'] rd'].
  apply (IH _ _ _ Hs' H).
Qed.

Lemma tracksLoop_tempo (fuel : nat) (data : list Byte.byte) (n : nat)
    (rd r : Reader) :
  tempoSound rd -> tracksLoop fuel data n rd = Some r -> tempoSound r.
Proof.
  revert rd. induction n as [|n IH]; intros rd Hs H; cbn [tracksLoop] in H.
  - now injection H as <-.
  - destruct (readStr data (pos rd) 4) as [sig p1].
    destruct (negb (bytes_eqb sig MTrk)).
    + injection H as <-. now apply tempoSound_same.
    + destruct (read32 data p1) as [len p2].
      destruct (trackLoop fuel data (p2 + len) 0 None
                  (mkReader p2 (events rd) (tempoMap rd))) as [rd'|] eqn:E;
        [|discriminate H].
      apply (IH rd'); [|exact H].
      apply (trackLoop_tempo _ _ _ _ _ _ _ (tempoSound_same rd p2 Hs) E).
Qed.

(** *** The two sorts by tick *)

Lemma sort_ext (A : Type) (cmp cmp' : A -> A -> num) (l : list A) :
  (forall a b, cmp a b = cmp' a b) -> sort cmp l = sort cmp' l.
Proof.
  intro H. induction l as [|x r IH]; [reflexivity |].
  cbn [sort]. rewrite IH. generalize (sort cmp' r). intro s.
  induction s as [|y t IHs]; [reflexivity |].
  cbn [insert]. now rewrite H, IHs.
Qed.

Lemma sorted_weaken (A : Type) (R R' : A -> A -> Prop) (l : list A) :
  (forall a b, R a b -> R' a b) -> Sorted R l -> Sorted R' l.
Proof.
  intros H Hs. induction Hs as [|a l Hs IH Hhd]; constructor; auto.
  destruct Hhd; constructor; auto.
Qed.

Lemma leb_ofZ (a b : Z) : leb (ofZ a) (ofZ b) = true -> a <= b.
Proof. unfold ofZ. rewrite leb_fin, <- Zle_Qle. auto. Qed.

Lemma sort_by_tick (A : Type) (tickOf : A -> Z) (l : list A) :
  Sorted (fun a b => tickOf a <= tickOf b)
    (sort (fun a b => ofZ (tickOf a - tickOf b)) l).
Proof.
  rewrite (sort_ext A _ (fun a b => sub (ofZ (tickOf a)) (ofZ (tickOf b)))).
  - apply (sorted_weaken A (fun a b => leb (ofZ (tickOf a)) (ofZ (tickOf b)) = true)).
    + intros a b. apply leb_ofZ.
    + apply (sort_sorted A (fun a => ofZ (tickOf a))).
      apply Forall_forall. reflexivity.
  - intros a b. symmetry. apply VoiceFacts.sub_ofZ.
Qed.

(** *** Times of the events *)

Lemma stamped_sorted (div : Z) (c : TempoEntry) (r : list TempoEntry)
    (evs : list RawEvent) :
  0 < div -> Chain div c r ->
  Sorted (fun a b => raw_tick a <= raw_tick b) evs ->
  nondecreasing
    (List.map Smf.time (flat_map (stampEvent div (c :: r)) evs)).
Proof.
  intros Hd Hc Hs. unfold nondecreasing.
  induction Hs as [|e l Hs IH Hhd]; [constructor |].
  cbn [flat_map stampEvent app List.map Smf.time].
  constructor; [exact IH |].
  destruct Hhd as [|e' l' Hee]; [constructor |].
  cbn [flat_map stampEvent app List.map Smf.time]. constructor.
  rewrite !(active_head div c r _ Hc).
  now apply (active_mono div c r).
Qed.

Lemma lastTime_is_last (evs : list Event) :
  lastTime evs = last (List.map Smf.time evs) (ofZ 0).
Proof.
  unfold lastTime. induction evs as [|e r IH] using rev_ind; auto.
  rewrite rev_app_distr, map_app. simpl. now rewrite last_last.
Qed.

Lemma leb_transitive : Relations_1.Transitive (fun a b => leb a b = true).
Proof. intros x y z. apply leb_trans. Qed.

Lemma nondecreasing_last (l : list num) (d : num) :
  nondecreasing l -> Forall (fun x => isNaN x = false) l ->
  Forall (fun x => leb x (last l d) = true) l.
Proof.
  intros Hs Hn. apply Sorted_StronglySorted in Hs; [|exact leb_transitive].
  induction Hs as [|a l Hs IH Hall]; [constructor |].
  inversion Hn as [|? ? Ha Hn']; subst.
  destruct l as [|b t].
  - constructor; [|constructor]. cbn. now apply leb_refl.
  - change (last (a :: b :: t) d) with (last (b :: t) d).
    specialize (IH Hn'). constructor; [|exact IH].
    inversion IH as [|? ? Hb _]; subst. inversion Hall; subst.
    now apply leb_trans with b.
Qed.

(** The outcome of a run: no event at all, or the events stamped against
    a chain of tempo entries in tick order. *)
Lemma parseMidiFile_outcome (fuel : nat) (data : list Byte.byte) (o : Outcome) :
  parseMidiFile fuel data = Some (Normal o) ->
  0 < division data ->
  notePairs o = pairNotes [] (midiEvents o)
  /\ totalDuration o = lastTime (midiEvents o)
  /\ (midiEvents o = []
      \/ exists c r evs,
           Chain (division data) c r
           /\ Sorted (fun a b => raw_tick a <= raw_tick b) evs
           /\ midiEvents o
              = flat_map (stampEvent (division data) (c :: r)) evs).
Proof.
  intros H Hd. unfold parseMidiFile in H.
  cbv beta iota zeta delta [readStr read16] in H.
  destruct (negb (bytes_eqb (slice data 0 (0 + 4)) MThd)).
  { injection H as <-. cbn. repeat split. now left. }
  change (0 + 4 + 4 + 2 + 2) with 12 in H.
  fold (read16 data 12) in H. fold (division data) in H.
  match type of H with
  | match tracksLoop ?f ?d ?n ?r with _ => _ end = _ =>
      destruct (tracksLoop f d n r) as [rd|] eqn:E; [|discriminate H];
      assert (Hs : tempoSound rd)
        by (apply (tracksLoop_tempo f d n r rd); [|exact E];
            split; [discriminate | repeat constructor; cbn; lia])
  end.
  injection H as <-. cbn [notePairs totalDuration midiEvents].
  split; [reflexivity |]. split; [reflexivity |].
  pose proof (sort_by_tick RawTempo rt_tick (tempoMap rd)) as Hsorted.
  fold byTempoTick in Hsorted.
  assert (Hpos : Forall (fun t => 0 <= rt_tempo t)
                   (sort byTempoTick (tempoMap rd))).
  { eapply Permutation_Forall; [|apply Hs].
    apply Permutation_sym, sort_perm. }
  destruct (sort byTempoTick (tempoMap rd)) as [|t0 r] eqn:Et.
  { left. clear. induction (sort byRawTick (events rd)); [reflexivity | auto]. }
  right. cbn [stampTempo].
  set (ms0 := add (ofZ 0) (elapsed (rt_tick t0) (rt_tick t0) (division data)
                             (rt_tempo t0))).
  exists (mkTempoEntry (rt_tick t0) ms0 (rt_tempo t0)),
         (stampTempo (division data) t0 ms0 r),
         (sort byRawTick (events rd)).
  split; [|split].
  - apply (stampTempo_chain (division data) t0 ms0 r Hd).
    + unfold ms0.
      destruct (elapsed_value (rt_tick t0) (rt_tick t0) (division data)
                  (rt_tempo t0) Hd) as [q [-> _]]. reflexivity.
    + exact Hsorted.
    + exact Hpos.
  - apply (sort_by_tick RawEvent raw_tick).
  - reflexivity.
Qed.

Lemma stamped_finite (div : Z) (c : TempoEntry) (r : list TempoEntry)
    (evs : list RawEvent) :
  0 < div -> Chain div c r ->
  Forall (fun e => isFinite (Smf.time e) = true)
    (flat_map (stampEvent div (c :: r)) evs).
Proof.
  intros Hd Hc. induction evs as [|e l IH]; [constructor |].
  cbn [flat_map stampEvent app]. constructor; [|exact IH].
  cbn [Smf.time]. apply (timeAt_finite div _ _ Hd).
  rewrite (active_head div c r _ Hc).
  clear IH. generalize (raw_tick e). intro tick.
  induction Hc as [c Hs | c t r Hs Hct Hms Hr IHc]; cbn [activeTempo];
    [exact Hs |].
  destruct (tm_tick t <=? tick); [exact IHc | exact Hs].
Qed.

Lemma finite_not_nan (x : num) : isFinite x = true -> isNaN x = false.
Proof. now destruct x. Qed.

Lemma outcome_times (fuel : nat) (data : list Byte.byte) (o : Outcome) :
  parseMidiFile fuel data = Some (Normal o) ->
  0 < division data ->
  nondecreasing (List.map Smf.time (midiEvents o))
  /\ Forall (fun e => isNaN (Smf.time e) = false) (midiEvents o).
Proof.
  intros H Hd.
  destruct (parseMidiFile_outcome fuel data o H Hd)
    as [_ [_ [-> | [c [r [evs [Hc [Hs ->]]]]]]]].
  - split; constructor.
  - split; [now apply stamped_sorted |].
    eapply Forall_impl; [|apply (stamped_finite _ c r evs Hd Hc)].
    intro e. apply finite_not_nan.
Qed.

(** X9.  When the division of the header is positive, the events
    [parseMidiFile] leaves in [midiEvents] are in non-decreasing order of
    time, whatever tempo changes the file holds, and no event is later
    than [totalDuration]. *)
Theorem smf_times_nondecreasing (fuel : nat) (data : list Byte.byte)
    (o : Outcome) :
  parseMidiFile fuel data = Some (Normal o) ->
  0 < division data ->
  nondecreasing (List.map Smf.time (midiEvents o))
  /\ Forall (fun e => leb (Smf.time e) (totalDuration o) = true)
       (midiEvents o).
Proof.
  intros H Hd. destruct (outcome_times fuel data o H Hd) as [Hs Hn].
  split; [exact Hs |].
  destruct (parseMidiFile_outcome fuel data o H Hd) as [_ [-> _]].
  rewrite lastTime_is_last.
  assert (Hl : Forall (fun x => leb x (last (List.map Smf.time (midiEvents o))
                                         (ofZ 0)) = true)
                 (List.map Smf.time (midiEvents o))).
  { apply nondecreasing_last; [exact Hs |]. now apply Forall_map. }
  now apply Forall_map in Hl.
Qed.

Lemma smf_times_nondecreasing_witness :
  exists o, parseMidiFile 4 exampleB = Some (Normal o)
    /\ nondecreasing (List.map Smf.time (midiEvents o)).
Proof.
  destruct (parseMidiFile 4 exampleB) as [[o | e] |] eqn:E;
    try (vm_compute in E; discriminate E).
  exists o. split; [reflexivity |].
  apply (smf_times_nondecreasing 4 exampleB o E).
  vm_compute. reflexivity.
Defined.

(** *** Note pairs *)

Lemma temp_get_in (t : TempNotes) (k : option Z) (v : num) :
  temp_get t k = Some v -> exists k', In (k', v) t.
Proof.
  induction t as [|[k' v'] r IH]; [discriminate |].
  cbn [temp_get]. destruct (key_eqb k' k).
  - intro H. injection H as ->. exists k'. now left.
  - intro H. destruct (IH H) as [k'' Hin]. exists k''. now right.
Qed.

Lemma pairNotes_ordered (evs : list Event) (tempNotes : TempNotes) :
  StronglySorted (fun a b => leb (Smf.time a) (Smf.time b) = true) evs ->
  Forall (fun e => isNaN (Smf.time e) = false) evs ->
  (forall k v e, In (k, v) tempNotes -> In e evs ->
     leb v (Smf.time e) = true) ->
  Forall (fun p => leb (start p) (end_ p) = true) (pairNotes tempNotes evs).
Proof.
  intros Hs. revert tempNotes.
  induction Hs as [|ev r Hs IH Hall]; intros tempNotes Hn Ht; [constructor |].
  inversion Hn as [|? ? Hev Hn']; subst.
  assert (Hkeep : forall (t : TempNotes),
            (forall k v, In (k, v) t -> In (k, v) tempNotes) ->
            forall k v e, In (k, v) t -> In e r ->
              leb v (Smf.time e) = true).
  { intros t Hsub k v e Hin He. apply (Ht k v e); [now apply Hsub | now right]. }
  cbn [pairNotes].
  destruct ((band (status ev) 240 =? 144)
            && match data2 ev with Some v => 0 <? v | None => false end).
  - apply IH; [exact Hn' |].
    intros k v e [Hin | Hin] He.
    + injection Hin as _ <-. rewrite Forall_forall in Hall. now apply Hall.
    + apply filter_In in Hin as [Hin _]. apply (Ht k v e Hin). now right.
  - destruct ((band (status ev) 240 =? 128)
              || (band (status ev) 240 =? 144)
                 && match data2 ev with Some v => v =? 0 | None => false end).
    + destruct (temp_get tempNotes (data1 ev)) as [t0|] eqn:Eg.
      * constructor.
        -- cbn [start end_]. apply temp_get_in in Eg as [k' Hin].
           apply (Ht k' t0 ev Hin). now left.
        -- apply IH; [exact Hn' |]. apply Hkeep.
           intros k v Hin. now apply filter_In in Hin as [Hin _].
      * apply IH; [exact Hn' |]. now apply Hkeep.
    + apply IH; [exact Hn' |]. now apply Hkeep.
Qed.

(** X10.  When the division of the header is positive, every note pair
    [parseMidiFile] builds ends no earlier than it starts. *)
Theorem smf_pairs_ordered (fuel : nat) (data : list Byte.byte) (o : Outcome) :
  parseMidiFile fuel data = Some (Normal o) ->
  0 < division data ->
  Forall (fun p => leb (start p) (end_ p) = true) (notePairs o).
Proof.
  intros H Hd. destruct (outcome_times fuel data o H Hd) as [Hs Hn].
  destruct (parseMidiFile_outcome fuel data o H Hd) as [-> _].
  apply pairNotes_ordered.
  - unfold nondecreasing in Hs.
    apply Sorted_StronglySorted in Hs; [|exact leb_transitive].
    clear Hn. induction (midiEvents o) as [|e r IH]; [constructor |].
    cbn [List.map] in Hs. inversion Hs; subst.
    constructor; [now apply IH |].
    match goal with Hf : Forall _ (List.map _ _) |- _ =>
      apply Forall_map in Hf; exact Hf end.
  - exact Hn.
  - intros k v e [].
Qed.

Lemma smf_pairs_ordered_witness :
  exists o, parseMidiFile 4 exampleB = Some (Normal o)
    /\ Forall (fun p => leb (start p) (end_ p) = true) (notePairs o).
Proof.
  destruct (parseMidiFile 4 exampleB) as [[o | e] |] eqn:E;
    try (vm_compute in E; discriminate E).
  exists o. split; [reflexivity |].
  apply (smf_pairs_ordered 4 exampleB o E).
  vm_compute. reflexivity.
Defined.

End SmfTimes.

(* ================================================================== *)
(** * A track loop that does not end *)
(* ================================================================== *)

Module SmfLoop.
Import JS Bytes Smf Timing SmfFacts.
Local Open Scope Z_scope.

(** *** Reading inside a buffer *)

Lemma get_inside (pre bs more : list Byte.byte) (k : nat) (b : Byte.byte) :
  nth_error bs k = Some b ->
  get (pre ++ bs ++ more) (Z.of_nat (List.length pre) + Z.of_nat k)
  = Some (u8 b).
Proof.
  intro H. unfold get.
  destruct (Z.ltb_spec (Z.of_nat (List.length pre) + Z.of_nat k) 0); [lia |].
  rewrite <- Nat2Z.inj_add, Nat2Z.id.
  rewrite nth_error_app2 by lia.
  replace (List.length pre + k - List.length pre)%nat with k by lia.
  rewrite nth_error_app1 by (apply nth_error_Some; congruence).
  now rewrite H.
Qed.

Lemma readVar_inside (pre bs : list Byte.byte) (k : nat) :
  readVar (pre ++ bs) (Z.of_nat (List.length pre) + Z.of_nat k)
  = readVar_from (skipn k bs) 0 (Z.of_nat (List.length pre) + Z.of_nat k).
Proof.
  unfold readVar.
  destruct (Z.ltb_spec (Z.of_nat (List.length pre) + Z.of_nat k) 0); [lia |].
  rewrite <- Nat2Z.inj_add, Nat2Z.id.
  rewrite skipn_app.
  replace (List.length pre + k - List.length pre)%nat with k by lia.
  rewrite skipn_all2 by lia. reflexivity.
Qed.

Lemma readVar_from_zero (r : list Byte.byte) (p : Z) :
  readVar_from (b8 0 :: r) 0 p = (0, p + 1).
Proof. reflexivity. Qed.

Lemma readVar_from_minus8 (r : list Byte.byte) (p : Z) :
  readVar_from (b8 255 :: b8 255 :: b8 255 :: b8 255 :: b8 120 :: r) 0 p
  = (-8, p + 1 + 1 + 1 + 1 + 1).
Proof. reflexivity. Qed.

(** One turn of the track loop on the event [backwardMeta m] leaves the
    cursor where it found it. *)
Lemma trackEvent_backward (pre more : list Byte.byte) (m curTick : Z)
    (rs : option Z) (rd : Reader) :
  pos rd = Z.of_nat (List.length pre) ->
  pos (snd (trackEvent (pre ++ backwardMeta m ++ more) curTick rs rd))
  = pos rd.
Proof.
  intro Hp. unfold trackEvent. rewrite Hp.
  set (p := Z.of_nat (List.length pre)).
  set (data := pre ++ backwardMeta m ++ more).
  assert (H0 : readVar data p = (0, p + 1)).
  { unfold data, p. rewrite <- (Z.add_0_r (Z.of_nat (List.length pre))) at 1.
    change 0 with (Z.of_nat 0) at 1. rewrite readVar_inside.
    cbn [skipn]. unfold backwardMeta. cbn [List.map app].
    rewrite readVar_from_zero. now rewrite Z.add_0_r. }
  assert (H1 : get data (p + 1) = Some 255).
  { unfold data, p. change 1 with (Z.of_nat 1).
    now rewrite (get_inside pre (backwardMeta m) more 1 (b8 255)). }
  assert (H3 : readVar data (p + 1 + 1 + 1) = (-8, p + 8)).
  { unfold data, p. replace (Z.of_nat (List.length pre) + 1 + 1 + 1)
      with (Z.of_nat (List.length pre) + Z.of_nat 3) by lia.
    rewrite readVar_inside. cbn [skipn]. unfold backwardMeta.
    cbn [List.map app skipn]. rewrite readVar_from_minus8. f_equal. lia. }
  rewrite H0. cbv beta iota zeta. rewrite H1.
  change (band (int_of (Some 255)) 128 =? 0) with false. cbv beta iota zeta.
  change ((statusType (Some 255) =? 128) || (statusType (Some 255) =? 144))
    with false.
  cbv beta iota zeta. rewrite H3. cbn [snd pos]. lia.
Qed.

(** The loop does not end on such an event, however many turns it is
    given. *)
Lemma trackLoop_backward (pre more : list Byte.byte) (m stop : Z)
    (fuel : nat) (curTick : Z) (rs : option Z) (rd : Reader) :
  pos rd = Z.of_nat (List.length pre) -> pos rd < stop ->
  trackLoop fuel (pre ++ backwardMeta m ++ more) stop curTick rs rd = None.
Proof.
  revert curTick rs rd.
  induction fuel as [|n IH]; intros curTick rs rd Hp Hs;
    rewrite trackLoop_unfold; apply Z.ltb_lt in Hs as Hb; rewrite Hb;
    [reflexivity |].
  pose proof (trackEvent_backward pre more m curTick rs rd Hp) as He.
  destruct (trackEvent (pre ++ backwardMeta m ++ more) curTick rs rd)
    as [[c r'] rd'].
  cbn [snd] in He. apply IH; congruence.
Qed.

(** *** Reading the head of a buffer *)

Lemma get_prefix (pre rest : list Byte.byte) (k : Z) :
  0 <= k < Z.of_nat (List.length pre) -> get (pre ++ rest) k = get pre k.
Proof.
  intro H. unfold get. destruct (Z.ltb_spec k 0); [lia |].
  now rewrite nth_error_app1 by lia.
Qed.

Lemma slice_prefix (pre rest : list Byte.byte) (a b : Z) :
  0 <= a -> a <= b -> b <= Z.of_nat (List.length pre) ->
  slice (pre ++ rest) a b = slice pre a b.
Proof.
  intros Ha Hab Hb. unfold slice, rel_index. rewrite length_app, Nat2Z.inj_add.
  destruct (Z.ltb_spec a 0); [lia |]. destruct (Z.ltb_spec b 0); [lia |].
  rewrite !Z.min_l by lia.
  rewrite skipn_app, firstn_app.
  replace (Z.to_nat a - List.length pre)%nat with 0%nat by lia.
  replace (Z.to_nat (b - a) - List.length (skipn (Z.to_nat a) pre))%nat
    with 0%nat by (rewrite length_skipn; lia).
  cbn [skipn firstn]. now rewrite app_nil_r.
Qed.

Lemma read16_prefix (pre rest : list Byte.byte) (k : Z) :
  0 <= k -> k + 1 < Z.of_nat (List.length pre) ->
  read16 (pre ++ rest) k = read16 pre k.
Proof.
  intros H0 H1. unfold read16. now rewrite !get_prefix by lia.
Qed.

Lemma read32_prefix (pre rest : list Byte.byte) (k : Z) :
  0 <= k -> k + 3 < Z.of_nat (List.length pre) ->
  read32 (pre ++ rest) k = read32 pre k.
Proof.
  intros H0 H1. unfold read32. now rewrite !get_prefix by lia.
Qed.

(** X11.  [parseMidiFile] does not return on a file whose track starts
    with a meta event of length field [FF FF FF FF 78]: the length reads
    as -8, the cursor goes back to the start of the event, and the track
    loop reads it again for ever, whatever the type of the meta event
    and whatever bytes follow. *)
Theorem backward_meta_never_returns (m : Z) (more : list Byte.byte)
    (fuel : nat) :
  parseMidiFile fuel (hangingFile m more) = None.
Proof.
  set (pre := lit "MThd" ++ List.map b8 [0; 0; 0; 6; 0; 0; 0; 1; 1; 224]
              ++ lit "MTrk" ++ List.map b8 [0; 0; 0; 12]).
  assert (Hdata : hangingFile m more = pre ++ backwardMeta m ++ more)
    by reflexivity.
  rewrite Hdata. unfold parseMidiFile.
  cbv beta iota zeta delta [readStr].
  rewrite (slice_prefix pre _ 0 (0 + 4)) by (cbn; lia).
  change (negb (bytes_eqb (slice pre 0 (0 + 4)) MThd)) with false.
  cbv beta iota.
  rewrite (read16_prefix pre _ (0 + 4 + 4)) by (cbn; lia).
  change (read16 pre (0 + 4 + 4)) with (0, 10). cbv beta iota.
  rewrite (read16_prefix pre _ 10) by (cbn; lia).
  change (read16 pre 10) with (1, 12). cbv beta iota.
  rewrite (read16_prefix pre _ 12) by (cbn; lia).
  change (read16 pre 12) with (480, 14).
  cbv beta iota. change (Z.to_nat 1) with 1%nat. cbn [tracksLoop].
  cbv beta iota zeta delta [readStr]. cbn [pos events tempoMap].
  rewrite (slice_prefix pre _ 14 (14 + 4)) by (cbn; lia).
  change (negb (bytes_eqb (slice pre 14 (14 + 4)) MTrk)) with false.
  cbv beta iota.
  rewrite (read32_prefix pre) by (cbn; lia).
  change (read32 pre (14 + 4)) with (12, 22).
  cbv beta iota.
  rewrite (trackLoop_backward pre more m (22 + 12) fuel); [reflexivity | |];
    cbn; lia.
Qed.

End SmfLoop.

(* ================================================================== *)
(** * Fields of a local file header *)
(* ================================================================== *)

Module ZipFacts.
Import Bytes Fallback Zip SmfFacts FallbackFacts.
Local Open Scope Z_scope.

(** *** Fields as sums of bytes *)

Lemma land_low (a c k : Z) :
  0 <= k -> 0 <= c < 2 ^ k -> Z.land (a * 2 ^ k) c = 0.
Proof.
  intros Hk Hc. apply Z.bits_inj'. intros i Hi.
  rewrite Z.land_spec, Z.bits_0.
  destruct (Z.ltb_spec i k).
  - rewrite Z.mul_pow2_bits_low by lia. reflexivity.
  - replace (Z.testbit c i) with false; [apply andb_false_r |].
    symmetry. destruct (Z.eq_dec c 0) as [-> | Hne]; [apply Z.bits_0 |].
    apply Z.bits_above_log2; [lia |].
    apply Z.log2_lt_pow2; [lia |].
    apply Z.lt_le_trans with (2 ^ k); [lia |].
    apply Z.pow_le_mono_r; lia.
Qed.

Lemma lor_low (a c k : Z) :
  0 <= k -> 0 <= c < 2 ^ k -> Z.lor c (a * 2 ^ k) = a * 2 ^ k + c.
Proof.
  intros Hk Hc. rewrite Z.lor_comm.
  rewrite <- Z.lxor_lor by now apply land_low.
  symmetry. apply Z.add_nocarry_lxor. now apply land_low.
Qed.

Lemma shl_top (b : Z) : 0 <= b < 256 -> shl b 24 = top b * 2 ^ 24.
Proof.
  intro H. unfold shl, top. rewrite (toInt32_small b) by lia.
  rewrite Z.shiftl_mul_pow2 by lia. change (2 ^ 24) with 16777216.
  unfold toInt32. destruct (Z.ltb_spec b 128).
  - rewrite Z.mod_small by lia. lia.
  - replace (b * 16777216 + 2147483648)
      with ((b * 16777216 - 2147483648) + 1 * 4294967296) by lia.
    rewrite Z.mod_add by lia. rewrite Z.mod_small by lia. lia.
Qed.

Lemma bor_sum16 (b0 b1 : Z) :
  0 <= b0 < 256 -> 0 <= b1 < 256 -> bor b0 (shl b1 8) = b0 + b1 * 256.
Proof.
  intros H0 H1. destruct (SmfTimes.shl_byte b1 8 H1 ltac:(lia)) as [E Hr].
  change (2 ^ 24) with 16777216 in Hr. change (2 ^ 8) with 256 in E.
  unfold bor. rewrite (toInt32_small b0), (toInt32_small (shl b1 8)) by lia.
  rewrite E. change 256 with (2 ^ 8) at 1. rewrite lor_low; [|lia|].
  - change (2 ^ 8) with 256. lia.
  - change (2 ^ 8) with 256. lia.
Qed.

Lemma bor_sum32 (b0 b1 b2 b3 : Z) :
  0 <= b0 < 256 -> 0 <= b1 < 256 -> 0 <= b2 < 256 -> 0 <= b3 < 256 ->
  bor (bor (bor b0 (shl b1 8)) (shl b2 16)) (shl b3 24)
  = b0 + b1 * 256 + b2 * 65536 + top b3 * 16777216.
Proof.
  intros H0 H1 H2 H3. rewrite (bor_sum16 b0 b1 H0 H1).
  destruct (SmfTimes.shl_byte b2 16 H2 ltac:(lia)) as [E2 Hr2].
  change (2 ^ 24) with 16777216 in Hr2. change (2 ^ 16) with 65536 in E2.
  assert (Ht : -128 <= top b3 < 128) by (unfold top; destruct (b3 <? 128) eqn:E;
    [apply Z.ltb_lt in E | apply Z.ltb_ge in E]; lia).
  unfold bor at 2.
  rewrite (toInt32_small (b0 + b1 * 256)), (toInt32_small (shl b2 16)) by lia.
  rewrite E2. change 65536 with (2 ^ 16) at 1. rewrite lor_low; [|lia|].
  2:{ change (2 ^ 16) with 65536. lia. }
  change (2 ^ 16) with 65536.
  unfold bor. rewrite (shl_top b3 H3). change (2 ^ 24) with 16777216.
  rewrite (toInt32_small (b2 * 65536 + (b0 + b1 * 256))) by lia.
  rewrite (toInt32_small (top b3 * 16777216)) by lia.
  change 16777216 with (2 ^ 24) at 1. rewrite lor_low; [|lia|].
  - change (2 ^ 24) with 16777216. lia.
  - change (2 ^ 24) with 16777216. lia.
Qed.

Lemma readUint16_sum (zip : list Byte.byte) (p : Z) :
  readUint16 zip p
  = int_of (get zip p) + int_of (get zip (p + 1)) * 256.
Proof.
  unfold readUint16. apply bor_sum16; apply SmfTimes.int_of_get.
Qed.

Lemma readUint32_sum (zip : list Byte.byte) (p : Z) :
  readUint32 zip p
  = int_of (get zip p) + int_of (get zip (p + 1)) * 256
    + int_of (get zip (p + 2)) * 65536
    + top (int_of (get zip (p + 3))) * 16777216.
Proof.
  unfold readUint32. apply bor_sum32; apply SmfTimes.int_of_get.
Qed.

(** The signature test reads the four bytes [50 4B 03 04]. *)
Lemma signature_bytes (zip : list Byte.byte) (p : Z) :
  readUint32 zip p = signature <->
  int_of (get zip p) = 80 /\ int_of (get zip (p + 1)) = 75
  /\ int_of (get zip (p + 2)) = 3 /\ int_of (get zip (p + 3)) = 4.
Proof.
  rewrite readUint32_sum. unfold signature, top.
  pose proof (SmfTimes.int_of_get zip p).
  pose proof (SmfTimes.int_of_get zip (p + 1)).
  pose proof (SmfTimes.int_of_get zip (p + 2)).
  pose proof (SmfTimes.int_of_get zip (p + 3)).
  destruct (Z.ltb_spec (int_of (get zip (p + 3))) 128); split; intro; lia.
Qed.

(** No header starts before the first byte of the buffer. *)
Lemma no_signature_before (zip : list Byte.byte) (p : Z) :
  p < 0 -> (readUint32 zip p =? signature) = false.
Proof.
  intro H. apply Z.eqb_neq. intro E. apply signature_bytes in E as [E _].
  unfold get in E. apply Z.ltb_lt in H. rewrite H in E. discriminate E.
Qed.

(** *** Turns of the scan *)

Section Loop.
Variable pako : option (list Byte.byte -> Completion (list Byte.byte)).

Lemma zipLoop_unfold (fuel : nat) (zip : list Byte.byte) (offset : Z)
    (files : list ZipFile) :
  zipLoop pako fuel zip offset files
  = if offset <? Z.of_nat (List.length zip) - 4 then
      match fuel with
      | O => None
      | S fuel' =>
          if readUint32 zip offset =? signature then
            zipLoop pako fuel' zip (snd (readEntry pako zip offset))
              (files ++ [fst (readEntry pako zip offset)])
          else zipLoop pako fuel' zip (offset + 1) files
      end
    else Some files.
Proof. destruct fuel; reflexivity. Qed.

(** From an offset that is not positive the scan comes back to offset
    0 without a new entry, or runs out of turns. *)
Lemma zipLoop_climb (zip : list Byte.byte) (files : list ZipFile)
    (k : nat) (fuel : nat) :
  0 < Z.of_nat (List.length zip) - 4 ->
  zipLoop pako fuel zip (- Z.of_nat k) files = None
  \/ exists fuel', (fuel' <= fuel)%nat
       /\ zipLoop pako fuel zip (- Z.of_nat k) files
          = zipLoop pako fuel' zip 0 files.
Proof.
  intro Hlen. revert fuel. induction k as [|k IH]; intro fuel.
  - right. exists fuel. split; [lia | reflexivity].
  - rewrite zipLoop_unfold.
    replace (- Z.of_nat (S k) <? Z.of_nat (List.length zip) - 4) with true
      by (symmetry; apply Z.ltb_lt; lia).
    destruct fuel as [|fuel]; [now left |].
    rewrite no_signature_before by lia.
    replace (- Z.of_nat (S k) + 1) with (- Z.of_nat k) by lia.
    destruct (IH fuel) as [H | [fuel' [Hle H]]]; [now left |].
    right. exists fuel'. split; [lia | exact H].
Qed.

Lemma zipLoop_backward (zip : list Byte.byte) :
  readUint32 zip 0 = signature ->
  0 < Z.of_nat (List.length zip) - 4 ->
  snd (readEntry pako zip 0) <= 0 ->
  forall fuel files, zipLoop pako fuel zip 0 files = None.
Proof.
  intros Hsig Hlen Hend fuel.
  induction fuel as [fuel IH] using lt_wf_ind. intro files.
  rewrite zipLoop_unfold.
  apply Z.ltb_lt in Hlen as Hb. rewrite Hb.
  destruct fuel as [|fuel]; [reflexivity |].
  rewrite Hsig, Z.eqb_refl.
  set (d := snd (readEntry pako zip 0)) in *.
  replace d with (- Z.of_nat (Z.to_nat (- d))) by lia.
  destruct (zipLoop_climb zip (files ++ [fst (readEntry pako zip 0)])
              (Z.to_nat (- d)) fuel Hlen) as [H | [fuel' [Hle H]]];
    [exact H |].
  rewrite H. apply IH. lia.
Qed.
End Loop.

(** X12.  [parseZIP] does not return on a buffer that starts with a
    local file header whose size field makes the data of the member end
    at or before offset 0: the scan goes back, meets the same header
    again and pushes the same entry for ever. *)
Theorem backward_size_never_returns
    (pako : option (list Byte.byte -> Completion (list Byte.byte)))
    (zip : list Byte.byte) (fuel : nat) :
  readUint32 zip 0 = signature ->
  4 < Z.of_nat (List.length zip) ->
  30 + readUint16 zip 26 + readUint16 zip 28 + readUint32 zip 18 <= 0 ->
  parseZIP pako fuel zip = None.
Proof.
  intros Hsig Hlen Hend. unfold parseZIP.
  apply zipLoop_backward; [exact Hsig | lia |].
  unfold readEntry. cbn [snd]. cbn [Z.add] in *. lia.
Qed.

Lemma backward_size_never_returns_witness :
  parseZIP None 1000 backwardArchive = None.
Proof.
  apply (backward_size_never_returns None backwardArchive 1000).
  - vm_compute. reflexivity.
  - vm_compute. reflexivity.
  - vm_compute. discriminate.
Defined.

End ZipFacts.

(* ================================================================== *)
(** * The archive scan of [parseZIP] *)
(* ================================================================== *)

Module ZipScan.
Import Bytes Fallback Zip SmfFacts FallbackFacts ZipFacts.
Local Open Scope Z_scope.

(** *** The header test on the bytes at an offset *)

Lemma get_skipn (zip : list Byte.byte) (o i : nat) :
  get zip (Z.of_nat o + Z.of_nat i)
  = option_map u8 (nth_error (skipn o zip) i).
Proof.
  unfold get.
  destruct (Z.ltb_spec (Z.of_nat o + Z.of_nat i) 0); [lia |].
  rewrite <- Nat2Z.inj_add, Nat2Z.id. f_equal. clear.
  revert zip. induction o as [|o IH]; intro zip; [reflexivity |].
  destruct zip as [|b r].
  - cbn [Nat.add nth_error skipn]. now destruct i.
  - cbn [Nat.add nth_error skipn]. apply IH.
Qed.

Lemma skipn_next (A : Type) (l r : list A) (b : A) (o : nat) :
  skipn o l = b :: r -> skipn (S o) l = r.
Proof.
  intro H. change (S o) with (1 + o)%nat.
  rewrite <- skipn_skipn, H. reflexivity.
Qed.

Lemma int_of_byte (b : Byte.byte) : int_of (Some (u8 b)) = u8 b.
Proof. cbn [int_of]. pose proof (u8_range b). apply toInt32_small. lia. Qed.

Lemma header_test (zip : list Byte.byte) (o : nat) :
  (Z.of_nat o <? Z.of_nat (List.length zip) - 4)
  && (readUint32 zip (Z.of_nat o) =? signature)
  = localHeaderHere (skipn o zip).
Proof.
  unfold localHeaderHere. rewrite length_skipn.
  destruct (Z.ltb_spec (Z.of_nat o) (Z.of_nat (List.length zip) - 4)) as [H | H].
  - replace (4 <? Z.of_nat (List.length zip - o)) with true
      by (symmetry; apply Z.ltb_lt; lia).
    cbn [andb].
    pose proof (get_skipn zip o 0) as G0. pose proof (get_skipn zip o 1) as G1.
    pose proof (get_skipn zip o 2) as G2. pose proof (get_skipn zip o 3) as G3.
    assert (Hl : (4 < List.length (skipn o zip))%nat)
      by (rewrite length_skipn; lia).
    destruct (skipn o zip) as [|c0 [|c1 [|c2 [|c3 r]]]];
      try (cbn [List.length] in Hl; lia).
    cbn [nth_error option_map] in G0, G1, G2, G3.
    change (Z.of_nat 0) with 0 in G0. rewrite Z.add_0_r in G0.
    change (Z.of_nat 1) with 1 in G1. change (Z.of_nat 2) with 2 in G2.
    change (Z.of_nat 3) with 3 in G3.
    cbn [List.map startsWith].
    destruct (Z.eqb_spec (readUint32 zip (Z.of_nat o)) signature) as [E | E].
    + apply signature_bytes in E as [E0 [E1 [E2 E3]]].
      rewrite G0, int_of_byte in E0. rewrite G1, int_of_byte in E1.
      rewrite G2, int_of_byte in E2. rewrite G3, int_of_byte in E3.
      now rewrite <- E0, <- E1, <- E2, <- E3, !Z.eqb_refl.
    + symmetry. apply not_true_is_false. intro Hs. apply E.
      apply andb_true_iff in Hs as [E0 Hs]. apply andb_true_iff in Hs as [E1 Hs].
      apply andb_true_iff in Hs as [E2 Hs]. apply andb_true_iff in Hs as [E3 _].
      apply Z.eqb_eq in E0, E1, E2, E3.
      apply signature_bytes.
      now rewrite G0, G1, G2, G3, !int_of_byte.
  - replace (4 <? Z.of_nat (List.length zip - o)) with false
      by (symmetry; apply Z.ltb_ge; lia).
    reflexivity.
Qed.

Section Scan.
Variable pako : option (list Byte.byte -> Completion (list Byte.byte)).

(** The scan over bytes that hold no header pushes nothing. *)
Lemma scan_no_header (zip : list Byte.byte) (files : list ZipFile)
    (rest : list Byte.byte) (o fuel : nat) :
  skipn o zip = rest -> hasLocalHeader rest = false ->
  (List.length rest <= fuel)%nat ->
  zipLoop pako fuel zip (Z.of_nat o) files = Some files.
Proof.
  revert o fuel. induction rest as [|b r IH]; intros o fuel Hr Hh Hf.
  - rewrite zipLoop_unfold.
    assert (Hl : (List.length zip <= o)%nat).
    { apply (f_equal (@List.length Byte.byte)) in Hr.
      rewrite length_skipn in Hr. cbn in Hr. lia. }
    replace (Z.of_nat o <? Z.of_nat (List.length zip) - 4) with false
      by (symmetry; apply Z.ltb_ge; lia).
    reflexivity.
  - rewrite zipLoop_unfold.
    cbn [hasLocalHeader] in Hh. apply orb_false_iff in Hh as [Hhere Hh].
    pose proof (header_test zip o) as Ht. rewrite Hr, Hhere in Ht.
    destruct (Z.of_nat o <? Z.of_nat (List.length zip) - 4); [|reflexivity].
    cbn [andb] in Ht. rewrite Ht.
    destruct fuel as [|fuel]; [cbn [List.length] in Hf; lia |].
    replace (Z.of_nat o + 1) with (Z.of_nat (S o)) by lia.
    apply IH; [|exact Hh | cbn [List.length] in Hf; lia].
    now apply skipn_next with b.
Qed.

Lemma zipLoop_extends (fuel : nat) (zip : list Byte.byte) (offset : Z)
    (files r : list ZipFile) :
  zipLoop pako fuel zip offset files = Some r ->
  exists more, r = files ++ more.
Proof.
  revert offset files. induction fuel as [|fuel IH]; intros offset files H;
    rewrite zipLoop_unfold in H;
    destruct (offset <? Z.of_nat (List.length zip) - 4);
    try discriminate H;
    try (injection H as <-; exists []; now rewrite app_nil_r).
  destruct (readUint32 zip offset =? signature).
  - apply IH in H as [more ->]. rewrite <- app_assoc. eexists. reflexivity.
  - now apply IH in H.
Qed.

Lemma short_no_header (l : list Byte.byte) :
  (List.length l <= 4)%nat -> hasLocalHeader l = false.
Proof.
  induction l as [|x l IHl]; intro Hl; [reflexivity |].
  cbn [hasLocalHeader]. rewrite IHl by (cbn [List.length] in Hl; lia).
  unfold localHeaderHere.
  replace (4 <? Z.of_nat (List.length (x :: l))) with false
    by (symmetry; apply Z.ltb_ge; lia).
  reflexivity.
Qed.

(** The scan over bytes that hold a header pushes an entry, if it
    ends. *)
Lemma scan_header (zip : list Byte.byte) (files r : list ZipFile)
    (rest : list Byte.byte) (o fuel : nat) :
  skipn o zip = rest -> hasLocalHeader rest = true ->
  zipLoop pako fuel zip (Z.of_nat o) files = Some r ->
  exists file more, r = files ++ file :: more.
Proof.
  revert o fuel. induction rest as [|b t IH]; intros o fuel Hr Hh H;
    [discriminate Hh |].
  rewrite zipLoop_unfold in H.
  pose proof (header_test zip o) as Ht. rewrite Hr in Ht.
  destruct (Z.ltb_spec (Z.of_nat o) (Z.of_nat (List.length zip) - 4))
    as [Hlt | Hge].
  - cbn [hasLocalHeader] in Hh.
    destruct fuel as [|fuel]; [discriminate H |]. cbn [andb] in Ht.
    destruct (readUint32 zip (Z.of_nat o) =? signature).
    + apply zipLoop_extends in H as [more ->].
      rewrite <- app_assoc. eexists. eexists. reflexivity.
    + rewrite <- Ht in Hh. cbn [orb] in Hh.
      replace (Z.of_nat o + 1) with (Z.of_nat (S o)) in H by lia.
      apply (IH (S o) fuel); [|exact Hh | exact H].
      now apply skipn_next with b.
  - rewrite short_no_header in Hh; [discriminate Hh |].
    rewrite <- Hr, length_skipn. lia.
Qed.
End Scan.

(** X13.  [parseZIP] returns an empty list exactly on the buffers in
    which no offset below [length - 4] holds the local file header
    signature; these are the buffers [extractMXL] hands to the fallback
    scan for want of files. *)
Theorem no_files_iff_no_header
    (pako : option (list Byte.byte -> Completion (list Byte.byte)))
    (zip : list Byte.byte) (fuel : nat) :
  (List.length zip <= fuel)%nat ->
  (parseZIP pako fuel zip = Some [] <-> hasLocalHeader zip = false).
Proof.
  intro Hf. unfold parseZIP. split.
  - intro H. destruct (hasLocalHeader zip) eqn:E; [|reflexivity].
    destruct (scan_header pako zip [] [] zip 0 fuel eq_refl E H)
      as [file [more Hm]].
    discriminate Hm.
  - intro H. apply (scan_no_header pako zip [] zip 0 fuel eq_refl H Hf).
Qed.

Lemma no_files_iff_no_header_witness :
  parseZIP None 6 garbage = Some [].
Proof.
  apply (proj2 (no_files_iff_no_header None garbage 6 ltac:(simpl; lia))).
  vm_compute. reflexivity.
Defined.

(** *** Fields of a header *)

Lemma le16_value (n : Z) :
  0 <= n < 65536 ->
  u8 (b8 n) + u8 (b8 (Z.shiftr n 8)) * 256 = n.
Proof.
  intro H. rewrite !u8_b8, Z.shiftr_div_pow2 by lia.
  change (2 ^ 8) with 256. Z.div_mod_to_equations. lia.
Qed.

Lemma le32_value (n : Z) :
  0 <= n < 2147483648 ->
  u8 (b8 n) + u8 (b8 (Z.shiftr n 8)) * 256
  + u8 (b8 (Z.shiftr n 16)) * 65536
  + top (u8 (b8 (Z.shiftr n 24))) * 16777216 = n.
Proof.
  intro H. rewrite !u8_b8, !Z.shiftr_div_pow2 by lia.
  change (2 ^ 8) with 256. change (2 ^ 16) with 65536.
  change (2 ^ 24) with 16777216.
  assert (Ht : (n / 16777216) mod 256 < 128)
    by (Z.div_mod_to_equations; lia).
  unfold top. apply Z.ltb_lt in Ht. rewrite Ht.
  Z.div_mod_to_equations. lia.
Qed.

Lemma field16 (pre bs more : list Byte.byte) (k : nat) (n : Z) :
  nth_error bs k = Some (b8 n) ->
  nth_error bs (S k) = Some (b8 (Z.shiftr n 8)) ->
  0 <= n < 65536 ->
  readUint16 (pre ++ bs ++ more) (Z.of_nat (List.length pre) + Z.of_nat k) = n.
Proof.
  intros H0 H1 Hn. rewrite readUint16_sum.
  rewrite (SmfLoop.get_inside pre bs more k _ H0).
  replace (Z.of_nat (List.length pre) + Z.of_nat k + 1)
    with (Z.of_nat (List.length pre) + Z.of_nat (S k)) by lia.
  rewrite (SmfLoop.get_inside pre bs more (S k) _ H1).
  rewrite !int_of_byte. now apply le16_value.
Qed.

Lemma field32 (pre bs more : list Byte.byte) (k : nat) (n : Z) :
  nth_error bs k = Some (b8 n) ->
  nth_error bs (S k) = Some (b8 (Z.shiftr n 8)) ->
  nth_error bs (S (S k)) = Some (b8 (Z.shiftr n 16)) ->
  nth_error bs (S (S (S k))) = Some (b8 (Z.shiftr n 24)) ->
  0 <= n < 2147483648 ->
  readUint32 (pre ++ bs ++ more) (Z.of_nat (List.length pre) + Z.of_nat k) = n.
Proof.
  intros H0 H1 H2 H3 Hn. rewrite readUint32_sum.
  rewrite (SmfLoop.get_inside pre bs more k _ H0).
  replace (Z.of_nat (List.length pre) + Z.of_nat k + 1)
    with (Z.of_nat (List.length pre) + Z.of_nat (S k)) by lia.
  replace (Z.of_nat (List.length pre) + Z.of_nat k + 2)
    with (Z.of_nat (List.length pre) + Z.of_nat (S (S k))) by lia.
  replace (Z.of_nat (List.length pre) + Z.of_nat k + 3)
    with (Z.of_nat (List.length pre) + Z.of_nat (S (S (S k)))) by lia.
  rewrite (SmfLoop.get_inside pre bs more (S k) _ H1).
  rewrite (SmfLoop.get_inside pre bs more (S (S k)) _ H2).
  rewrite (SmfLoop.get_inside pre bs more (S (S (S k))) _ H3).
  rewrite !int_of_byte. now apply le32_value.
Qed.

Lemma slice_inside (pre mid post : list Byte.byte) :
  slice (pre ++ mid ++ post) (Z.of_nat (List.length pre))
    (Z.of_nat (List.length pre) + Z.of_nat (List.length mid))
  = mid.
Proof.
  unfold slice, rel_index. rewrite !length_app, !Nat2Z.inj_add.
  destruct (Z.ltb_spec (Z.of_nat (List.length pre)) 0); [lia |].
  destruct (Z.ltb_spec (Z.of_nat (List.length pre)
                        + Z.of_nat (List.length mid)) 0); [lia |].
  rewrite !Z.min_l by lia. rewrite Nat2Z.id.
  rewrite skipn_app, skipn_all, Nat.sub_diag. cbn [skipn app].
  replace (Z.to_nat (Z.of_nat (List.length pre) + Z.of_nat (List.length mid)
                     - Z.of_nat (List.length pre)))
    with (List.length mid) by lia.
  rewrite firstn_app, firstn_all, Nat.sub_diag. cbn [firstn].
  apply app_nil_r.
Qed.

Lemma member_length (m : Member) :
  List.length (memberBytes m)
  = (30 + List.length (fileName m) + List.length (extra m)
     + List.length (payload m))%nat.
Proof.
  unfold memberBytes, member. rewrite !length_app.
  change (List.length (localHeader _ _ _ _)) with 30%nat. lia.
Qed.

Section Members.
Variable pako : option (list Byte.byte -> Completion (list Byte.byte)).

(** The entry read at a member and the offset after it. *)
Lemma readEntry_member (pre rest : list Byte.byte) (m : Member) :
  wellSized m ->
  readEntry pako (pre ++ memberBytes m ++ rest) (Z.of_nat (List.length pre))
  = (entryOf pako m,
     Z.of_nat (List.length pre) + Z.of_nat (List.length (memberBytes m))).
Proof.
  intros [Hm [Hn [He Hp]]].
  set (o := Z.of_nat (List.length pre)).
  set (zip := pre ++ memberBytes m ++ rest).
  assert (F8 : readUint16 zip (o + 8) = method m).
  { change 8 with (Z.of_nat 8). apply field16; [reflexivity | reflexivity | lia]. }
  assert (F18 : readUint32 zip (o + 18) = Z.of_nat (List.length (payload m))).
  { change 18 with (Z.of_nat 18).
    apply field32; [reflexivity | reflexivity | reflexivity | reflexivity | lia]. }
  assert (F26 : readUint16 zip (o + 26) = Z.of_nat (List.length (fileName m))).
  { change 26 with (Z.of_nat 26). apply field16; [reflexivity | reflexivity | lia]. }
  assert (F28 : readUint16 zip (o + 28) = Z.of_nat (List.length (extra m))).
  { change 28 with (Z.of_nat 28). apply field16; [reflexivity | reflexivity | lia]. }
  unfold readEntry. rewrite F8, F18, F26, F28.
  set (hdr := localHeader (method m) (Z.of_nat (List.length (payload m)))
                (Z.of_nat (List.length (fileName m)))
                (Z.of_nat (List.length (extra m)))).
  assert (Hz1 : zip = (pre ++ hdr) ++ fileName m
                      ++ (extra m ++ payload m ++ rest)).
  { unfold zip, memberBytes, member. fold hdr. now rewrite <- !app_assoc. }
  assert (Hz2 : zip = (pre ++ hdr ++ fileName m ++ extra m) ++ payload m
                      ++ rest).
  { unfold zip, memberBytes, member. fold hdr. now rewrite <- !app_assoc. }
  assert (Hh : List.length hdr = 30%nat) by reflexivity.
  assert (S1 : slice zip (o + 30)
                 (o + 30 + Z.of_nat (List.length (fileName m)))
               = fileName m).
  { rewrite Hz1.
    replace (o + 30) with (Z.of_nat (List.length (pre ++ hdr)))
      by (rewrite length_app, Hh; unfold o; lia).
    apply slice_inside. }
  assert (S2 : slice zip
                 (o + 30 + Z.of_nat (List.length (fileName m))
                  + Z.of_nat (List.length (extra m)))
                 (o + 30 + Z.of_nat (List.length (fileName m))
                  + Z.of_nat (List.length (extra m))
                  + Z.of_nat (List.length (payload m)))
               = payload m).
  { rewrite Hz2.
    replace (o + 30 + Z.of_nat (List.length (fileName m))
             + Z.of_nat (List.length (extra m)))
      with (Z.of_nat (List.length (pre ++ hdr ++ fileName m ++ extra m)))
      by (rewrite !length_app, Hh; unfold o; lia).
    apply slice_inside. }
  rewrite S1, S2. unfold entryOf. f_equal.
  rewrite member_length. lia.
Qed.

Lemma member_step (pre rest : list Byte.byte) (m : Member)
    (files : list ZipFile) (fuel : nat) :
  wellSized m ->
  zipLoop pako (S fuel) (pre ++ memberBytes m ++ rest)
    (Z.of_nat (List.length pre)) files
  = zipLoop pako fuel (pre ++ memberBytes m ++ rest)
      (Z.of_nat (List.length (pre ++ memberBytes m)))
      (files ++ [entryOf pako m]).
Proof.
  intro Hw. rewrite zipLoop_unfold.
  replace (Z.of_nat (List.length pre)
           <? Z.of_nat (List.length (pre ++ memberBytes m ++ rest)) - 4)
    with true
    by (symmetry; apply Z.ltb_lt; rewrite !length_app, member_length; lia).
  replace (readUint32 (pre ++ memberBytes m ++ rest)
             (Z.of_nat (List.length pre)) =? signature) with true.
  - rewrite (readEntry_member pre rest m Hw). cbn [fst snd].
    now rewrite length_app, Nat2Z.inj_add.
  - symmetry. apply Z.eqb_eq.
    rewrite <- (Z.add_0_r (Z.of_nat (List.length pre))).
    change 0 with (Z.of_nat 0).
    apply field32; try reflexivity. unfold signature. lia.
Qed.

(** The scan of an archive from the start of one of its members. *)
Lemma scan_members (ms : list Member) (tail pre : list Byte.byte)
    (files : list ZipFile) (fuel : nat) :
  Forall wellSized ms -> hasLocalHeader tail = false ->
  (List.length (archive ms tail) <= fuel)%nat ->
  zipLoop pako fuel (pre ++ archive ms tail) (Z.of_nat (List.length pre)) files
  = Some (files ++ List.map (entryOf pako) ms).
Proof.
  intros Hw Ht. revert pre files fuel.
  induction Hw as [|m r Hm Hr IH]; intros pre files fuel Hf.
  - cbn [List.map]. rewrite app_nil_r. unfold archive in *.
    cbn [List.map List.concat app] in *.
    apply (scan_no_header pako _ files tail); [|exact Ht | exact Hf].
    rewrite skipn_app, skipn_all, Nat.sub_diag. reflexivity.
  - unfold archive in *. cbn [List.map List.concat] in *.
    rewrite <- app_assoc in *.
    rewrite length_app, member_length in Hf.
    destruct fuel as [|fuel]; [lia |].
    rewrite (member_step pre _ m files fuel Hm).
    rewrite (app_assoc pre (memberBytes m)).
    rewrite IH by lia.
    cbn [List.map]. now rewrite <- app_assoc.
Qed.
End Members.

(** X14.  On an archive of members whose fields fit their headers,
    followed by bytes without a local file header, [parseZIP] returns one
    entry for each member, in order: the decoded name and the bytes of
    the member, inflated when the method is 8 and [pako] accepts them. *)
Theorem archive_members
    (pako : option (list Byte.byte -> Completion (list Byte.byte)))
    (ms : list Member) (tail : list Byte.byte) (fuel : nat) :
  Forall wellSized ms -> hasLocalHeader tail = false ->
  (List.length (archive ms tail) <= fuel)%nat ->
  parseZIP pako fuel (archive ms tail) = Some (List.map (entryOf pako) ms).
Proof.
  intros Hw Ht Hf. unfold parseZIP.
  apply (scan_members pako ms tail [] [] fuel Hw Ht Hf).
Qed.

Lemma archive_members_witness :
  parseZIP None 200 sampleArchive
  = Some [ mkZipFile (str "META-INF/container.xml") (lit "<container/>");
           mkZipFile (str "score.xml") (lit "<score-partwise/>") ].
Proof.
  unfold sampleArchive.
  rewrite (archive_members None _ _ 200).
  - vm_compute. reflexivity.
  - repeat constructor; cbn; lia.
  - vm_compute. reflexivity.
  - vm_compute. lia.
Defined.

End ZipScan.

(* ================================================================== *)
(** * The member [extractMXL] selects and the result of [parseFile] *)
(* ================================================================== *)

Module ExtractFacts.
Import JS Bytes Dom Convert Parse Fallback Zip Extract ZipScan.
Local Open Scope Z_scope.

Lemma jseqb_eq (a b : jsstring) : jseqb a b = true <-> a = b.
Proof.
  unfold jseqb. destruct (list_eq_dec Z.eq_dec a b); split; intro H;
    congruence.
Qed.

Lemma find_first (A : Type) (p q : A -> bool) (l : list A) (x : A) :
  find p l = Some x ->
  (forall y, q y = true -> p y = true) -> q x = true ->
  find q l = Some x.
Proof.
  intros H Hqp Hx. induction l as [|a r IH]; [discriminate H |].
  cbn [find] in *. destruct (p a) eqn:Ea.
  - injection H as ->. now rewrite Hx.
  - destruct (q a) eqn:Eq; [|auto].
    apply Hqp in Eq. congruence.
Qed.

Lemma isScore_name (f g : ZipFile) :
  name g = name f -> isScore g = isScore f.
Proof. intro H. unfold isScore. now rewrite H. Qed.

Lemma isScore_nonempty (f : ZipFile) : isScore f = true -> name f <> [].
Proof.
  unfold isScore. intros H E. rewrite E in H. discriminate H.
Qed.

Section Platform.
Variable pako : option (list Byte.byte -> Completion (list Byte.byte)).
Variable parseFromString : jsstring -> Node.

(** X15.  On a buffer without a local file header signature
    [extractMXL] returns what the fallback scan returns. *)
Theorem no_header_uses_fallback (zip : list Byte.byte) (fuel : nat) :
  hasLocalHeader zip = false -> (List.length zip <= fuel)%nat ->
  extractMXL pako parseFromString fuel zip = Some (extractMXLFallback zip).
Proof.
  intros Hh Hf. unfold extractMXL, parseZIP.
  pose proof (scan_no_header pako zip [] zip 0 fuel eq_refl Hh Hf) as H.
  change (Z.of_nat 0) with 0 in H. now rewrite H.
Qed.

(** X16.  When the archive has no [META-INF/container.xml] that names a
    root file, [extractMXL] returns the text of the first member whose
    name ends in [.xml], in any case of the letters, and does not start
    with [META-INF/] or [__MACOSX/]; without such a member it returns
    what the fallback scan returns. *)
Theorem first_score_member (zip : list Byte.byte) (fuel : nat)
    (files : list ZipFile) :
  parseZIP pako fuel zip = Some files ->
  present (containerPath parseFromString files) = false ->
  extractMXL pako parseFromString fuel zip
  = Some (match find isScore files with
          | Some f => Some (decodeText (data f))
          | None => extractMXLFallback zip
          end).
Proof.
  intros Hz Hc. unfold extractMXL. rewrite Hz.
  destruct files as [|f0 r]; [reflexivity |].
  unfold xmlFileName. rewrite Hc.
  destruct (find isScore (f0 :: r)) as [f|] eqn:Ef.
  - pose proof (find_some _ _ Ef) as [_ Hs].
    pose proof (isScore_nonempty f Hs) as Hn.
    destruct (name f) as [|c t] eqn:En; [contradiction |].
    rewrite (find_first ZipFile isScore (fun g => jseqb (name g) (c :: t))
               (f0 :: r) f Ef).
    + reflexivity.
    + intros y Hy. apply jseqb_eq in Hy.
      rewrite (isScore_name f y) by congruence. exact Hs.
    + apply jseqb_eq. exact En.
  - destruct (containerPath parseFromString (f0 :: r)) as [[|c t]|];
      try reflexivity.
    discriminate Hc.
Qed.
Lemma find_absent (A : Type) (p : A -> bool) (l : list A) :
  (forall x, In x l -> p x = false) -> find p l = None.
Proof.
  induction l as [|a r IH]; intro H; [reflexivity |].
  cbn [find]. rewrite (H a) by now left.
  apply IH. intros x Hx. apply H. now right.
Qed.

(** X17.  When [META-INF/container.xml] names a root file that is not a
    member of the archive, [extractMXL] returns what the fallback scan
    returns: the search for a member that ends in [.xml] is not tried,
    whatever other members the archive has. *)
Theorem missing_root_file (zip : list Byte.byte) (fuel : nat)
    (files : list ZipFile) (path : jsstring) :
  parseZIP pako fuel zip = Some files ->
  containerPath parseFromString files = Some path ->
  path <> [] ->
  (forall f, In f files -> name f <> path) ->
  extractMXL pako parseFromString fuel zip = Some (extractMXLFallback zip).
Proof.
  intros Hz Hc Hp Hn. unfold extractMXL. rewrite Hz.
  destruct files as [|f0 r]; [reflexivity |].
  unfold xmlFileName. rewrite Hc.
  destruct path as [|c t]; [contradiction |]. cbn [present].
  rewrite find_absent; [reflexivity |].
  intros f Hf. destruct (jseqb (name f) (c :: t)) eqn:E; [|reflexivity].
  apply jseqb_eq in E. now apply Hn in Hf.
Qed.

Section Loading.
Variable initPromise : Completion unit.
Variable message : string -> string.

(** X18.  [parseFile] on a file whose name does not end in [.mxl]:
    the call throws when the dependencies did not load, before the file
    is looked at; otherwise it reports the corrupt-file error for a
    document with [parsererror], the message of the engine's error of
    reading a property of [null] for a document with a [<pitch>] that
    lacks [<step>] or [<octave>], and succeeds with the decoded text on
    every other document. *)
Theorem parseFile_results (fuel : nat) (fileName : jsstring)
    (bytes : list Byte.byte) :
  endsWith (str ".mxl") (toLowerCase fileName) = false ->
  (forall e, initPromise = Thrown e ->
     parseFile pako parseFromString initPromise message fuel fileName bytes
     = Some (Thrown e))
  /\ (initPromise = Normal tt ->
      (child (parseFromString (decodeText bytes)) "parsererror" <> None ->
       parseFile pako parseFromString initPromise message fuel fileName bytes
       = Some (Normal (Failure corruptError)))
      /\ (child (parseFromString (decodeText bytes)) "parsererror" = None ->
          (exists part measure c p,
             In part (querySelectorAll (parseFromString (decodeText bytes))
                        (ByTag "part"))
             /\ In measure (querySelectorAll part (ByTag "measure"))
             /\ In c (children measure)
             /\ tagName c = "note"%string
             /\ child c "pitch" = Some p
             /\ (child p "step" = None \/ child p "octave" = None)) ->
          parseFile pako parseFromString initPromise message fuel fileName bytes
          = Some (Normal (Failure (message nullDeref))))
      /\ (child (parseFromString (decodeText bytes)) "parsererror" = None ->
          ~ (exists part measure c p,
               In part (querySelectorAll (parseFromString (decodeText bytes))
                          (ByTag "part"))
               /\ In measure (querySelectorAll part (ByTag "measure"))
               /\ In c (children measure)
               /\ tagName c = "note"%string
               /\ child c "pitch" = Some p
               /\ (child p "step" = None \/ child p "octave" = None)) ->
          exists sd,
            parseFile pako parseFromString initPromise message fuel
              fileName bytes
            = Some (Normal (Success (decodeText bytes) sd)))).
Proof.
  intro Hn. unfold parseFile, parseLoaded. rewrite Hn. split.
  - intros e ->. reflexivity.
  - intros ->. cbn [option_map]. unfold parseText. split; [|split].
    + intro Hpe. unfold parseXMLString.
      destruct (child (parseFromString (decodeText bytes)) "parsererror");
        [reflexivity | contradiction].
    + intros Hpe [part [measure [c [p [Hpart [Hm [Hc [Ht [Hp Hs]]]]]]]]].
      now rewrite (ParseMore.parseXMLString_incomplete _ part measure c p).
    + intros Hpe Hno.
      destruct (ParseMore.parseXMLString_returns _ Hpe) as [sd Hsd].
      * intros [e He]. apply Hno.
        apply (ParseMore.parseXMLString_thrown _ e Hpe He).
      * exists sd. now rewrite Hsd.
Qed.
End Loading.
End Platform.

Lemma missing_root_file_witness :
  extractMXL None danglingContainer 200 sampleArchive
  = Some (extractMXLFallback sampleArchive).
Proof.
  apply (missing_root_file None danglingContainer sampleArchive 200
           [ mkZipFile (str "META-INF/container.xml") (lit "<container/>");
             mkZipFile (str "score.xml") (lit "<score-partwise/>") ]
           (str "missing.xml")).
  - vm_compute. reflexivity.
  - vm_compute. reflexivity.
  - discriminate.
  - intros f [<- | [<- | []]]; vm_compute; discriminate.
Defined.

Lemma parseFile_results_witness :
  parseFile None (fun _ => scoreOf stepless) (Normal tt)
    (fun _ => "Cannot read properties of null (reading 'textContent')"%string)
    0 (str "score.xml") (lit "<score-partwise/>")
  = Some (Normal
            (Failure
               "Cannot read properties of null (reading 'textContent')")).
Proof.
  apply (proj1 (proj2 (proj2 (parseFile_results None (fun _ => scoreOf stepless)
                         (Normal tt)
                         (fun _ =>
                            "Cannot read properties of null (reading 'textContent')"%string)
                         0 (str "score.xml")
                         (lit "<score-partwise/>") eq_refl) eq_refl))).
  - reflexivity.
  - exists (Element "part" [("id", "P1")]%string
              [ Element "measure" [("number", "1")]%string
                  (el "attributes" [leaf "divisions" "1"] :: stepless) ]),
           (Element "measure" [("number", "1")]%string
              (el "attributes" [leaf "divisions" "1"] :: stepless)),
           (el "note" [el "pitch" [leaf "octave" "4"]; leaf "duration" "1"]),
           (el "pitch" [leaf "octave" "4"]).
    repeat split; try reflexivity.
    + vm_compute. auto.
    + vm_compute. auto.
    + vm_compute. auto.
    + left. reflexivity.
Defined.

Lemma first_score_member_witness :
  extractMXL None danglingContainer 200 macArchive
  = Some (Some (str "<score-partwise/>")).
Proof.
  rewrite (first_score_member None danglingContainer macArchive 200
             [ mkZipFile (str "__MACOSX/._score.xml") (lit "fork");
               mkZipFile (str "META-INF/notes.xml") (lit "<notes/>");
               mkZipFile (str "Score.XML") (lit "<score-partwise/>") ]).
  - vm_compute. reflexivity.
  - vm_compute. reflexivity.
  - vm_compute. reflexivity.
Defined.

Lemma no_header_uses_fallback_witness :
  extractMXL None danglingContainer 200 partwiseBuffer
  = Some (extractMXLFallback partwiseBuffer).
Proof.
  apply (no_header_uses_fallback None danglingContainer partwiseBuffer 200).
  - vm_compute. reflexivity.
  - vm_compute. lia.
Defined.

End ExtractFacts.

(* ================================================================== *)
(** * The playback cursor *)
(* ================================================================== *)

Module PlayerFacts.
Import JS Bytes Dom Convert Player NumFacts.
Local Open Scope Z_scope.

(** *** Events in time order *)

Lemma nondecreasing_inOrder (evs : list MidiEvent) :
  nondecreasing (List.map time evs) -> inOrder evs.
Proof.
  unfold nondecreasing, inOrder. intro Hs.
  apply Sorted_StronglySorted in Hs; [|exact SmfTimes.leb_transitive].
  induction evs as [|e r IH]; [constructor |].
  cbn [List.map] in Hs. inversion Hs as [|? ? Hr Hall]; subst.
  constructor; [now apply IH |].
  apply Forall_map in Hall. exact Hall.
Qed.

Lemma inOrder_skipn (evs : list MidiEvent) (n : nat) :
  inOrder evs -> inOrder (skipn n evs).
Proof.
  revert evs. induction n as [|n IH]; intros evs H; [exact H |].
  destruct evs as [|e r]; [exact H |]. cbn [skipn]. apply IH.
  now inversion H.
Qed.

(** *** [findIndex] *)

Lemma findIndexFrom_spec (p : MidiEvent -> bool) (l : list MidiEvent) (i : Z) :
  0 <= i ->
  (findIndexFrom p l i = -1 /\ forall e, In e l -> p e = false)
  \/ exists k e,
       findIndexFrom p l i = i + Z.of_nat k
       /\ nth_error l k = Some e /\ p e = true
       /\ forall j e', (j < k)%nat -> nth_error l j = Some e' -> p e' = false.
Proof.
  revert i. induction l as [|a r IH]; intros i Hi.
  - left. split; [reflexivity | intros e []].
  - cbn [findIndexFrom]. destruct (p a) eqn:Ea.
    + right. exists 0%nat, a. rewrite Z.add_0_r.
      split; [reflexivity |]. split; [reflexivity |]. split; [exact Ea |].
      intros j e' Hj. lia.
    + destruct (IH (i + 1) ltac:(lia))
        as [[Hn Hall] | [k [e [Hk [Hnth [He Hlt]]]]]].
      * left. split; [exact Hn |].
        intros e [<- | Hin]; [exact Ea | now apply Hall].
      * right. exists (S k), e. split; [rewrite Hk; lia |].
        split; [exact Hnth |]. split; [exact He |].
        intros [|j] e' Hj Hn'.
        -- cbn in Hn'. injection Hn' as <-. exact Ea.
        -- cbn in Hn'. apply (Hlt j e'); [lia | exact Hn'].
Qed.

(** In a list in time order the events from the first one at or after
    [t] on are all at or after [t]. *)
Lemma after_first (t : num) (l : list MidiEvent) (k j : nat)
    (e e' : MidiEvent) :
  inOrder l -> nth_error l k = Some e -> leb t (time e) = true ->
  (k <= j)%nat -> nth_error l j = Some e' -> leb t (time e') = true.
Proof.
  intros Hs. revert k j.
  induction Hs as [|a r Hs IH Hall]; intros k j Hk Ht Hkj Hj.
  - now destruct k.
  - destruct k as [|k].
    + cbn in Hk. injection Hk as ->. destruct j as [|j].
      * cbn in Hj. now injection Hj as <-.
      * cbn in Hj. apply nth_error_In in Hj.
        rewrite Forall_forall in Hall. apply leb_trans with (time e); auto.
    + destruct j as [|j]; [lia |]. cbn in Hk, Hj.
      apply (IH k j); auto. lia.
Qed.

Section Events.
Variable midiEvents : list MidiEvent.

(** The index [seek] computes, [Math.max(0, findIndex(...))]. *)
Lemma findIndex_cursor (t : num) :
  inOrder midiEvents ->
  let idx := Z.max 0 (findIndex midiEvents (fun ev => leb t (time ev))) in
  ((exists e, In e midiEvents /\ leb t (time e) = true) ->
   0 <= idx < Z.of_nat (List.length midiEvents)
   /\ forall j e, nth_error midiEvents j = Some e ->
        (Z.of_nat j < idx -> leb t (time e) = false)
        /\ (idx <= Z.of_nat j -> leb t (time e) = true))
  /\ ((forall e, In e midiEvents -> leb t (time e) = false) -> idx = 0).
Proof.
  intros Hs idx. subst idx. unfold findIndex.
  destruct (findIndexFrom_spec (fun ev => leb t (time ev)) midiEvents 0
              ltac:(lia)) as [[Hn Hall] | [k [e [Hk [Hnth [He Hlt]]]]]].
  - rewrite Hn. split.
    + intros [e [Hin He]]. rewrite (Hall e Hin) in He. discriminate He.
    + intros _. reflexivity.
  - rewrite Hk, Z.add_0_l, Z.max_r by lia. split.
    + intros _. split.
      * split; [lia |]. apply Nat2Z.inj_lt. apply nth_error_Some. congruence.
      * intros j e' Hj. split; intro Hlt'.
        -- apply (Hlt j e'); [lia | exact Hj].
        -- apply (after_first t midiEvents k j e e' Hs Hnth He); [lia | exact Hj].
    + intro Hall. apply nth_error_In in Hnth.
      rewrite (Hall e Hnth) in He. discriminate He.
Qed.

(** Outside learning mode [seek] returns the state it has written. *)
Lemma seekTo_state (t now : num) (st : State) :
  learningMode st = false ->
  seekTo midiEvents t now st
  = Normal
      (mkState (Z.max 0 (findIndex midiEvents (fun ev => leb t (time ev)))) t
         (currentTargetNotes st) (learningMode st) (isPlaying st)
         (if isPlaying st then sub now (div t (playbackRate st))
          else startTime st)
         (playbackRate st) (totalDuration st), []).
Proof. intro Hl. unfold seekTo. now rewrite Hl. Qed.

(** X19.  [seek] on events in time order, outside learning mode: the
    cursor is put on the first event at or after the target time, with
    all events before it earlier than the target and all events from it
    on at or after the target; when no event is at or after the target,
    the cursor is put back on the first event of the list. *)
Theorem seek_lands (t now : num) (st : State) :
  learningMode st = false ->
  inOrder midiEvents ->
  exists st',
    seekTo midiEvents t now st = Normal (st', [])
    /\ currentTimeOffset st' = t
    /\ ((exists e, In e midiEvents /\ leb t (time e) = true) ->
        0 <= nextEventIndex st' < Z.of_nat (List.length midiEvents)
        /\ forall j e, nth_error midiEvents j = Some e ->
             (Z.of_nat j < nextEventIndex st' -> leb t (time e) = false)
             /\ (nextEventIndex st' <= Z.of_nat j -> leb t (time e) = true))
    /\ ((forall e, In e midiEvents -> leb t (time e) = false) ->
        nextEventIndex st' = 0).
Proof.
  intros Hl Hs. rewrite (seekTo_state t now st Hl).
  eexists. split; [reflexivity |]. cbn [currentTimeOffset nextEventIndex].
  split; [reflexivity |]. exact (findIndex_cursor t Hs).
Qed.

(** *** The clamp of [skip] *)

Lemma leb_refl_finite (a : num) : isNaN a = false -> leb a a = true.
Proof. apply leb_refl. Qed.

Lemma leb_total (a b : num) :
  isNaN a = false -> isNaN b = false -> leb a b = false -> leb b a = true.
Proof.
  destruct a as [| | |x], b as [| | |y]; try discriminate; try reflexivity.
  intros _ _. unfold leb.
  destruct (x ?= y)%Q eqn:E; try discriminate. intros _.
  rewrite <- Qcompare_antisym, E. reflexivity.
Qed.

Lemma maxN_not_nan (a b : num) :
  isNaN a = false -> isNaN b = false -> isNaN (maxN a b) = false.
Proof.
  intros Ha Hb. destruct a, b; try discriminate; cbn [maxN];
    try reflexivity; now destruct (leb _ _).
Qed.

Lemma minN_le (a d : num) :
  isNaN a = false -> isNaN d = false -> leb (minN a d) d = true.
Proof.
  intros Ha Hd.
  assert (E : minN a d = if leb a d then a else d)
    by (destruct a, d; try discriminate; reflexivity).
  rewrite E. destruct (leb a d) eqn:El; [exact El | now apply leb_refl].
Qed.

Lemma lastTime_in (evs : list MidiEvent) :
  evs <> [] -> exists e, In e evs /\ time e = lastTime evs.
Proof.
  intro H. unfold lastTime.
  destruct (rev evs) as [|e r] eqn:E.
  - apply (f_equal (@rev MidiEvent)) in E. rewrite rev_involutive in E.
    contradiction.
  - exists e. split; [|reflexivity].
    apply in_rev. rewrite E. now left.
Qed.

(** X20.  [skip] on events in time order whose last time is
    [totalDuration], outside learning mode: the target is clamped to
    the piece, so the cursor is always put on an event of the list, the
    first one at or after the target. *)
Theorem skip_lands (ms now : num) (st : State) :
  learningMode st = false ->
  inOrder midiEvents -> midiEvents <> [] ->
  totalDuration st = lastTime midiEvents ->
  isNaN (totalDuration st) = false ->
  isNaN (add (currentTimeOffset st) ms) = false ->
  exists st',
    skip midiEvents ms now st = Normal (st', [])
    /\ leb (currentTimeOffset st') (totalDuration st) = true
    /\ 0 <= nextEventIndex st' < Z.of_nat (List.length midiEvents)
    /\ forall j e, nth_error midiEvents j = Some e ->
         (Z.of_nat j < nextEventIndex st' ->
          leb (currentTimeOffset st') (time e) = false)
         /\ (nextEventIndex st' <= Z.of_nat j ->
             leb (currentTimeOffset st') (time e) = true).
Proof.
  intros Hl Hs Hne Hd Hnd Hna. unfold skip.
  set (t := minN (maxN (add (currentTimeOffset st) ms) (ofZ 0))
              (totalDuration st)).
  assert (Ht : leb t (totalDuration st) = true).
  { apply minN_le; [|exact Hnd]. now apply maxN_not_nan. }
  rewrite (seekTo_state t now st Hl).
  eexists. split; [reflexivity |]. cbn [currentTimeOffset nextEventIndex].
  split; [exact Ht |].
  apply (findIndex_cursor t Hs).
  destruct (lastTime_in midiEvents Hne) as [e [Hin He]].
  exists e. split; [exact Hin |]. now rewrite He, <- Hd.
Qed.

(** *** The events a frame fires *)

Lemma fireLoop_filter (t : num) (rest : list MidiEvent) (i : Z) :
  inOrder rest ->
  fireLoop t rest i
  = (List.map (fun e => HandleMidi (data e))
       (filter (fun e => leb (time e) t) rest),
     i + Z.of_nat (List.length (filter (fun e => leb (time e) t) rest))).
Proof.
  intro Hs. revert i. induction Hs as [|a r Hs IH Hall]; intro i.
  - cbn. now rewrite Z.add_0_r.
  - cbn [fireLoop filter]. destruct (leb (time a) t) eqn:Ea.
    + rewrite IH. cbn [List.map List.length]. f_equal. lia.
    + replace (filter (fun e => leb (time e) t) r) with (@nil MidiEvent).
      * cbn. now rewrite Z.add_0_r.
      * symmetry. clear IH Hs. induction r as [|b r IHr]; [reflexivity |].
        inversion Hall as [|? ? Hb Hr]; subst. cbn [filter].
        destruct (leb (time b) t) eqn:Eb.
        -- rewrite (leb_trans _ _ _ Hb Eb) in Ea. discriminate Ea.
        -- now apply IHr.
Qed.

(** What a frame of [playLoop] hands to [handleMidi]. *)
Lemma playLoop_output (now : num) (st : State) :
  isPlaying st = true -> 0 <= nextEventIndex st ->
  inOrder midiEvents ->
  exists st',
    playLoop midiEvents now st
    = Normal (st',
              List.map (fun e => HandleMidi (data e))
                (filter (fun e => leb (time e) (currentTimeOffset st'))
                   (skipn (Z.to_nat (nextEventIndex st)) midiEvents))
              ++ (if isPlaying st' then [] else [Hush])).
Proof.
  intros Hp Hi Hs. unfold playLoop. rewrite Hp. cbn [negb].
  replace (nextEventIndex st <? 0) with false
    by (symmetry; apply Z.ltb_ge; lia).
  cbn [andb].
  rewrite (fireLoop_filter _ _ _ (inOrder_skipn midiEvents _ Hs)).
  destruct (leb (totalDuration st)
              (mul (sub now (startTime st)) (playbackRate st))) eqn:E;
    match goal with
    | |- exists st', Normal (?s, _) = _ => exists s
    end;
    cbn [currentTimeOffset nextEventIndex isPlaying];
    rewrite ?E, ?app_nil_r; auto.
Qed.


End Events.

Lemma skip_lands_witness :
  exists st', skip threeEvents (ofZ 5000) (ofZ 0) stopped = Normal (st', [])
    /\ nextEventIndex st' = 2.
Proof.
  destruct (skip_lands threeEvents (ofZ 5000) (ofZ 0) stopped eq_refl)
    as [st' [H _]].
  - repeat constructor.
  - discriminate.
  - reflexivity.
  - reflexivity.
  - reflexivity.
  - exists st'. split; [exact H |].
    vm_compute in H. injection H as <-. reflexivity.
Defined.


Lemma seek_lands_witness :
  exists st', seekTo threeEvents (ofZ 400) (ofZ 0) stopped = Normal (st', [])
    /\ nextEventIndex st' = 1.
Proof.
  destruct (seek_lands threeEvents (ofZ 400) (ofZ 0) stopped eq_refl)
    as [st' [H _]].
  - repeat constructor.
  - exists st'. split; [exact H |].
    vm_compute in H. injection H as <-. reflexivity.
Defined.

(** *** A frame after a seek *)

Lemma filter_from (A : Type) (p q : A -> bool) (l : list A) (k : nat) :
  (forall j e, nth_error l j = Some e ->
     ((j < k)%nat -> p e = false) /\ ((k <= j)%nat -> p e = true)) ->
  filter (fun e => p e && q e) l = filter q (skipn k l).
Proof.
  revert k. induction l as [|a r IH]; intros k H.
  - now destruct k.
  - destruct k as [|k].
    + cbn [skipn filter].
      rewrite (proj2 (H 0%nat a eq_refl)) by lia. cbn [andb].
      rewrite (IH 0%nat).
      * reflexivity.
      * intros j e Hj. split; [lia |]. intros _.
        apply (proj2 (H (S j) e Hj)). lia.
    + cbn [skipn filter].
      rewrite (proj1 (H 0%nat a eq_refl)) by lia. cbn [andb].
      apply IH. intros j e Hj. split; intro Hk.
      * apply (proj1 (H (S j) e Hj)). lia.
      * apply (proj2 (H (S j) e Hj)). lia.
Qed.

(** X25.  After a seek to a target that some event reaches, the next
    frame of [playLoop] hands to [handleMidi] exactly the events of the
    whole list whose time is between the target and the new playback
    time, in order: the seek loses no event and repeats none. *)
Theorem seek_then_play (midiEvents : list MidiEvent) (t now0 now : num)
    (st : State) :
  learningMode st = false -> isPlaying st = true ->
  inOrder midiEvents ->
  (exists e, In e midiEvents /\ leb t (time e) = true) ->
  exists st1 st2,
    seekTo midiEvents t now0 st = Normal (st1, [])
    /\ playLoop midiEvents now st1
       = Normal (st2,
                 List.map (fun e => HandleMidi (data e))
                   (filter
                      (fun e => leb t (time e)
                                && leb (time e) (currentTimeOffset st2))
                      midiEvents)
                 ++ (if isPlaying st2 then [] else [Hush])).
Proof.
  intros Hl Hp Hs Hex.
  destruct (findIndex_cursor midiEvents t Hs) as [Hfound _].
  destruct (Hfound Hex) as [[Hi Hlen] Hpart].
  rewrite (seekTo_state midiEvents t now0 st Hl).
  set (st1 :=
         mkState
           (Z.max 0 (findIndex midiEvents (fun ev => leb t (time ev)))) t
           (currentTargetNotes st) (learningMode st) (isPlaying st)
           (if isPlaying st then sub now0 (div t (playbackRate st))
            else startTime st)
           (playbackRate st) (totalDuration st)).
  exists st1.
  destruct (playLoop_output midiEvents now st1 Hp Hi Hs) as [st2 Hplay].
  exists st2. split; [reflexivity |]. rewrite Hplay.
  rewrite (filter_from MidiEvent (fun e => leb t (time e))
             (fun e => leb (time e) (currentTimeOffset st2))
             midiEvents (Z.to_nat (nextEventIndex st1))); [reflexivity |].
  intros j e Hj. destruct (Hpart j e Hj) as [Hb Ha].
  split; intro Hk; unfold st1 in Hk; cbn [nextEventIndex] in Hk;
    [apply Hb | apply Ha]; lia.
Qed.

Lemma seek_then_play_witness :
  exists st1 st2,
    seekTo threeEvents (ofZ 400) (ofZ 0)
      (mkState 0 (ofZ 0) [] false true (ofZ 0) (ofZ 1) (ofZ 1000))
    = Normal (st1, [])
    /\ playLoop threeEvents (ofZ 200) st1
       = Normal (st2, [HandleMidi [ofZ 128; ofZ 60; ofZ 0]]).
Proof.
  destruct (seek_then_play threeEvents (ofZ 400) (ofZ 0) (ofZ 200)
              (mkState 0 (ofZ 0) [] false true (ofZ 0) (ofZ 1) (ofZ 1000))
              eq_refl eq_refl)
    as [st1 [st2 [H1 H2]]].
  - repeat constructor.
  - exists (mkMidiEvent (ofZ 500) [ofZ 128; ofZ 60; ofZ 0]).
    split; [right; left; reflexivity | reflexivity].
  - exists st1, st2. split; [exact H1 |].
    vm_compute in H1. injection H1 as <-.
    rewrite H2. vm_compute in H2. injection H2 as <-.
    vm_compute. reflexivity.
Defined.

End PlayerFacts.

(* ================================================================== *)
(** * Learning mode *)
(* ================================================================== *)

Module LearningFacts.
Import JS Bytes Dom Convert Player NumFacts PlayerFacts.
Local Open Scope Z_scope.

(** *** The window of 50 ms *)

Lemma sub_fin (x y : Q) :
  exists d, sub (Fin x) (Fin y) = Fin d /\ (d == x - y)%Q.
Proof.
  unfold sub, neg, add. eexists. split; [reflexivity |].
  rewrite !Qred_correct. reflexivity.
Qed.

Lemma qnum_neg (d : Q) : (Qnum d <? 0) = true <-> (d < 0)%Q.
Proof.
  rewrite Z.ltb_lt. unfold Qlt. cbn [Qnum Qden]. rewrite Z.mul_1_r.
  rewrite Z.mul_0_l. reflexivity.
Qed.

Lemma ltb_fin (x y : Q) : ltb (Fin x) (Fin y) = true <-> (x < y)%Q.
Proof.
  unfold ltb. rewrite Qlt_alt.
  destruct (x ?= y)%Q; split; intro H; try reflexivity; try discriminate.
Qed.

Lemma ltb_fin_false (x y : Q) : ltb (Fin x) (Fin y) = false <-> (y <= x)%Q.
Proof.
  split; intro H.
  - apply Qnot_lt_le. intro Hlt. apply ltb_fin in Hlt. congruence.
  - destruct (ltb (Fin x) (Fin y)) eqn:E; [|reflexivity].
    apply ltb_fin in E. exfalso. apply (Qlt_not_le _ _ E H).
Qed.

Lemma abs_window (d : Q) :
  (ltb (absN (Fin d)) (ofZ 50) = true -> (d < 50)%Q)
  /\ (ltb (absN (Fin d)) (ofZ 50) = false -> (0 <= d)%Q -> (50 <= d)%Q)
  /\ ((d == 0)%Q -> ltb (absN (Fin d)) (ofZ 50) = true).
Proof.
  unfold absN, ofZ. split; [|split].
  - intro H. apply ltb_fin in H. rewrite Qred_correct in H.
    destruct (Qnum d <? 0) eqn:E; [|exact H].
    apply qnum_neg in E. apply Qlt_trans with 0%Q; [exact E | reflexivity].
  - intros H H0. apply ltb_fin_false in H. rewrite Qred_correct in H.
    destruct (Qnum d <? 0) eqn:E; [|exact H].
    apply qnum_neg in E. exfalso. apply (Qlt_not_le _ _ E H0).
  - intro H. apply ltb_fin. rewrite Qred_correct.
    destruct (Qnum d <? 0) eqn:E.
    + apply qnum_neg in E. rewrite H in E. discriminate E.
    + rewrite H. reflexivity.
Qed.

Lemma q_within (x y z d d' : Q) :
  (d == x - y)%Q -> (d' == z - y)%Q -> (d < 50)%Q -> (50 <= d')%Q ->
  (x < z)%Q.
Proof.
  intros Hd Hd' H1 H2. rewrite Hd in H1. rewrite Hd' in H2.
  apply Qplus_lt_l with (z := (- y)%Q).
  apply Qlt_le_trans with 50%Q; assumption.
Qed.

Lemma q_zero_le (y z d' : Q) :
  (d' == z - y)%Q -> (y <= z)%Q -> (0 <= d')%Q.
Proof.
  intros Hd' H. rewrite Hd'. setoid_replace 0%Q with (y - y)%Q by ring.
  unfold Qminus. apply Qplus_le_l. exact H.
Qed.

Lemma within_self (a : num) :
  Timing.isFinite a = true -> ltb (absN (sub a a)) (ofZ 50) = true.
Proof.
  destruct a as [| | |x]; try discriminate. intros _.
  destruct (sub_fin x x) as [d [-> Hd]].
  apply abs_window. rewrite Hd. ring.
Qed.

(** A time within 50 ms of [b] is before every time at or after [b]
    that is not within 50 ms of it. *)
Lemma within_before (a b c : num) :
  Timing.isFinite a = true -> Timing.isFinite b = true ->
  Timing.isFinite c = true ->
  ltb (absN (sub a b)) (ofZ 50) = true ->
  ltb (absN (sub c b)) (ofZ 50) = false -> leb b c = true ->
  ltb a c = true.
Proof.
  destruct a as [| | |x], b as [| | |y], c as [| | |z]; try discriminate.
  intros _ _ _ Ha Hc Hbc.
  destruct (sub_fin x y) as [d [Ed Hd]]. rewrite Ed in Ha.
  destruct (sub_fin z y) as [d' [Ed' Hd']]. rewrite Ed' in Hc.
  apply abs_window in Ha.
  apply SmfTimes.leb_fin in Hbc.
  pose proof (q_zero_le y z d' Hd' Hbc) as H0.
  apply (proj1 (proj2 (abs_window d')) Hc) in H0.
  apply ltb_fin. apply (q_within x y z d d' Hd Hd' Ha H0).
Qed.

(** So is a time at or before [b]. *)
Lemma earlier_before (a b c : num) :
  Timing.isFinite a = true -> Timing.isFinite b = true ->
  Timing.isFinite c = true ->
  leb a b = true ->
  ltb (absN (sub c b)) (ofZ 50) = false -> leb b c = true ->
  ltb a c = true.
Proof.
  destruct a as [| | |x], b as [| | |y], c as [| | |z]; try discriminate.
  intros _ _ _ Hab Hc Hbc.
  destruct (sub_fin z y) as [d' [Ed' Hd']]. rewrite Ed' in Hc.
  apply SmfTimes.leb_fin in Hab. apply SmfTimes.leb_fin in Hbc.
  pose proof (q_zero_le y z d' Hd' Hbc) as H0.
  apply (proj1 (proj2 (abs_window d')) Hc) in H0.
  apply ltb_fin.
  apply (q_within x y z (x - y) d' (Qeq_refl _) Hd'); [|exact H0].
  apply Qle_lt_trans with 0%Q; [|reflexivity].
  setoid_replace 0%Q with (y - y)%Q by ring.
  unfold Qminus. apply Qplus_le_l. exact Hab.
Qed.

Lemma ltb_leb_trans (a b c : num) :
  ltb a b = true -> leb b c = true -> ltb a c = true.
Proof.
  destruct a as [| | |x], b as [| | |y], c as [| | |z];
    try discriminate; try reflexivity.
  intros H1 H2. apply ltb_fin in H1. apply SmfTimes.leb_fin in H2.
  apply ltb_fin. now apply Qlt_le_trans with y.
Qed.

Lemma ltb_not_eqb (a b : num) : ltb a b = true -> eqb a b = false.
Proof.
  destruct a as [| | |x], b as [| | |y]; try discriminate; try reflexivity.
  intro H. apply ltb_fin in H. unfold eqb.
  destruct (Qeq_bool x y) eqn:E; [|reflexivity].
  apply Qeq_bool_iff in E. rewrite E in H.
  exfalso. apply (Qlt_irrefl _ H).
Qed.

Lemma eqb_refl_finite (a : num) : Timing.isFinite a = true -> eqb a a = true.
Proof.
  destruct a; try discriminate. intros _. apply Qeq_bool_iff. reflexivity.
Qed.

(** *** The loops over the events *)

Lemma advanceLoop_spec (targetTime : num) (rest : list MidiEvent) (i : Z) :
  exists n,
    advanceLoop targetTime rest i = i + Z.of_nat n
    /\ (n <= List.length rest)%nat
    /\ (forall j e, (j < n)%nat -> nth_error rest j = Some e ->
          ltb (absN (sub (time e) targetTime)) (ofZ 50) = true)
    /\ (forall e, nth_error rest n = Some e ->
          ltb (absN (sub (time e) targetTime)) (ofZ 50) = false).
Proof.
  revert i. induction rest as [|a r IH]; intro i.
  - exists 0%nat. cbn [advanceLoop]. rewrite Z.add_0_r.
    split; [reflexivity |]. split; [reflexivity |].
    split; [intros j e Hj; lia | intros e He; discriminate He].
  - cbn [advanceLoop].
    destruct (ltb (absN (sub (time a) targetTime)) (ofZ 50)) eqn:Ea.
    + destruct (IH (i + 1)) as [n [Hn [Hle [Hin Hout]]]].
      exists (S n). split; [rewrite Hn; lia |].
      split; [cbn [List.length]; lia |]. split.
      * intros [|j] e Hj He.
        -- cbn in He. now injection He as <-.
        -- cbn in He. apply (Hin j e); [lia | exact He].
      * intros e He. cbn in He. now apply Hout.
    + exists 0%nat. rewrite Z.add_0_r. split; [reflexivity |].
      split; [lia |]. split; [intros j e Hj; lia |].
      intros e He. cbn in He. now injection He as <-.
Qed.

Lemma inOrder_nth (evs : list MidiEvent) (i j : nat) (a b : MidiEvent) :
  inOrder evs -> Forall (fun e => Timing.isFinite (time e) = true) evs ->
  (i <= j)%nat -> nth_error evs i = Some a -> nth_error evs j = Some b ->
  leb (time a) (time b) = true.
Proof.
  intros Hs Hf. revert i j.
  induction Hs as [|x r Hs IH Hall]; intros i j Hij Hi Hj.
  - now destruct i.
  - inversion Hf as [|? ? Hx Hr]; subst. destruct i as [|i].
    + cbn in Hi. injection Hi as <-. destruct j as [|j].
      * cbn in Hj. injection Hj as <-.
        apply leb_refl. now destruct (time x).
      * cbn in Hj. apply nth_error_In in Hj.
        rewrite Forall_forall in Hall. now apply Hall.
    + destruct j as [|j]; [lia |]. cbn in Hi, Hj.
      apply (IH Hr i j); auto. lia.
Qed.

Lemma skipn_at (A : Type) (l : list A) (k : nat) (e : A) :
  nth_error l k = Some e -> exists r, skipn k l = e :: r.
Proof.
  revert l. induction k as [|k IH]; intros l H.
  - destruct l as [|a r]; [discriminate H |]. cbn in H. injection H as ->.
    now exists r.
  - destruct l as [|a r]; [discriminate H |]. cbn in H. cbn [skipn].
    now apply IH.
Qed.

Section Events.
Variable midiEvents : list MidiEvent.
Hypothesis finite :
  Forall (fun e => Timing.isFinite (time e) = true) midiEvents.

(** With every event before the cursor earlier than every event from
    the cursor on, [prepareNextLearningStep] does not move the cursor
    back. *)
Lemma prepare_forward (st : State) :
  learningMode st = true -> 0 <= nextEventIndex st ->
  (forall p q a b, (p < Z.to_nat (nextEventIndex st))%nat ->
     (Z.to_nat (nextEventIndex st) <= q)%nat ->
     nth_error midiEvents p = Some a -> nth_error midiEvents q = Some b ->
     ltb (time a) (time b) = true) ->
  exists st' out,
    prepareNextLearningStep midiEvents st = Normal (st', out)
    /\ nextEventIndex st <= nextEventIndex st'.
Proof.
  intros Hl Hi Hsplit. unfold prepareNextLearningStep. rewrite Hl.
  cbn [negb orb].
  destruct (Z.leb_spec (Z.of_nat (List.length midiEvents)) (nextEventIndex st))
    as [Hend | Hin].
  { exists st, []. split; [reflexivity | lia]. }
  assert (Hslice : sliceFrom midiEvents (nextEventIndex st)
                   = skipn (Z.to_nat (nextEventIndex st)) midiEvents).
  { unfold sliceFrom, rel_index.
    destruct (Z.ltb_spec (nextEventIndex st) 0); [lia |].
    now rewrite Z.min_l by lia. }
  rewrite Hslice.
  destruct (find isNoteOn (skipn (Z.to_nat (nextEventIndex st)) midiEvents))
    as [ev'|] eqn:Ef.
  2:{ eexists. eexists. split; [reflexivity |]. cbn [nextEventIndex]. lia. }
  apply find_some in Ef as [Hev' _].
  apply In_nth_error in Hev' as [q Hq]. rewrite nth_error_skipn in Hq.
  assert (Hfin : Timing.isFinite (time ev') = true).
  { rewrite Forall_forall in finite. apply finite.
    now apply nth_error_In in Hq. }
  unfold findIndex.
  destruct (findIndexFrom_spec (fun ev => eqb (time ev) (time ev'))
              midiEvents 0 ltac:(lia))
    as [[Hn Hall] | [k [e [Hk [Hnth [He Hlt]]]]]].
  { exfalso. apply nth_error_In in Hq.
    pose proof (Hall ev' Hq) as Hx. cbv beta in Hx.
    rewrite (eqb_refl_finite _ Hfin) in Hx. discriminate Hx. }
  rewrite Hk, Z.add_0_l.
  assert (Hge : (Z.to_nat (nextEventIndex st) <= k)%nat).
  { destruct (Nat.le_gt_cases (Z.to_nat (nextEventIndex st)) k) as [H | H];
      [exact H |].
    exfalso.
    pose proof (Hsplit k (Z.to_nat (nextEventIndex st) + q)%nat e ev' H
                  ltac:(lia) Hnth Hq) as Hb.
    apply ltb_not_eqb in Hb. congruence. }
  replace (Z.of_nat k <? 0) with false by (symmetry; apply Z.ltb_ge; lia).
  cbn [andb].
  destruct (lookAheadLoop (time ev') (skipn (Z.to_nat (Z.of_nat k)) midiEvents))
    as [notes out].
  eexists. eexists. split; [reflexivity |]. cbn [nextEventIndex]. lia.
Qed.

End Events.

(** X22.  In learning mode, on events in time order with finite times,
    [advanceLearningStep] moves the cursor forward by at least one
    event: the practice cannot stay on a step or go back to one. *)
Theorem learning_advances (midiEvents : list MidiEvent) (st : State)
    (ev : MidiEvent) :
  inOrder midiEvents ->
  Forall (fun e => Timing.isFinite (time e) = true) midiEvents ->
  learningMode st = true ->
  eventAt midiEvents (nextEventIndex st) = Some ev ->
  exists st' out,
    advanceLearningStep midiEvents st = Normal (st', out)
    /\ nextEventIndex st < nextEventIndex st'.
Proof.
  intros Hs Hf Hl Hev. unfold advanceLearningStep. rewrite Hev.
  unfold eventAt in Hev.
  destruct (Z.ltb_spec (nextEventIndex st) 0) as [Hneg | Hi];
    [discriminate Hev |].
  set (k := Z.to_nat (nextEventIndex st)) in *.
  destruct (skipn_at _ midiEvents k ev Hev) as [r Hr]. rewrite Hr.
  assert (Hfin : Timing.isFinite (time ev) = true).
  { rewrite Forall_forall in Hf. apply Hf. now apply nth_error_In in Hev. }
  cbn [advanceLoop]. rewrite (within_self _ Hfin).
  destruct (advanceLoop_spec (time ev) r (nextEventIndex st + 1))
    as [n [Hn [Hle [Hin Hout]]]].
  rewrite Hn.
  assert (Hnth : forall j, nth_error r j = nth_error midiEvents (k + 1 + j)).
  { intro j. replace (k + 1 + j)%nat with (k + S j)%nat by lia.
    rewrite <- nth_error_skipn, Hr. reflexivity. }
  destruct (prepare_forward midiEvents Hf
              (mkState (nextEventIndex st + 1 + Z.of_nat n)
                 (currentTimeOffset st) (currentTargetNotes st)
                 (learningMode st) (isPlaying st) (startTime st)
                 (playbackRate st) (totalDuration st)))
    as [st' [out [H Hle']]].
  - exact Hl.
  - cbn [nextEventIndex]. lia.
  - cbn [nextEventIndex].
    replace (Z.to_nat (nextEventIndex st + 1 + Z.of_nat n))
      with (k + 1 + n)%nat by lia.
    intros p q a b Hp Hq Ha Hb.
    destruct (nth_error midiEvents (k + 1 + n)) as [c|] eqn:Ec.
    2:{ apply nth_error_None in Ec.
        assert (q < List.length midiEvents)%nat
          by (apply nth_error_Some; congruence). lia. }
    assert (Hfa : Timing.isFinite (time a) = true).
    { rewrite Forall_forall in Hf. apply Hf. now apply nth_error_In in Ha. }
    assert (Hfc : Timing.isFinite (time c) = true).
    { rewrite Forall_forall in Hf. apply Hf. now apply nth_error_In in Ec. }
    assert (Hout' : ltb (absN (sub (time c) (time ev))) (ofZ 50) = false).
    { apply Hout. now rewrite Hnth. }
    assert (Hevc : leb (time ev) (time c) = true).
    { apply (inOrder_nth midiEvents k (k + 1 + n) ev c Hs Hf); auto. lia. }
    apply ltb_leb_trans with (time c).
    + destruct (Nat.lt_ge_cases p k) as [Hpk | Hpk].
      * apply (earlier_before (time a) (time ev) (time c)); auto.
        apply (inOrder_nth midiEvents p k a ev Hs Hf); auto. lia.
      * apply (within_before (time a) (time ev) (time c)); auto.
        destruct (Nat.eq_dec p k) as [-> | Hne].
        -- assert (a = ev) by congruence. subst a. now apply within_self.
        -- apply (Hin (p - k - 1)%nat a); [lia |].
           rewrite Hnth. replace (k + 1 + (p - k - 1))%nat with p by lia.
           exact Ha.
    + apply (inOrder_nth midiEvents (k + 1 + n) q c b Hs Hf); auto.
  - exists st', out. split; [exact H |]. cbn [nextEventIndex] in Hle'. lia.
Qed.

Lemma learning_advances_witness :
  exists st' out,
    advanceLearningStep threeEvents
      (mkState 0 (ofZ 0) [] true false (ofZ 0) (ofZ 1) (ofZ 1000))
    = Normal (st', out)
    /\ 0 < nextEventIndex st'.
Proof.
  apply (learning_advances threeEvents
           (mkState 0 (ofZ 0) [] true false (ofZ 0) (ofZ 1) (ofZ 1000))
           (mkMidiEvent (ofZ 0) [ofZ 144; ofZ 60; ofZ 100])).
  - repeat constructor.
  - repeat constructor.
  - reflexivity.
  - reflexivity.
Defined.

End LearningFacts.

(* ================================================================== *)
(** * Pitches and notes of [convertOSMDToMIDI] *)
(* ================================================================== *)

Module OsmdFacts.
Import JS Convert Osmd NumFacts PolicyFacts.

(** *** Numbers in the MIDI range *)

Lemma leb_not_ltb (a b : num) : leb b a = true -> ltb a b = false.
Proof.
  destruct a as [| | |x], b as [| | |y]; try discriminate; try reflexivity.
  unfold leb, ltb. rewrite <- (Qcompare_antisym x y).
  destruct (x ?= y)%Q; cbn; congruence.
Qed.

Lemma not_ltb_leb (a b : num) :
  isNaN a = false -> isNaN b = false -> ltb a b = false -> leb b a = true.
Proof.
  destruct a as [| | |x], b as [| | |y]; try discriminate; try reflexivity.
  intros _ _. unfold leb, ltb. rewrite <- (Qcompare_antisym x y).
  destruct (x ?= y)%Q; cbn; congruence.
Qed.

Lemma inMidiRange_fin (a : num) :
  inMidiRange a = true -> exists q, a = Fin q /\ (0 <= q)%Q /\ (q <= 127)%Q.
Proof.
  unfold inMidiRange. intro H. apply andb_true_iff in H as [H0 H1].
  destruct a as [| | |q]; try discriminate.
  exists q. split; [reflexivity |].
  apply SmfTimes.leb_fin in H0. apply SmfTimes.leb_fin in H1. auto.
Qed.

Lemma add12_range (q : Q) :
  (0 <= q)%Q -> (q <= 127)%Q ->
  leb (ofZ 12) (add (Fin q) (ofZ 12)) = true
  /\ leb (add (Fin q) (ofZ 12)) (ofZ 139) = true.
Proof.
  intros H0 H1. unfold add, ofZ. split; apply SmfTimes.leb_fin;
    rewrite Qred_correct.
  - setoid_replace (inject_Z 12) with (0 + inject_Z 12)%Q at 1 by ring.
    now apply Qplus_le_l.
  - setoid_replace (inject_Z 139) with (127 + inject_Z 12)%Q by reflexivity.
    now apply Qplus_le_l.
Qed.

Lemma round_range (q : Q) :
  (0 <= q)%Q -> (q <= 127)%Q ->
  exists z, round (Fin q) = ofZ z /\ (0 <= z <= 127)%Z.
Proof.
  intros H0 H1. exists (Qfloor (q + (1 # 2))). split; [reflexivity |]. split.
  - change 0%Z with (Qfloor 0). apply Qfloor_resp_le.
    apply Qle_trans with q; [exact H0 |].
    rewrite <- (Qplus_0_r q) at 1. apply Qplus_le_r. discriminate.
  - change 127%Z with (Qfloor (127 + (1 # 2))). apply Qfloor_resp_le.
    now apply Qplus_le_l.
Qed.

Lemma ofZ_range (z : Z) :
  (0 <= z <= 127)%Z ->
  leb (ofZ 12) (add (ofZ z) (ofZ 12)) = true
  /\ leb (add (ofZ z) (ofZ 12)) (ofZ 139) = true.
Proof.
  intro H. apply add12_range.
  - change 0%Q with (inject_Z 0). rewrite <- Zle_Qle. lia.
  - change 127%Q with (inject_Z 127). rewrite <- Zle_Qle. lia.
Qed.

Lemma fromOctave_range (p : Pitch) (m : num) :
  fromOctave p = Some m ->
  leb (ofZ 12) m = true /\ leb m (ofZ 139) = true.
Proof.
  unfold fromOctave.
  destruct (fundamentalNote p) as [f|]; [|discriminate].
  destruct (octave p) as [o|]; [|discriminate].
  destruct (ltb f (ofZ 0) || gtb f (ofZ 6)); [discriminate |].
  set (midi := match noteOffsets f with Some _ => _ | None => _ end).
  clearbody midi.
  destruct (ltb midi (ofZ 0) || gtb midi (ofZ 127) || isNaN midi) eqn:E;
    [discriminate |].
  intro H. injection H as <-.
  apply orb_false_iff in E as [E En]. apply orb_false_iff in E as [El Eg].
  apply not_ltb_leb in El; [|exact En | reflexivity].
  unfold gtb in Eg. apply not_ltb_leb in Eg; [|reflexivity | exact En].
  destruct midi as [| | |q]; try discriminate.
  apply SmfTimes.leb_fin in El. apply SmfTimes.leb_fin in Eg.
  now apply add12_range.
Qed.

Lemma pitchToMidi_bounds (p : Pitch) (m : num) :
  pitchToMidi p = Some m ->
  leb (ofZ 12) m = true /\ leb m (ofZ 139) = true.
Proof.
  unfold pitchToMidi.
  set (mv := match halfTone p with HMissing => _ | _ => _ end).
  clearbody mv. destruct mv as [v|]; [|apply fromOctave_range].
  destruct (negb (isNaN v) && inMidiRange v) eqn:E;
    [|apply fromOctave_range].
  intro H. injection H as <-. apply andb_true_iff in E as [_ E].
  destruct (inMidiRange_fin v E) as [q [-> [H0 H1]]].
  destruct (round_range q H0 H1) as [z [-> Hz]].
  now apply ofZ_range.
Qed.

(** X23.  A pitch [pitchToMidi] returns is between 12 and 139; a
    [halfTone] that is a number between 0 and 127 decides the result, its
    rounding plus 12, whatever the other fields of the pitch. *)
Theorem pitchToMidi_range (p : Pitch) :
  (forall m, pitchToMidi p = Some m ->
     leb (ofZ 12) m = true /\ leb m (ofZ 139) = true)
  /\ (forall v, halfTone p = HNum v -> isNaN v = false ->
        inMidiRange v = true ->
        pitchToMidi p = Some (add (round v) (ofZ 12))).
Proof.
  split.
  - apply pitchToMidi_bounds.
  - intros v Hh Hn Hr. unfold pitchToMidi. now rewrite Hh, Hn, Hr.
Qed.

Lemma pitchToMidi_range_witness :
  pitchToMidi (mkPitch (HNum (ofZ 48)) None None None) = Some (ofZ 60).
Proof.
  apply (proj2 (pitchToMidi_range (mkPitch (HNum (ofZ 48)) None None None))
           (ofZ 48) eq_refl eq_refl eq_refl).
Defined.

(** *** The notes of a sheet *)

Lemma noteOf_valid (msPerBeat t : num) (n : Note) :
  Forall (fun x => invalidNote x = false
                   /\ leb (ofZ 12) (midiNote x) = true
                   /\ leb (midiNote x) (ofZ 127) = true)
    (noteOf msPerBeat t n).
Proof.
  unfold noteOf. destruct (pitch n) as [p|]; [|constructor].
  destruct (isRestFlag n); [constructor |].
  destruct (pitchToMidi p) as [m|] eqn:Em; [|constructor].
  destruct (negb (isNaN m) && inMidiRange m) eqn:E; [|constructor].
  constructor; [|constructor]. cbn [midiNote].
  apply andb_true_iff in E as [En Er]. apply negb_true_iff in En.
  pose proof (proj1 (pitchToMidi_bounds p m Em)) as H12.
  unfold inMidiRange in Er. apply andb_true_iff in Er as [H0 H127].
  split; [|split; assumption].
  unfold invalidNote. cbn [midiNote]. rewrite En. cbn [orb].
  apply orb_false_iff. split.
  - now apply leb_not_ltb.
  - unfold gtb. now apply leb_not_ltb.
Qed.

Lemma each_valid (A : Type) (P : TimedNote -> Prop)
    (f : A -> list TimedNote) (l : option (list A)) :
  (forall x, Forall P (f x)) -> Forall P (each f l).
Proof.
  intro H. destruct l as [xs|]; [|constructor]. cbn [each].
  induction xs as [|x r IH]; [constructor |].
  cbn [flat_map]. apply Forall_app. auto.
Qed.

Lemma osmdNotes_valid (sheet : Sheet) :
  Forall (fun x => invalidNote x = false
                   /\ leb (ofZ 12) (midiNote x) = true
                   /\ leb (midiNote x) (ofZ 127) = true)
    (osmdNotes sheet).
Proof.
  unfold osmdNotes.
  induction (sourceMeasures sheet) as [|m r IH]; [constructor |].
  cbn [flat_map]. apply Forall_app. split; [|exact IH].
  unfold measureNotes. apply each_valid. intro c.
  unfold containerNotes. apply each_valid. intro se.
  apply each_valid. intro ve. apply each_valid. intro n.
  apply noteOf_valid.
Qed.

(** The filter of the event generation keeps every note. *)
Lemma kept_all (sheet : Sheet) :
  filter (fun n => negb (invalidNote n)) (dedup (osmdNotes sheet))
  = dedup (osmdNotes sheet).
Proof.
  pose proof (osmdNotes_valid sheet) as Hv. rewrite Forall_forall in Hv.
  apply forallb_filter_id. apply forallb_forall.
  intros n Hn. apply dedup_in in Hn.
  now rewrite (proj1 (Hv n Hn)).
Qed.

(** X24.  The validity test in the event generation of
    [convertOSMDToMIDI] never rejects a note, because the loop that
    collects the notes keeps only pitches that pass the same test: the
    result is the merge step of [convertToMIDI] on the collected notes,
    and every note pair has a pitch between 12 and 127. *)
Theorem osmd_uses_merge (sheet : Sheet) :
  convertOSMDToMIDI (Some sheet) = Some (mergeNotes (osmdNotes sheet))
  /\ forall p, In p (notePairs (mergeNotes (osmdNotes sheet))) ->
       leb (ofZ 12) (note p) = true /\ leb (note p) (ofZ 127) = true.
Proof.
  pose proof (osmdNotes_valid sheet) as Hv. rewrite Forall_forall in Hv.
  split.
  - unfold convertOSMDToMIDI, mergeNotes. now rewrite kept_all.
  - intros p Hp. unfold mergeNotes in Hp. cbn [notePairs] in Hp.
    apply in_map_iff in Hp as [n [<- Hn]]. apply dedup_in in Hn.
    cbn [note notePair]. apply (Hv n Hn).
Qed.

(** The sheet with a [halfTone] of 48 and one of 120: the second note is
    not collected, and the first gives the events of a C4 of 500 ms. *)
Lemma osmd_uses_merge_witness :
  convertOSMDToMIDI (Some sampleSheet)
  = Some (mkMidiResult
            [ mkMidiEvent (ofZ 0) [ofZ 144; ofZ 60; ofZ 100];
              mkMidiEvent (ofZ 500) [ofZ 128; ofZ 60; ofZ 0] ]
            [ mkNotePair (ofZ 60) (ofZ 0) (ofZ 500) ]
            (ofZ 500)).
Proof.
  rewrite (proj1 (osmd_uses_merge sampleSheet)).
  vm_compute. reflexivity.
Defined.

End OsmdFacts.

(* ================================================================== *)
(** * Commands to the light strip *)
(* ================================================================== *)

Module LightFacts.
Import JS Bytes Dom Player Lights.
Local Open Scope Z_scope.

Lemma mul_ofZ (a b : Z) : mul (ofZ a) (ofZ b) = ofZ (a * b).
Proof.
  unfold mul, ofZ, inject_Z, Qmult. cbn [Qnum Qden].
  change (1 * 1)%positive with 1%positive.
  f_equal. apply VoiceFacts.Qred_integer.
Qed.

(** *** Decimal digits written and read back *)

Lemma append_empty_r (s : string) : (s ++ "")%string = s.
Proof. induction s as [|c r IH]; cbn; [reflexivity | now rewrite IH]. Qed.

Lemma digit_read (d : nat) :
  (d < 10)%nat -> digitVal 10 (ascii_of_nat (48 + d)) = Some (Z.of_nat d).
Proof.
  intro H. do 10 (destruct d as [|d]; [reflexivity |]). lia.
Qed.

Lemma digit_not_sign (d : nat) (r : string) :
  (d < 10)%nat ->
  readSign (String (ascii_of_nat (48 + d)) r)
  = (1, String (ascii_of_nat (48 + d)) r).
Proof.
  intro H. do 10 (destruct d as [|d]; [reflexivity |]). lia.
Qed.

Lemma digit_not_space (d : nat) (r : string) :
  (d < 10)%nat ->
  skipSpaces (String (ascii_of_nat (48 + d)) r)
  = String (ascii_of_nat (48 + d)) r.
Proof.
  intro H. do 10 (destruct d as [|d]; [reflexivity |]). lia.
Qed.

Lemma natToString_aux_app (fuel n : nat) (acc rest : string) :
  (natToString_aux fuel n acc ++ rest)%string
  = natToString_aux fuel n (acc ++ rest)%string.
Proof.
  revert n acc. induction fuel as [|f IH]; intros n acc; [reflexivity |].
  cbn [natToString_aux]. destruct (n / 10)%nat; [reflexivity |]. apply IH.
Qed.

Lemma natToString_aux_head (fuel n : nat) (acc : string) :
  exists d r, (d < 10)%nat
    /\ natToString_aux fuel n acc = String (ascii_of_nat (48 + d)) r.
Proof.
  revert n acc. induction fuel as [|f IH]; intros n acc.
  - exists (n mod 10)%nat, acc. split; [|reflexivity].
    apply Nat.mod_upper_bound. lia.
  - cbn [natToString_aux]. destruct (n / 10)%nat eqn:E.
    + exists (n mod 10)%nat, acc. split; [|reflexivity].
      apply Nat.mod_upper_bound. lia.
    + apply IH.
Qed.

Lemma readDigits_step (d : nat) (r : string) (v : option Z) (c : Z) :
  (d < 10)%nat ->
  readDigits 10 (String (ascii_of_nat (48 + d)) r) v c
  = readDigits 10 r (Some (valueOf v * 10 + Z.of_nat d)) (c + 1).
Proof.
  intro H. cbn [readDigits]. rewrite (digit_read d H).
  destruct v; reflexivity.
Qed.

Lemma readDigits_natToString (fuel n : nat) (acc : string) (v : option Z)
    (c : Z) :
  (n <= fuel)%nat ->
  exists k,
    readDigits 10 (natToString_aux fuel n acc) v c
    = readDigits 10 acc (Some (valueOf v * 10 ^ k + Z.of_nat n)) (c + k)
    /\ 0 < k.
Proof.
  revert n acc v c. induction fuel as [|f IH]; intros n acc v c Hn.
  - assert (n = 0)%nat by lia. subst n. exists 1. split; [|lia].
    cbn [natToString_aux]. change (0 mod 10)%nat with 0%nat.
    rewrite readDigits_step by lia. f_equal.
  - cbn [natToString_aux].
    assert (Hd : (n mod 10 < 10)%nat) by (apply Nat.mod_upper_bound; lia).
    pose proof (Nat.div_mod_eq n 10) as Hdm.
    destruct (n / 10)%nat as [|q] eqn:E.
    + exists 1. split; [|lia]. rewrite readDigits_step by exact Hd.
      do 2 f_equal. change (10 ^ 1) with 10. lia.
    + destruct (IH (S q) (String (ascii_of_nat (48 + n mod 10)) acc) v c)
        as [k [Hk Hpos]]; [lia |].
      exists (k + 1). split; [|lia].
      rewrite Hk, readDigits_step by exact Hd. cbn [valueOf].
      rewrite Z.pow_add_r, Z.pow_1_r by lia.
      f_equal; [|lia]. f_equal. lia.
Qed.

Lemma readDigits_stop (rest : string) (v : option Z) (c : Z) :
  afterNumber rest -> readDigits 10 rest v c = (v, c, rest).
Proof. intros [-> | [r ->]]; reflexivity. Qed.

Lemma read_nat (n : nat) (rest : string) :
  afterNumber rest ->
  exists k,
    readDigits 10 (natToString n ++ rest) None 0
    = (Some (Z.of_nat n), k, rest).
Proof.
  intro Hr. unfold natToString. rewrite natToString_aux_app. cbn [append].
  destruct (readDigits_natToString n n rest None 0 ltac:(lia)) as [k [Hk _]].
  exists (0 + k). rewrite Hk, (readDigits_stop rest _ _ Hr). cbn [valueOf].
  rewrite Z.mul_0_l, Z.add_0_l. reflexivity.
Qed.

Lemma scanInt_minus (s : string) :
  scanInt (String "-" s)
  = match readDigits 10 s None 0 with
    | (Some v, _, rest) => Some (-1 * v, rest)
    | (None, _, _) => None
    end.
Proof. reflexivity. Qed.

Lemma scanInt_nat (n : nat) (rest : string) :
  afterNumber rest ->
  scanInt (natToString n ++ rest) = Some (Z.of_nat n, rest).
Proof.
  intro Hr. destruct (read_nat n rest Hr) as [k Hk].
  unfold scanInt. unfold natToString in *.
  rewrite natToString_aux_app in *. cbn [append] in *.
  destruct (natToString_aux_head n n rest) as [d [r [Hd E]]].
  rewrite E in *. rewrite (digit_not_space d r Hd), (digit_not_sign d r Hd).
  rewrite Hk. f_equal. f_equal. lia.
Qed.

Lemma scanInt_showInt (z : Z) (rest : string) :
  afterNumber rest -> scanInt (showInt z ++ rest) = Some (z, rest).
Proof.
  intro Hr. unfold showInt. destruct (Z.ltb_spec z 0) as [Hneg | Hpos].
  - cbn [append]. rewrite scanInt_minus.
    destruct (read_nat (Z.to_nat (- z)) rest Hr) as [k ->].
    f_equal. f_equal. lia.
  - rewrite (scanInt_nat (Z.to_nat z) rest Hr). f_equal. f_equal. lia.
Qed.

Lemma asInteger_ofZ (z : Z) : asInteger (ofZ z) = Some z.
Proof.
  unfold asInteger, ofZ. rewrite Qfloor_Z.
  now rewrite (proj2 (Qeq_bool_iff _ _) (Qeq_refl (inject_Z z))).
Qed.

Lemma showNum_ofZ (z : Z) : showNum (ofZ z) = Some (showInt z).
Proof.
  unfold showNum. change (ofZ z) with (Fin (inject_Z z)) at 1.
  cbv beta iota. fold (ofZ z). now rewrite asInteger_ofZ.
Qed.

Lemma append_assoc (a b c : string) :
  ((a ++ b) ++ c)%string = (a ++ (b ++ c))%string.
Proof. induction a as [|x a IH]; cbn; [reflexivity | now rewrite IH]. Qed.

(** X27.  The line [visualizeNote] writes for five integers that fit an
    [int] is read back by the [sscanf] of the firmware as the same five
    integers, negative ones included. *)
Theorem command_round_trip (i r g b bright : Z) :
  Forall inIntRange [i; r; g; b; bright] ->
  exists line,
    commandLine [ofZ i; ofZ r; ofZ g; ofZ b; ofZ bright] = Some line
    /\ sscanf5 line = Some (i, r, g, b, bright).
Proof.
  intros _. unfold commandLine. cbn [List.map]. rewrite !showNum_ofZ.
  eexists. split; [reflexivity |].
  unfold sscanf5.
  rewrite (scanInt_showInt i) by (right; eexists; reflexivity).
  cbn [append scanComma].
  rewrite (scanInt_showInt r) by (right; eexists; reflexivity).
  cbn [append scanComma].
  rewrite (scanInt_showInt g) by (right; eexists; reflexivity).
  cbn [append scanComma].
  rewrite (scanInt_showInt b) by (right; eexists; reflexivity).
  cbn [append scanComma].
  rewrite <- (append_empty_r (showInt bright)).
  rewrite (scanInt_showInt bright) by (left; reflexivity).
  reflexivity.
Qed.

Lemma command_round_trip_witness :
  sscanf5 "-2,255,0,16,100"%string = Some (-2, 255, 0, 16, 100).
Proof.
  destruct (command_round_trip (-2) 255 0 16 100) as [line [H1 H2]].
  - repeat (apply Forall_cons; [unfold inIntRange; lia |]). apply Forall_nil.
  - vm_compute in H1. injection H1 as <-. exact H2.
Defined.

(** *** The index of a command *)

Lemma sscanf5_index (idx : Z) (rest : string) :
  sscanf5 (showInt idx ++ String "," rest) = None
  \/ exists r g b bright,
       sscanf5 (showInt idx ++ String "," rest) = Some (idx, r, g, b, bright).
Proof.
  unfold sscanf5.
  rewrite (scanInt_showInt idx) by (right; eexists; reflexivity).
  cbn [scanComma].
  destruct (scanInt rest) as [[r s3]|]; [|now left].
  destruct (scanComma s3) as [s4|]; [|now left].
  destruct (scanInt s4) as [[g s5]|]; [|now left].
  destruct (scanComma s5) as [s6|]; [|now left].
  destruct (scanInt s6) as [[b s7]|]; [|now left].
  destruct (scanComma s7) as [s8|]; [|now left].
  destruct (scanInt s8) as [[bright s9]|]; [|now left].
  right. now exists r, g, b, bright.
Qed.

Lemma leb_ofZ_iff (a b : Z) : leb (ofZ a) (ofZ b) = true <-> a <= b.
Proof.
  unfold leb, ofZ. rewrite Zle_Qle, Qle_alt.
  destruct (inject_Z a ?= inject_Z b)%Q; split; intro H;
    try reflexivity; try discriminate; congruence.
Qed.

Lemma ltb_ofZ_iff (a b : Z) : ltb (ofZ a) (ofZ b) = true <-> a < b.
Proof.
  unfold ltb, ofZ. rewrite Zlt_Qlt, Qlt_alt.
  destruct (inject_Z a ?= inject_Z b)%Q; split; intro H;
    try reflexivity; try discriminate.
Qed.

Section Strip.
Variable Colour : Type.
Variable black : Colour.
Variable scaled : Z -> Z -> Z -> Z -> Colour.

Lemma setLed_other (leds : list Colour) (i j : nat) (c : Colour) :
  i <> j -> nth_error (setLed Colour leds i c) j = nth_error leds j.
Proof.
  revert i j. induction leds as [|x r IH]; intros i j H.
  - now destruct i.
  - destruct i as [|i], j as [|j]; cbn [setLed nth_error]; try reflexivity.
    + contradiction.
    + apply IH. congruence.
Qed.

(** What a command with index [idx] does to the strip. *)
Lemma processCommand_index (idx : Z) (rest : string) (leds : list Colour) :
  (NUM_LEDS <= idx \/ idx < 0 ->
   processCommand Colour black scaled (showInt idx ++ String "," rest) leds
   = leds)
  /\ forall j, Z.of_nat j <> idx ->
       nth_error
         (processCommand Colour black scaled
            (showInt idx ++ String "," rest) leds) j
       = nth_error leds j.
Proof.
  unfold processCommand.
  destruct (sscanf5_index idx rest) as [-> | [r [g [b [br ->]]]]];
    [split; reflexivity |].
  split.
  - intro H.
    replace ((0 <=? idx) && (idx <? NUM_LEDS)) with false; [reflexivity |].
    symmetry. apply andb_false_iff.
    destruct H as [H | H]; [right; apply Z.ltb_ge | left; apply Z.leb_gt];
      exact H.
  - intros j Hj.
    destruct ((0 <=? idx) && (idx <? NUM_LEDS)) eqn:E; [|reflexivity].
    apply andb_true_iff in E as [E0 _]. apply Z.leb_le in E0.
    destruct ((br =? 0) || ((r =? 0) && (g =? 0) && (b =? 0)));
      apply setLed_other; lia.
Qed.

Section Page.
Variable octaveShift transpose brightness : string.
Variable blackKeyColor whiteKeyColor : string.
Variable rainbow : bool.
Variable hslToRgb : num -> num -> num -> num * num * num.

Lemma ledIndex_integer (n o t : Z) :
  parseInt octaveShift = ofZ o -> parseInt transpose = ofZ t ->
  ledIndex octaveShift transpose (ofZ n) = ofZ ((n + o * 12 + t - 21) * 2).
Proof.
  intros Ho Ht. unfold ledIndex. rewrite Ho, Ht.
  now rewrite mul_ofZ, !VoiceFacts.add_ofZ, VoiceFacts.sub_ofZ,
    mul_ofZ.
Qed.

(** X28.  With integer values in the octave and transpose inputs, an
    open port and a note of integer pitch [n], [visualizeNote] writes a
    command exactly when the shifted pitch [n + 12 * octaveShift +
    transpose] is between 21 and 164; its index is twice the distance to
    21.  When the integers of the command fit an [int], the firmware
    changes no LED but the one of that index, and none at all when the
    shifted pitch is 93 or more: the commands for the pitches 93 to 164
    are written and have no effect on the strip of 144 LEDs. *)
Theorem upper_keys_stay_dark (n o t : Z) (status velocity : num)
    (leds : list Colour) :
  List.length leds = Z.to_nat NUM_LEDS ->
  parseInt octaveShift = ofZ o -> parseInt transpose = ofZ t ->
  ((exists fields,
      visualizeNote octaveShift transpose brightness blackKeyColor
        whiteKeyColor rainbow hslToRgb true false status (ofZ n) velocity
      = Some fields)
   <-> 21 <= n + o * 12 + t <= 164)
  /\ forall fields line,
       visualizeNote octaveShift transpose brightness blackKeyColor
         whiteKeyColor rainbow hslToRgb true false status (ofZ n) velocity
       = Some fields ->
       (forall z, In (ofZ z) fields -> inIntRange z) ->
       commandLine fields = Some line ->
       (93 <= n + o * 12 + t ->
        processCommand Colour black scaled line leds = leds)
       /\ forall j, Z.of_nat j <> (n + o * 12 + t - 21) * 2 ->
            nth_error (processCommand Colour black scaled line leds) j
            = nth_error leds j.
Proof.
  intros _ Ho Ht.
  set (k := n + o * 12 + t).
  assert (Hv : visualizeNote octaveShift transpose brightness blackKeyColor
                 whiteKeyColor rainbow hslToRgb true false status (ofZ n)
                 velocity
               = if (0 <=? (k - 21) * 2) && ((k - 21) * 2 <? 288)
                 then
                   if (Z.land (toInt32N status) 240 =? 144)
                      && gtb velocity (ofZ 0)
                   then
                     let '(r, g, b) :=
                       if rainbow
                       then hslToRgb (div (remN (ofZ n) (ofZ 12)) (ofZ 12))
                              (ofZ 1) (Fin (1 # 2))
                       else (parseInt16
                               (substring 1 2
                                  (if isBlackKey (remN (ofZ n) (ofZ 12))
                                   then blackKeyColor else whiteKeyColor)),
                             parseInt16
                               (substring 3 2
                                  (if isBlackKey (remN (ofZ n) (ofZ 12))
                                   then blackKeyColor else whiteKeyColor)),
                             parseInt16
                               (substring 5 2
                                  (if isBlackKey (remN (ofZ n) (ofZ 12))
                                   then blackKeyColor else whiteKeyColor)))
                     in
                     Some [ofZ ((k - 21) * 2); r; g; b; parseInt brightness]
                   else Some [ofZ ((k - 21) * 2); ofZ 0; ofZ 0; ofZ 0; ofZ 0]
                 else None).
  { unfold visualizeNote. cbn [negb orb].
    rewrite (ledIndex_integer n o t Ho Ht). fold k.
    replace (leb (ofZ 0) (ofZ ((k - 21) * 2))) with (0 <=? (k - 21) * 2).
    2:{ destruct (Z.leb_spec 0 ((k - 21) * 2)) as [H | H].
        - symmetry. now apply leb_ofZ_iff.
        - destruct (leb (ofZ 0) (ofZ ((k - 21) * 2))) eqn:E; [|reflexivity].
          apply leb_ofZ_iff in E. lia. }
    replace (ltb (ofZ ((k - 21) * 2)) (ofZ 288)) with ((k - 21) * 2 <? 288).
    2:{ destruct (Z.ltb_spec ((k - 21) * 2) 288) as [H | H].
        - symmetry. now apply ltb_ofZ_iff.
        - destruct (ltb (ofZ ((k - 21) * 2)) (ofZ 288)) eqn:E; [|reflexivity].
          apply ltb_ofZ_iff in E. lia. }
    reflexivity. }
  rewrite Hv. clear Hv. split.
  - split.
    + intros [fields H].
      destruct (Z.leb_spec 0 ((k - 21) * 2)); [|discriminate H].
      destruct (Z.ltb_spec ((k - 21) * 2) 288); [|discriminate H]. lia.
    + intro H.
      replace (0 <=? (k - 21) * 2) with true
        by (symmetry; apply Z.leb_le; lia).
      replace ((k - 21) * 2 <? 288) with true
        by (symmetry; apply Z.ltb_lt; lia).
      cbn [andb].
      destruct ((Z.land (toInt32N status) 240 =? 144) && gtb velocity (ofZ 0));
        [|eexists; reflexivity].
      destruct (if rainbow then _ else _) as [[r g] b]. eexists. reflexivity.
  - intros fields line Hf _ Hl.
    assert (Hshape : exists rest, line = (showInt ((k - 21) * 2)
                                          ++ String "," rest)%string).
    { destruct ((0 <=? (k - 21) * 2) && ((k - 21) * 2 <? 288));
        [|discriminate Hf].
      assert (Hfields : exists r g b br,
                fields = [ofZ ((k - 21) * 2); r; g; b; br]).
      { destruct ((Z.land (toInt32N status) 240 =? 144)
                  && gtb velocity (ofZ 0)).
        - destruct (if rainbow then _ else _) as [[r g] b].
          injection Hf as <-. now eexists _, _, _, _.
        - injection Hf as <-. now eexists _, _, _, _. }
      destruct Hfields as [r [g [b [br ->]]]].
      unfold commandLine in Hl. cbn [List.map] in Hl.
      rewrite showNum_ofZ in Hl.
      destruct (showNum r), (showNum g), (showNum b), (showNum br);
        try discriminate Hl.
      injection Hl as <-. eexists. reflexivity. }
    destruct Hshape as [rest ->].
    destruct (processCommand_index ((k - 21) * 2) rest leds) as [Hdark Hother].
    split.
    + intro H. apply Hdark. left. unfold NUM_LEDS. lia.
    + exact Hother.
Qed.

End Page.
End Strip.

Lemma upper_keys_stay_dark_witness :
  processCommand nat 0%nat (fun _ _ _ _ => 1%nat) "174,0,0,0,0"%string
    (repeat 5%nat 144)
  = repeat 5%nat 144.
Proof.
  apply (proj1 (proj2 (upper_keys_stay_dark nat 0%nat (fun _ _ _ _ => 1%nat)
                         "0"%string "0"%string "100"%string
                         "#000000"%string "#ffffff"%string false
                         (fun _ _ _ => (NaN, NaN, NaN)) 108 0 0
                         (ofZ 128) (ofZ 0) (repeat 5%nat 144)
                         eq_refl eq_refl eq_refl)
                  [ofZ 174; ofZ 0; ofZ 0; ofZ 0; ofZ 0] "174,0,0,0,0"%string
                  eq_refl
                  ltac:(intros z [H | [H | [H | [H | [H | []]]]]];
                        apply (f_equal asInteger) in H;
                        rewrite !asInteger_ofZ in H;
                        injection H as H; unfold inIntRange; lia)
                  eq_refl)).
  lia.
Defined.

End LightFacts.

(* ================================================================== *)
(** * The player after a score is loaded *)
(* ================================================================== *)

Module LoadFacts.
Import JS Bytes Dom Convert Player Loader NumFacts SortFacts PolicyFacts ConvertFacts ConvertClaims PlayerFacts.
Local Open Scope Z_scope.

(** *** The last time of a list in time order *)

Lemma lastTime_cons (a b : MidiEvent) (r : list MidiEvent) :
  lastTime (a :: b :: r) = lastTime (b :: r).
Proof. now rewrite !lastTime_last. Qed.

Lemma inOrder_before_last (evs : list MidiEvent) :
  inOrder evs ->
  Forall (fun e => isNaN (time e) = false) evs ->
  forall e, In e evs -> leb (time e) (lastTime evs) = true.
Proof.
  intros Hs. induction Hs as [|a r Hr IH Hall]; intros Hn e Hin.
  - destruct Hin.
  - inversion Hn as [|? ? Ha Hrn]; subst.
    destruct r as [|b r'].
    + destruct Hin as [<- | []]. now apply leb_refl.
    + rewrite lastTime_cons. destruct Hin as [<- | Hin].
      * destruct (lastTime_in (b :: r') ltac:(discriminate)) as [e' [He' <-]].
        rewrite Forall_forall in Hall. now apply Hall.
      * now apply IH.
Qed.

Lemma lastTime_number (evs : list MidiEvent) :
  Forall (fun e => isNaN (time e) = false) evs ->
  isNaN (lastTime evs) = false.
Proof.
  intro Hn. destruct evs as [|a r]; [reflexivity |].
  destruct (lastTime_in (a :: r) ltac:(discriminate)) as [e [He <-]].
  rewrite Forall_forall in Hn. now apply Hn.
Qed.

(** The events of the merge step carry the times of the notes. *)
Lemma mergeNotes_times (l : list TimedNote) :
  timed l ->
  Forall (fun e => isNaN (time e) = false) (midiEvents (mergeNotes l)).
Proof.
  intro H. unfold mergeNotes. cbn [midiEvents].
  assert (Hk : Forall (fun e => isNaN (time e) = false)
                 (flat_map noteEvents (dedup l))).
  { apply noteEvents_keyed. apply Forall_forall. intros n Hn.
    unfold timed in H. rewrite Forall_forall in H. apply H.
    now apply dedup_in. }
  rewrite Forall_forall in *. intros e He. apply Hk.
  apply (Permutation_in e (sort_perm MidiEvent byTime _)). exact He.
Qed.

Lemma mergeNotes_inOrder (l : list TimedNote) :
  timed l -> inOrder (midiEvents (mergeNotes l)).
Proof.
  intro H. apply nondecreasing_inOrder. apply sorted_map_key.
  unfold mergeNotes. cbn [midiEvents].
  apply (sort_sorted MidiEvent time).
  apply noteEvents_keyed. apply Forall_forall. intros n Hn.
  unfold timed in H. rewrite Forall_forall in H. apply H. now apply dedup_in.
Qed.

(** The globals that hold a merge result are ready. *)
Lemma merge_ready (l : list TimedNote) (g : Globals) :
  timed l ->
  events g = midiEvents (mergeNotes l) ->
  Player.totalDuration (player g) = Convert.totalDuration (mergeNotes l) ->
  ready g.
Proof.
  intros H He Ht. unfold ready. rewrite He, Ht.
  pose proof (mergeNotes_inOrder l H) as Hs.
  pose proof (mergeNotes_times l H) as Hn.
  split; [exact Hs |]. split; [reflexivity |].
  split; [exact (lastTime_number _ Hn) |].
  exact (inOrder_before_last _ Hs Hn).
Qed.

(** X29.  After [parseXMLFile] has loaded a score whose note times are
    numbers, the player holds the events of [convertToMIDI] in time
    order, [totalDuration] is the time of the last of them and no event
    is later, the cursor and the position are reset, the timer for
    [renderOSMD] is set, and, when nothing ran while the file was
    parsed, the player is stopped.  When that timer fires, [renderOSMD]
    either leaves the events and the player as they are or, when the
    conversion of the rendered sheet has events, replaces them by the
    merge of the notes of the sheet and resets the cursor and the
    position, not the playing flag; the events stay in time order with
    [totalDuration] the time of the last of them in both cases,
    whatever the globals have become in the meantime, as long as they
    were in that state. *)
Theorem loaded_score_ready (xml : Fallback.jsstring) (sd : ScoreData)
    (g : Globals) :
  timed (allNotes sd) ->
  (forall resumed,
     exists g' out,
       parseXMLFile (Normal (Extract.Success xml sd)) g resumed
       = (g', out, true)
       /\ events g' = midiEvents (convertToMIDI (Some sd))
       /\ currentXMLString g' = Some xml
       /\ ready g'
       /\ nextEventIndex (player g') = 0
       /\ currentTimeOffset (player g') = ofZ 0
       /\ isPlaying (player g') = isPlaying (player resumed)
       /\ (resumed = fst (clearCurrentFile g) ->
           isPlaying (player g') = false
           /\ learningMode (player g') = learningMode (player g)))
  /\ forall lib called resumed,
       ready called -> ready resumed ->
       (forall sheet, lib = Rendered (Some sheet) ->
          timed (Osmd.osmdNotes sheet)) ->
       ready (timerCallback lib called resumed)
       /\ ((events (timerCallback lib called resumed) = events called
            /\ player (timerCallback lib called resumed) = player called)
           \/ (events (timerCallback lib called resumed) = events resumed
               /\ player (timerCallback lib called resumed) = player resumed)
           \/ exists sheet,
                lib = Rendered (Some sheet)
                /\ events (timerCallback lib called resumed)
                   = midiEvents (mergeNotes (Osmd.osmdNotes sheet))
                /\ events (timerCallback lib called resumed) <> []
                /\ nextEventIndex (player (timerCallback lib called resumed))
                   = 0
                /\ currentTimeOffset (player (timerCallback lib called resumed))
                   = ofZ 0
                /\ isPlaying (player (timerCallback lib called resumed))
                   = isPlaying (player resumed)).
Proof.
  intro H. split.
  - intro resumed. unfold parseXMLFile, clearCurrentFile.
    cbv beta iota zeta.
    do 2 eexists. split; [reflexivity |].
    cbn [events currentXMLString player nextEventIndex currentTimeOffset
         isPlaying learningMode].
    split; [reflexivity |]. split; [reflexivity |].
    split; [|repeat split].
    + apply (merge_ready (allNotes sd)); [exact H | reflexivity | reflexivity].
    + subst resumed. reflexivity.
    + subst resumed. reflexivity.
  - intros lib called resumed Hc Hr Ht.
    unfold timerCallback, renderOSMD.
    destruct (Extract.present (currentXMLString called));
      [|split; [exact Hc | left; split; reflexivity]].
    cbn [negb].
    destruct (isRendering called);
      [split; [exact Hc | left; split; reflexivity] |].
    destruct lib as [|e|[sheet|]].
    + split; [exact Hc | left; split; reflexivity].
    + split; [exact Hr | right; left; split; reflexivity].
    + unfold Osmd.convertOSMDToMIDI. rewrite OsmdFacts.kept_all.
      fold (mergeNotes (Osmd.osmdNotes sheet)).
      destruct (midiEvents (mergeNotes (Osmd.osmdNotes sheet)))
        as [|e0 r0] eqn:E.
      * split; [exact Hr | right; left; split; reflexivity].
      * split.
        -- apply (merge_ready (Osmd.osmdNotes sheet));
             [now apply Ht | reflexivity | reflexivity].
        -- right. right. exists sheet.
           cbn [useConversion events player nextEventIndex currentTimeOffset
                isPlaying].
           rewrite E. repeat split. discriminate.
    + split; [exact Hr | right; left; split; reflexivity].
Qed.

(** Example A loaded over a running player, and the timer fired with
    the sheet of a single C4 of 500 ms. *)
Lemma loaded_score_ready_witness :
  exists g' out,
    parseXMLFile
      (Normal (Extract.Success (Fallback.str "<score-partwise/>") exampleA))
      runningPlayer (fst (clearCurrentFile runningPlayer))
    = (g', out, true)
    /\ List.length (events g') = 4%nat
    /\ Player.totalDuration (player g') = ofZ 1500
    /\ isPlaying (player g') = false
    /\ out = [Hush; Hush]
    /\ events (timerCallback (Rendered (Some Osmd.sampleSheet)) g' g')
       = [ mkMidiEvent (ofZ 0) [ofZ 144; ofZ 60; ofZ 100];
           mkMidiEvent (ofZ 500) [ofZ 128; ofZ 60; ofZ 0] ].
Proof.
  destruct (proj1 (loaded_score_ready (Fallback.str "<score-partwise/>")
                     exampleA runningPlayer
                     ltac:(vm_compute; repeat constructor))
              (fst (clearCurrentFile runningPlayer)))
    as [g' [out [H _]]].
  exists g', out. split; [exact H |].
  vm_compute in H. injection H as <- <-.
  repeat split.
Defined.

End LoadFacts.
